(** * Application of a constraint-system solution to an expression

  A shallow embedding of [lib/Sema/TypeCheckConstraintsApply.cpp]: the
  coercion engine ([coerceToType] and the tuple, scalar, existential and
  user-conversion coercers), caller-side default arguments, the literal
  converter, the protocol-call adapters, the checked-cast rewrites, the
  tracker of partially applied value-type methods and the traversal
  driver.

  Conventions.
  - A C++ [Expr *] that may be null is an [option Expr]; [None] is
    [nullptr].
  - [assert], [llvm_unreachable], a failed [cast<>]/[castTo<>], an array
    index out of range and a null dereference all stop the run: [Abort].
    Assertions are modelled as checked.
  - Functions whose recursion is not structural take fuel and answer
    [OutOfFuel] when it is used up.
  - The type checker, the AST library and the solver are collaborators that
    live outside this file of the source; they are passed in as records of
    functions. *)

From Stdlib Require Import ZArith Lia String List Bool.
From stdpp Require Import base decidable option list gmap strings.

Import ListNotations.
Local Open Scope Z_scope.
Local Open Scope string_scope.
Local Open Scope list_scope.

(** ** Results of a run *)

Inductive Res (A : Type) : Type :=
| Ok (a : A)
| Abort
| OutOfFuel.
Arguments Ok {A} a.
Arguments Abort {A}.
Arguments OutOfFuel {A}.

(** State-and-failure monad: the state holds what the run mutates
    (diagnostics sink, rewriter fields). *)
Definition M (S A : Type) : Type := S -> Res (A * S).

Definition ret {S A} (a : A) : M S A := fun s => Ok (a, s).
Definition bind {S A B} (m : M S A) (k : A -> M S B) : M S B :=
  fun s => match m s with
           | Ok (a, s') => k a s'
           | Abort => Abort
           | OutOfFuel => OutOfFuel
           end.
Definition abort {S A} : M S A := fun _ => Abort.
Definition outOfFuel {S A} : M S A := fun _ => OutOfFuel.
Definition get {S} : M S S := fun s => Ok (s, s).
Definition put {S} (s : S) : M S unit := fun _ => Ok (tt, s).
Definition modify {S} (f : S -> S) : M S unit := fun s => Ok (tt, f s).
(** [assert(c)] *)
Definition assert {S} (c : bool) : M S unit := if c then ret tt else abort.
(** A pure computation that may abort, run inside the monad. *)
Definition liftRes {S A} (r : Res A) : M S A :=
  fun s => match r with Ok a => Ok (a, s) | Abort => Abort | OutOfFuel => OutOfFuel end.

Declare Scope monad_scope.
Delimit Scope monad_scope with monad.
Notation "'let*' x ':=' c1 'in' c2" := (bind c1 (fun x => c2))
  (at level 10, x pattern, c1 at level 100, c2 at level 200) : monad_scope.
Notation "'do*' c1 'in' c2" := (bind c1 (fun _ => c2))
  (at level 10, c1 at level 100, c2 at level 200) : monad_scope.
Local Open Scope monad_scope.

(** ** Identifiers, locations, declarations *)

Definition Identifier := string.
Definition SourceLoc := nat.
(** [SourceLoc()], the invalid location *)
Definition noLoc : SourceLoc := 0%nat.
(** Declarations are arena objects of the AST library; they are named by
    their address. *)
Definition ValueDecl := nat.
Definition ProtocolDecl := nat.
Definition ProtocolConformance := nat.

Module DefaultArgumentKind.
Inductive t := None | Normal | File | Line | Column.
Definition eqb (a b : t) : bool :=
  match a, b with
  | None, None | Normal, Normal | File, File | Line, Line | Column, Column => true
  | _, _ => false
  end.
End DefaultArgumentKind.

(** Nominal type declarations; [Optional] and [Slice] are the two the
    rewriter asks the AST context for. *)
Inductive NominalTypeDecl :=
| OptionalDecl
| SliceDecl
| UserDecl (id : nat).

(** ** The type IR *)

(** [Ty] is the handle class [Type]: [NullType] is the null handle
    ([Type()]). [ArraySliceType], [OptionalType] and [SubstitutedType] are
    sugar. *)
#[warnings="-register-all"]
Inductive Ty : Type :=
| NullType
| TypeVariableType (id : nat)
| BuiltinIntegerType (width : nat)
| BuiltinFloatType (width : nat)
| BuiltinRawPointerType
| TupleType (fields : list TupleTypeElt)
| FunctionType (input result : Ty) (autoClosure block : bool)
| PolymorphicFunctionType (genericParams : list nat) (input result : Ty)
| LValueType (object : Ty) (quals : N)
| MetaTypeType (instance : Ty)
| NominalType (decl : NominalTypeDecl)
| BoundGenericType (decl : NominalTypeDecl) (args : list Ty)
| ArchetypeType (id : nat) (superclass : Ty)
| ProtocolType (decl : ProtocolDecl)
| ProtocolCompositionType (protocols : list ProtocolDecl)
| ArraySliceType (base : Ty)
| OptionalType (value : Ty)
| SubstitutedType (original replacement : Ty)
with TupleTypeElt : Type :=
| mkTupleTypeElt (eltTy : Ty) (name : Identifier)
                 (defaultArg : DefaultArgumentKind.t) (vararg : bool).

Definition getType_elt (e : TupleTypeElt) : Ty :=
  match e with mkTupleTypeElt t _ _ _ => t end.
Definition getName (e : TupleTypeElt) : Identifier :=
  match e with mkTupleTypeElt _ n _ _ => n end.
Definition getDefaultArgKind (e : TupleTypeElt) : DefaultArgumentKind.t :=
  match e with mkTupleTypeElt _ _ d _ => d end.
Definition isVararg (e : TupleTypeElt) : bool :=
  match e with mkTupleTypeElt _ _ _ v => v end.
Definition hasInit (e : TupleTypeElt) : bool :=
  negb (DefaultArgumentKind.eqb (getDefaultArgKind e) DefaultArgumentKind.None).
(** A default-constructed [TupleTypeElt()]. *)
Definition TupleTypeElt_default : TupleTypeElt :=
  mkTupleTypeElt NullType EmptyString DefaultArgumentKind.None false.

(** Decidable equality of types. *)
Lemma DefaultArgumentKind_eq_dec (a b : DefaultArgumentKind.t) : {a = b} + {a <> b}.
Proof. decide equality. Defined.

Lemma NominalTypeDecl_eq_dec (a b : NominalTypeDecl) : {a = b} + {a <> b}.
Proof. decide equality. apply Nat.eq_dec. Defined.

Fixpoint Ty_eq_dec (a b : Ty) {struct a} : {a = b} + {a <> b}
with TupleTypeElt_eq_dec (a b : TupleTypeElt) {struct a} : {a = b} + {a <> b}.
Proof.
  - decide equality;
      try apply Nat.eq_dec; try apply Bool.bool_dec; try apply N.eq_dec;
      try apply NominalTypeDecl_eq_dec;
      try (apply List.list_eq_dec; first [apply Nat.eq_dec | assumption]).
  - decide equality;
      try apply Bool.bool_dec; try apply DefaultArgumentKind_eq_dec;
      try apply String.string_dec.
Defined.

#[global] Instance NominalTypeDecl_eqdec : EqDecision NominalTypeDecl :=
  NominalTypeDecl_eq_dec.
#[global] Instance Ty_eqdec : EqDecision Ty := Ty_eq_dec.
#[global] Instance TupleTypeElt_eqdec : EqDecision TupleTypeElt := TupleTypeElt_eq_dec.

(** [getCanonicalType]: sugar is removed everywhere. *)
Fixpoint getCanonicalType (t : Ty) : Ty :=
  match t with
  | TupleType fs => TupleType (map canonElt fs)
  | FunctionType i r a b => FunctionType (getCanonicalType i) (getCanonicalType r) a b
  | PolymorphicFunctionType gp i r =>
      PolymorphicFunctionType gp (getCanonicalType i) (getCanonicalType r)
  | LValueType o q => LValueType (getCanonicalType o) q
  | MetaTypeType i => MetaTypeType (getCanonicalType i)
  | BoundGenericType d args => BoundGenericType d (map getCanonicalType args)
  | ArraySliceType b => BoundGenericType SliceDecl [getCanonicalType b]
  | OptionalType v => BoundGenericType OptionalDecl [getCanonicalType v]
  | SubstitutedType _ r => getCanonicalType r
  | _ => t
  end
with canonElt (e : TupleTypeElt) : TupleTypeElt :=
  match e with
  | mkTupleTypeElt t n d v => mkTupleTypeElt (getCanonicalType t) n d v
  end.

(** [a->isEqual(b)]: equality of canonical types. *)
Definition isEqual (a b : Ty) : bool :=
  bool_decide (getCanonicalType a = getCanonicalType b).

(** One step of desugaring, as [getAs<>] and [is<>] perform it. *)
Fixpoint getDesugaredType (t : Ty) : Ty :=
  match t with
  | ArraySliceType b => BoundGenericType SliceDecl [b]
  | OptionalType v => BoundGenericType OptionalDecl [v]
  | SubstitutedType _ r => getDesugaredType r
  | _ => t
  end.

(** [getAs<X>] for the type classes the rewriter asks about. *)
Definition getAsTupleType (t : Ty) : option (list TupleTypeElt) :=
  match getDesugaredType t with TupleType fs => Some fs | _ => None end.
Definition getAsLValueType (t : Ty) : option (Ty * N) :=
  match getDesugaredType t with LValueType o q => Some (o, q) | _ => None end.
Definition getAsFunctionType (t : Ty) : option (Ty * Ty * bool * bool) :=
  match getDesugaredType t with
  | FunctionType i r a b => Some (i, r, a, b)
  | _ => None
  end.
Definition getAsAnyFunctionType (t : Ty) : option (Ty * Ty) :=
  match getDesugaredType t with
  | FunctionType i r _ _ => Some (i, r)
  | PolymorphicFunctionType _ i r => Some (i, r)
  | _ => None
  end.
Definition getAsBoundGenericType (t : Ty) : option (NominalTypeDecl * list Ty) :=
  match getDesugaredType t with BoundGenericType d a => Some (d, a) | _ => None end.
Definition getAsMetaTypeType (t : Ty) : option Ty :=
  match getDesugaredType t with MetaTypeType i => Some i | _ => None end.
Definition getAsArchetypeType (t : Ty) : option (nat * Ty) :=
  match getDesugaredType t with ArchetypeType i s => Some (i, s) | _ => None end.
Definition getAsBuiltinIntegerType (t : Ty) : option nat :=
  match getDesugaredType t with BuiltinIntegerType w => Some w | _ => None end.

Definition isBuiltinIntegerType (t : Ty) (n : nat) : bool :=
  match getAsBuiltinIntegerType t with Some w => Nat.eqb w n | None => false end.

(** [isExistentialType(protocols)] *)
Definition isExistentialType (t : Ty) : option (list ProtocolDecl) :=
  match getDesugaredType t with
  | ProtocolType p => Some [p]
  | ProtocolCompositionType ps => Some ps
  | _ => None
  end.

Definition getRValueType (t : Ty) : Ty :=
  match getAsLValueType t with Some (o, _) => o | None => t end.

Definition isNull (t : Ty) : bool :=
  match t with NullType => true | _ => false end.

(** [TupleTypeElt::getVarargBaseTy] *)
Definition getVarargBaseTy (e : TupleTypeElt) : Res Ty :=
  match getType_elt e with
  | ArraySliceType b => Ok b
  | BoundGenericType _ (b :: _) => Ok b
  | _ => Abort
  end.

(** ** Expressions *)

Inductive CheckedCastKind :=
| Unresolved | InvalidCoercible | Downcast | SuperToArchetype
| ArchetypeToArchetype | ArchetypeToConcrete
| ExistentialToArchetype | ExistentialToConcrete.

Inductive MagicIdentifierKind := MagicFile | MagicLine | MagicColumn.

Inductive LiteralKind :=
| IntegerLiteral | FloatLiteral | CharacterLiteral | StringLiteral.

(** Subclasses of [ImplicitConversionExpr] that carry nothing but the
    sub-expression and the type converted to. *)
Inductive ConversionKind :=
| Load | Materialize | Requalify | FunctionConversion | MetatypeConversion
| DerivedToBase | ArchetypeToSuper | BridgeToBlock | InjectIntoOptional.

Inductive ApplyKind :=
| Call | PrefixUnary | PostfixUnary | Binary
| DotSyntaxCall | ConstructorRefCall.

Definition isSelfApply (k : ApplyKind) : bool :=
  match k with DotSyntaxCall | ConstructorRefCall => true | _ => false end.

Inductive CastExprKind := Isa | ConditionalCheckedCast.

(** An element of a [ScalarToTupleExpr]: the scalar itself (null entry), a
    caller-side default argument, or the owner of the default argument. *)
Inductive ScalarToTupleElement (E : Type) :=
| ScalarField
| CallerDefault (e : E)
| DefaultOwner (owner : ValueDecl).
Arguments ScalarField {E}.
Arguments CallerDefault {E} e.
Arguments DefaultOwner {E} owner.

#[warnings="-register-all"]
Inductive Expr : Type :=
| ErrorExpr (ty : Ty)
| LiteralExpr (kind : LiteralKind) (loc : SourceLoc) (ty : Ty)
| MagicIdentifierLiteralExpr (kind : MagicIdentifierKind) (loc : SourceLoc)
                             (implicit : bool) (ty : Ty)
| DeclRefExpr (decl : ValueDecl) (loc : SourceLoc) (implicit : bool) (ty : Ty)
| UnresolvedDeclRefExpr (name : Identifier) (loc : SourceLoc) (ty : Ty)
| SuperRefExpr (loc : SourceLoc) (ty : Ty)
| DiscardAssignmentExpr (loc : SourceLoc) (ty : Ty)
| ParenExpr (sub : Expr) (ty : Ty)
| TupleExpr (elts : list Expr) (implicit : bool) (ty : Ty)
| MetatypeExpr (base : option Expr) (hasTypeRepr : bool) (loc : SourceLoc) (ty : Ty)
| ApplyExpr (kind : ApplyKind) (fn : option Expr) (arg : Expr)
            (implicit isSuper : bool) (ty : Ty)
| ImplicitConversionExpr (kind : ConversionKind) (sub : option Expr) (ty : Ty)
| ErasureExpr (sub : Expr) (ty : Ty) (conformances : list (option ProtocolConformance))
| TupleShuffleExpr (sub : Expr) (mapping : list Z)
                   (defaultArgsOwner : option ValueDecl)
                   (callerDefaultArgs : list Expr) (ty : Ty)
                   (injectionFn : option Expr)
| ScalarToTupleExpr (sub : Expr) (ty : Ty)
                    (elements : list (ScalarToTupleElement Expr))
                    (injectionFn : option Expr)
| AutoClosureExpr (body : Expr) (ty : Ty)
| ClosureExpr (singleExpressionBody : option Expr) (ty : Ty)
| CheckedCastExpr (kind : CastExprKind) (sub : Expr) (loc : SourceLoc)
                  (castTy : Ty) (castKind : CheckedCastKind)
                  (implicit : bool) (ty : Ty)
| AssignExpr (dest src : Expr) (loc : SourceLoc) (ty : Ty)
| IfExpr (cond thenExpr elseExpr : Expr) (ty : Ty)
| NewArrayExpr (loc : SourceLoc) (ty : Ty)
| DefaultValueExpr (sub : Expr) (ty : Ty)
| SpecializeExpr (sub : Expr) (ty : Ty)
| OtherExpr (tag : nat) (children : list Expr) (loc : SourceLoc) (ty : Ty).

Definition LoadExpr (e : Expr) (ty : Ty) := ImplicitConversionExpr Load (Some e) ty.
Definition MaterializeExpr (e : Expr) (ty : Ty) := ImplicitConversionExpr Materialize (Some e) ty.
Definition RequalifyExpr (e : Expr) (ty : Ty) := ImplicitConversionExpr Requalify (Some e) ty.
Definition FunctionConversionExpr (e : Expr) (ty : Ty) :=
  ImplicitConversionExpr FunctionConversion (Some e) ty.
Definition MetatypeConversionExpr (e : Expr) (ty : Ty) :=
  ImplicitConversionExpr MetatypeConversion (Some e) ty.
Definition DerivedToBaseExpr (e : Expr) (ty : Ty) :=
  ImplicitConversionExpr DerivedToBase (Some e) ty.
Definition ArchetypeToSuperExpr (e : Expr) (ty : Ty) :=
  ImplicitConversionExpr ArchetypeToSuper (Some e) ty.
Definition BridgeToBlockExpr (e : option Expr) (ty : Ty) :=
  ImplicitConversionExpr BridgeToBlock e ty.
Definition InjectIntoOptionalExpr (e : option Expr) (ty : Ty) :=
  ImplicitConversionExpr InjectIntoOptional e ty.

(** [expr->getType()] *)
Definition getType (e : Expr) : Ty :=
  match e with
  | ErrorExpr ty | LiteralExpr _ _ ty | MagicIdentifierLiteralExpr _ _ _ ty
  | DeclRefExpr _ _ _ ty | UnresolvedDeclRefExpr _ _ ty
  | SuperRefExpr _ ty | DiscardAssignmentExpr _ ty
  | ParenExpr _ ty | TupleExpr _ _ ty | MetatypeExpr _ _ _ ty
  | ApplyExpr _ _ _ _ _ ty | ImplicitConversionExpr _ _ ty
  | ErasureExpr _ ty _ | TupleShuffleExpr _ _ _ _ ty _
  | ScalarToTupleExpr _ ty _ _ | AutoClosureExpr _ ty | ClosureExpr _ ty
  | CheckedCastExpr _ _ _ _ _ _ ty | AssignExpr _ _ _ ty | IfExpr _ _ _ ty
  | NewArrayExpr _ ty | DefaultValueExpr _ ty | SpecializeExpr _ ty
  | OtherExpr _ _ _ ty => ty
  end.

(** [expr->setType(ty)] *)
Definition setType (e : Expr) (ty : Ty) : Expr :=
  match e with
  | ErrorExpr _ => ErrorExpr ty
  | LiteralExpr k l _ => LiteralExpr k l ty
  | MagicIdentifierLiteralExpr k l i _ => MagicIdentifierLiteralExpr k l i ty
  | DeclRefExpr d l i _ => DeclRefExpr d l i ty
  | UnresolvedDeclRefExpr n l _ => UnresolvedDeclRefExpr n l ty
  | SuperRefExpr l _ => SuperRefExpr l ty
  | DiscardAssignmentExpr l _ => DiscardAssignmentExpr l ty
  | ParenExpr s _ => ParenExpr s ty
  | TupleExpr es i _ => TupleExpr es i ty
  | MetatypeExpr b r l _ => MetatypeExpr b r l ty
  | ApplyExpr k f a i s _ => ApplyExpr k f a i s ty
  | ImplicitConversionExpr k s _ => ImplicitConversionExpr k s ty
  | ErasureExpr s _ c => ErasureExpr s ty c
  | TupleShuffleExpr s m o c _ f => TupleShuffleExpr s m o c ty f
  | ScalarToTupleExpr s _ es f => ScalarToTupleExpr s ty es f
  | AutoClosureExpr b _ => AutoClosureExpr b ty
  | ClosureExpr b _ => ClosureExpr b ty
  | CheckedCastExpr k s l c ck i _ => CheckedCastExpr k s l c ck i ty
  | AssignExpr d s l _ => AssignExpr d s l ty
  | IfExpr c t e _ => IfExpr c t e ty
  | NewArrayExpr l _ => NewArrayExpr l ty
  | DefaultValueExpr s _ => DefaultValueExpr s ty
  | SpecializeExpr s _ => SpecializeExpr s ty
  | OtherExpr t c l _ => OtherExpr t c l ty
  end.

Lemma getType_setType e ty : getType (setType e ty) = ty.
Proof. destruct e; reflexivity. Qed.

(** The tuple expression under the parentheses of [expr], if there is one:
    [while (auto paren = dyn_cast<ParenExpr>(innerExpr)) innerExpr = paren->getSubExpr();
     dyn_cast<TupleExpr>(innerExpr)]. *)
Fixpoint innerTupleExpr (e : Expr) : option (list Expr) :=
  match e with
  | ParenExpr s _ => innerTupleExpr s
  | TupleExpr es _ _ => Some es
  | _ => None
  end.

(** [fromTupleExpr->setElement(i, x)], seen from [expr]: the tuple
    expression is the one found by [innerTupleExpr]. *)
Fixpoint setElement (e : Expr) (i : nat) (x : Expr) : Expr :=
  match e with
  | ParenExpr s ty => ParenExpr (setElement s i x) ty
  | TupleExpr es im ty => TupleExpr (<[i:=x]> es) im ty
  | _ => e
  end.

(** [fromTupleExpr->setType(ty)] followed by [paren->setType(ty)] for every
    parenthesis from [expr] down to the tuple expression. *)
Fixpoint setTupleTypes (e : Expr) (ty : Ty) : Expr :=
  match e with
  | ParenExpr s _ => ParenExpr (setTupleTypes s ty) ty
  | TupleExpr es im _ => TupleExpr es im ty
  | _ => e
  end.

(** An expression is well typed at its tuple literals when every
    parenthesis has the type of what it encloses and every tuple
    expression has a tuple type whose fields are the types of its elements. *)
Fixpoint wellTyped (e : Expr) : bool :=
  match e with
  | ParenExpr s ty => isEqual ty (getType s) && wellTyped s
  | TupleExpr es _ ty =>
      match getAsTupleType ty with
      | Some fs =>
          forallb (fun p => isEqual (getType (fst p)) (getType_elt (snd p)))
                  (combine es fs)
          && forallb wellTyped es
      | None => false
      end
  | _ => true
  end.

(** ** Locators, overload choices, solutions *)

Module ConstraintLocator.
Inductive PathElementKind :=
  | ApplyArgument | ApplyFunction | MemberRefBase | Member
  | ConstructorMember | ConversionMember | SubscriptMember | SubscriptIndex
  | TupleElement (i : Z) | ScalarToTuple | InterpolationArgument (i : nat)
  | IfThen | IfElse | ClosureResult | Load | NewArrayElement | AssignSource
  | UnresolvedMember.
End ConstraintLocator.
Definition LocatorPathElt := ConstraintLocator.PathElementKind.

(** A locator: an anchor expression and a path.  A
    [ConstraintLocatorBuilder] is a locator with path elements still to be
    appended, so the two are one type here. *)
Record ConstraintLocatorBuilder := mkLocator {
  getAnchor : option Expr;
  getPath : list LocatorPathElt
}.
Definition withPathElement (l : ConstraintLocatorBuilder) (e : LocatorPathElt) :=
  mkLocator (getAnchor l) (getPath l ++ [e]).
(** [cs.getConstraintLocator(expr, { })] and the builder made from
    [nullptr]. *)
Definition getConstraintLocator (anchor : Expr) (p : list LocatorPathElt) :=
  mkLocator (Some anchor) p.
Definition nullLocator := mkLocator None [].

Inductive OverloadChoice :=
| Decl (d : ValueDecl)
| DeclViaDynamic (d : ValueDecl)
| TupleIndex (i : nat)
| BaseType
| FunctionReturningBaseType
| IdentityFunction
| TypeDecl (d : ValueDecl).

(** [choice.getDecl()] asserts that the choice holds a declaration. *)
Definition getDecl (c : OverloadChoice) : Res ValueDecl :=
  match c with
  | Decl d | DeclViaDynamic d | TypeDecl d => Ok d
  | _ => Abort
  end.

Inductive ConversionRestrictionKind :=
| TupleToTuple | ScalarToTuple | Superclass | Existential | ValueToOptional | User.

Record Solution := {
  typeBindings : nat -> option Ty;
  overloadChoices : ConstraintLocatorBuilder -> option (OverloadChoice * Ty);
  (** keyed by a pair of canonical types *)
  constraintRestrictions : Ty -> Ty -> option ConversionRestrictionKind
}.

(** ** Diagnostics *)

Module diag.
Inductive ID :=
  | tuple_conversion_not_expressible (fromTy toTy : Ty)
  | while_converting_function_argument (ty : Ty)
  | downcast_to_supertype (fromTy toTy : Ty)
  | isa_is_always_true (fromTy toTy : Ty)
  | discard_expr_outside_of_assignment
  | partial_application_of_value_type_method
  | broken_protocol (name : string).
End diag.
Record Diagnostic := diagnostic { diagLoc : SourceLoc; diagID : diag.ID }.

(** The state of the type checker that this file writes: the diagnostics
    emitted so far, latest first. *)
Definition Diags := list Diagnostic.
Definition TC := M Diags.
Definition diagnose (loc : SourceLoc) (d : diag.ID) : TC unit :=
  modify (fun ds => diagnostic loc d :: ds).

Inductive KnownProtocolKind :=
| LogicValue | ArrayBound
| IntegerLiteralConvertible | BuiltinIntegerLiteralConvertible
| FloatLiteralConvertible | BuiltinFloatLiteralConvertible
| CharacterLiteralConvertible | BuiltinCharacterLiteralConvertible
| StringLiteralConvertible | BuiltinStringLiteralConvertible.

(** ** Collaborators of the rewriter

  Everything in this record is defined outside the source file: the type
  checker proper, the AST library and the helpers of the constraint
  system. *)
Record TypeChecker := {
  getLoc : Expr -> SourceLoc;
  getStartLoc : Expr -> SourceLoc;
  getEndLoc : Expr -> SourceLoc;
  (** [computeTupleShuffle]: [None] when it reports failure, otherwise the
      sources and the variadic arguments *)
  computeTupleShuffle :
    list TupleTypeElt -> list TupleTypeElt -> bool -> option (list Z * list nat);
  hasMandatoryTupleLabels : Expr -> bool;
  (** [TupleType::getFieldForScalarInit], [-1] when there is none *)
  getFieldForScalarInit : list TupleTypeElt -> Z;
  (** [NullType] at the top of the hierarchy *)
  getSuperClassOf : Ty -> Ty;
  mayHaveSuperclass : Ty -> bool;
  getClassOrBoundGenericClass : Ty -> bool;
  getNominalOrBoundGenericNominal : Ty -> bool;
  hasReferenceSemantics : Ty -> bool;
  isSubtypeOf : Ty -> Ty -> bool;
  (** [None]: does not conform; [Some c]: conforms, with conformance [c]
      (null for an archetype) *)
  conformsToProtocol : Ty -> ProtocolDecl -> option (option ProtocolConformance);
  buildArrayInjectionFnRef : Ty -> Ty -> SourceLoc -> TC (option Expr);
  (** [typeCheckExpression(expr, dc, convertType, discarded)]: the flag is
      true on failure; the expression is the by-reference argument after the
      call *)
  typeCheckExpression : Expr -> Ty -> bool -> TC (bool * Expr);
  coerceToRValue : Expr -> TC (option Expr);
  simplifyLocator : ConstraintLocatorBuilder -> ConstraintLocatorBuilder;
  resolveLocatorToDecl :
    ConstraintLocatorBuilder ->
    (ConstraintLocatorBuilder -> option OverloadChoice) -> option ValueDecl;
  isAbstractFunctionDecl : ValueDecl -> bool;
  (** [owner->getDefaultArg(index)] *)
  getDefaultArg : ValueDecl -> nat -> DefaultArgumentKind.t * Ty;
  (** declarations and protocols *)
  isFuncDecl : ValueDecl -> bool;
  getDeclName : ValueDecl -> Identifier;
  isInvalid : ValueDecl -> bool;
  getDeclType : ValueDecl -> Ty;
  getMembers : ProtocolDecl -> list ValueDecl;
  getProtocolLoc : ProtocolDecl -> SourceLoc;
  getProtocol : SourceLoc -> KnownProtocolKind -> ProtocolDecl;
  (** [conformance->getWitness(requirement).getDecl()] *)
  getWitness : ProtocolConformance -> ValueDecl -> ValueDecl;
  (** [getWitnessType]: the null type, after a diagnostic, when the
      protocol is broken *)
  getWitnessType :
    Ty -> ProtocolDecl -> option ProtocolConformance -> Identifier -> diag.ID -> TC Ty;
  (** [lookupMember(type, name, dc)] *)
  lookupMember : Ty -> Identifier -> list ValueDecl;
  (** [cs.getTypeOfMemberReference(baseTy, decl, false, false)] *)
  getTypeOfMemberReference : Ty -> ValueDecl -> Ty;
  (** a fresh constraint system holding one conversion constraint, solved:
      [None] when [solve] reports failure, otherwise the first solution *)
  solveConversion : Ty -> Ty -> ConstraintLocatorBuilder -> option Solution;
  (** [typeCheckCheckedCast(fromType, toType, ...)] *)
  typeCheckCheckedCast : Ty -> Ty -> TC CheckedCastKind;
  (** [getOptionalType(loc, type)]: the null type when [Optional] is missing *)
  getOptionalType : SourceLoc -> Ty -> TC Ty;
  (** [solution.simplifyType(tc, type)] *)
  simplifyType : Solution -> Ty -> Ty;
  (** [cs.computeAssignDestType(dest, loc)]: the null type on failure *)
  computeAssignDestType : Expr -> SourceLoc -> TC Ty;
  (** closures: coercion of the parameter pattern (true on failure) and
      checking of a body that is not a single expression *)
  coercePatternToType : Expr -> Ty -> TC bool;
  typeCheckClosureBody : Expr -> TC Expr
}.

(** The sentinels of [TupleShuffleExpr] (declared in the AST headers). *)
Module TupleShuffleExpr_.
Definition DefaultInitialize : Z := -1.
Definition FirstVariadic : Z := -2.
Definition CallerDefaultInitialize : Z := -3.
End TupleShuffleExpr_.
Import TupleShuffleExpr_.

(** [xs[i]] on an [ArrayRef] or [SmallVector] indexed by an [int] or
    [unsigned]: the index is asserted to be in range. *)
Definition at_ {S A} (xs : list A) (i : Z) : M S A :=
  if (i <? 0)%Z then abort
  else match xs !! Z.to_nat i with Some x => ret x | None => abort end.

(** [(unsigned)x] for an [int] [x]. *)
Definition toUnsigned (x : Z) : Z := x mod 2 ^ 32.

Fixpoint mapM {S A B} (f : A -> M S B) (xs : list A) : M S (list B) :=
  match xs with
  | [] => ret []
  | x :: xs' => let* y := f x in let* ys := mapM f xs' in ret (y :: ys)
  end.

(** ** The expression rewriter: coercions *)

Section ExprRewriter.
  Context (tc : TypeChecker) (solution : Solution).

(** The member-reference builder and the application finisher.  Their
    results are only handed on by the functions of this section. *)
Variable buildMemberRef :
  Expr -> SourceLoc -> ValueDecl -> SourceLoc -> Ty ->
  ConstraintLocatorBuilder -> bool -> TC (option Expr).
Variable finishApply :
  Expr -> Ty -> ConstraintLocatorBuilder -> TC (option Expr).

(** *** Caller-side default arguments *)

Definition findDefaultArgsOwner (locator : ConstraintLocatorBuilder)
  : TC (option ValueDecl) :=
  match getPath locator, getAnchor locator with
  | [], _ | _, None => ret None
  | path, Some anchor =>
      let* next :=
        match last path with
        | Some ConstraintLocator.ApplyArgument =>
            let newPath := removelast path in
            match newPath with
            | [ConstraintLocator.InterpolationArgument _] =>
                let locator :=
                  mkLocator (Some anchor)
                            (newPath ++ [ConstraintLocator.ConstructorMember]) in
                match overloadChoices solution locator with
                | Some (Decl d, _) =>
                    do* assert (isAbstractFunctionDecl tc d) in
                    ret (inl (Some d))
                | _ => ret (inl None)
                end
            | _ =>
                ret (inr (mkLocator (Some anchor)
                            (newPath ++ [ConstraintLocator.ApplyFunction])))
            end
        | _ => ret (inr locator)
        end in
      match next with
      | inl result => ret result
      | inr locator =>
          let locator := simplifyLocator tc locator in
          match getAnchor locator, getPath locator with
          | Some _, [] =>
              match resolveLocatorToDecl tc locator
                      (fun l => fst <$> overloadChoices solution l) with
              | Some d =>
                  do* assert (isAbstractFunctionDecl tc d) in ret (Some d)
              | None => ret None
              end
          | _, _ => ret None
          end
      end
  end.

Definition magicKindOf (k : DefaultArgumentKind.t) : option MagicIdentifierKind :=
  match k with
  | DefaultArgumentKind.Column => Some MagicColumn
  | DefaultArgumentKind.File => Some MagicFile
  | DefaultArgumentKind.Line => Some MagicLine
  | _ => None
  end.

Definition getCallerDefaultArg (loc : SourceLoc) (owner : ValueDecl)
           (index : nat) : TC (option Expr) :=
  let defArg := getDefaultArg tc owner index in
  match defArg.1 with
  | DefaultArgumentKind.None => abort
  | DefaultArgumentKind.Normal => ret None
  | k =>
      match magicKindOf k with
      | None => abort
      | Some magicKind =>
          let init := MagicIdentifierLiteralExpr magicKind loc true NullType in
          let* r := typeCheckExpression tc init defArg.2 false in
          let invalid := r.1 in
          do* assert (negb invalid) in
          ret (Some r.2)
      end
  end.

(** [if (!defaultArgsOwner) { owner = find...; assert(owner); }
     else assert(find... == owner);] *)
Definition digOutDefaultArgsOwner (locator : ConstraintLocatorBuilder)
           (owner : option ValueDecl) : TC ValueDecl :=
  let* found := findDefaultArgsOwner locator in
  match owner with
  | None => match found with Some o => ret o | None => abort end
  | Some o => do* assert (bool_decide (found = Some o)) in ret o
  end.

(** *** Tuple to tuple *)

(** The local variables of [coerceTupleToTuple]; [curExpr] is [expr]
    with the elements of its tuple expression as rewritten so far. *)
Record ShuffleState := mkShuffleState {
    curExpr : Expr;
    sources : list Z;
    hasVarArg : bool;
    anythingShuffled : bool;
    hasInits : bool;
    toSugarFields : list TupleTypeElt;
    fromTupleExprFields : list TupleTypeElt;
    callerDefaultArgs : list Expr;
    defaultArgsOwner : option ValueDecl
  }.

Section WithCoerceToType.
  (** [coerceToType], as the coercers of sub-expressions call it. *)
  Variable coerceToType_ :
    Expr -> Ty -> ConstraintLocatorBuilder -> TC (option Expr).

(** One iteration of the loop over the destination fields. *)
Definition coerceTupleField (fromTuple toTuple : list TupleTypeElt)
             (locator : ConstraintLocatorBuilder) (n i : nat)
             (toElt : TupleTypeElt) (st : ShuffleState)
    : TC (option ShuffleState) :=
    let 'mkShuffleState expr srcs hva shuf inits sugar fromFields cda owner := st in
    let toEltType := getType_elt toElt in
    let* src := at_ srcs (Z.of_nat i) in
    if (src =? DefaultInitialize)%Z then
      let* owner' := digOutDefaultArgsOwner locator owner in
      let* defArg := getCallerDefaultArg (getLoc tc expr) owner' i in
      match defArg with
      | Some d =>
          ret (Some (mkShuffleState expr (<[i:=CallerDefaultInitialize]> srcs)
                       hva true true (sugar ++ [toElt]) fromFields
                       (cda ++ [d]) (Some owner')))
      | None =>
          ret (Some (mkShuffleState expr srcs hva true true (sugar ++ [toElt])
                       fromFields cda (Some owner')))
      end
    else if (src =? FirstVariadic)%Z then
      do* assert (bool_decide (i = (n - 1)%nat)) in
      ret (Some (mkShuffleState expr srcs true true inits (sugar ++ [toElt])
                   fromFields cda owner))
    else
      let shuf := shuf || negb (toUnsigned src =? Z.of_nat i)%Z in
      let* fromElt := at_ fromTuple src in
      let fromEltType := getType_elt fromElt in
      let j := Z.to_nat src in
      if isEqual fromEltType toEltType then
        let* fromEltType :=
          match innerTupleExpr expr with
          | Some elts => let* e := at_ elts src in ret (getType e)
          | None => ret fromEltType
          end in
        ret (Some (mkShuffleState expr srcs hva shuf (inits || hasInit toElt)
                     (sugar ++ [mkTupleTypeElt fromEltType (getName toElt)
                                  (getDefaultArgKind toElt) (isVararg toElt)])
                     (<[j:=fromElt]> fromFields) cda owner))
      else
        match innerTupleExpr expr with
        | None =>
            do* diagnose (getLoc tc expr)
                  (diag.tuple_conversion_not_expressible
                     (TupleType fromTuple) (TupleType toTuple)) in
            ret None
        | Some elts =>
            let* elt := at_ elts src in
            let* converted :=
              coerceToType_ elt toEltType
                (withPathElement locator (ConstraintLocator.TupleElement src)) in
            match converted with
            | None => ret None
            | Some convertedElt =>
                ret (Some (mkShuffleState (setElement expr j convertedElt) srcs
                             hva shuf (inits || hasInit toElt)
                             (sugar ++ [mkTupleTypeElt (getType convertedElt)
                                          (getName toElt) (getDefaultArgKind toElt)
                                          (isVararg toElt)])
                             (<[j:=mkTupleTypeElt (getType convertedElt)
                                     (getName fromElt) (getDefaultArgKind fromElt)
                                     (isVararg fromElt)]> fromFields)
                             cda owner))
            end
        end.

Fixpoint coerceTupleFields (fromTuple toTuple : list TupleTypeElt)
         (locator : ConstraintLocatorBuilder) (n i : nat)
         (rest : list TupleTypeElt) (st : ShuffleState)
  : TC (option ShuffleState) :=
  match rest with
  | [] => ret (Some st)
  | toElt :: rest' =>
      let* r := coerceTupleField fromTuple toTuple locator n i toElt st in
      match r with
      | None => ret None
      | Some st' =>
          coerceTupleFields fromTuple toTuple locator n (S i) rest' st'
      end
  end.

(** One iteration of the loop over [variadicArgs]. *)
Definition coerceVariadicArg (fromTuple toTuple : list TupleTypeElt)
             (toEltType : Ty) (locator : ConstraintLocatorBuilder)
             (fromFieldIdx : Z) (st : ShuffleState)
    : TC (option ShuffleState) :=
    let 'mkShuffleState expr srcs hva shuf inits sugar fromFields cda owner := st in
    let* fromElt := at_ fromTuple fromFieldIdx in
    let fromEltType := getType_elt fromElt in
    let j := Z.to_nat fromFieldIdx in
    if isEqual toEltType fromEltType then
      ret (Some (mkShuffleState expr (srcs ++ [fromFieldIdx]) hva shuf inits sugar
                   (<[j:=fromElt]> fromFields) cda owner))
    else
      match innerTupleExpr expr with
      | None =>
          do* diagnose (getLoc tc expr)
                (diag.tuple_conversion_not_expressible
                   (TupleType fromTuple) (TupleType toTuple)) in
          ret None
      | Some elts =>
          let* elt := at_ elts fromFieldIdx in
          let* converted :=
            coerceToType_ elt toEltType
              (withPathElement locator
                 (ConstraintLocator.TupleElement fromFieldIdx)) in
          match converted with
          | None => ret None
          | Some convertedElt =>
              ret (Some (mkShuffleState (setElement expr j convertedElt)
                           (srcs ++ [fromFieldIdx]) hva shuf inits sugar
                           (<[j:=mkTupleTypeElt (getType convertedElt)
                                   (getName fromElt) (getDefaultArgKind fromElt)
                                   (isVararg fromElt)]> fromFields)
                           cda owner))
          end
      end.

Fixpoint coerceVariadicArgs (fromTuple toTuple : list TupleTypeElt)
         (toEltType : Ty) (locator : ConstraintLocatorBuilder)
         (variadicArgs : list nat) (st : ShuffleState)
  : TC (option ShuffleState) :=
  match variadicArgs with
  | [] => ret (Some st)
  | idx :: rest =>
      let* r := coerceVariadicArg fromTuple toTuple toEltType locator
                  (Z.of_nat idx) st in
      match r with
      | None => ret None
      | Some st' =>
          coerceVariadicArgs fromTuple toTuple toEltType locator rest st'
      end
  end.

(** [cast<ArraySliceType>(field.getType().getPointer())] *)
Definition castArraySliceType (t : Ty) : TC Ty :=
    match t with ArraySliceType _ => ret t | _ => abort end.

(** [fields.back()] *)
Definition back {A} (xs : list A) : TC A :=
    match last xs with Some x => ret x | None => abort end.

Definition coerceTupleToTuple (expr : Expr)
           (fromTuple toTuple : list TupleTypeElt)
           (locator : ConstraintLocatorBuilder)
           (sources0 : list Z) (variadicArgs : list nat)
  : TC (option Expr) :=
  let st0 :=
    mkShuffleState expr sources0 false false false []
      (replicate (length fromTuple) TupleTypeElt_default) [] None in
  let* r := coerceTupleFields fromTuple toTuple locator (length toTuple) 0
              toTuple st0 in
  match r with
  | None => ret None
  | Some st =>
      let* r :=
        if hasVarArg st then
          let* lastField := back toTuple in
          let* toEltType := liftRes (getVarargBaseTy lastField) in
          let* r := coerceVariadicArgs fromTuple toTuple toEltType locator
                      variadicArgs st in
          match r with
          | None => ret None
          | Some st =>
              let* sliceType := castArraySliceType (getType_elt lastField) in
              let* injectionFn :=
                buildArrayInjectionFnRef tc sliceType (BuiltinIntegerType 64)
                  (getStartLoc tc (curExpr st)) in
              match injectionFn with
              | None => ret None
              | Some fn => ret (Some (st, Some fn))
              end
          end
        else ret (Some (st, None)) in
      match r with
      | None => ret None
      | Some (st, injectionFn) =>
          let fromTupleExpr := innerTupleExpr (curExpr st) in
          let fromTupleType := TupleType (fromTupleExprFields st) in
          let expr :=
            match fromTupleExpr with
            | Some _ => setTupleTypes (curExpr st) fromTupleType
            | None => curExpr st
            end in
          let toSugarType :=
            if hasInits st then TupleType toTuple
            else TupleType (toSugarFields st) in
          if negb (anythingShuffled st) && bool_decide (is_Some fromTupleExpr)
          then ret (Some (setTupleTypes expr toSugarType))
          else
            ret (Some (TupleShuffleExpr expr (sources st)
                         (defaultArgsOwner st) (callerDefaultArgs st)
                         toSugarType injectionFn))
      end
  end.

  (** *** Scalar to tuple *)

Fixpoint scalarSugarFields (expr : Expr) (toScalarIdx i : Z)
         (fields sugarFields : list TupleTypeElt)
  : TC (list TupleTypeElt * bool) :=
  match fields with
  | [] => ret (sugarFields, false)
  | field :: rest =>
      if hasInit field then ret (sugarFields, true)
      else
        let* elt :=
          if (i =? toScalarIdx)%Z then
            if isVararg field then
              let* base := liftRes (getVarargBaseTy field) in
              do* assert (negb (isNull (getType expr))
                          && isEqual (getType expr) base) in
              ret (mkTupleTypeElt (getType_elt field) (getName field)
                     (getDefaultArgKind field) true)
            else
              do* assert (negb (isNull (getType expr))
                          && isEqual (getType expr) (getType_elt field)) in
              ret (mkTupleTypeElt (getType expr) (getName field)
                     DefaultArgumentKind.None false)
          else ret field in
        scalarSugarFields expr toScalarIdx (i + 1) rest (sugarFields ++ [elt])
  end.

Fixpoint scalarElements (expr : Expr) (toScalarIdx i : Z)
         (locator : ConstraintLocatorBuilder)
         (fields : list TupleTypeElt) (owner : option ValueDecl)
         (elements : list (ScalarToTupleElement Expr))
  : TC (list (ScalarToTupleElement Expr)) :=
  match fields with
  | [] => ret elements
  | field :: rest =>
      if (i =? toScalarIdx)%Z then
        scalarElements expr toScalarIdx (i + 1) locator rest owner
          (elements ++ [ScalarField])
      else if isVararg field then
        scalarElements expr toScalarIdx (i + 1) locator rest owner elements
      else
        do* assert (hasInit field) in
        let* owner' := digOutDefaultArgsOwner locator owner in
        let* defArg := getCallerDefaultArg (getLoc tc expr) owner' (Z.to_nat i) in
        let element :=
          match defArg with
          | Some d => CallerDefault d
          | None => DefaultOwner owner'
          end in
        scalarElements expr toScalarIdx (i + 1) locator rest (Some owner')
          (elements ++ [element])
  end.

Definition coerceScalarToTuple (expr : Expr) (toTuple : list TupleTypeElt)
           (toScalarIdx : Z) (locator : ConstraintLocatorBuilder)
  : TC (option Expr) :=
  let* lastField := back toTuple in
  let* r :=
    if isVararg lastField then
      let* sliceType := castArraySliceType (getType_elt lastField) in
      let* fn := buildArrayInjectionFnRef tc sliceType (BuiltinIntegerType 64)
                   (getStartLoc tc expr) in
      match fn with
      | None => ret None
      | Some f => ret (Some (Some f))
      end
    else ret (Some None) in
  match r with
  | None => ret None
  | Some injectionFn =>
      let* field := at_ toTuple toScalarIdx in
      let* toScalarType :=
        if isVararg field then liftRes (getVarargBaseTy field)
        else ret (getType_elt field) in
      let* r := coerceToType_ expr toScalarType
                  (withPathElement locator ConstraintLocator.ScalarToTuple) in
      match r with
      | None => ret None
      | Some expr =>
          let* sf := scalarSugarFields expr toScalarIdx 0 toTuple [] in
          let* elements :=
            scalarElements expr toScalarIdx 0 locator toTuple None [] in
          let destSugarTy :=
            if sf.2 then TupleType toTuple else TupleType sf.1 in
          ret (Some (ScalarToTupleExpr expr destSugarTy elements injectionFn))
      end
  end.

  (** *** Existential erasure *)

Definition coerceExistential (expr : Expr) (toType : Ty)
           (locator : ConstraintLocatorBuilder) : TC (option Expr) :=
  let fromType := getType expr in
  match isExistentialType toType with
  | None => abort
  | Some protocols =>
      let* conformances :=
        mapM (fun proto =>
                match conformsToProtocol tc fromType proto with
                | Some c => ret c
                | None => abort
                end) protocols in
      ret (Some (ErasureExpr expr toType conformances))
  end.

  (** *** User conversions *)

Definition coerceViaUserConversion (expr : Expr) (toType : Ty)
           (locator : ConstraintLocatorBuilder) : TC (option Expr) :=
  let storedLocator :=
    withPathElement locator ConstraintLocator.ConversionMember in
  match overloadChoices solution storedLocator with
  | Some selected =>
      let* decl := liftRes (getDecl selected.1) in
      let* memberRef :=
        buildMemberRef expr (getStartLoc tc expr) decl (getEndLoc tc expr)
          selected.2 locator true in
      let args := TupleExpr [] true (TupleType []) in
      let apply := ApplyExpr Call memberRef args true false NullType in
      let* openedType :=
        match getDesugaredType selected.2 with
        | FunctionType _ r _ _ => ret r
        | _ => abort
        end in
      let* r := finishApply apply openedType (getConstraintLocator apply []) in
      match r with
      | None => ret None
      | Some expr => coerceToType_ expr toType locator
      end
  | None =>
      let storedLocator :=
        withPathElement locator ConstraintLocator.ConstructorMember in
      match overloadChoices solution storedLocator with
      | None => abort
      | Some selected =>
          match selected.1 with
          | IdentityFunction =>
              coerceToType_ expr toType
                (withPathElement locator ConstraintLocator.ApplyArgument)
          | _ =>
              let typeBase :=
                MetatypeExpr None false (getStartLoc tc expr)
                  (MetaTypeType toType) in
              let* decl := liftRes (getDecl selected.1) in
              let* declRef :=
                buildMemberRef typeBase (getStartLoc tc expr) decl
                  (getStartLoc tc expr) selected.2 storedLocator true in
              let apply := ApplyExpr Call declRef expr true false NullType in
              let* r := finishApply apply toType locator in
              match r with
              | None => ret None
              | Some expr => coerceToType_ expr toType locator
              end
          end
      end
  end.

(** Archetype to its superclass, then subclass to superclass: the code
    shared by the [Superclass] restriction and the walk up the
    superclass chain. *)
Definition coerceToSuperclass (expr : Expr) (fromType toType : Ty)
    : TC (option Expr) :=
    match getAsArchetypeType fromType with
    | Some (_, superclass) =>
        let expr := ArchetypeToSuperExpr expr superclass in
        if isNull (getType expr) then abort
        else if isEqual (getType expr) toType then ret (Some expr)
        else ret (Some (DerivedToBaseExpr expr toType))
    | None => ret (Some (DerivedToBaseExpr expr toType))
    end.

(** [toGenericType->getGenericArgs()[0]] *)
Definition firstGenericArg (args : list Ty) : TC Ty :=
    match args with a :: _ => ret a | [] => abort end.

(** The arm taken when the solver recorded a restriction. *)
Definition coerceRestricted (restriction : ConversionRestrictionKind)
               (expr : Expr) (fromType toType : Ty)
               (locator : ConstraintLocatorBuilder) : TC (option Expr) :=
      match restriction with
      | TupleToTuple => abort
      | ScalarToTuple =>
          match getDesugaredType toType with
          | TupleType toTuple =>
              coerceScalarToTuple expr toTuple
                (getFieldForScalarInit tc toTuple) locator
          | _ => abort
          end
      | Superclass => coerceToSuperclass expr fromType toType
      | Existential => coerceExistential expr toType locator
      | ValueToOptional =>
          match getDesugaredType toType with
          | BoundGenericType decl args =>
              do* assert (bool_decide (decl = OptionalDecl)) in
              let* valueType := firstGenericArg args in
              let* r := coerceToType_ expr valueType locator in
              match r with
              | None => ret None
              | Some expr => ret (Some (InjectIntoOptionalExpr (Some expr) toType))
              end
          | _ => abort
          end
      | User => coerceViaUserConversion expr toType locator
      end.
End WithCoerceToType.

(** [for (s = getSuperClassOf(from); s; s = getSuperClassOf(s))
       if (s->isEqual(to)) ...]: does the walk find [toType]? *)
Fixpoint superclassChainReaches (fuel : nat) (fromSuperClass toType : Ty)
  : Res bool :=
  match fuel with
  | O => OutOfFuel
  | S fuel =>
      if isNull fromSuperClass then Ok false
      else if isEqual fromSuperClass toType then Ok true
      else superclassChainReaches fuel (getSuperClassOf tc fromSuperClass) toType
  end.

Fixpoint coerceToType (fuel : nat) (expr : Expr) (toType : Ty)
         (locator : ConstraintLocatorBuilder) {struct fuel} : TC (option Expr) :=
  match fuel with
  | O => outOfFuel
  | S fuel' =>
  let coerceToType_ := coerceToType fuel' in
  let fromType := getType expr in
  if isNull fromType || isNull toType then abort
  else if isEqual fromType toType then ret (Some expr)
  else
  match constraintRestrictions solution (getCanonicalType fromType)
                               (getCanonicalType toType) with
  | Some restriction =>
      coerceRestricted coerceToType_ restriction expr fromType toType locator
  | None =>
  (* Coercions to tuple type. *)
  let* tupled :=
    match getAsTupleType toType with
    | Some toTuple =>
        let* fromTupled :=
          match getAsTupleType fromType with
          | Some fromTuple =>
              match computeTupleShuffle tc fromTuple toTuple
                      (hasMandatoryTupleLabels tc expr) with
              | Some (sources, variadicArgs) =>
                  let* r := coerceTupleToTuple coerceToType_ expr fromTuple
                              toTuple locator sources variadicArgs in
                  ret (Some r)
              | None => ret None
              end
          | None => ret None
          end in
        match fromTupled with
        | Some r => ret (Some r)
        | None =>
            let toScalarIdx := getFieldForScalarInit tc toTuple in
            if negb (toScalarIdx =? -1)%Z then
              let* r := coerceScalarToTuple coerceToType_ expr toTuple
                          toScalarIdx locator in
              ret (Some r)
            else ret None
        end
    | None => ret None
    end in
  match tupled with
  | Some r => ret r
  | None =>
  (* Coercions from an lvalue: requalify and load. *)
  match getAsLValueType fromType with
  | Some (fromObject, fromQuals) =>
      let* fe :=
        match expr with
        | SuperRefExpr loc _ =>
            do* assert (isSubtypeOf tc fromObject (getRValueType toType)) in
            ret (getRValueType toType,
                 SuperRefExpr loc (LValueType (getRValueType toType) fromQuals))
        | _ => ret (fromObject, expr)
        end in
      let fromObject := fe.1 in
      let expr := fe.2 in
      let expr :=
        match getAsLValueType toType with
        | Some (_, toQuals) => RequalifyExpr expr (LValueType fromObject toQuals)
        | None => LoadExpr expr fromObject
        end in
      coerceToType_ expr toType locator
  | None =>
  (* Coercions to an lvalue: materialize the value. *)
  match getAsLValueType toType with
  | Some (toObject, _) =>
      let* r := coerceToType_ expr toObject locator in
      match r with
      | None => ret None
      | Some expr => ret (Some (MaterializeExpr expr toType))
      end
  | None =>
  (* Coercion from a subclass to a superclass. *)
  let* reaches :=
    if mayHaveSuperclass tc fromType && getClassOrBoundGenericClass tc toType
    then liftRes (superclassChainReaches fuel' (getSuperClassOf tc fromType) toType)
    else ret false in
  if reaches then coerceToSuperclass expr fromType toType
  else
  (* Coercions to function type. *)
  let* funced :=
    match getAsFunctionType toType with
    | Some (toInput, toResult, toAutoClosure, toBlock) =>
        if toAutoClosure then
          let* r := coerceToType_ expr toResult
                      (withPathElement locator ConstraintLocator.Load) in
          match r with
          | None => abort
          | Some expr => ret (Some (Some (AutoClosureExpr expr toType)))
          end
        else
          let fromFunc := getAsFunctionType fromType in
          let fromIsBlock :=
            match fromFunc with Some (_, _, _, b) => b | None => false end in
          if toBlock && negb fromIsBlock then
            let toNonBlockTy := FunctionType toInput toResult false false in
            let* r := coerceToType_ expr toNonBlockTy locator in
            ret (Some (Some (BridgeToBlockExpr r toType)))
          else
            match fromFunc with
            | Some _ => ret (Some (Some (FunctionConversionExpr expr toType)))
            | None => ret None
            end
    | None => ret None
    end in
  match funced with
  | Some r => ret r
  | None =>
  (* Coercions from a type to an existential type. *)
  if bool_decide (is_Some (isExistentialType toType))
  then coerceExistential expr toType locator
  else
  (* Coercion to Optional<T>. *)
  let* optioned :=
    match getAsBoundGenericType toType with
    | Some (OptionalDecl, args) =>
        let* valueType := firstGenericArg args in
        let* r := coerceToType_ expr valueType locator in
        match r with
        | None => ret (Some None)
        | Some expr => ret (Some (Some (InjectIntoOptionalExpr (Some expr) toType)))
        end
    | _ => ret None
    end in
  match optioned with
  | Some r => ret r
  | None =>
  (* Coerce via conversion function or constructor. *)
  if getNominalOrBoundGenericNominal tc fromType
     || bool_decide (is_Some (getAsArchetypeType fromType))
     || getNominalOrBoundGenericNominal tc toType
     || bool_decide (is_Some (getAsArchetypeType toType))
  then coerceViaUserConversion coerceToType_ expr toType locator
  else
  (* Coercion from one metatype to another. *)
  match getAsMetaTypeType fromType, getAsMetaTypeType toType with
  | Some _, Some _ => ret (Some (MetatypeConversionExpr expr toType))
  | _, _ => abort
  end
  end end end end end end
  end.
End ExprRewriter.

(** ** Calling protocol witnesses *)

(** [llvm::PointerUnion<Identifier, Type>] *)
Inductive TypeOrName :=
| IsType (t : Ty)
| IsName (n : Identifier).

Section Witnesses.
  Context (tc : TypeChecker).

(** The member-reference builder and the application finisher of the
    rewriter made for a solution. *)
Variable buildMemberRef :
  Solution -> Expr -> SourceLoc -> ValueDecl -> SourceLoc -> Ty ->
  ConstraintLocatorBuilder -> bool -> TC (option Expr).
Variable finishApply :
  Solution -> Expr -> Ty -> ConstraintLocatorBuilder -> TC (option Expr).

(** The loop of [findNamedWitness] over the members of the protocol. *)
Fixpoint findRequirement (members : list ValueDecl) (name : Identifier)
  : option ValueDecl :=
  match members with
  | [] => None
  | member :: rest =>
      if negb (isFuncDecl tc member) || String.eqb (getDeclName tc member) EmptyString
      then findRequirement rest name
      else if String.eqb (getDeclName tc member) name then Some member
      else findRequirement rest name
  end.

Definition findNamedWitness (type : Ty) (proto : ProtocolDecl)
           (name : Identifier) (d : diag.ID) : TC (option ValueDecl) :=
  match findRequirement (getMembers tc proto) name with
  | Some requirement =>
      if isInvalid tc requirement
      then do* diagnose (getProtocolLoc tc proto) d in ret None
      else
        match conformsToProtocol tc type proto with
        | None => abort
        | Some conformance =>
            if bool_decide (is_Some (getAsArchetypeType type))
            then ret (Some requirement)
            else
              match conformance with
              | None => abort
              | Some c =>
                  let witness := getWitness tc c requirement in
                  do* assert (isFuncDecl tc witness) in
                  ret (Some witness)
              end
        end
  | None => do* diagnose (getProtocolLoc tc proto) d in ret None
  end.

(** [TypeChecker::callWitness] *)
Definition callWitness (base : Expr) (protocol : ProtocolDecl)
           (conformance : option ProtocolConformance) (name : Identifier)
           (arguments : list Expr) (brokenProtocolDiag : diag.ID)
  : TC (option Expr) :=
  let type := getType base in
  let type := match getAsMetaTypeType type with Some i => i | None => type end in
  let* witness := findNamedWitness (getRValueType type) protocol name
                    brokenProtocolDiag in
  match witness with
  | None => ret None
  | Some witness =>
      let openedType := getTypeOfMemberReference tc (getType base) witness in
      let locator := getConstraintLocator base [] in
      let arg :=
        match arguments with
        | [a] => a
        | _ =>
            TupleExpr arguments true
              (TupleType (map (fun elt =>
                                 mkTupleTypeElt (getType elt) EmptyString
                                   DefaultArgumentKind.None false) arguments))
        end in
      let* input :=
        match getDesugaredType openedType with
        | FunctionType i _ _ _ => ret i
        | _ => abort
        end in
      match solveConversion tc (getType arg) input
              (getConstraintLocator arg [ConstraintLocator.ApplyArgument]) with
      | None => abort
      | Some solution =>
          let* memberRef :=
            buildMemberRef solution base (getStartLoc tc base) witness
              (getEndLoc tc base) openedType locator true in
          let apply := ApplyExpr Call memberRef arg true false NullType in
          finishApply solution apply openedType (getConstraintLocator arg [])
      end
  end.

(** *** Literals *)

(** [ExprRewriter::convertLiteral].  The recursive call passes a null
    [protocol]; the fuel stands for the C++ stack. *)
Fixpoint convertLiteral (fuel : nat) (literal : Expr) (type openedType : Ty)
         (protocol : option ProtocolDecl) (literalType : TypeOrName)
         (literalFuncName : Identifier) (builtinProtocol : ProtocolDecl)
         (builtinLiteralType : TypeOrName) (builtinLiteralFuncName : Identifier)
         (isBuiltinArgType : option (Ty -> bool))
         (brokenProtocolDiag brokenBuiltinProtocolDiag : diag.ID)
         {struct fuel} : TC (option Expr) :=
  match fuel with
  | O => outOfFuel
  | S fuel' =>
      match conformsToProtocol tc type builtinProtocol with
      | Some builtinConformance =>
          let* argType :=
            match builtinLiteralType with
            | IsType t => ret t
            | IsName n =>
                getWitnessType tc type builtinProtocol builtinConformance n
                  brokenBuiltinProtocolDiag
            end in
          if isNull argType then ret None
          else if match isBuiltinArgType with
                  | Some accepts => negb (accepts argType)
                  | None => false
                  end
          then
            do* diagnose (getProtocolLoc tc builtinProtocol)
                  brokenBuiltinProtocolDiag in
            ret None
          else
            let literal := setType literal argType in
            let base := MetatypeExpr None false (getLoc tc literal)
                          (MetaTypeType type) in
            let* result :=
              callWitness base builtinProtocol builtinConformance
                builtinLiteralFuncName [literal] brokenBuiltinProtocolDiag in
            match result with
            | Some result => ret (Some (setType result type))
            | None => ret None
            end
      | None =>
          match protocol with
          | None => abort
          | Some protocol =>
              match conformsToProtocol tc type protocol with
              | None => abort
              | Some conformance =>
                  let* argType :=
                    match literalType with
                    | IsType t => ret t
                    | IsName n =>
                        getWitnessType tc type protocol conformance n
                          brokenProtocolDiag
                    end in
                  if isNull argType then ret None
                  else
                    let* converted :=
                      convertLiteral fuel' literal argType argType None
                        (IsName EmptyString) EmptyString builtinProtocol builtinLiteralType
                        builtinLiteralFuncName isBuiltinArgType
                        brokenProtocolDiag brokenBuiltinProtocolDiag in
                    match converted with
                    | None => ret None
                    | Some literal =>
                        let base := MetatypeExpr None false (getLoc tc literal)
                                      (MetaTypeType type) in
                        let* result :=
                          callWitness base protocol conformance literalFuncName
                            [literal] brokenProtocolDiag in
                        match result with
                        | Some result => ret (Some (setType result type))
                        | None => ret None
                        end
                    end
              end
          end
      end
  end.

(** *** Conversions to builtin values *)

Variable solution : Solution.

(** [TupleExpr(loc, { }, nullptr, loc, false, true, TupleType::getEmpty)] *)
Definition emptyTupleExpr : Expr := TupleExpr [] true (TupleType []).

(** [decl->getType()->castTo<AnyFunctionType>()->getResult()] *)
Definition getResultOfDeclType (d : ValueDecl) : TC Ty :=
  match getAsAnyFunctionType (getDeclType tc d) with
  | Some (_, r) => ret r
  | None => abort
  end.

Definition convertViaBuiltinProtocol (expr : Expr)
           (locator : ConstraintLocatorBuilder) (protocol : ProtocolDecl)
           (generalName builtinName : Identifier)
           (brokenProtocolDiag brokenBuiltinDiag : diag.ID) : TC (option Expr) :=
  let type := getType expr in
  let witnesses := lookupMember tc (getRValueType type) builtinName in
  let* found :=
    match witnesses with
    | [] =>
        let* witness := findNamedWitness (getRValueType type) protocol
                          generalName brokenProtocolDiag in
        match witness with
        | None => abort
        | Some witness =>
            let* openedType := getResultOfDeclType witness in
            let* memberRef :=
              buildMemberRef solution expr (getStartLoc tc expr) witness
                (getEndLoc tc expr) openedType locator true in
            let apply := ApplyExpr Call memberRef emptyTupleExpr true false NullType in
            let* r := finishApply solution apply openedType locator in
            match r with
            | None => abort
            | Some expr =>
                let type := getType expr in
                match lookupMember tc (getRValueType type) builtinName with
                | [] =>
                    do* diagnose (getProtocolLoc tc protocol) brokenProtocolDiag in
                    ret None
                | witnesses => ret (Some (expr, witnesses))
                end
            end
        end
    | _ => ret (Some (expr, witnesses))
    end in
  match found with
  | None => ret None
  | Some (expr, witnesses) =>
      match witnesses with
      | [builtinMethod] =>
          if negb (isFuncDecl tc builtinMethod) then
            do* diagnose (getProtocolLoc tc protocol) brokenBuiltinDiag in
            ret None
          else
            let* openedType := getResultOfDeclType builtinMethod in
            let* memberRef :=
              buildMemberRef solution expr noLoc builtinMethod (getLoc tc expr)
                openedType locator true in
            let apply := ApplyExpr Call memberRef emptyTupleExpr true false NullType in
            finishApply solution apply openedType locator
      | _ =>
          do* diagnose (getProtocolLoc tc protocol) brokenBuiltinDiag in
          ret None
      end
  end.

Definition convertToLogicValue (expr : Expr) (locator : ConstraintLocatorBuilder)
  : TC (option Expr) :=
  if isBuiltinIntegerType (getRValueType (getType expr)) 1
  then coerceToRValue tc expr
  else
    let* result :=
      convertViaBuiltinProtocol expr locator
        (getProtocol tc (getLoc tc expr) LogicValue)
        "getLogicValue" "_getBuiltinLogicValue"
        (diag.broken_protocol "condition_broken_proto")
        (diag.broken_protocol "broken_bool") in
    match result with
    | Some r =>
        if negb (isBuiltinIntegerType (getType r) 1) then
          do* diagnose (getLoc tc expr) (diag.broken_protocol "broken_bool") in
          ret None
        else ret result
    | None => ret result
    end.

Definition convertToArrayBound (expr : Expr) (locator : ConstraintLocatorBuilder)
  : TC (option Expr) :=
  let* result :=
    convertViaBuiltinProtocol expr locator
      (getProtocol tc (getLoc tc expr) ArrayBound)
      "getArrayBoundValue" "_getBuiltinArrayBoundValue"
      (diag.broken_protocol "broken_array_bound_proto")
      (diag.broken_protocol "broken_builtin_array_bound") in
  match result with
  | Some r =>
      if negb (bool_decide (is_Some (getAsBuiltinIntegerType (getType r)))) then
        do* diagnose (getLoc tc expr)
              (diag.broken_protocol "broken_builtin_array_bound") in
        ret None
      else ret result
  | None => ret result
  end.
End Witnesses.

(** ** Checked casts *)

Section Casts.
  Context (tc : TypeChecker) (solution : Solution).
  Variable buildMemberRef :
    Expr -> SourceLoc -> ValueDecl -> SourceLoc -> Ty ->
    ConstraintLocatorBuilder -> bool -> TC (option Expr).
  Variable finishApply :
    Expr -> Ty -> ConstraintLocatorBuilder -> TC (option Expr).
  (** the fuel given to coercions *)
  Variable fuel : nat.

(** [checkCheckedCastExpr]: the cast kind, and the cast node with its
    sub-expression replaced when the check got that far. *)
Definition checkCheckedCastExpr (kind : CastExprKind) (sub : Expr)
           (loc : SourceLoc) (castTy : Ty) (castKind : CheckedCastKind)
           (implicit : bool) (ty : Ty) : TC (CheckedCastKind * Expr) :=
  let expr := CheckedCastExpr kind sub loc castTy castKind implicit ty in
  let toType := castTy in
  let* checked := typeCheckExpression tc sub NullType false in
  if checked.1 then ret (Unresolved, expr)
  else
    let* sub := coerceToRValue tc checked.2 in
    match sub with
    | None => ret (Unresolved, expr)
    | Some sub =>
        let expr := CheckedCastExpr kind sub loc castTy castKind implicit ty in
        let fromType := getType sub in
        let* k := typeCheckCheckedCast tc fromType toType in
        ret (k, expr)
    end.

Definition checkAsCastExpr (kind : CastExprKind) (sub : Expr)
           (loc : SourceLoc) (castTy : Ty) (castKind : CheckedCastKind)
           (implicit : bool) (ty : Ty) : TC (option Expr) :=
  let toType := castTy in
  let* checked := checkCheckedCastExpr kind sub loc castTy castKind implicit ty in
  match checked with
  | (Unresolved, _) => ret None
  | (InvalidCoercible, CheckedCastExpr kind sub loc castTy castKind implicit ty) =>
      do* (if negb implicit
           then diagnose loc (diag.downcast_to_supertype (getType sub) castTy)
           else ret tt) in
      if isNull ty || isNull (getType sub) then abort
      else if isEqual ty (getType sub) then ret (Some sub)
      else
        let* coerced :=
          coerceToType tc solution buildMemberRef finishApply fuel sub toType
            (getConstraintLocator
               (CheckedCastExpr kind sub loc castTy castKind implicit ty) []) in
        ret (Some (InjectIntoOptionalExpr coerced (OptionalType toType)))
  | (k, CheckedCastExpr kind sub loc castTy _ implicit ty) =>
      ret (Some (CheckedCastExpr kind sub loc castTy k implicit ty))
  | (_, _) => abort
  end.

Definition visitConditionalCheckedCastExpr (expr : Expr) : TC (option Expr) :=
  match expr with
  | CheckedCastExpr ConditionalCheckedCast sub loc castTy castKind implicit _ =>
      let* optTy := getOptionalType tc loc castTy in
      checkAsCastExpr ConditionalCheckedCast sub loc castTy castKind implicit optTy
  | _ => abort
  end.
End Casts.

(** ** The traversal driver *)

(** The fields of [ExprWalker] that change during the walk, and the
    diagnostics sink. *)
Record WalkerState := mkWalkerState {
  LeftSideOfAssignment : Z;
  walkerDiags : Diags
}.
Definition Walk := M WalkerState.

(** A step of the type checker or of the rewriter, run during the walk. *)
Definition liftTC {A} (m : TC A) : Walk A :=
  fun w => match m (walkerDiags w) with
           | Ok (a, ds) => Ok (a, mkWalkerState (LeftSideOfAssignment w) ds)
           | Abort => Abort
           | OutOfFuel => OutOfFuel
           end.

(** [++LeftSideOfAssignment] and [--LeftSideOfAssignment] on an
    [unsigned]. *)
Definition incrLeftSide : Walk unit :=
  modify (fun w => mkWalkerState ((LeftSideOfAssignment w + 1) mod 2 ^ 32)
                                 (walkerDiags w)).
Definition decrLeftSide : Walk unit :=
  modify (fun w => mkWalkerState ((LeftSideOfAssignment w - 1) mod 2 ^ 32)
                                 (walkerDiags w)).

Section Walker.
  Context (tc : TypeChecker) (solution : Solution).
  Variable buildMemberRef :
    Expr -> SourceLoc -> ValueDecl -> SourceLoc -> Ty ->
    ConstraintLocatorBuilder -> bool -> TC (option Expr).
  Variable finishApply :
    Expr -> Ty -> ConstraintLocatorBuilder -> TC (option Expr).
  Variable fuel : nat.

(** The visit methods of the rewriter that the walker calls on a node it
    handles itself: they rewrite the node in place. *)
Variable visitNewArrayExpr : Expr -> TC Expr.
Variable visitIfExpr : Expr -> TC Expr.
Variable visitAssignExpr : Expr -> TC (option Expr).
(** The visit methods for the expression kinds not spelled out in
    [visit] below. *)
Variable visitOther : Expr -> TC (option Expr).

Definition simplifyExprType (expr : Expr) : Expr :=
  setType expr (simplifyType tc solution (getType expr)).

(** [Rewriter.visit(expr)]: the dispatch of [ExprVisitor]. *)
Definition visit (expr : Expr) : TC (option Expr) :=
  match expr with
  | ErrorExpr _ => ret (Some expr)
  | UnresolvedDeclRefExpr _ _ _ => ret None
  | DiscardAssignmentExpr _ _ => ret (Some (simplifyExprType expr))
  | SuperRefExpr _ _ => ret (Some (simplifyExprType expr))
  | TupleExpr _ _ _ => ret (Some (simplifyExprType expr))
  | ParenExpr sub _ => ret (Some (ParenExpr sub (getType sub)))
  | CheckedCastExpr ConditionalCheckedCast _ _ _ _ _ _ =>
      visitConditionalCheckedCastExpr tc solution buildMemberRef finishApply
        fuel expr
  | IfExpr _ _ _ _ => let* e := visitIfExpr expr in ret (Some e)
  | AssignExpr _ _ _ _ => visitAssignExpr expr
  | NewArrayExpr _ _ => let* e := visitNewArrayExpr expr in ret (Some e)
  | _ => visitOther expr
  end.

(** [ExprWalker::walkToExprPre]; [walk] is [Expr::walk] with this walker on
    a sub-expression.  With [true] the expression handed back is [expr]
    itself. *)
Definition walkToExprPre (walk : Expr -> Walk (option Expr)) (expr : Expr)
  : Walk (bool * option Expr) :=
  match expr with
  | NewArrayExpr _ _ =>
      let* e := liftTC (visitNewArrayExpr expr) in
      ret (false, Some e)
  | IfExpr cond thenExpr elseExpr ty =>
      let* t := walk thenExpr in
      let thenExpr := match t with Some t' => t' | None => thenExpr end in
      let* e := walk elseExpr in
      let elseExpr := match e with Some e' => e' | None => elseExpr end in
      let* r := liftTC (visitIfExpr (IfExpr cond thenExpr elseExpr ty)) in
      ret (false, Some r)
  | CheckedCastExpr _ _ _ _ _ _ _ =>
      let* r := liftTC (visit expr) in
      ret (false, r)
  | DefaultValueExpr _ _ => ret (false, Some expr)
  | ClosureExpr body _ =>
      let ty := simplifyType tc solution (getType expr) in
      match getDesugaredType ty with
      | FunctionType input result _ _ =>
          let* failed := liftTC (coercePatternToType tc (ClosureExpr body ty) input) in
          if (failed : bool) then ret (false, None)
          else
            match body with
            | Some b =>
                let* walked := walk b in
                let* coerced :=
                  match walked with
                  | Some b' =>
                      liftTC (coerceToType tc solution buildMemberRef finishApply
                                fuel b' result
                                (getConstraintLocator (ClosureExpr body ty)
                                   [ConstraintLocator.ClosureResult]))
                  | None => ret None
                  end in
                match coerced with
                | None => ret (false, None)
                | Some b' => ret (false, Some (ClosureExpr (Some b') ty))
                end
            | None =>
                let* c := liftTC (typeCheckClosureBody tc (ClosureExpr body ty)) in
                ret (false, Some c)
            end
      | _ => abort
      end
  | MetatypeExpr _ true _ _ => ret (false, Some expr)
  | AssignExpr dest src loc ty =>
      do* incrLeftSide in
      let* d := walk dest in
      match d with
      | None => ret (false, None)
      | Some dest' =>
          do* decrLeftSide in
          let* s := walk src in
          match s with
          | None => ret (false, None)
          | Some src' =>
              let* r := liftTC (visitAssignExpr (AssignExpr dest' src' loc ty)) in
              ret (false, r)
          end
      end
  | DiscardAssignmentExpr loc _ =>
      let* w := get in
      do* (if (LeftSideOfAssignment w =? 0)%Z
           then liftTC (diagnose (getLoc tc expr)
                          diag.discard_expr_outside_of_assignment)
           else ret tt) in
      ret (true, Some expr)
  | _ => ret (true, Some expr)
  end.

(** Modelled from the spec: the generic traversal of the AST walker
    ([Expr::walk], defined in the AST library).  It calls the pre-order
    hook; unless told to skip, it walks the children in order, giving up
    with null as soon as one child comes back null, and then calls the
    post-order hook, which is [Rewriter.visit]. *)
Definition walkChildren (walk : Expr -> Walk (option Expr)) (expr : Expr)
  : Walk (option Expr) :=
  let walkList :=
    fix walkList (es : list Expr) : Walk (option (list Expr)) :=
      match es with
      | [] => ret (Some [])
      | e :: rest =>
          let* e' := walk e in
          match e' with
          | None => ret None
          | Some e' =>
              let* rest' := walkList rest in
              ret ((fun r => e' :: r) <$> rest')
          end
      end in
  match expr with
  | ParenExpr sub ty =>
      let* s := walk sub in ret ((fun s => ParenExpr s ty) <$> s)
  | TupleExpr elts im ty =>
      let* es := walkList elts in ret ((fun es => TupleExpr es im ty) <$> es)
  | MetatypeExpr (Some base) r loc ty =>
      let* b := walk base in ret ((fun b => MetatypeExpr (Some b) r loc ty) <$> b)
  | ApplyExpr k (Some fn) arg im sup ty =>
      let* f := walk fn in
      match f with
      | None => ret None
      | Some f =>
          let* a := walk arg in
          ret ((fun a => ApplyExpr k (Some f) a im sup ty) <$> a)
      end
  | ImplicitConversionExpr k (Some sub) ty =>
      let* s := walk sub in
      ret ((fun s => ImplicitConversionExpr k (Some s) ty) <$> s)
  | AutoClosureExpr body ty =>
      let* b := walk body in ret ((fun b => AutoClosureExpr b ty) <$> b)
  | SpecializeExpr sub ty =>
      let* s := walk sub in ret ((fun s => SpecializeExpr s ty) <$> s)
  | OtherExpr tag children loc ty =>
      let* cs := walkList children in
      ret ((fun cs => OtherExpr tag cs loc ty) <$> cs)
  | _ => ret (Some expr)
  end.

Fixpoint walk (expr : Expr) : Walk (option Expr) :=
  let* pre := walkToExprPre walk expr in
  match pre with
  | (true, Some _) =>
      let* e := walkChildren walk expr in
      match e with
      | Some e => liftTC (visit e)
      | None => ret None
      end
  | (_, r) => ret r
  end.

(** [ConstraintSystem::applySolution], up to the call of
    [rewriter.finalize()]. *)
Definition applySolutionWalk (expr : Expr) : Walk (option Expr) := walk expr.
End Walker.

(** ** Partial applications of value-type methods *)

(** [ValueTypeMemberApplications] is a [DenseMap<Expr*, unsigned>]: its keys
    are node identities.  This part of the rewriter is therefore modelled
    over the heap of expression nodes, with a pointer being a number and
    [0] the null pointer. *)
Module PartialApplication.

Definition ExprPtr := nat.
Definition nullptr : ExprPtr := 0%nat.

Inductive ExprKind :=
| UnresolvedDot (base : ExprPtr) (dotLoc nameLoc : SourceLoc) (implicit : bool)
| Apply (fn arg : ExprPtr)
| DeclRef (decl : ValueDecl)
| Other.

Record ExprNode := mkNode {
  kind : ExprKind;
  type : Ty;
  loc : SourceLoc
}.

Definition AST := gmap ExprPtr ExprNode.

Record Rewriter := mkRewriter {
  ast : AST;
  ValueTypeMemberApplications : gmap ExprPtr Z;
  diags : Diags
}.
Definition RW := M Rewriter.

(** [p->...]: reading through a null or dangling pointer stops the run. *)
Definition deref (p : ExprPtr) : RW ExprNode :=
  fun r => match ast r !! p with
           | Some n => Ok (n, r)
           | None => Abort
           end.

(** [DenseMap::insert]: an existing entry is kept. *)
Definition DenseMap_insert (k : ExprPtr) (v : Z) (m : gmap ExprPtr Z)
  : gmap ExprPtr Z :=
  match m !! k with
  | Some _ => m
  | None => <[k := v]> m
  end.

Definition setApplications (f : gmap ExprPtr Z -> gmap ExprPtr Z) : RW unit :=
  modify (fun r => mkRewriter (ast r) (f (ValueTypeMemberApplications r)) (diags r)).


(** The node builders of the rewriter allocate and rewrite nodes and may
    report diagnostics; they never touch the map. *)
Definition Builder (A : Type) := AST -> Diags -> Res (A * AST * Diags).

Definition build {A} (b : Builder A) : RW A :=
  fun r => match b (ast r) (diags r) with
           | Ok (a, h, ds) => Ok (a, mkRewriter h (ValueTypeMemberApplications r) ds)
           | Abort => Abort
           | OutOfFuel => OutOfFuel
           end.

Section Rewriter.
(** [solution.overloadChoices] at the locator [(expr, MemberRefBase)]. *)
Variable overloadChoice : ExprPtr -> option (OverloadChoice * Ty).
Variable buildMemberRef :
  ExprPtr -> SourceLoc -> ValueDecl -> SourceLoc -> Ty -> ExprPtr -> bool ->
  Builder ExprPtr.
Variable buildDynamicMemberRef :
  ExprPtr -> SourceLoc -> ValueDecl -> SourceLoc -> Ty -> ExprPtr ->
  Builder ExprPtr.
Variable buildTupleElement : ExprPtr -> nat -> Builder ExprPtr.
Variable finishApply : ExprPtr -> Ty -> ExprPtr -> Builder ExprPtr.
Variable getSemanticsProvidingExpr : AST -> ExprPtr -> ExprPtr.
Variable isFuncDecl : ValueDecl -> bool.
Variable isInstanceMember : ValueDecl -> bool.
Variable getNaturalArgumentCount : ValueDecl -> Z.

Definition getOverloadChoice (expr : ExprPtr) : RW (OverloadChoice * Ty) :=
  match overloadChoice expr with
  | Some c => ret c
  | None => abort
  end.

(** The part of [visitUnresolvedDotExpr] after [buildMemberRef]: whether
    [member] is an instance method applied to an lvalue [self], and then
    the count that is recorded for it. *)
Definition valueTypeMemberApplication (h : AST) (member : ExprPtr)
  : option (option Z) :=
  match h !! member with
  | None => None
  | Some m =>
      match kind m with
      | Apply fn arg =>
          match h !! arg with
          | Some a =>
              match getAsLValueType (type a) with
              | None => Some None
              | Some _ =>
                  match h !! fn with
                  | Some f =>
                      match kind f with
                      | DeclRef d =>
                          if isFuncDecl d && isInstanceMember d
                          then Some (Some ((getNaturalArgumentCount d - 1)
                                           mod 2 ^ 32))
                          else Some None
                      | _ => Some None
                      end
                  | None => None
                  end
              end
          | None => None
          end
      | _ => Some None
      end
  end.

Definition visitUnresolvedDotExpr (expr : ExprPtr) : RW ExprPtr :=
  let* e := deref expr in
  match kind e with
  | UnresolvedDot base dotLoc nameLoc implicit =>
      let* selected := getOverloadChoice expr in
      match selected.1 with
      | Decl d =>
          let* member :=
            build (buildMemberRef base dotLoc d nameLoc selected.2 expr implicit) in
          let* r := get in
          match valueTypeMemberApplication (ast r) member with
          | None => abort
          | Some None => ret member
          | Some (Some count) =>
              do* setApplications (DenseMap_insert member count) in
              ret member
          end
      | DeclViaDynamic d =>
          build (buildDynamicMemberRef base dotLoc d nameLoc selected.2 expr)
      | TupleIndex i => build (buildTupleElement expr i)
      | BaseType => ret base
      | _ => abort
      end
  | _ => abort
  end.

Definition visitApplyExpr (expr : ExprPtr) : RW ExprPtr :=
  let* e := deref expr in
  let* result := build (finishApply expr (type e) expr) in
  let* e' := deref expr in
  match kind e' with
  | Apply fn _ =>
      let* r := get in
      let key := getSemanticsProvidingExpr (ast r) fn in
      do* match ValueTypeMemberApplications r !! key with
          | Some count =>
              do* assert (0 <? count)%Z in
              do* setApplications (delete key) in
              if (1 <? count)%Z
              then setApplications (DenseMap_insert result (count - 1))
              else ret tt
          | None => ret tt
          end in
      ret result
  | _ => abort
  end.



End Rewriter.
End PartialApplication.

(** ** Reasoning about runs *)

Lemma bind_Ok {S A B} (m : M S A) (k : A -> M S B) s b s' :
  bind m k s = Ok (b, s') ->
  exists a s1, m s = Ok (a, s1) /\ k a s1 = Ok (b, s').
Proof.
  unfold bind. destruct (m s) as [[a s1]| |]; try discriminate. eauto.
Qed.

Lemma bind_run {S A B} (m : M S A) (k : A -> M S B) s a s1 :
  m s = Ok (a, s1) -> bind m k s = k a s1.
Proof. intros H. unfold bind. by rewrite H. Qed.

Lemma ret_Ok {S A} (a b : A) (s s' : S) : ret a s = Ok (b, s') -> a = b /\ s = s'.
Proof. unfold ret. intros H. by inversion H. Qed.

Lemma assert_Ok {S} (c : bool) (s s' : S) u :
  assert c s = Ok (u, s') -> c = true /\ s = s'.
Proof. destruct c; cbn; intros H; by inversion H. Qed.

Lemma liftRes_Ok {S A} (r : Res A) (s s' : S) a :
  liftRes r s = Ok (a, s') -> r = Ok a /\ s = s'.
Proof. destruct r; cbn; intros H; by inversion H. Qed.

Lemma at_Ok {S A} (xs : list A) i (s s' : S) x :
  at_ xs i s = Ok (x, s') ->
  (0 <= i)%Z /\ xs !! Z.to_nat i = Some x /\ s = s'.
Proof.
  unfold at_. destruct (Z.ltb_spec i 0) as [Hlt|Hge]; [discriminate|].
  destruct (xs !! Z.to_nat i) eqn:E; cbn; intros Hx; inversion Hx; subst; auto.
Qed.

Lemma bind_ext {S A B} (m : M S A) (k1 k2 : A -> M S B) s :
  (forall a s1, k1 a s1 = k2 a s1) -> bind m k1 s = bind m k2 s.
Proof. intros H. unfold bind. destruct (m s) as [[a s1]| |]; auto. Qed.

Lemma bind_cong {S A B} (m1 m2 : M S A) (k : A -> M S B) s :
  m1 s = m2 s -> bind m1 k s = bind m2 k s.
Proof. intros H. unfold bind. by rewrite H. Qed.

(** Peel one monadic step off a hypothesis [H : (let* x := m in k) s = Ok _]. *)
Tactic Notation "step" hyp(H) "as" ident(H1) :=
  let a := fresh "a" in
  let s1 := fresh "s" in
  apply bind_Ok in H as (a & s1 & H1 & H).
Tactic Notation "step" hyp(H) :=
  let H1 := fresh H in step H as H1.
Tactic Notation "step" hyp(H) "as" ident(x) ident(H1) :=
  let s1 := fresh "s" in
  apply bind_Ok in H as (x & s1 & H1 & H).

Tactic Notation "inv_ret" hyp(H) :=
  first
    [ apply ret_Ok in H as [H ?]
    | apply assert_Ok in H as [H ?]
    | apply liftRes_Ok in H as [H ?] ];
  subst.

(** ** Canonical types *)

Lemma isEqual_true a b : isEqual a b = true <-> getCanonicalType a = getCanonicalType b.
Proof. unfold isEqual. by rewrite bool_decide_eq_true. Qed.

Lemma isEqual_refl a : isEqual a a = true.
Proof. by apply isEqual_true. Qed.

Lemma isEqual_sym a b : isEqual a b = isEqual b a.
Proof. unfold isEqual. apply bool_decide_ext. split; congruence. Qed.

Lemma isEqual_trans a b c : isEqual a b = true -> isEqual b c = true -> isEqual a c = true.
Proof. rewrite !isEqual_true. congruence. Qed.

Lemma getCanonicalType_desugared t :
  getCanonicalType (getDesugaredType t) = getCanonicalType t.
Proof. induction t; cbn; auto. Qed.

Lemma getAsTupleType_canonical t fs :
  getAsTupleType t = Some fs -> getCanonicalType t = TupleType (map canonElt fs).
Proof.
  unfold getAsTupleType. intros H.
  rewrite <- getCanonicalType_desugared.
  destruct (getDesugaredType t); try discriminate. by inversion H.
Qed.

Lemma canonElt_eq t1 t2 n d v :
  isEqual t1 t2 = true ->
  canonElt (mkTupleTypeElt t1 n d v) = canonElt (mkTupleTypeElt t2 n d v).
Proof. rewrite isEqual_true. cbn. by intros ->. Qed.

Lemma canonElt_same e t :
  isEqual t (getType_elt e) = true ->
  canonElt (mkTupleTypeElt t (getName e) (getDefaultArgKind e) (isVararg e)) = canonElt e.
Proof. destruct e. cbn. rewrite isEqual_true. by intros ->. Qed.

Lemma canonElt_type e1 e2 :
  canonElt e1 = canonElt e2 -> isEqual (getType_elt e1) (getType_elt e2) = true.
Proof. destruct e1, e2. cbn. intros H. apply isEqual_true. by inversion H. Qed.

(** ** The mapping recorded by a tuple shuffle *)

Section ShuffleMapping.
  Context (tc : TypeChecker) (solution : Solution).
  Variable coerceToType_ :
    Expr -> Ty -> ConstraintLocatorBuilder -> TC (option Expr).

Local Abbreviation tupleField := (coerceTupleField tc solution coerceToType_).
Local Abbreviation tupleFields := (coerceTupleFields tc solution coerceToType_).
Local Abbreviation variadicArg := (coerceVariadicArg tc coerceToType_).
Local Abbreviation variadicArgs := (coerceVariadicArgs tc coerceToType_).
Local Abbreviation tupleToTuple := (coerceTupleToTuple tc solution coerceToType_).

(** What one iteration of the loop over the destination fields does to
    [sources] and [hasVarArg]. *)
Lemma coerceTupleField_sources fromTuple toTuple locator n i toElt st s st' s' :
  tupleField fromTuple toTuple locator n i toElt st s = Ok (Some st', s') ->
  exists src,
    sources st !! i = Some src /\
    length (sources st') = length (sources st) /\
    (forall k, k <> i -> sources st' !! k = sources st !! k) /\
    ((src = DefaultInitialize /\
      (sources st' !! i = Some DefaultInitialize \/
       sources st' !! i = Some CallerDefaultInitialize) /\
      hasVarArg st' = hasVarArg st)
     \/ (src = FirstVariadic /\ i = (n - 1)%nat /\
         sources st' !! i = Some src /\ hasVarArg st' = true)
     \/ ((0 <= src < Z.of_nat (length fromTuple))%Z /\
         sources st' !! i = Some src /\ hasVarArg st' = hasVarArg st)).
Proof.
  intros H. unfold coerceTupleField in H.
  destruct st as [expr srcs hva shuf inits sugar fromFields cda owner].
  step H. apply at_Ok in H0 as (Hi0 & Hsrc & ->).
  rewrite Nat2Z.id in Hsrc. exists a. split; [exact Hsrc|]. cbn [sources hasVarArg].
  destruct (Z.eqb_spec a DefaultInitialize) as [->|Hnd].
  { step H. step H.
    assert (Hlen : (i < length srcs)%nat) by (eapply lookup_lt_Some; eauto).
    destruct a0 as [d|]; inv_ret H; inversion H; subst; cbn [sources hasVarArg].
    - rewrite length_insert. split; [done|]. split.
      + intros k Hk. by rewrite list_lookup_insert_ne.
      + left. split; [done|]. split; [|done]. right.
        by rewrite list_lookup_insert_eq.
    - split; [done|]. split; [done|]. left. auto. }
  destruct (Z.eqb_spec a FirstVariadic) as [->|Hnv].
  { step H. inv_ret H0. inv_ret H. inversion H; subst; cbn [sources hasVarArg].
    apply bool_decide_eq_true in H0.
    split; [done|]. split; [done|]. right. left. auto. }
  step H. apply at_Ok in H0 as (Hge & Hfrom & ->).
  assert (Hrange : (0 <= a < Z.of_nat (length fromTuple))%Z).
  { split; [done|]. apply lookup_lt_Some in Hfrom. lia. }
  destruct (isEqual (getType_elt a0) (getType_elt toElt)).
  { step H. inv_ret H. inversion H; subst; cbn [sources hasVarArg].
    split; [done|]. split; [done|]. right. right. auto. }
  destruct (innerTupleExpr expr) as [elts|].
  2:{ step H. inv_ret H. discriminate. }
  step H. step H. destruct a2 as [convertedElt|]; inv_ret H; [|discriminate].
  inversion H; subst; cbn [sources hasVarArg].
  split; [done|]. split; [done|]. right. right. auto.
Qed.

(** The entries written for the destination fields below [i]: the
    variadic sentinel only at the last field, and source indices in
    range. *)
Definition mappingOK (fromLen n i : nat) (srcs : list Z) : Prop :=
  forall k s, (k < i)%nat -> srcs !! k = Some s ->
    (s = FirstVariadic -> k = (n - 1)%nat) /\
    (0 <= s -> s < Z.of_nat fromLen)%Z.

Definition sawVariadic (i : nat) (srcs : list Z) : Prop :=
  exists k, (k < i)%nat /\ srcs !! k = Some FirstVariadic.

Lemma coerceTupleFields_sources fromTuple toTuple locator n rest :
  forall i st s st' s',
    tupleFields fromTuple toTuple locator n i rest st s = Ok (Some st', s') ->
    mappingOK (length fromTuple) n i (sources st) ->
    (hasVarArg st = true <-> sawVariadic i (sources st)) ->
    length (sources st') = length (sources st) /\
    mappingOK (length fromTuple) n (i + length rest) (sources st') /\
    (hasVarArg st' = true <-> sawVariadic (i + length rest) (sources st')).
Proof.
  induction rest as [|toElt rest IH]; intros i st s st' s' H Hok Hva.
  - cbn in H. inv_ret H. inversion H; subst. rewrite Nat.add_0_r. auto.
  - cbn [coerceTupleFields] in H. step H.
    destruct a as [st1|]; [|inv_ret H; discriminate].
    apply coerceTupleField_sources in H0 as (src & Hsrc & Hlen & Hother & Hcase).
    apply IH in H as (Hlen' & Hok' & Hva').
    + cbn [length]. replace (i + S (length rest))%nat with (S i + length rest)%nat by lia.
      split; [congruence|]. auto.
    + intros k x Hk Hx. destruct (decide (k = i)) as [->|Hne].
      * destruct Hcase as [(-> & [Hd|Hd] & _)|[(-> & Hn & Hd & _)|(Hr & Hd & _)]];
          rewrite Hd in Hx; inversion Hx; subst;
          unfold FirstVariadic, DefaultInitialize, CallerDefaultInitialize in *;
          split; intros; try lia; try discriminate.
      * rewrite Hother in Hx by done. apply (Hok k x); [lia|done].
    + split.
      * intros Hv.
        destruct Hcase as [(-> & _ & Hh)|[(-> & Hn & Hd & _)|(Hr & Hd & Hh)]].
        -- rewrite Hh in Hv. apply Hva in Hv as (k & Hk & Hx).
           exists k. split; [lia|]. rewrite Hother; [done|lia].
        -- exists i. split; [lia|done].
        -- rewrite Hh in Hv. apply Hva in Hv as (k & Hk & Hx).
           exists k. split; [lia|]. rewrite Hother; [done|lia].
      * intros (k & Hk & Hx). destruct (decide (k = i)) as [->|Hne].
        -- destruct Hcase as [(-> & [Hd|Hd] & _)|[(-> & Hn & Hd & Hh)|(Hr & Hd & _)]];
             rewrite Hd in Hx; inversion Hx; subst;
             unfold FirstVariadic, DefaultInitialize, CallerDefaultInitialize in *;
             try lia; try discriminate; done.
        -- rewrite Hother in Hx by done.
           assert (Hv : hasVarArg st = true) by (apply Hva; exists k; split; [lia|done]).
           destruct Hcase as [(_ & _ & Hh)|[(_ & _ & _ & Hh)|(_ & _ & Hh)]]; congruence.
Qed.

Lemma coerceVariadicArg_sources fromTuple toTuple toEltType locator idx st s st' s' :
  variadicArg fromTuple toTuple toEltType locator idx st s = Ok (Some st', s') ->
  sources st' = sources st ++ [idx] /\
  (0 <= idx < Z.of_nat (length fromTuple))%Z.
Proof.
  intros H. unfold coerceVariadicArg in H.
  destruct st as [expr srcs hva shuf inits sugar fromFields cda owner].
  step H. apply at_Ok in H0 as (Hge & Hfrom & ->).
  assert (Hrange : (0 <= idx < Z.of_nat (length fromTuple))%Z).
  { split; [done|]. apply lookup_lt_Some in Hfrom. lia. }
  destruct (isEqual toEltType (getType_elt a)).
  { inv_ret H. inversion H; subst. auto. }
  destruct (innerTupleExpr expr) as [elts|].
  2:{ step H. inv_ret H. discriminate. }
  step H. step H. destruct a1 as [convertedElt|]; inv_ret H; [|discriminate].
  inversion H; subst. auto.
Qed.

Lemma coerceVariadicArgs_sources fromTuple toTuple toEltType locator args :
  forall st s st' s',
    variadicArgs fromTuple toTuple toEltType locator args st s = Ok (Some st', s') ->
    sources st' = sources st ++ map Z.of_nat args /\
    Forall (fun idx => (idx < length fromTuple)%nat) args.
Proof.
  induction args as [|idx args IH]; intros st s st' s' H.
  - cbn in H. inv_ret H. inversion H; subst. by rewrite app_nil_r.
  - cbn [coerceVariadicArgs] in H. step H.
    destruct a as [st1|]; [|inv_ret H; discriminate].
    apply coerceVariadicArg_sources in H0 as [Hs Hr].
    apply IH in H as [Hs' Hr'].
    split.
    + rewrite Hs', Hs. cbn [map]. by rewrite <- app_assoc.
    + constructor; [lia|done].
Qed.

Lemma setTupleTypes_not_shuffle e ty sub mapping owner cda ty' inj :
  is_Some (innerTupleExpr e) ->
  setTupleTypes e ty <> TupleShuffleExpr sub mapping owner cda ty' inj.
Proof. destruct e; cbn; intros [? ?]; congruence. Qed.

(** The loop over the destination fields reads one entry of [sources]
    per field, and leaves the entries after them as they are. *)
Lemma coerceTupleFields_frame fromTuple toTuple locator n rest :
  forall i st s st' s',
    tupleFields fromTuple toTuple locator n i rest st s = Ok (Some st', s') ->
    (i <= length (sources st))%nat ->
    (i + length rest <= length (sources st))%nat /\
    forall k, (i + length rest <= k)%nat -> sources st' !! k = sources st !! k.
Proof.
  induction rest as [|toElt rest IH]; intros i st s st' s' H Hi.
  - cbn in H. inv_ret H. inversion H; subst. split; [cbn; lia|done].
  - cbn [coerceTupleFields] in H. step H.
    destruct a as [st1|]; [|inv_ret H; discriminate].
    apply coerceTupleField_sources in H0 as (src & Hsrc & Hlen & Hother & _).
    apply lookup_lt_Some in Hsrc.
    apply IH in H as [Hle Hfr]; [|lia]. cbn [length]. split; [lia|].
    intros k Hk. rewrite Hfr by lia. apply Hother. lia.
Qed.

(** The mapping of a shuffle made from a [sources] array that has exactly
    one entry per destination field. *)
Lemma shuffle_mapping_exact
        expr fromTuple toTuple locator sources0 variadicArgs0 s
        sub mapping owner cda ty inj s' :
  length sources0 = length toTuple ->
  tupleToTuple expr fromTuple toTuple locator sources0 variadicArgs0 s
    = Ok (Some (TupleShuffleExpr sub mapping owner cda ty inj), s') ->
  length mapping
    = (length toTuple
       + (if bool_decide (FirstVariadic ∈ mapping) then length variadicArgs0 else 0))%nat
  /\ (forall k, mapping !! k = Some FirstVariadic -> k = (length toTuple - 1)%nat)
  /\ (forall k src, mapping !! k = Some src ->
        (0 <= src)%Z -> (src < Z.of_nat (length fromTuple))%Z).
Proof.
  intros Hlen0 H. unfold coerceTupleToTuple in H.
  step H as Hloop. destruct a as [st|]; [|inv_ret H; discriminate].
  apply coerceTupleFields_sources in Hloop as (Hlen & Hok & Hva); cbn [sources hasVarArg].
  2:{ intros k x Hk. lia. }
  2:{ split; [discriminate|]. intros (k & Hk & _). lia. }
  cbn [sources] in Hlen. rewrite Nat.add_0_l in Hok, Hva.
  step H as Hvar. destruct a as [[st2 injectionFn]|]; [|inv_ret H; discriminate].
  assert (Hm : sources st2 = mapping).
  { destruct (negb (anythingShuffled st2)
              && bool_decide (is_Some (innerTupleExpr (curExpr st2)))) eqn:E.
    - inv_ret H. inversion H as [Heq]. exfalso.
      apply andb_true_iff in E as [_ E]. apply bool_decide_eq_true in E.
      destruct (innerTupleExpr (curExpr st2)) eqn:Ei; [|by destruct E].
      eapply setTupleTypes_not_shuffle; [|exact Heq].
      destruct (curExpr st2); cbn in *; try discriminate; eauto.
    - inv_ret H. by inversion H. }
  clear H. subst mapping.
  destruct (hasVarArg st) eqn:Ehva.
  - step Hvar as Hback. step Hvar as Hbase. step Hvar as Hargs.
    destruct a1 as [st3|]; [|inv_ret Hvar; discriminate].
    step Hvar as Hslice. step Hvar as Hinj.
    destruct a2; inv_ret Hvar; [|discriminate].
    inversion Hvar; subst. clear Hvar.
    apply coerceVariadicArgs_sources in Hargs as [Hs Hr].
    assert (Hsaw : sawVariadic (length toTuple) (sources st)) by (by apply Hva).
    rewrite Hs. split; [|split].
    + rewrite bool_decide_eq_true_2.
      * rewrite length_app, length_map. lia.
      * destruct Hsaw as (k & _ & Hk). apply elem_of_app. left.
        eapply list_elem_of_lookup_2; eauto.
    + intros k Hk. apply lookup_app_Some in Hk as [Hk|[Hge Hk]].
      * destruct (Hok k FirstVariadic); [|done|auto].
        apply lookup_lt_Some in Hk. lia.
      * rewrite list_lookup_fmap in Hk.
        destruct (variadicArgs0 !! _); inversion Hk.
        unfold FirstVariadic in *. lia.
    + intros k src Hk Hge. apply lookup_app_Some in Hk as [Hk|[Hge' Hk]].
      * destruct (Hok k src); [|done|auto].
        apply lookup_lt_Some in Hk. lia.
      * rewrite list_lookup_fmap in Hk.
        destruct (variadicArgs0 !! _) eqn:E; inversion Hk; subst.
        eapply Forall_lookup_1 in Hr; eauto. lia.
  - inv_ret Hvar. inversion Hvar; subst. clear Hvar.
    split; [|split].
    + rewrite bool_decide_eq_false_2; [lia|].
      intros Hin. apply list_elem_of_lookup in Hin as (k & Hk).
      assert (false = true); [|congruence].
      apply Hva. exists k. split; [|done]. apply lookup_lt_Some in Hk. lia.
    + intros k Hk. destruct (Hok k FirstVariadic); [|done|auto].
      apply lookup_lt_Some in Hk. lia.
    + intros k src Hk Hge. destruct (Hok k src); [|done|auto].
      apply lookup_lt_Some in Hk. lia.
Qed.
(** C4, as the code has it: the mapping recorded in a [TupleShuffleExpr].
    [coerceTupleToTuple] reads one entry of the [sources] array it is
    given per destination field, so the array has at least that many
    entries; it does not check that it has no more.  The mapping is that
    array, with the entries of the destination fields as the loop left
    them and any further entries copied unexamined, followed, when a
    destination field is variadic, by one entry per variadic source
    argument.  Among the entries of the destination fields the
    [FirstVariadic] sentinel occurs only at the last field, and every
    non-negative entry of a destination field or of a variadic argument
    indexes a field of the source tuple.  When the array has exactly one
    entry per destination field, the mapping therefore has one entry per
    destination field and one per collected argument, [FirstVariadic]
    occurs only as the entry of the last destination field, and every
    non-negative entry indexes a field of the source tuple. *)
Theorem coerceTupleToTuple_mapping
        expr fromTuple toTuple locator sources0 variadicArgs0 s
        sub mapping owner cda ty inj s' :
  tupleToTuple expr fromTuple toTuple locator sources0 variadicArgs0 s
    = Ok (Some (TupleShuffleExpr sub mapping owner cda ty inj), s') ->
  ((length toTuple <= length sources0)%nat
   /\ length mapping
      = (length sources0
         + (if bool_decide (FirstVariadic ∈ take (length toTuple) mapping)
            then length variadicArgs0 else 0))%nat
   /\ (forall k, (k < length toTuple)%nat ->
         mapping !! k = Some FirstVariadic -> k = (length toTuple - 1)%nat)
   /\ (forall k src, (k < length toTuple)%nat \/ (length sources0 <= k)%nat ->
         mapping !! k = Some src ->
         (0 <= src)%Z -> (src < Z.of_nat (length fromTuple))%Z)
   /\ (forall k, (length toTuple <= k < length sources0)%nat ->
         mapping !! k = sources0 !! k))
  /\ (length sources0 = length toTuple ->
      length mapping
        = (length toTuple
           + (if bool_decide (FirstVariadic ∈ mapping)
              then length variadicArgs0 else 0))%nat
      /\ (forall k, mapping !! k = Some FirstVariadic ->
            k = (length toTuple - 1)%nat)
      /\ (forall k src, mapping !! k = Some src ->
            (0 <= src)%Z -> (src < Z.of_nat (length fromTuple))%Z)).
Proof.
  intros H. split; [|intros Hlen0; eapply shuffle_mapping_exact; eauto].
  unfold coerceTupleToTuple in H.
  step H as Hloop. destruct a as [st|]; [|inv_ret H; discriminate].
  pose proof Hloop as Hframe.
  apply coerceTupleFields_frame in Hframe as [Hn Hfr]; [|cbn; lia].
  cbn [sources] in Hn, Hfr.
  apply coerceTupleFields_sources in Hloop as (Hlen & Hok & Hva); cbn [sources hasVarArg].
  2:{ intros k x Hk. lia. }
  2:{ split; [discriminate|]. intros (k & Hk & _). lia. }
  cbn [sources] in Hlen. rewrite Nat.add_0_l in Hok, Hva, Hn, Hfr.
  step H as Hvar. destruct a as [[st2 injectionFn]|]; [|inv_ret H; discriminate].
  assert (Hm : sources st2 = mapping).
  { destruct (negb (anythingShuffled st2)
              && bool_decide (is_Some (innerTupleExpr (curExpr st2)))) eqn:E.
    - inv_ret H. inversion H as [Heq]. exfalso.
      apply andb_true_iff in E as [_ E]. apply bool_decide_eq_true in E.
      destruct (innerTupleExpr (curExpr st2)) eqn:Ei; [|by destruct E].
      eapply setTupleTypes_not_shuffle; [|exact Heq].
      destruct (curExpr st2); cbn in *; try discriminate; eauto.
    - inv_ret H. by inversion H. }
  clear H. subst mapping.
  assert (Hsaw : FirstVariadic ∈ take (length toTuple) (sources st) <->
                 sawVariadic (length toTuple) (sources st)).
  { split.
    - intros Hin. apply list_elem_of_lookup in Hin as (k & Hk).
      pose proof (lookup_lt_Some _ _ _ Hk) as Hlt. rewrite length_take in Hlt.
      exists k. split; [lia|]. rewrite lookup_take_lt in Hk by lia. done.
    - intros (k & Hk & Hx). apply (list_elem_of_lookup_2 _ k).
      rewrite lookup_take_lt by lia. exact Hx. }
  split; [lia|].
  destruct (hasVarArg st) eqn:Ehva.
  - step Hvar as Hback. step Hvar as Hbase. step Hvar as Hargs.
    destruct a1 as [st3|]; [|inv_ret Hvar; discriminate].
    step Hvar as Hslice. step Hvar as Hinj.
    destruct a2; inv_ret Hvar; [|discriminate].
    inversion Hvar; subst. clear Hvar.
    apply coerceVariadicArgs_sources in Hargs as [Hs Hr].
    rewrite Hs. rewrite take_app_le by lia.
    split; [|split; [|split]].
    + rewrite bool_decide_eq_true_2 by (apply Hsaw; by apply Hva).
      rewrite length_app, length_map. lia.
    + intros k Hk Hx. rewrite lookup_app_l in Hx by lia.
      by destruct (Hok k FirstVariadic); auto.
    + intros k src [Hk|Hk] Hx Hge.
      * rewrite lookup_app_l in Hx by lia. by destruct (Hok k src); auto.
      * rewrite lookup_app_r in Hx by lia. rewrite list_lookup_fmap in Hx.
        destruct (variadicArgs0 !! _) eqn:E; inversion Hx; subst.
        eapply Forall_lookup_1 in Hr; eauto. lia.
    + intros k Hk. rewrite lookup_app_l by lia. apply Hfr. lia.
  - inv_ret Hvar. inversion Hvar; subst. clear Hvar.
    split; [|split; [|split]].
    + rewrite bool_decide_eq_false_2; [lia|].
      intros Hin. apply Hsaw, Hva in Hin. congruence.
    + intros k Hk Hx. by destruct (Hok k FirstVariadic); auto.
    + intros k src [Hk|Hk] Hx Hge.
      * by destruct (Hok k src); auto.
      * apply lookup_lt_Some in Hx. lia.
    + intros k Hk. apply Hfr. lia.
Qed.
End ShuffleMapping.

(** ** Coercing a tuple literal in place *)

(** [expr] with the elements of its tuple expression replaced. *)
Fixpoint setElements (e : Expr) (es : list Expr) : Expr :=
  match e with
  | ParenExpr s ty => ParenExpr (setElements s es) ty
  | TupleExpr _ im ty => TupleExpr es im ty
  | _ => e
  end.

Lemma innerTupleExpr_setElements e es :
  is_Some (innerTupleExpr e) -> innerTupleExpr (setElements e es) = Some es.
Proof. induction e; cbn; intros [? ?]; try discriminate; eauto. Qed.

Lemma setElements_id e es : innerTupleExpr e = Some es -> setElements e es = e.
Proof.
  induction e; cbn; intros H; try discriminate; auto.
  - by rewrite IHe.
  - by inversion H.
Qed.

Lemma setElements_setElements e es es' :
  setElements (setElements e es) es' = setElements e es'.
Proof. induction e; cbn; auto. by rewrite IHe. Qed.

Lemma setElement_setElements e es i x :
  setElement (setElements e es) i x = setElements e (<[i:=x]> es).
Proof. induction e; cbn; auto. by rewrite IHe. Qed.

Lemma setTupleTypes_setTupleTypes e a b :
  setTupleTypes (setTupleTypes e a) b = setTupleTypes e b.
Proof. induction e; cbn; auto. by rewrite IHe. Qed.

Lemma getType_setTupleTypes e ty :
  is_Some (innerTupleExpr e) -> getType (setTupleTypes e ty) = ty.
Proof. destruct e; cbn; intros [? ?]; try discriminate; auto. Qed.

Lemma innerTupleExpr_setTupleTypes e ty :
  innerTupleExpr (setTupleTypes e ty) = innerTupleExpr e.
Proof. induction e; cbn; auto. Qed.

Lemma setElements_setTupleTypes e es ty :
  setElements (setTupleTypes e ty) es = setTupleTypes (setElements e es) ty.
Proof. induction e; cbn; auto. by rewrite IHe. Qed.

(** The re-sugared destination fields when nothing is shuffled: the types
    of the (coerced) elements under the names and flags of the
    destination. *)
Definition resugared (toTuple : list TupleTypeElt) (es : list Expr)
  : list TupleTypeElt :=
  zip_with (fun e toElt =>
              mkTupleTypeElt (getType e) (getName toElt)
                             (getDefaultArgKind toElt) (isVararg toElt))
           es toTuple.

Section InPlace.
  Context (tc : TypeChecker) (solution : Solution).
  Variable coerceToType_ :
    Expr -> Ty -> ConstraintLocatorBuilder -> TC (option Expr).

Local Abbreviation tupleField := (coerceTupleField tc solution coerceToType_).
Local Abbreviation tupleFields := (coerceTupleFields tc solution coerceToType_).
Local Abbreviation tupleToTuple := (coerceTupleToTuple tc solution coerceToType_).

(** Element [j] of the rewritten tuple literal: left alone when the field
    types already agree, otherwise the result of coercing it. *)
Definition elementCoerced (fromTuple toTuple : list TupleTypeElt)
           (locator : ConstraintLocatorBuilder) (j : nat) (e0 e' : Expr) : Prop :=
  match fromTuple !! j, toTuple !! j with
  | Some fromElt, Some toElt =>
      if isEqual (getType_elt fromElt) (getType_elt toElt) then e' = e0
      else exists s1 s2,
          coerceToType_ e0 (getType_elt toElt)
            (withPathElement locator
               (ConstraintLocator.TupleElement (Z.of_nat j))) s1
          = Ok (Some e', s2)
  | _, _ => e' = e0
  end.

Lemma coerceTupleField_in_place fromTuple toTuple locator n i toElt st s st' s' es :
  sources st !! i = Some (Z.of_nat i) ->
  (Z.of_nat i < 2 ^ 32)%Z ->
  toTuple !! i = Some toElt ->
  innerTupleExpr (curExpr st) = Some es ->
  tupleField fromTuple toTuple locator n i toElt st s = Ok (Some st', s') ->
  exists e0 e',
    es !! i = Some e0 /\
    elementCoerced fromTuple toTuple locator i e0 e' /\
    curExpr st' = setElements (curExpr st) (<[i:=e']> es) /\
    sources st' = sources st /\
    anythingShuffled st' = anythingShuffled st /\
    hasVarArg st' = hasVarArg st /\
    hasInits st' = hasInits st || hasInit toElt /\
    toSugarFields st'
      = toSugarFields st
        ++ [mkTupleTypeElt (getType e') (getName toElt)
              (getDefaultArgKind toElt) (isVararg toElt)].
Proof.
  intros Hsrc Hi HtoElt Hes H. unfold coerceTupleField in H.
  destruct st as [expr srcs hva shuf inits sugar fromFields cda owner].
  cbn [curExpr sources] in *.
  step H as Hat. apply at_Ok in Hat as (_ & Hsrc' & ->).
  rewrite Nat2Z.id, Hsrc in Hsrc'. inversion Hsrc'; subst a. clear Hsrc'.
  destruct (Z.eqb_spec (Z.of_nat i) DefaultInitialize) as [E|_];
    [unfold DefaultInitialize in E; lia|].
  destruct (Z.eqb_spec (Z.of_nat i) FirstVariadic) as [E|_];
    [unfold FirstVariadic in E; lia|].
  assert (Hu : (toUnsigned (Z.of_nat i) =? Z.of_nat i)%Z = true).
  { apply Z.eqb_eq. unfold toUnsigned. apply Z.mod_small. lia. }
  rewrite Hu, orb_false_r in H.
  step H as Hfrom. apply at_Ok in Hfrom as (_ & Hfrom & ->).
  rewrite Nat2Z.id in Hfrom. rewrite Hes in H.
  unfold elementCoerced. rewrite Hfrom, HtoElt.
  destruct (isEqual (getType_elt a) (getType_elt toElt)).
  - step H as ty Hty. step Hty as e0 Helt. apply at_Ok in Helt as (_ & Helt & ->).
    rewrite Nat2Z.id in Helt. inv_ret Hty. inv_ret H. inversion H; subst.
    exists e0, e0. cbn. rewrite list_insert_id by done.
    rewrite setElements_id by done. auto 10.
  - step H as e0 Helt. apply at_Ok in Helt as (_ & Helt & ->).
    rewrite Nat2Z.id in Helt. step H as converted Hc.
    destruct converted as [convertedElt|]; inv_ret H; [|discriminate].
    inversion H; subst. exists e0, convertedElt. cbn.
    split; [done|]. split; [eauto|].
    split; [|auto].
    rewrite <- (setElements_id expr es) at 1 by done.
    by rewrite Nat2Z.id, setElement_setElements.
Qed.

Lemma resugared_snoc toTuple i toElt es e' :
  toTuple !! i = Some toElt ->
  (i < length es)%nat ->
  resugared (take (S i) toTuple) (<[i:=e']> es)
  = resugared (take i toTuple) es
    ++ [mkTupleTypeElt (getType e') (getName toElt)
          (getDefaultArgKind toElt) (isVararg toElt)].
Proof.
  intros Hto Hlt. unfold resugared. apply list_eq. intros k.
  assert (Hlen : length (take i toTuple) = i).
  { rewrite length_take. apply lookup_lt_Some in Hto. lia. }
  rewrite lookup_zip_with.
  destruct (lt_eq_lt_dec k i) as [[Hk| ->]|Hk].
  - rewrite lookup_app_l by (rewrite length_zip_with; lia).
    rewrite lookup_zip_with, list_lookup_insert_ne by lia.
    by rewrite !lookup_take_lt by lia.
  - rewrite list_lookup_insert_eq by done.
    rewrite lookup_take_lt by lia. rewrite Hto. cbn.
    rewrite lookup_app_r by (rewrite length_zip_with; lia).
    rewrite length_zip_with, Hlen.
    replace (i - length es `min` i)%nat with 0%nat by lia. done.
  - rewrite lookup_take_ge by lia.
    rewrite lookup_app_r by (rewrite length_zip_with; lia).
    rewrite length_zip_with, Hlen.
    destruct (<[i:=e']> es !! k); cbn;
      by destruct (k - length es `min` i)%nat eqn:E; [lia|].
Qed.

(** The state of the loop over the destination fields after [i] fields,
    while nothing has been shuffled: [es] are the elements of the tuple
    literal as rewritten so far. *)
Definition inPlaceInv (fromTuple toTuple : list TupleTypeElt)
           (locator : ConstraintLocatorBuilder) (expr : Expr) (elts : list Expr)
           (i : nat) (st : ShuffleState) (es : list Expr) : Prop :=
  curExpr st = setElements expr es /\
  length es = length elts /\
  (forall j e0, (j < i)%nat -> elts !! j = Some e0 ->
     exists e', es !! j = Some e' /\ elementCoerced fromTuple toTuple locator j e0 e') /\
  (forall j, (i <= j)%nat -> es !! j = elts !! j) /\
  toSugarFields st = resugared (take i toTuple) es /\
  hasInits st = existsb hasInit (take i toTuple) /\
  anythingShuffled st = false /\
  hasVarArg st = false /\
  (forall k, (i <= k < length toTuple)%nat -> sources st !! k = Some (Z.of_nat k)).

Lemma coerceTupleFields_in_place fromTuple toTuple locator n expr elts rest :
  is_Some (innerTupleExpr expr) ->
  (Z.of_nat (length toTuple) < 2 ^ 32)%Z ->
  forall i st s st' s' es,
    (i <= length toTuple)%nat ->
    drop i toTuple = rest ->
    inPlaceInv fromTuple toTuple locator expr elts i st es ->
    tupleFields fromTuple toTuple locator n i rest st s = Ok (Some st', s') ->
    exists es',
      inPlaceInv fromTuple toTuple locator expr elts (length toTuple) st' es'.
Proof.
  intros Hinner Hsmall.
  induction rest as [|toElt rest IH]; intros i st s st' s' es Hle Hdrop Hinv H.
  - cbn in H. inv_ret H. inversion H; subst st'. exists es.
    assert (Hi : i = length toTuple).
    { apply (f_equal length) in Hdrop. rewrite length_drop in Hdrop.
      cbn in Hdrop. lia. }
    by subst i.
  - cbn [coerceTupleFields] in H. step H as r Hstep.
    destruct r as [st1|]; [|inv_ret H; discriminate].
    destruct Hinv as (Hc & Hl & Hdone & Hrest & Hsug & Hin & Hsh & Hva & Hsrc).
    assert (HtoElt : toTuple !! i = Some toElt).
    { rewrite <- (Nat.add_0_r i), <- lookup_drop, Hdrop. done. }
    assert (Hi : (i < length toTuple)%nat) by (eapply lookup_lt_Some; eauto).
    assert (Hsrci : sources st !! i = Some (Z.of_nat i)) by (apply Hsrc; lia).
    assert (Hsmalli : (Z.of_nat i < 2 ^ 32)%Z) by lia.
    assert (Hcur : innerTupleExpr (curExpr st) = Some es).
    { rewrite Hc. by apply innerTupleExpr_setElements. }
    destruct (coerceTupleField_in_place _ _ _ _ _ _ _ _ _ _ _
                Hsrci Hsmalli HtoElt Hcur Hstep)
      as (e0 & e' & He0 & Hco & Hc1 & Hs1 & Hsh1 & Hva1 & Hin1 & Hsug1).
    eapply (IH (S i) st1 _ _ _ (<[i:=e']> es)); [lia| | |exact H].
    { rewrite (drop_S _ _ _ HtoElt) in Hdrop. by inversion Hdrop. }
    assert (Hlt : (i < length es)%nat) by (eapply lookup_lt_Some; eauto).
    repeat split.
    + by rewrite Hc1, Hc, setElements_setElements.
    + by rewrite length_insert.
    + intros j x Hj Hx. destruct (decide (j = i)) as [->|Hne].
      * exists e'. rewrite list_lookup_insert_eq by done. split; [done|].
        rewrite Hrest in He0 by lia. congruence.
      * rewrite list_lookup_insert_ne by done. apply Hdone; [lia|done].
    + intros j Hj. rewrite list_lookup_insert_ne by lia. apply Hrest. lia.
    + rewrite Hsug1, Hsug. symmetry. by apply resugared_snoc.
    + rewrite Hin1, Hin. rewrite (take_S_r _ _ _ HtoElt).
      rewrite existsb_app. cbn. by rewrite orb_false_r.
    + congruence.
    + congruence.
    + intros k Hk. rewrite Hs1. apply Hsrc. lia.
Qed.

(** C10, as the code has it: when no element is reordered,
    default-initialized or variadic and the source is a tuple literal
    (possibly in parentheses), a successful [coerceTupleToTuple] returns
    the original expression: no [TupleShuffleExpr] is built.  The tuple
    literal and the enclosing parentheses get the re-sugared destination
    type, and every element whose field type differs from the
    destination's has been replaced, in place, by its coercion; the other
    elements are untouched. *)
Theorem coerceTupleToTuple_in_place
        expr fromTuple toTuple locator variadicArgs0 elts s r s' :
  innerTupleExpr expr = Some elts ->
  (Z.of_nat (length toTuple) < 2 ^ 32)%Z ->
  tupleToTuple expr fromTuple toTuple locator
    (map Z.of_nat (seq 0 (length toTuple))) variadicArgs0 s = Ok (Some r, s') ->
  exists elts',
    r = setTupleTypes (setElements expr elts')
          (if existsb hasInit toTuple then TupleType toTuple
           else TupleType (resugared toTuple elts')) /\
    length elts' = length elts /\
    forall j e0, elts !! j = Some e0 ->
      exists e', elts' !! j = Some e' /\
                 elementCoerced fromTuple toTuple locator j e0 e'.
Proof.
  intros Hinner Hsmall H. unfold coerceTupleToTuple in H.
  step H as r1 Hloop. destruct r1 as [st|]; [|inv_ret H; discriminate].
  assert (Hinv0 : inPlaceInv fromTuple toTuple locator expr elts 0
                    (mkShuffleState expr (map Z.of_nat (seq 0 (length toTuple)))
                       false false false []
                       (replicate (length fromTuple) TupleTypeElt_default) [] None)
                    elts).
  { repeat split; cbn; auto.
    - by rewrite setElements_id.
    - intros j e0 Hj. lia.
    - unfold resugared. by destruct elts.
    - intros k Hk. rewrite list_lookup_fmap, lookup_seq_lt by lia. done. }
  destruct (coerceTupleFields_in_place fromTuple toTuple locator _ expr elts toTuple
              ltac:(eauto) Hsmall 0%nat _ _ _ _ elts ltac:(lia) eq_refl Hinv0 Hloop)
    as (es' & Hinv).
  destruct Hinv as (Hc & Hl & Hdone & Hrest & Hsug & Hin & Hsh & Hva & Hsrc).
  rewrite take_ge in Hsug, Hin by lia.
  rewrite Hva in H. step H as r2 Hr2. inv_ret Hr2.
  assert (Hcur : innerTupleExpr (curExpr st) = Some es').
  { rewrite Hc. apply innerTupleExpr_setElements. eauto. }
  rewrite Hcur, Hsh in H. cbn in H.
  inv_ret H. inversion H; subst r. clear H.
  exists es'. rewrite setTupleTypes_setTupleTypes, Hc, Hin, Hsug.
  split; [done|]. split; [done|].
  intros j e0 He0. destruct (decide (j < length toTuple)%nat); [eauto|].
  exists e0. rewrite Hrest by lia. split; [done|].
  unfold elementCoerced. rewrite (lookup_ge_None_2 toTuple j) by lia.
  by destruct (fromTuple !! j).
Qed.
End InPlace.

(** ** The type of a coerced expression *)

Lemma canonical_tuple_getAs t cs :
  getCanonicalType t = TupleType cs ->
  exists fs, getAsTupleType t = Some fs /\ map canonElt fs = cs.
Proof.
  unfold getAsTupleType.
  induction t; cbn; intros H; try discriminate; eauto.
  inversion H. eauto.
Qed.

Lemma isEqual_TupleType fs gs :
  map canonElt fs = map canonElt gs -> isEqual (TupleType fs) (TupleType gs) = true.
Proof. intros H. apply isEqual_true. cbn. by rewrite H. Qed.

Lemma isEqual_getAsTupleType t fs :
  getAsTupleType t = Some fs -> isEqual (TupleType fs) t = true.
Proof.
  intros H. apply isEqual_true. by rewrite (getAsTupleType_canonical _ _ H).
Qed.

Lemma innerTupleExpr_setElement e j x :
  innerTupleExpr (setElement e j x) = (fun es => <[j:=x]> es) <$> innerTupleExpr e.
Proof. induction e; cbn; auto. Qed.

(** What [wellTyped] says about the tuple literal inside [e]. *)
Lemma wellTyped_inner e :
  forall elts fs,
    wellTyped e = true ->
    innerTupleExpr e = Some elts ->
    getCanonicalType (getType e) = TupleType (map canonElt fs) ->
    (forall j x f, elts !! j = Some x -> fs !! j = Some f ->
                   isEqual (getType x) (getType_elt f) = true) /\
    Forall (fun x => wellTyped x = true) elts.
Proof.
  induction e; intros elts0 fs Hwt Hin Hty; cbn in Hin; try discriminate.
  - (* ParenExpr *)
    cbn in Hwt, Hty. apply andb_true_iff in Hwt as [Heq Hwt].
    apply isEqual_true in Heq. apply IHe; auto. congruence.
  - (* TupleExpr *)
    inversion Hin; subst elts0. cbn in Hwt, Hty.
    destruct (getAsTupleType ty) as [fs0|] eqn:E; [|discriminate].
    apply andb_true_iff in Hwt as [Hpair Hall].
    apply getAsTupleType_canonical in E. rewrite E in Hty.
    inversion Hty as [Hmap]. split.
    + intros j x f Hx Hf.
      assert (Hf0 : exists f0, fs0 !! j = Some f0 /\ canonElt f0 = canonElt f).
      { apply (f_equal (fun l => l !! j)) in Hmap.
        rewrite !list_lookup_fmap, Hf in Hmap. cbn in Hmap.
        destruct (fs0 !! j) as [f0|]; inversion Hmap. eauto. }
      destruct Hf0 as (f0 & Hf0 & Hc).
      rewrite forallb_forall in Hpair.
      specialize (Hpair (x, f0)). cbn in Hpair.
      eapply isEqual_trans; [apply Hpair|by apply canonElt_type].
      apply list_elem_of_In. apply list_elem_of_lookup. exists j.
      change (combine elts fs0) with (zip elts fs0).
      rewrite lookup_zip_with, Hx. cbn. by rewrite Hf0.
    + apply Forall_forall. intros x Hx. rewrite forallb_forall in Hall.
      apply Hall. by apply list_elem_of_In.
Qed.

(** No source field feeds two destination fields. *)
Definition sourcesInjective (srcs : list Z) : Prop :=
  forall k i x, srcs !! k = Some x -> srcs !! i = Some x -> (0 <= x)%Z -> k = i.

(** A coercion function gives its result the type asked for. *)
Definition coerces (f : Expr -> Ty -> ConstraintLocatorBuilder -> TC (option Expr))
  : Prop :=
  forall expr toType locator s e s',
    wellTyped expr = true ->
    f expr toType locator s = Ok (Some e, s') ->
    isEqual (getType e) toType = true.

Section TupleType.
  Context (tc : TypeChecker) (solution : Solution).
  Variable coerceToType_ :
    Expr -> Ty -> ConstraintLocatorBuilder -> TC (option Expr).
  Hypothesis coerceToType_coerces : coerces coerceToType_.

Local Abbreviation tupleField := (coerceTupleField tc solution coerceToType_).
Local Abbreviation tupleFields := (coerceTupleFields tc solution coerceToType_).
Local Abbreviation variadicArg := (coerceVariadicArg tc coerceToType_).
Local Abbreviation variadicArgs := (coerceVariadicArgs tc coerceToType_).
Local Abbreviation tupleToTuple := (coerceTupleToTuple tc solution coerceToType_).

(** The state of the loop over the destination fields after [i] fields:
    the sugared fields collected so far are canonically the destination's
    (unless a default argument was met), and the elements of the tuple
    literal that no processed field has consumed are the original ones. *)
Definition typeInv (elts0 : option (list Expr)) (toTuple : list TupleTypeElt)
           (sources0 : list Z) (i : nat) (st : ShuffleState) : Prop :=
  (hasInits st = false ->
   map canonElt (toSugarFields st) = map canonElt (take i toTuple)) /\
  match elts0 with
  | Some elts =>
      exists es, innerTupleExpr (curExpr st) = Some es /\
        forall j, (forall k, (k < i)%nat -> sources0 !! k <> Some (Z.of_nat j)) ->
                  es !! j = elts !! j
  | None => innerTupleExpr (curExpr st) = None
  end /\
  (forall k, (i <= k)%nat -> sources st !! k = sources0 !! k).

Lemma coerceTupleField_type elts0 fromTuple toTuple sources0 locator n i toElt
      st s st' s' :
  sourcesInjective sources0 ->
  toTuple !! i = Some toElt ->
  (forall elts, elts0 = Some elts ->
     (forall j x f, elts !! j = Some x -> fromTuple !! j = Some f ->
                    isEqual (getType x) (getType_elt f) = true) /\
     Forall (fun x => wellTyped x = true) elts) ->
  typeInv elts0 toTuple sources0 i st ->
  tupleField fromTuple toTuple locator n i toElt st s = Ok (Some st', s') ->
  typeInv elts0 toTuple sources0 (S i) st'.
Proof.
  intros Hinj HtoElt Helts (Hsug & Hcur & Hsrc) H.
  unfold coerceTupleField in H.
  destruct st as [expr srcs hva shuf inits sugar fromFields cda owner].
  cbn [curExpr sources hasInits toSugarFields] in *.
  assert (Htake : map canonElt (take (S i) toTuple)
                  = map canonElt (take i toTuple) ++ [canonElt toElt]).
  { by rewrite (take_S_r _ _ _ HtoElt), map_app. }
  assert (Hcur' : forall e,
             innerTupleExpr e = innerTupleExpr expr ->
             match elts0 with
             | Some elts =>
                 exists es, innerTupleExpr e = Some es /\
                   forall j, (forall k, (k < S i)%nat ->
                                        sources0 !! k <> Some (Z.of_nat j)) ->
                             es !! j = elts !! j
             | None => innerTupleExpr e = None
             end).
  { intros e He. rewrite He. destruct elts0 as [elts|]; [|done].
    destruct Hcur as (es & Hes & Horig). exists es. split; [done|].
    intros j Hj. apply Horig. intros k Hk. apply Hj. lia. }
  step H as src Hat. apply at_Ok in Hat as (_ & Hsrci & ->).
  rewrite Nat2Z.id in Hsrci.
  assert (Hsrc0 : sources0 !! i = Some src) by (rewrite <- Hsrc by lia; done).
  destruct (Z.eqb_spec src DefaultInitialize) as [->|Hnd].
  { step H as owner' Hown. step H as defArg Hdef.
    destruct defArg as [d|]; inv_ret H; inversion H; subst st';
      (split; [discriminate|]); (split; [by apply Hcur'|]);
      cbn [sources]; intros k Hk; [|apply Hsrc; lia].
    rewrite list_lookup_insert_ne by lia. apply Hsrc. lia. }
  destruct (Z.eqb_spec src FirstVariadic) as [->|Hnv].
  { step H as u Hassert. inv_ret Hassert. inv_ret H. inversion H; subst st'.
    split; [|split; [by apply Hcur'|intros k Hk; apply Hsrc; lia]].
    cbn. intros Hin. rewrite map_app, Hsug, Htake by done. done. }
  step H as fromElt Hfrom. apply at_Ok in Hfrom as (Hge & Hfrom & ->).
  (* the element at [src] has not been consumed yet *)
  assert (Hfresh : forall k, (k < i)%nat ->
                             sources0 !! k <> Some (Z.of_nat (Z.to_nat src))).
  { intros k Hk Hk'. rewrite Z2Nat.id in Hk' by done.
    specialize (Hinj k i src Hk' Hsrc0 Hge). lia. }
  destruct (isEqual (getType_elt fromElt) (getType_elt toElt)) eqn:Heq.
  - step H as ty Hty. inv_ret H. inversion H; subst st'.
    split; [|split; [by apply Hcur'|intros k Hk; apply Hsrc; lia]].
    cbn. intros Hin. apply orb_false_iff in Hin as [Hin _].
    rewrite map_app, Hsug, Htake by done. f_equal. cbn [map]. f_equal.
    apply canonElt_same.
    destruct elts0 as [elts|].
    + destruct Hcur as (es & Hes & Horig). rewrite Hes in Hty.
      step Hty as e Helt. apply at_Ok in Helt as (_ & Helt & ->).
      inv_ret Hty. rewrite Horig in Helt by done.
      destruct (Helts elts eq_refl) as [Hpair _].
      eapply isEqual_trans; [|exact Heq]. eapply Hpair; eauto.
    + rewrite Hcur in Hty. by inv_ret Hty.
  - destruct elts0 as [elts|].
    2:{ rewrite Hcur in H. step H as u Hd. inv_ret H. discriminate. }
    destruct Hcur as (es & Hes & Horig). rewrite Hes in H.
    step H as elt Helt. apply at_Ok in Helt as (_ & Helt & ->).
    step H as converted Hc.
    destruct converted as [convertedElt|]; inv_ret H; [|discriminate].
    inversion H; subst st'.
    rewrite Horig in Helt by done.
    destruct (Helts elts eq_refl) as [_ Hwt].
    assert (Hwte : wellTyped elt = true).
    { eapply (Forall_lookup_1 _ _ _ _ Hwt); eauto. }
    pose proof (coerceToType_coerces _ _ _ _ _ _ Hwte Hc) as Hconv.
    split; [|split; [|intros k Hk; apply Hsrc; lia]].
    + cbn. intros Hin. apply orb_false_iff in Hin as [Hin _].
      rewrite map_app, Hsug, Htake by done. f_equal. cbn [map]. f_equal.
      by apply canonElt_same.
    + cbn [curExpr]. rewrite innerTupleExpr_setElement, Hes. cbn.
      eexists; split; [done|]. intros j Hj.
      rewrite list_lookup_insert_ne.
      * apply Horig. intros k Hk. apply Hj. lia.
      * intros <-. apply (Hj i); [lia|]. by rewrite Z2Nat.id.
Qed.

Lemma coerceTupleFields_type elts0 fromTuple toTuple sources0 locator n rest :
  sourcesInjective sources0 ->
  (forall elts, elts0 = Some elts ->
     (forall j x f, elts !! j = Some x -> fromTuple !! j = Some f ->
                    isEqual (getType x) (getType_elt f) = true) /\
     Forall (fun x => wellTyped x = true) elts) ->
  forall i st s st' s',
    drop i toTuple = rest ->
    typeInv elts0 toTuple sources0 i st ->
    tupleFields fromTuple toTuple locator n i rest st s = Ok (Some st', s') ->
    typeInv elts0 toTuple sources0 (i + length rest) st'.
Proof.
  intros Hinj Helts.
  induction rest as [|toElt rest IH]; intros i st s st' s' Hdrop Hinv H.
  - cbn in H. inv_ret H. inversion H; subst st'. by rewrite Nat.add_0_r.
  - cbn [coerceTupleFields] in H. step H as r Hstep.
    destruct r as [st1|]; [|inv_ret H; discriminate].
    assert (HtoElt : toTuple !! i = Some toElt).
    { rewrite <- (Nat.add_0_r i), <- lookup_drop, Hdrop. done. }
    cbn [length]. replace (i + S (length rest))%nat with (S i + length rest)%nat by lia.
    eapply IH; [| |exact H].
    + rewrite (drop_S _ _ _ HtoElt) in Hdrop. by inversion Hdrop.
    + eapply coerceTupleField_type; eauto.
Qed.

(** The loop over the variadic arguments leaves the sugared destination
    fields alone. *)
Lemma coerceVariadicArgs_frame fromTuple toTuple toEltType locator args :
  forall st s st' s',
    variadicArgs fromTuple toTuple toEltType locator args st s = Ok (Some st', s') ->
    hasInits st' = hasInits st /\
    toSugarFields st' = toSugarFields st /\
    (is_Some (innerTupleExpr (curExpr st')) <-> is_Some (innerTupleExpr (curExpr st))).
Proof.
  induction args as [|idx args IH]; intros st s st' s' H.
  - cbn in H. inv_ret H. by inversion H.
  - cbn [coerceVariadicArgs] in H. step H as r Hstep.
    destruct r as [st1|]; [|inv_ret H; discriminate].
    apply IH in H as (Hi & Hs & Hin). rewrite Hi, Hs, Hin. clear IH Hi Hs Hin.
    unfold coerceVariadicArg in Hstep.
    destruct st as [expr srcs hva shuf inits sugar fromFields cda owner].
    step Hstep as fromElt Hfrom.
    destruct (isEqual toEltType (getType_elt fromElt)).
    { inv_ret Hstep. by inversion Hstep. }
    destruct (innerTupleExpr expr) as [elts|] eqn:E.
    2:{ step Hstep as u Hd. inv_ret Hstep. discriminate. }
    step Hstep as elt Helt. step Hstep as converted Hc.
    destruct converted as [convertedElt|]; inv_ret Hstep; [|discriminate].
    inversion Hstep; subst st1. cbn.
    rewrite innerTupleExpr_setElement, E. cbn. split; [done|]. split; [done|].
    split; eauto.
Qed.

(** The expression returned by [coerceTupleToTuple] has the destination
    tuple type. *)
Lemma coerceTupleToTuple_type expr fromTuple toTuple locator sources0 variadicArgs0
      s e s' :
  sourcesInjective sources0 ->
  wellTyped expr = true ->
  getAsTupleType (getType expr) = Some fromTuple ->
  tupleToTuple expr fromTuple toTuple locator sources0 variadicArgs0 s
    = Ok (Some e, s') ->
  isEqual (getType e) (TupleType toTuple) = true.
Proof.
  intros Hinj Hwt Hfrom H. unfold coerceTupleToTuple in H.
  step H as r1 Hloop. destruct r1 as [st|]; [|inv_ret H; discriminate].
  eapply (coerceTupleFields_type (innerTupleExpr expr)) with (i := 0%nat)
    in Hloop; eauto.
  2:{ intros elts He. eapply wellTyped_inner; eauto.
      by apply getAsTupleType_canonical. }
  2:{ split; [done|]. split; [|done]. cbn.
      destruct (innerTupleExpr expr); eauto. }
  destruct Hloop as (Hsug & _ & _). cbn in Hsug. rewrite take_ge in Hsug by lia.
  assert (Hty : isEqual (if hasInits st then TupleType toTuple
                         else TupleType (toSugarFields st))
                        (TupleType toTuple) = true).
  { destruct (hasInits st); [apply isEqual_refl|].
    apply isEqual_TupleType. auto. }
  step H as r2 Hvar. destruct r2 as [[st2 injectionFn]|]; [|inv_ret H; discriminate].
  assert (Hframe : hasInits st2 = hasInits st /\ toSugarFields st2 = toSugarFields st).
  { destruct (hasVarArg st).
    - step Hvar as lastField Hback. step Hvar as toEltType Hbase.
      step Hvar as r3 Hargs. destruct r3 as [st3|]; [|inv_ret Hvar; discriminate].
      step Hvar as sliceType Hslice. step Hvar as fn Hinj'.
      destruct fn; inv_ret Hvar; [|discriminate]. inversion Hvar; subst.
      apply coerceVariadicArgs_frame in Hargs as (? & ? & _). auto.
    - inv_ret Hvar. by inversion Hvar. }
  destruct Hframe as [Hi2 Hs2]. rewrite Hi2, Hs2 in H.
  destruct (negb (anythingShuffled st2)
            && bool_decide (is_Some (innerTupleExpr (curExpr st2)))) eqn:E.
  - inv_ret H. inversion H; subst e.
    apply andb_true_iff in E as [_ E]. apply bool_decide_eq_true in E.
    rewrite getType_setTupleTypes; [done|].
    destruct (innerTupleExpr (curExpr st2)) eqn:Ei; [|by destruct E].
    by rewrite innerTupleExpr_setTupleTypes, Ei.
  - inv_ret H. inversion H; subst e. done.
Qed.
End TupleType.

(** A coercion function that, besides, gives back an expression that is
    again well typed at its tuple literals. *)
Definition coercesWell
    (f : Expr -> Ty -> ConstraintLocatorBuilder -> TC (option Expr)) : Prop :=
  forall expr toType locator s e s',
    wellTyped expr = true ->
    f expr toType locator s = Ok (Some e, s') ->
    isEqual (getType e) toType = true /\ wellTyped e = true.

Lemma coercesWell_coerces f : coercesWell f -> coerces f.
Proof. intros Hf expr toType locator s e s' Hwt H. by destruct (Hf _ _ _ _ _ _ Hwt H). Qed.

(** The [sources] of a tuple shuffle are [int]s, and name no source field
    twice. *)
Definition shuffleSources (srcs : list Z) : Prop :=
  sourcesInjective srcs /\ Forall (fun x => (- 2 ^ 31 <= x < 2 ^ 31)%Z) srcs.

Lemma forallb_combine {A B} (p : A * B -> bool) (xs : list A) (ys : list B) :
  (forall j x y, xs !! j = Some x -> ys !! j = Some y -> p (x, y) = true) ->
  forallb p (combine xs ys) = true.
Proof.
  revert ys. induction xs as [|x xs IH]; intros [|y ys] H; cbn; try done.
  rewrite (H 0%nat x y) by done. cbn. apply IH.
  intros j x' y' Hx Hy. by apply (H (S j)).
Qed.

(** A tuple literal whose elements are well typed and have the types of
    the fields is well typed once it and its parentheses get the tuple type
    of those fields. *)
Lemma wellTyped_setTupleTypes e fields :
  forall es,
    innerTupleExpr e = Some es ->
    Forall (fun x => wellTyped x = true) es ->
    (forall j x f, es !! j = Some x -> fields !! j = Some f ->
                   isEqual (getType x) (getType_elt f) = true) ->
    wellTyped (setTupleTypes e (TupleType fields)) = true.
Proof.
  induction e; intros es He Hwt Hty; cbn in He; try discriminate.
  - cbn [setTupleTypes wellTyped].
    rewrite getType_setTupleTypes by (rewrite He; eauto).
    rewrite isEqual_refl. cbn. by eapply IHe.
  - inversion He; subst es. cbn. apply andb_true_iff. split.
    + apply forallb_combine. intros j x f Hx Hf. cbn. eauto.
    + apply forallb_forall. intros x Hx. rewrite Forall_forall in Hwt.
      apply Hwt. by apply list_elem_of_In.
Qed.

Section TupleWellTyped.
  Context (tc : TypeChecker) (solution : Solution).
  Variable coerceToType_ :
    Expr -> Ty -> ConstraintLocatorBuilder -> TC (option Expr).
  Hypothesis coerceToType_coercesWell : coercesWell coerceToType_.

Local Abbreviation tupleField := (coerceTupleField tc solution coerceToType_).
Local Abbreviation tupleFields := (coerceTupleFields tc solution coerceToType_).
Local Abbreviation variadicArgs := (coerceVariadicArgs tc coerceToType_).
Local Abbreviation tupleToTuple := (coerceTupleToTuple tc solution coerceToType_).

(** The state of the loop over the destination fields after [i] fields,
    as long as nothing has been shuffled: field [j] has taken element [j]
    of the tuple literal, which now has the type of the destination field
    and of the sugared field collected for it; the other elements are the
    original ones. *)
Definition placeInv (elts : list Expr) (toTuple : list TupleTypeElt)
           (i : nat) (st : ShuffleState) : Prop :=
  Forall (fun x => (x < 2 ^ 32)%Z) (sources st) /\
  (hasVarArg st = true -> anythingShuffled st = true) /\
  length (toSugarFields st) = i /\
  (anythingShuffled st = false ->
   forall es, innerTupleExpr (curExpr st) = Some es ->
     Forall (fun x => wellTyped x = true) es /\
     (forall j, (i <= j)%nat -> es !! j = elts !! j) /\
     (forall j x, (j < i)%nat -> es !! j = Some x ->
        exists f t,
          toSugarFields st !! j = Some f /\ toTuple !! j = Some t /\
          isEqual (getType x) (getType_elt f) = true /\
          isEqual (getType x) (getType_elt t) = true)).

Lemma coerceTupleField_place elts fromTuple toTuple locator n i toElt st s st' s' :
  toTuple !! i = Some toElt ->
  (forall j x f, elts !! j = Some x -> fromTuple !! j = Some f ->
                 isEqual (getType x) (getType_elt f) = true) ->
  placeInv elts toTuple i st ->
  tupleField fromTuple toTuple locator n i toElt st s = Ok (Some st', s') ->
  placeInv elts toTuple (S i) st'.
Proof.
  intros HtoElt Hpair (Hint & Hva & Hlen & Hplace) H.
  unfold coerceTupleField in H.
  destruct st as [expr srcs hva shuf inits sugar fromFields cda owner].
  cbn [curExpr sources hasVarArg anythingShuffled toSugarFields] in *.
  subst i.
  step H as src Hat. apply at_Ok in Hat as (_ & Hsrci & ->).
  rewrite Nat2Z.id in Hsrci.
  assert (Hlen' : forall f, length (sugar ++ [f]) = S (length sugar)).
  { intros f. rewrite length_app. cbn. lia. }
  destruct (Z.eqb_spec src DefaultInitialize) as [->|Hnd].
  { step H as owner' Hown. step H as defArg Hdef.
    destruct defArg as [d|]; inv_ret H; inversion H; subst st';
      unfold placeInv; cbn; (split; [|by auto]).
    - apply Forall_insert; [done|]. unfold CallerDefaultInitialize. lia.
    - done. }
  destruct (Z.eqb_spec src FirstVariadic) as [->|Hnv].
  { step H as u Hassert. inv_ret H. inversion H; subst st'.
    unfold placeInv; cbn. by auto. }
  step H as fromElt Hfrom. apply at_Ok in Hfrom as (Hge & Hfrom & ->).
  (* when nothing is shuffled, field [i] takes element [i] *)
  assert (Hsame : shuf || negb (toUnsigned src =? Z.of_nat (length sugar))%Z = false ->
                  shuf = false /\ Z.to_nat src = length sugar).
  { intros Hs. apply orb_false_iff in Hs as [-> Hs]. split; [done|].
    apply negb_false_iff, Z.eqb_eq in Hs. unfold toUnsigned in Hs.
    pose proof (Forall_lookup_1 _ _ _ _ Hint Hsrci) as Hlt. cbn in Hlt.
    rewrite Z.mod_small in Hs by lia. lia. }
  assert (Hva' : hva = true ->
                 shuf || negb (toUnsigned src =? Z.of_nat (length sugar))%Z = true).
  { intros Hv. by rewrite (Hva Hv). }
  destruct (isEqual (getType_elt fromElt) (getType_elt toElt)) eqn:Heq.
  - step H as ty Hty. apply ret_Ok in H as [H <-]. inversion H; subst st'. clear H.
    unfold placeInv; cbn [curExpr sources hasVarArg anythingShuffled toSugarFields].
    split; [done|]. split; [done|]. split; [done|].
    intros Hs es Hes. apply Hsame in Hs as [Hshuf Hsrc].
    destruct (Hplace Hshuf es Hes) as (Hwt & Horig & Hdone).
    rewrite Hes in Hty. step Hty as e He. apply at_Ok in He as (_ & He & _).
    apply ret_Ok in Hty as [Hty _]. rewrite Hsrc in He, Hfrom.
    split; [done|]. split; [intros j Hj; apply Horig; lia|].
    intros j x Hj Hx. destruct (decide (j = length sugar)) as [Hj'|Hne].
    + rewrite Hj' in Hx |- *. rewrite He in Hx. inversion Hx as [Hxe].
      eexists _, toElt. split; [|split; [done|]].
      * rewrite lookup_app_r by lia. rewrite Nat.sub_diag. done.
      * cbn. rewrite <- Hty, <- Hxe. split; [apply isEqual_refl|].
        eapply isEqual_trans; [|exact Heq].
        eapply Hpair; [|exact Hfrom]. rewrite <- Horig by lia. done.
    + destruct (Hdone j x) as (f & t & Hf & Ht & H1 & H2); [lia|done|].
      exists f, t. rewrite lookup_app_l by lia. done.
  - destruct (innerTupleExpr expr) as [cur|] eqn:Ecur.
    2:{ step H as u Hd. inv_ret H. discriminate. }
    step H as elt Helt. apply at_Ok in Helt as (_ & Helt & _).
    step H as converted Hc.
    destruct converted as [convertedElt|];
      apply ret_Ok in H as [H _]; [|discriminate].
    inversion H; subst st'. clear H.
    unfold placeInv; cbn [curExpr sources hasVarArg anythingShuffled toSugarFields].
    split; [done|]. split; [done|]. split; [done|].
    intros Hs es Hes. apply Hsame in Hs as [Hshuf Hsrc].
    destruct (Hplace Hshuf cur eq_refl) as (Hwt & Horig & Hdone).
    rewrite innerTupleExpr_setElement, Ecur in Hes. cbn in Hes.
    inversion Hes as [Hes']. clear Hes. rewrite Hsrc in *.
    assert (Hwte : wellTyped elt = true).
    { eapply (Forall_lookup_1 _ _ _ _ Hwt); eauto. }
    destruct (coerceToType_coercesWell _ _ _ _ _ _ Hwte Hc) as [Hconv Hwtc].
    split; [by apply Forall_insert|].
    split; [intros j Hj; rewrite list_lookup_insert_ne by lia; apply Horig; lia|].
    intros j x Hj Hx. destruct (decide (j = length sugar)) as [Hj'|Hne].
    + rewrite Hj' in Hx |- *.
      rewrite list_lookup_insert_eq in Hx by (by eapply lookup_lt_Some).
      inversion Hx as [Hxe].
      eexists _, toElt. split; [|split; [done|]].
      * rewrite lookup_app_r by lia. rewrite Nat.sub_diag. done.
      * cbn. rewrite <- Hxe. split; [apply isEqual_refl|done].
    + rewrite list_lookup_insert_ne in Hx by done.
      destruct (Hdone j x) as (f & t & Hf & Ht & H1 & H2); [lia|done|].
      exists f, t. rewrite lookup_app_l by lia. done.
Qed.

Lemma coerceTupleFields_place elts fromTuple toTuple locator n rest :
  (forall j x f, elts !! j = Some x -> fromTuple !! j = Some f ->
                 isEqual (getType x) (getType_elt f) = true) ->
  forall i st s st' s',
    drop i toTuple = rest ->
    placeInv elts toTuple i st ->
    tupleFields fromTuple toTuple locator n i rest st s = Ok (Some st', s') ->
    placeInv elts toTuple (i + length rest) st'.
Proof.
  intros Hpair.
  induction rest as [|toElt rest IH]; intros i st s st' s' Hdrop Hinv H.
  - cbn in H. inv_ret H. inversion H; subst st'. by rewrite Nat.add_0_r.
  - cbn [coerceTupleFields] in H. step H as r Hstep.
    destruct r as [st1|]; [|inv_ret H; discriminate].
    assert (HtoElt : toTuple !! i = Some toElt).
    { rewrite <- (Nat.add_0_r i), <- lookup_drop, Hdrop. done. }
    cbn [length]. replace (i + S (length rest))%nat with (S i + length rest)%nat by lia.
    eapply IH; [| |exact H].
    + rewrite (drop_S _ _ _ HtoElt) in Hdrop. by inversion Hdrop.
    + eapply coerceTupleField_place; eauto.
Qed.

(** The loop over the variadic arguments does not change what has been
    found out about shuffling. *)
Lemma coerceVariadicArgs_shuffled fromTuple toTuple toEltType locator args :
  forall st s st' s',
    variadicArgs fromTuple toTuple toEltType locator args st s = Ok (Some st', s') ->
    anythingShuffled st' = anythingShuffled st.
Proof.
  induction args as [|idx args IH]; intros st s st' s' H.
  - cbn in H. inv_ret H. by inversion H.
  - cbn [coerceVariadicArgs] in H. step H as r Hstep.
    destruct r as [st1|]; [|inv_ret H; discriminate].
    apply IH in H. rewrite H. clear IH H.
    unfold coerceVariadicArg in Hstep.
    destruct st as [expr srcs hva shuf inits sugar fromFields cda owner].
    step Hstep as fromElt Hfrom.
    destruct (isEqual toEltType (getType_elt fromElt)).
    { inv_ret Hstep. by inversion Hstep. }
    destruct (innerTupleExpr expr) as [elts|] eqn:E.
    2:{ step Hstep as u Hd. inv_ret Hstep. discriminate. }
    step Hstep as elt Helt. step Hstep as converted Hc.
    destruct converted as [convertedElt|]; inv_ret Hstep; [|discriminate].
    by inversion Hstep.
Qed.

(** The expression returned by [coerceTupleToTuple] is well typed at its
    tuple literals: it is a new shuffle node, or the tuple literal with
    its elements coerced and its type set to the tuple type of their
    types. *)
Lemma coerceTupleToTuple_wellTyped expr fromTuple toTuple locator sources0
      variadicArgs0 s e s' :
  Forall (fun x => (x < 2 ^ 32)%Z) sources0 ->
  wellTyped expr = true ->
  getAsTupleType (getType expr) = Some fromTuple ->
  tupleToTuple expr fromTuple toTuple locator sources0 variadicArgs0 s
    = Ok (Some e, s') ->
  wellTyped e = true.
Proof.
  intros Hint Hwt Hfrom H. unfold coerceTupleToTuple in H.
  step H as r1 Hloop. destruct r1 as [st|]; [|inv_ret H; discriminate].
  step H as r2 Hvar. destruct r2 as [[st2 injectionFn]|]; [|inv_ret H; discriminate].
  destruct (negb (anythingShuffled st2)
            && bool_decide (is_Some (innerTupleExpr (curExpr st2)))) eqn:E;
    inv_ret H; inversion H; subst e; [|reflexivity].
  apply andb_true_iff in E as [Eshuf E]. apply negb_true_iff in Eshuf.
  apply bool_decide_eq_true in E as [es Hes].
  set (elts := default [] (innerTupleExpr expr)).
  assert (Helts : forall es0, innerTupleExpr expr = Some es0 ->
            (forall j x f, es0 !! j = Some x -> fromTuple !! j = Some f ->
                           isEqual (getType x) (getType_elt f) = true) /\
            Forall (fun x => wellTyped x = true) es0).
  { intros es0 He0. eapply wellTyped_inner; eauto.
    by apply getAsTupleType_canonical. }
  assert (Hpair : forall j x f, elts !! j = Some x -> fromTuple !! j = Some f ->
                    isEqual (getType x) (getType_elt f) = true).
  { subst elts. destruct (innerTupleExpr expr) as [es0|]; [|done].
    by destruct (Helts es0 eq_refl). }
  eapply (coerceTupleFields_place elts _ _ _ _ _ Hpair 0%nat) in Hloop; [|done|].
  2:{ split; [done|]. split; [done|]. split; [done|]. cbn.
      intros _ es0 He0. subst elts. rewrite He0. cbn.
      destruct (Helts es0 He0) as [_ Hw]. split; [done|]. split; [done|].
      intros j x Hj. lia. }
  destruct Hloop as (_ & Hva & Hlen & Hplace). cbn in Hlen.
  (* nothing was shuffled, so no field is variadic *)
  assert (st2 = st) as ->.
  { destruct (hasVarArg st) eqn:Ehva.
    - exfalso. specialize (Hva eq_refl).
      step Hvar as lastField Hback. step Hvar as toEltType Hbase.
      step Hvar as r3 Hargs. destruct r3 as [st3|]; [|inv_ret Hvar; discriminate].
      step Hvar as sliceType Hslice. step Hvar as fn Hinj'.
      destruct fn; inv_ret Hvar; [|discriminate]. inversion Hvar; subst.
      apply coerceVariadicArgs_shuffled in Hargs. congruence.
    - inv_ret Hvar. by inversion Hvar. }
  destruct (Hplace Eshuf es Hes) as (Hwtes & _ & Hdone).
  rewrite Hes.
  replace (if hasInits st then TupleType toTuple else TupleType (toSugarFields st))
    with (TupleType (if hasInits st then toTuple else toSugarFields st))
    by (by destruct (hasInits st)).
  eapply wellTyped_setTupleTypes; [|exact Hwtes|].
  { by rewrite innerTupleExpr_setTupleTypes. }
  intros j x f Hx Hf.
  assert (Hj : (j < length toTuple)%nat).
  { apply lookup_lt_Some in Hf. destruct (hasInits st); lia. }
  destruct (Hdone j x Hj Hx) as (f' & t & Hf' & Ht & H1 & H2).
  destruct (hasInits st); congruence.
Qed.
End TupleWellTyped.

Section CoercionType.
  Context (tc : TypeChecker) (solution : Solution).
  Variable buildMemberRef :
    Expr -> SourceLoc -> ValueDecl -> SourceLoc -> Ty ->
    ConstraintLocatorBuilder -> bool -> TC (option Expr).
  Variable finishApply :
    Expr -> Ty -> ConstraintLocatorBuilder -> TC (option Expr).

(** What is assumed of [computeTupleShuffle]: a tuple shuffle uses no
    source field twice.  What is to be shown of [finishApply], which calls
    [coerceToType] in turn: applied to a well-typed argument it gives a
    well-typed expression. *)
Hypothesis computeTupleShuffle_sources :
  forall fromTuple toTuple labels srcs vargs,
    computeTupleShuffle tc fromTuple toTuple labels = Some (srcs, vargs) ->
    shuffleSources srcs.
Hypothesis finishApply_wellTyped :
  forall kind fn arg implicit isSuper ty openedType locator s e s',
    wellTyped arg = true ->
    finishApply (ApplyExpr kind fn arg implicit isSuper ty) openedType locator s
      = Ok (Some e, s') ->
    wellTyped e = true.

Section Step.
  Variable coerceToType_ :
    Expr -> Ty -> ConstraintLocatorBuilder -> TC (option Expr).
  Hypothesis coerceToType_coercesWell : coercesWell coerceToType_.

Lemma coerceToType_coerces : coerces coerceToType_.
Proof. by apply coercesWell_coerces. Qed.

Lemma scalarSugarFields_canonical expr toScalarIdx fields :
  forall i acc s sf s',
    scalarSugarFields expr toScalarIdx i fields acc s = Ok ((sf, false), s') ->
    map canonElt sf = map canonElt acc ++ map canonElt fields.
Proof.
  induction fields as [|field rest IH]; intros i acc s sf s' H.
  - cbn in H. inv_ret H. inversion H; subst. by rewrite app_nil_r.
  - cbn [scalarSugarFields] in H.
    destruct (hasInit field) eqn:Einit; [inv_ret H; discriminate|].
    step H as elt Helt. apply IH in H. rewrite H, map_app. cbn [map].
    rewrite <- app_assoc. cbn. do 2 f_equal.
    destruct (i =? toScalarIdx)%Z; [|by inv_ret Helt].
    destruct (isVararg field) eqn:Ev.
    + step Helt as base Hbase. step Helt as u Hassert. inv_ret Helt.
      destruct field; cbn in *. by subst.
    + step Helt as u Hassert. inv_ret Hassert. inv_ret Helt.
      apply andb_true_iff in Hassert as [_ Heq].
      unfold hasInit in Einit. apply negb_false_iff in Einit.
      destruct field as [t nm d v]; cbn in *. subst v.
      destruct d; try discriminate. by apply canonElt_eq.
Qed.

Lemma coerceScalarToTuple_type expr toTuple toScalarIdx locator s e s' :
  wellTyped expr = true ->
  coerceScalarToTuple tc solution coerceToType_ expr toTuple toScalarIdx locator s
    = Ok (Some e, s') ->
  isEqual (getType e) (TupleType toTuple) = true.
Proof.
  intros Hwt H. unfold coerceScalarToTuple in H.
  step H as lastField Hback. step H as r1 Hinj.
  destruct r1 as [injectionFn|]; [|inv_ret H; discriminate].
  step H as field Hfield. step H as toScalarType Hty. step H as r2 Hco.
  destruct r2 as [expr'|]; [|inv_ret H; discriminate].
  step H as sf Hsf. step H as elements Hel. inv_ret H. inversion H; subst e.
  cbn [getType]. destruct sf as [sugarFields [|]]; cbn [fst snd].
  - apply isEqual_refl.
  - apply scalarSugarFields_canonical in Hsf. by apply isEqual_TupleType.
Qed.

Lemma coerceExistential_type expr toType locator s e s' :
  coerceExistential tc expr toType locator s = Ok (Some e, s') ->
  getType e = toType.
Proof.
  unfold coerceExistential. intros H.
  destruct (isExistentialType toType); [|discriminate].
  step H as cs Hcs. inv_ret H. by inversion H.
Qed.

Lemma coerceToSuperclass_type expr fromType toType s e s' :
  coerceToSuperclass expr fromType toType s = Ok (Some e, s') ->
  isEqual (getType e) toType = true.
Proof.
  unfold coerceToSuperclass. intros H.
  destruct (getAsArchetypeType fromType) as [[i superclass]|].
  - cbn in H. destruct (isNull superclass); [discriminate|].
    destruct (isEqual superclass toType) eqn:E; inv_ret H; inversion H; subst e.
    + done.
    + apply isEqual_refl.
  - inv_ret H. inversion H; subst e. apply isEqual_refl.
Qed.

Lemma coerceViaUserConversion_type expr toType locator s e s' :
  wellTyped expr = true ->
  coerceViaUserConversion tc solution buildMemberRef finishApply coerceToType_
    expr toType locator s = Ok (Some e, s') ->
  isEqual (getType e) toType = true.
Proof.
  intros Hwt H. unfold coerceViaUserConversion in H.
  destruct (overloadChoices solution
              (withPathElement locator ConstraintLocator.ConversionMember))
    as [selected|].
  - step H as decl Hdecl. step H as memberRef Hmember.
    step H as openedType Hopened. step H as r Hfinish.
    destruct r as [expr'|]; [|inv_ret H; discriminate].
    eapply coerceToType_coerces; [|exact H].
    eapply finishApply_wellTyped; [|exact Hfinish]. reflexivity.
  - destruct (overloadChoices solution
                (withPathElement locator ConstraintLocator.ConstructorMember))
      as [selected|]; [|discriminate].
    assert (Hother :
              (let* decl := liftRes (getDecl selected.1) in
               let* declRef :=
                 buildMemberRef
                   (MetatypeExpr None false (getStartLoc tc expr)
                      (MetaTypeType toType))
                   (getStartLoc tc expr) decl (getStartLoc tc expr) selected.2
                   (withPathElement locator ConstraintLocator.ConstructorMember)
                   true in
               let* r := finishApply (ApplyExpr Call declRef expr true false NullType)
                           toType locator in
               match r with
               | None => ret None
               | Some expr => coerceToType_ expr toType locator
               end) s = Ok (Some e, s') ->
              isEqual (getType e) toType = true).
    { intros H'. step H' as decl Hdecl. step H' as declRef Hmember.
      step H' as r Hfinish.
      destruct r as [expr'|]; [|inv_ret H'; discriminate].
      eapply coerceToType_coerces; [|exact H'].
      eapply finishApply_wellTyped; [|exact Hfinish]. exact Hwt. }
    destruct selected.1; try (by apply Hother).
    eapply coerceToType_coerces; eauto.
Qed.

Lemma coerceScalarToTuple_wellTyped expr toTuple toScalarIdx locator s e s' :
  coerceScalarToTuple tc solution coerceToType_ expr toTuple toScalarIdx locator s
    = Ok (Some e, s') ->
  wellTyped e = true.
Proof.
  intros H. unfold coerceScalarToTuple in H.
  step H as lastField Hback. step H as r1 Hinj.
  destruct r1 as [injectionFn|]; [|inv_ret H; discriminate].
  step H as field Hfield. step H as toScalarType Hty. step H as r2 Hco.
  destruct r2 as [expr'|]; [|inv_ret H; discriminate].
  step H as sf Hsf. step H as elements Hel. inv_ret H. by inversion H.
Qed.

Lemma coerceToSuperclass_wellTyped expr fromType toType s e s' :
  coerceToSuperclass expr fromType toType s = Ok (Some e, s') ->
  wellTyped e = true.
Proof.
  unfold coerceToSuperclass. intros H.
  destruct (getAsArchetypeType fromType) as [[i superclass]|].
  - cbn in H. destruct (isNull superclass); [discriminate|].
    destruct (isEqual superclass toType); inv_ret H; by inversion H.
  - inv_ret H. by inversion H.
Qed.

Lemma coerceExistential_wellTyped expr toType locator s e s' :
  coerceExistential tc expr toType locator s = Ok (Some e, s') ->
  wellTyped e = true.
Proof.
  unfold coerceExistential. intros H.
  destruct (isExistentialType toType); [|discriminate].
  step H as cs Hcs. inv_ret H. by inversion H.
Qed.

Lemma coerceViaUserConversion_wellTyped expr toType locator s e s' :
  wellTyped expr = true ->
  coerceViaUserConversion tc solution buildMemberRef finishApply coerceToType_
    expr toType locator s = Ok (Some e, s') ->
  wellTyped e = true.
Proof.
  intros Hwt H. unfold coerceViaUserConversion in H.
  destruct (overloadChoices solution
              (withPathElement locator ConstraintLocator.ConversionMember))
    as [selected|].
  - step H as decl Hdecl. step H as memberRef Hmember.
    step H as openedType Hopened. step H as r Hfinish.
    destruct r as [expr'|]; [|inv_ret H; discriminate].
    eapply coerceToType_coercesWell; [|exact H].
    eapply finishApply_wellTyped; [|exact Hfinish]. reflexivity.
  - destruct (overloadChoices solution
                (withPathElement locator ConstraintLocator.ConstructorMember))
      as [selected|]; [|discriminate].
    assert (Hother :
              (let* decl := liftRes (getDecl selected.1) in
               let* declRef :=
                 buildMemberRef
                   (MetatypeExpr None false (getStartLoc tc expr)
                      (MetaTypeType toType))
                   (getStartLoc tc expr) decl (getStartLoc tc expr) selected.2
                   (withPathElement locator ConstraintLocator.ConstructorMember)
                   true in
               let* r := finishApply (ApplyExpr Call declRef expr true false NullType)
                           toType locator in
               match r with
               | None => ret None
               | Some expr => coerceToType_ expr toType locator
               end) s = Ok (Some e, s') ->
              wellTyped e = true).
    { intros H'. step H' as decl Hdecl. step H' as declRef Hmember.
      step H' as r Hfinish.
      destruct r as [expr'|]; [|inv_ret H'; discriminate].
      eapply coerceToType_coercesWell; [|exact H'].
      eapply finishApply_wellTyped; [|exact Hfinish]. exact Hwt. }
    destruct selected.1; try (by apply Hother).
    eapply coerceToType_coercesWell; eauto.
Qed.

Lemma coerceRestricted_wellTyped restriction expr toType locator s e s' :
  wellTyped expr = true ->
  coerceRestricted tc solution buildMemberRef finishApply coerceToType_
    restriction expr (getType expr) toType locator s = Ok (Some e, s') ->
  wellTyped e = true.
Proof.
  intros Hwt H. destruct restriction; cbn [coerceRestricted] in H.
  - discriminate.
  - destruct (getDesugaredType toType); try discriminate.
    eapply coerceScalarToTuple_wellTyped; eauto.
  - eapply coerceToSuperclass_wellTyped; eauto.
  - eapply coerceExistential_wellTyped; eauto.
  - destruct (getDesugaredType toType); try discriminate.
    step H as u Hassert. step H as valueType Hv. step H as r Hco.
    destruct r; inv_ret H; [|discriminate]. by inversion H.
  - eapply coerceViaUserConversion_wellTyped; eauto.
Qed.

Lemma coerceRestricted_type restriction expr toType locator s e s' :
      wellTyped expr = true ->
      coerceRestricted tc solution buildMemberRef finishApply coerceToType_
        restriction expr (getType expr) toType locator s = Ok (Some e, s') ->
      isEqual (getType e) toType = true.
    Proof.
      intros Hwt H. destruct restriction; cbn [coerceRestricted] in H.
      - discriminate.
      - destruct (getDesugaredType toType) as [| | | | |toTuple| | | | | | | | | | | |] eqn:E;
          try discriminate.
        eapply isEqual_trans; [eapply coerceScalarToTuple_type; eauto|].
        apply isEqual_getAsTupleType. unfold getAsTupleType. by rewrite E.
      - eapply coerceToSuperclass_type; eauto.
      - erewrite coerceExistential_type; eauto. apply isEqual_refl.
      - destruct (getDesugaredType toType); try discriminate.
        step H as u Hassert. step H as valueType Hv. step H as r Hco.
        destruct r; inv_ret H; [|discriminate]. inversion H; subst e.
        apply isEqual_refl.
      - eapply coerceViaUserConversion_type; eauto.
    Qed.
  End Step.

(** Whenever [coerceToType] returns an expression for a well-typed one,
    that expression has the type asked for, up to canonical-type
    equality, and is well typed at its tuple literals. *)
Lemma coerceToType_coercesWell fuel :
  coercesWell (coerceToType tc solution buildMemberRef finishApply fuel).
Proof.
  induction fuel as [|fuel IH]; intros expr toType locator s e s' Hwt H.
  { discriminate. }
  pose proof (coercesWell_coerces _ IH) as IHt.
  cbn [coerceToType] in H.
  destruct (isNull (getType expr) || isNull toType); [discriminate|].
  destruct (isEqual (getType expr) toType) eqn:Eeq.
  { inv_ret H. by inversion H; subst. }
  destruct (constraintRestrictions solution _ _) as [restriction|].
  { split; [eapply coerceRestricted_type|eapply coerceRestricted_wellTyped];
      eauto. }
  (* to a tuple *)
  step H as tupled Htuple.
  destruct tupled as [r|].
  { inv_ret H.
    destruct (getAsTupleType toType) as [toTuple|] eqn:Eto; [|inv_ret Htuple; discriminate].
    step Htuple as fromTupled Hfrom.
    destruct fromTupled as [r'|].
    - inv_ret Htuple. inversion Htuple; subst r'.
      destruct (getAsTupleType (getType expr)) as [fromTuple|] eqn:Efrom;
        [|inv_ret Hfrom; discriminate].
      destruct (computeTupleShuffle tc fromTuple toTuple _) as [[srcs vargs]|] eqn:Esh;
        [|inv_ret Hfrom; discriminate].
      step Hfrom as r' Hco. inv_ret Hfrom. inversion Hfrom; subst r'.
      destruct (computeTupleShuffle_sources _ _ _ _ _ Esh) as [Hinj Hint].
      split.
      + eapply isEqual_trans; [|by apply isEqual_getAsTupleType].
        eapply coerceTupleToTuple_type; eauto.
      + eapply coerceTupleToTuple_wellTyped; [exact IH| |exact Hwt|exact Efrom|exact Hco].
        eapply Forall_impl; [exact Hint|]. cbn. intros x Hx. lia.
    - destruct (negb (getFieldForScalarInit tc toTuple =? -1)%Z);
        [|inv_ret Htuple; discriminate].
      step Htuple as r' Hco. inv_ret Htuple. inversion Htuple; subst r'.
      split.
      + eapply isEqual_trans; [|by apply isEqual_getAsTupleType].
        eapply coerceScalarToTuple_type; eauto.
      + eapply coerceScalarToTuple_wellTyped; eauto. }
  (* from an lvalue *)
  destruct (getAsLValueType (getType expr)) as [[fromObject fromQuals]|].
  { step H as fe Hfe. eapply IH; [|exact H].
    by destruct (getAsLValueType toType) as [[? ?]|]. }
  (* to an lvalue *)
  destruct (getAsLValueType toType) as [[toObject toQuals]|].
  { step H as r Hco. destruct r; inv_ret H; [|discriminate].
    inversion H; subst e. split; [apply isEqual_refl|done]. }
  (* to a superclass *)
  step H as reaches Hreach.
  destruct reaches.
  { split; [eapply coerceToSuperclass_type|eapply coerceToSuperclass_wellTyped];
      eauto. }
  (* to a function type *)
  step H as funced Hfun.
  destruct funced as [r|].
  { inv_ret H.
    destruct (getAsFunctionType toType) as [[[[toInput toResult] toAuto] toBlock]|];
      [|inv_ret Hfun; discriminate].
    destruct toAuto.
    - step Hfun as r' Hco. destruct r'; [|discriminate].
      inv_ret Hfun. inversion Hfun; subst e. split; [apply isEqual_refl|done].
    - destruct (toBlock && negb _).
      + step Hfun as r' Hco. inv_ret Hfun. inversion Hfun; subst e.
        split; [apply isEqual_refl|done].
      + destruct (getAsFunctionType (getType expr)); inv_ret Hfun; [|discriminate].
        inversion Hfun; subst e. split; [apply isEqual_refl|done]. }
  (* to an existential *)
  destruct (bool_decide (is_Some (isExistentialType toType))).
  { split; [|eapply coerceExistential_wellTyped; eauto].
    erewrite coerceExistential_type; eauto. apply isEqual_refl. }
  (* to Optional<T> *)
  step H as optioned Hopt.
  destruct optioned as [r|].
  { inv_ret H.
    destruct (getAsBoundGenericType toType) as [[[| |] args]|];
      try (inv_ret Hopt; discriminate).
    step Hopt as valueType Hv. step Hopt as r' Hco.
    destruct r'; inv_ret Hopt; inversion Hopt; subst e.
    split; [apply isEqual_refl|done]. }
  (* user conversion *)
  destruct (_ || _).
  { split; [eapply coerceViaUserConversion_type
           |eapply coerceViaUserConversion_wellTyped]; eauto. }
  (* metatypes *)
  destruct (getAsMetaTypeType (getType expr)); [|discriminate].
  destruct (getAsMetaTypeType toType); [|discriminate].
  inv_ret H. inversion H; subst e. split; [apply isEqual_refl|done].
Qed.
End CoercionType.

(** ** Coercing an expression to its own type *)

Section Identity.
  Context (tc : TypeChecker) (solution : Solution).
  Variable buildMemberRef :
    Expr -> SourceLoc -> ValueDecl -> SourceLoc -> Ty ->
    ConstraintLocatorBuilder -> bool -> TC (option Expr).
  Variable finishApply :
    Expr -> Ty -> ConstraintLocatorBuilder -> TC (option Expr).

(** C8: coercing a (typed) expression to a type equal to its own returns
    the expression itself, whatever restrictions the solution holds, and
    leaves the state as it was: nothing is built. *)
Theorem coerceToType_same fuel expr T locator s :
  isNull (getType expr) = false ->
  isNull T = false ->
  isEqual (getType expr) T = true ->
  coerceToType tc solution buildMemberRef finishApply (S fuel) expr T locator s
  = Ok (Some expr, s).
Proof.
  intros Hn1 Hn2 Heq. cbn [coerceToType]. by rewrite Hn1, Hn2, Heq.
Qed.
End Identity.

(** ** A small world to run the rewriter in *)

Module Example.
Definition Int : Ty := NominalType (UserDecl 1).
Definition Int64 : Ty := BuiltinIntegerType 64.

Definition field (t : Ty) : TupleTypeElt :=
  mkTupleTypeElt t EmptyString DefaultArgumentKind.None false.

(** The shuffle of two tuples of the same length is positional; a single
    variadic destination collects every source field from its position
    on. *)
Definition positionalShuffle (fromTuple toTuple : list TupleTypeElt) (labels : bool)
  : option (list Z * list nat) :=
  match last toTuple with
  | Some lastField =>
      if isVararg lastField then
        let n := length toTuple in
        if bool_decide (n - 1 <= length fromTuple)%nat then
          Some (map Z.of_nat (seq 0 (n - 1)) ++ [FirstVariadic],
                seq (n - 1) (length fromTuple - (n - 1)))
        else None
      else if bool_decide (length fromTuple = length toTuple) then
        Some (map Z.of_nat (seq 0 (length toTuple)), [])
      else None
  | None => if bool_decide (length fromTuple = 0%nat) then Some ([], []) else None
  end.

Definition injectionFn : Expr :=
  DeclRefExpr 7%nat 0%nat true (FunctionType Int64 Int false false).

Definition tc : TypeChecker := {|
    getLoc := fun _ => 0%nat;
    getStartLoc := fun _ => 0%nat;
    getEndLoc := fun _ => 0%nat;
    computeTupleShuffle := positionalShuffle;
    hasMandatoryTupleLabels := fun _ => false;
    getFieldForScalarInit := fun _ => (-1)%Z;
    getSuperClassOf := fun _ => NullType;
    mayHaveSuperclass := fun _ => false;
    getClassOrBoundGenericClass := fun _ => false;
    getNominalOrBoundGenericNominal := fun t =>
      match getDesugaredType t with
      | NominalType _ | BoundGenericType _ _ => true
      | _ => false
      end;
    hasReferenceSemantics := fun _ => false;
    isSubtypeOf := fun _ _ => false;
    conformsToProtocol := fun _ _ => None;
    buildArrayInjectionFnRef := fun _ _ _ => ret (Some injectionFn);
    typeCheckExpression := fun e ty _ =>
      ret (false, if isNull ty then e else setType e ty);
    coerceToRValue := fun e => ret (Some e);
    simplifyLocator := fun l => l;
    resolveLocatorToDecl := fun _ _ => None;
    isAbstractFunctionDecl := fun _ => true;
    getDefaultArg := fun _ _ => (DefaultArgumentKind.Normal, NullType);
    isFuncDecl := fun _ => true;
    getDeclName := fun _ => EmptyString;
    isInvalid := fun _ => false;
    getDeclType := fun _ => NullType;
    getMembers := fun _ => [];
    getProtocolLoc := fun _ => 0%nat;
    getProtocol := fun _ _ => 0%nat;
    getWitness := fun _ d => d;
    getWitnessType := fun _ _ _ _ _ => ret NullType;
    lookupMember := fun _ _ => [];
    getTypeOfMemberReference := fun _ _ => NullType;
    solveConversion := fun _ _ _ => None;
    typeCheckCheckedCast := fun _ _ => ret Unresolved;
    getOptionalType := fun _ t => ret (OptionalType t);
    simplifyType := fun _ t => t;
    computeAssignDestType := fun dest _ => ret (getRValueType (getType dest));
    coercePatternToType := fun _ _ => ret false;
    typeCheckClosureBody := fun e => ret e
  |}.

(** A solution that records no restriction and no overload choice. *)
Definition solution : Solution := {|
    typeBindings := fun _ => None;
    overloadChoices := fun _ => None;
    constraintRestrictions := fun _ _ => None
  |}.

Definition buildMemberRef (base : Expr) (dotLoc : SourceLoc) (member : ValueDecl)
           (memberLoc : SourceLoc) (openedType : Ty)
           (locator : ConstraintLocatorBuilder) (implicit : bool)
  : TC (option Expr) :=
  ret (Some (OtherExpr 0%nat [base] memberLoc openedType)).

Definition finishApply (apply : Expr) (openedType : Ty)
           (locator : ConstraintLocatorBuilder) : TC (option Expr) :=
  ret (Some (OtherExpr 1%nat [apply] 0%nat openedType)).

Definition coerce := coerceToType tc solution buildMemberRef finishApply.

Lemma positionalShuffle_injective fromTuple toTuple labels srcs vargs :
  positionalShuffle fromTuple toTuple labels = Some (srcs, vargs) ->
  sourcesInjective srcs.
Proof.
  unfold positionalShuffle. intros H.
  assert (Hseq : forall n, sourcesInjective (map Z.of_nat (seq 0 n))).
  { intros n k i x Hk Hi _. rewrite list_lookup_fmap in Hk, Hi.
    destruct (seq 0 n !! k) as [a|] eqn:Ek; inversion Hk; subst x.
    destruct (seq 0 n !! i) as [b|] eqn:Ei; inversion Hi as [Hab].
    apply lookup_seq in Ek as [-> _]. apply lookup_seq in Ei as [-> _]. lia. }
  destruct (last toTuple) as [lastField|].
  - destruct (isVararg lastField).
    + case_bool_decide; inversion H; subst. intros k i x Hk Hi Hx.
      apply lookup_app_Some in Hk as [Hk|[_ Hk]];
        apply lookup_app_Some in Hi as [Hi|[_ Hi]].
      * eapply Hseq; eauto.
      * apply list_lookup_singleton_Some in Hi as [_ <-].
        unfold FirstVariadic in Hx. lia.
      * apply list_lookup_singleton_Some in Hk as [_ <-].
        unfold FirstVariadic in Hx. lia.
      * apply list_lookup_singleton_Some in Hk as [_ <-].
        unfold FirstVariadic in Hx. lia.
    + case_bool_decide; inversion H; subst. apply Hseq.
  - case_bool_decide; inversion H; subst. intros k i x Hk. done.
Qed.

End Example.

(** The example type checker with another tuple shuffle, another check of
    expressions and other default arguments. *)
Definition worldWith
    (shuffle : list TupleTypeElt -> list TupleTypeElt -> bool ->
               option (list Z * list nat))
    (check : Expr -> Ty -> bool -> TC (bool * Expr))
    (defaultArg : ValueDecl -> nat -> DefaultArgumentKind.t * Ty)
  : TypeChecker := {|
  getLoc := getLoc Example.tc;
  getStartLoc := getStartLoc Example.tc;
  getEndLoc := getEndLoc Example.tc;
  computeTupleShuffle := shuffle;
  hasMandatoryTupleLabels := hasMandatoryTupleLabels Example.tc;
  getFieldForScalarInit := getFieldForScalarInit Example.tc;
  getSuperClassOf := getSuperClassOf Example.tc;
  mayHaveSuperclass := mayHaveSuperclass Example.tc;
  getClassOrBoundGenericClass := getClassOrBoundGenericClass Example.tc;
  getNominalOrBoundGenericNominal := getNominalOrBoundGenericNominal Example.tc;
  hasReferenceSemantics := hasReferenceSemantics Example.tc;
  isSubtypeOf := isSubtypeOf Example.tc;
  conformsToProtocol := conformsToProtocol Example.tc;
  buildArrayInjectionFnRef := buildArrayInjectionFnRef Example.tc;
  typeCheckExpression := check;
  coerceToRValue := coerceToRValue Example.tc;
  simplifyLocator := simplifyLocator Example.tc;
  resolveLocatorToDecl := resolveLocatorToDecl Example.tc;
  isAbstractFunctionDecl := isAbstractFunctionDecl Example.tc;
  getDefaultArg := defaultArg;
  isFuncDecl := isFuncDecl Example.tc;
  getDeclName := getDeclName Example.tc;
  isInvalid := isInvalid Example.tc;
  getDeclType := getDeclType Example.tc;
  getMembers := getMembers Example.tc;
  getProtocolLoc := getProtocolLoc Example.tc;
  getProtocol := getProtocol Example.tc;
  getWitness := getWitness Example.tc;
  getWitnessType := getWitnessType Example.tc;
  lookupMember := lookupMember Example.tc;
  getTypeOfMemberReference := getTypeOfMemberReference Example.tc;
  solveConversion := solveConversion Example.tc;
  typeCheckCheckedCast := typeCheckCheckedCast Example.tc;
  getOptionalType := getOptionalType Example.tc;
  simplifyType := simplifyType Example.tc;
  computeAssignDestType := computeAssignDestType Example.tc;
  coercePatternToType := coercePatternToType Example.tc;
  typeCheckClosureBody := typeCheckClosureBody Example.tc
|}.

Module CoercionExamples.
  Import Example.

Definition x : Expr := DeclRefExpr 1%nat 0%nat false (LValueType Int 0%N).
Definition pairType : Ty := TupleType [field Int; field Int].
Definition tripleType : Ty := TupleType [field Int; field Int; field Int].
(** a variable of tuple type: not a tuple literal *)
Definition pairVar : Expr := DeclRefExpr 2%nat 0%nat false pairType.
Definition tripleVar : Expr := DeclRefExpr 3%nat 0%nat false tripleType.
(** the tuple literal [((x, x))] *)
Definition lvaluePair : Ty :=
  TupleType [field (LValueType Int 0%N); field (LValueType Int 0%N)].
Definition literal : Expr := ParenExpr (TupleExpr [x; x] false lvaluePair) lvaluePair.
Definition variadicInts : list TupleTypeElt :=
  [field Int; mkTupleTypeElt (ArraySliceType Int) EmptyString DefaultArgumentKind.None true].

Definition notExpressible : Diagnostic :=
  diagnostic 0%nat
    (diag.tuple_conversion_not_expressible pairType
       (TupleType [field Int; field (OptionalType Int)])).

Lemma coerceToType_same_witness :
  isEqual (getType x) (SubstitutedType NullType (LValueType Int 0%N)) = true /\
  coerce 1 x (SubstitutedType NullType (LValueType Int 0%N)) nullLocator []
  = Ok (Some x, []).
Proof.
  split; [reflexivity|].
  apply (coerceToType_same tc solution buildMemberRef finishApply 0 x
           (SubstitutedType NullType (LValueType Int 0%N)) nullLocator []);
    reflexivity.
Defined.

(** C4 fails as stated: for [(Int, Int, Int)] to [(Int, Int...)] the
    recorded mapping is [0, FirstVariadic, 1, 2]: four entries for two
    destination fields.  Nor does [coerceTupleToTuple] itself bound the
    array it is given: from the sources [1, 0, 7] for the two destination
    fields of [(Int, Int)] it records the mapping [1, 0, 7], whose third
    entry belongs to no destination field and indexes no source field. *)
Lemma shuffle_mapping_longer_than_destination :
  (coerce 1 tripleVar (TupleType variadicInts) nullLocator []
   = Ok (Some (TupleShuffleExpr tripleVar [0; FirstVariadic; 1; 2]%Z None []
                 (TupleType variadicInts) (Some injectionFn)), [])
   /\ length [0; FirstVariadic; 1; 2]%Z <> length variadicInts)
  /\ (coerceTupleToTuple tc solution (coerce 0) pairVar
        [field Int; field Int] [field Int; field Int] nullLocator
        [1; 0; 7]%Z [] []
      = Ok (Some (TupleShuffleExpr pairVar [1; 0; 7]%Z None [] pairType None), [])
      /\ length [1; 0; 7]%Z <> length [field Int; field Int]
      /\ ~ (7 < Z.of_nat (length [field Int; field Int]))%Z).
Proof.
  split; split; [reflexivity|cbn; lia|reflexivity|]. split; cbn; lia.
Qed.

Lemma coerceTupleToTuple_mapping_witness :
  coerceTupleToTuple tc solution (coerce 0) tripleVar
    [field Int; field Int; field Int] variadicInts nullLocator
    [0; FirstVariadic]%Z [1; 2]%nat []
  = Ok (Some (TupleShuffleExpr tripleVar [0; FirstVariadic; 1; 2]%Z None []
                (TupleType variadicInts) (Some injectionFn)), [])
  /\ length [0; FirstVariadic; 1; 2]%Z
     = (length variadicInts
        + (if bool_decide (FirstVariadic ∈ [0; FirstVariadic; 1; 2]%Z)
           then length [1; 2]%nat else 0))%nat
  /\ (forall k, [0; FirstVariadic; 1; 2]%Z !! k = Some FirstVariadic ->
                k = (length variadicInts - 1)%nat)
  /\ (forall k src, [0; FirstVariadic; 1; 2]%Z !! k = Some src ->
        (0 <= src)%Z -> (src < Z.of_nat (length [field Int; field Int; field Int]))%Z).
Proof.
  split; [reflexivity|].
  destruct (coerceTupleToTuple_mapping tc solution (coerce 0) tripleVar
              [field Int; field Int; field Int] variadicInts nullLocator
              [0; FirstVariadic]%Z [1; 2]%nat [] tripleVar _ None []
              (TupleType variadicInts) (Some injectionFn) [] eq_refl)
    as [_ Hexact].
  apply Hexact. reflexivity.
Defined.

(** C10 fails as stated: coercing the literal [((x, x))] of lvalues to
    [(Int, Int)] shuffles nothing and returns the literal, but its
    elements have been replaced by loads: more than type annotations
    changed. *)
Lemma in_place_coercion_rewrites_elements :
  coerceTupleToTuple tc solution (coerce 2) literal
    [field (LValueType Int 0%N); field (LValueType Int 0%N)]
    [field Int; field Int] nullLocator [0; 1]%Z [] []
  = Ok (Some (ParenExpr (TupleExpr [LoadExpr x Int; LoadExpr x Int] false pairType)
                pairType), [])
  /\ forall ty,
      ParenExpr (TupleExpr [LoadExpr x Int; LoadExpr x Int] false pairType) pairType
      <> setTupleTypes literal ty.
Proof. split; [reflexivity|]. intros ty. cbn. discriminate. Qed.

Lemma coerceTupleToTuple_in_place_witness :
  exists elts',
    ParenExpr (TupleExpr [LoadExpr x Int; LoadExpr x Int] false pairType) pairType
    = setTupleTypes (setElements literal elts')
        (if existsb hasInit [field Int; field Int] then TupleType [field Int; field Int]
         else TupleType (resugared [field Int; field Int] elts')) /\
    length elts' = length [x; x] /\
    forall j e0, [x; x] !! j = Some e0 ->
      exists e', elts' !! j = Some e' /\
        elementCoerced (coerce 2)
          [field (LValueType Int 0%N); field (LValueType Int 0%N)]
          [field Int; field Int] nullLocator j e0 e'.
Proof.
  apply (coerceTupleToTuple_in_place tc solution (coerce 2) literal
           [field (LValueType Int 0%N); field (LValueType Int 0%N)]
           [field Int; field Int] nullLocator [] [x; x] [] _ []);
    [reflexivity | cbn; lia | reflexivity].
Defined.
End CoercionExamples.

(** ** The traversal driver: [_] and the left side of an assignment *)

Section WalkerFacts.
Context (tc : TypeChecker) (solution : Solution).
Variable buildMemberRef :
  Expr -> SourceLoc -> ValueDecl -> SourceLoc -> Ty ->
  ConstraintLocatorBuilder -> bool -> TC (option Expr).
Variable finishApply :
  Expr -> Ty -> ConstraintLocatorBuilder -> TC (option Expr).
Variable fuel : nat.
Variable visitNewArrayExpr : Expr -> TC Expr.
Variable visitIfExpr : Expr -> TC Expr.
Variable visitAssignExpr : Expr -> TC (option Expr).
Variable visitOther : Expr -> TC (option Expr).

Local Abbreviation walk' :=
  (walk tc solution buildMemberRef finishApply fuel visitNewArrayExpr
        visitIfExpr visitAssignExpr visitOther).

Lemma walk_unfold expr :
  walk' expr =
  (let* pre := walkToExprPre tc solution buildMemberRef finishApply fuel
                 visitNewArrayExpr visitIfExpr visitAssignExpr visitOther
                 walk' expr in
   match pre with
   | (true, Some _) =>
       let* e := walkChildren walk' expr in
       match e with
       | Some e =>
           liftTC (visit tc solution buildMemberRef finishApply fuel
                     visitNewArrayExpr visitIfExpr visitAssignExpr visitOther e)
       | None => ret None
       end
   | (_, r) => ret r
   end).
Proof. destruct expr; reflexivity. Qed.

(** A [_] met while the counter is zero is diagnosed. *)
Lemma walk_discard_outside loc ty ds :
  walk' (DiscardAssignmentExpr loc ty) (mkWalkerState 0 ds) =
  Ok (Some (simplifyExprType tc solution (DiscardAssignmentExpr loc ty)),
      mkWalkerState 0
        (diagnostic (getLoc tc (DiscardAssignmentExpr loc ty))
           diag.discard_expr_outside_of_assignment :: ds)).
Proof. reflexivity. Qed.

(** A [_] met while the counter is not zero is not diagnosed. *)
Lemma walk_discard_inside loc ty n ds :
  n <> 0 ->
  walk' (DiscardAssignmentExpr loc ty) (mkWalkerState n ds) =
  Ok (Some (simplifyExprType tc solution (DiscardAssignmentExpr loc ty)),
      mkWalkerState n ds).
Proof.
  intros Hn. cbn. unfold bind, get, ret. cbn.
  destruct (Z.eqb_spec n 0) as [->|_]; [congruence|reflexivity].
Qed.

(** An unresolved reference fails the walk: its visit method answers
    null, and nothing is diagnosed. *)
Lemma walk_unresolved name loc ty w :
  walk' (UnresolvedDeclRefExpr name loc ty) w = Ok (None, w).
Proof. destruct w; reflexivity. Qed.

(** C7 against the code: the walk of [cond ? (unresolved = src) : _] from
    a zero counter.  The
    destination of the assignment fails, the counter stays at one, the
    enclosing ternary goes on to its else branch, and the [_] there, outside
    any assignment, is met with a counter of one and is not diagnosed.  The
    walk hands the ternary to [visitIfExpr] with the diagnostics it started
    with and the counter at one. *)
Theorem walk_failed_destination_skips_restore
    name l1 t1 src l2 t2 l3 t3 cond ty ds :
  let assign := AssignExpr (UnresolvedDeclRefExpr name l1 t1) src l2 t2 in
  let discard := DiscardAssignmentExpr l3 t3 in
  walk' (IfExpr cond assign discard ty) (mkWalkerState 0 ds) =
  (let* r := liftTC (visitIfExpr
                       (IfExpr cond assign
                          (simplifyExprType tc solution discard) ty)) in
   ret (Some r)) (mkWalkerState 1 ds).
Proof.
  intros assign discard. subst assign discard.
  vm_compute. destruct (visitIfExpr _ ds) as [[e ds']| |]; reflexivity.
Qed.

(** An assignment whose destination walks well: the destination is walked
    with the counter raised by one, and the source with the counter the
    assignment was met with. *)
Lemma walk_assign_discard_destination l ty src loc aty ds :
  walk' (AssignExpr (DiscardAssignmentExpr l ty) src loc aty)
        (mkWalkerState 0 ds) =
  (let* s := walk' src in
   match s with
   | None => ret None
   | Some src' =>
       liftTC (visitAssignExpr
                 (AssignExpr
                    (simplifyExprType tc solution (DiscardAssignmentExpr l ty))
                    src' loc aty))
   end) (mkWalkerState 0 ds).
Proof.
  rewrite walk_unfold.
  cbn -[walk]. unfold bind, liftTC, incrLeftSide, decrLeftSide, modify, get, ret.
  cbn -[walk].
  change ((0 + 1) `mod` 2 ^ 32) with 1.
  rewrite walk_discard_inside by discriminate. cbn -[walk].
  change ((1 - 1) `mod` 2 ^ 32) with 0.
  destruct (walk' src _) as [[[s|] w]| |]; try reflexivity.
  destruct (visitAssignExpr _ _) as [[r ds']| |]; reflexivity.
Qed.

End WalkerFacts.

Module WalkerExamples.
Import Example.

Definition visitNewArrayExpr (e : Expr) : TC Expr := ret e.
Definition visitIfExpr (e : Expr) : TC Expr := ret e.
Definition visitAssignExpr (e : Expr) : TC (option Expr) := ret (Some e).
Definition visitOther (e : Expr) : TC (option Expr) := ret (Some e).

Definition walkExpr : Expr -> Walk (option Expr) :=
  walk tc solution buildMemberRef finishApply 4 visitNewArrayExpr visitIfExpr
       visitAssignExpr visitOther.

Definition one : Expr := DeclRefExpr 1%nat 0%nat false Int.
Definition unresolved : Expr := UnresolvedDeclRefExpr "y" 1%nat NullType.
Definition discard : Expr := DiscardAssignmentExpr 2%nat Int.
Definition failedAssign : Expr :=
  AssignExpr unresolved one 3%nat (TupleType []).
(** [one ? (y = one) : _] with [y] unresolved. *)
Definition ternary : Expr := IfExpr one failedAssign discard Int.

(** The walk of [ternary] answers an expression, reports nothing about the
    [_] of its else branch, and ends with the counter at one; a [_] walked
    after it is not reported either, although it is outside any
    assignment. *)
Lemma walk_ternary_misses_discard :
  walkExpr ternary (mkWalkerState 0 []) =
    Ok (Some ternary, mkWalkerState 1 []) /\
  walkExpr (TupleExpr [ternary; discard] false (TupleType [field Int; field Int]))
           (mkWalkerState 0 []) =
    Ok (Some (TupleExpr [ternary; discard] false
                (TupleType [field Int; field Int])),
        mkWalkerState 1 []) /\
  walkExpr discard (mkWalkerState 0 []) =
    Ok (Some discard,
        mkWalkerState 0
          [diagnostic 0%nat diag.discard_expr_outside_of_assignment]).
Proof. repeat split; vm_compute; reflexivity. Qed.
End WalkerExamples.

(** ** Caller-side default arguments *)

Section CallerDefaultArg.
Context (tc : TypeChecker).


End CallerDefaultArg.

Module CallerDefaultArgExamples.
  Import Example.

Definition Str : Ty := NominalType (UserDecl 3).




End CallerDefaultArgExamples.

(** ** The map of partially applied value-type methods *)

Module PartialApplicationFacts.
Import PartialApplication.


Lemma DenseMap_insert_other k v (m : gmap ExprPtr Z) p :
  p <> k -> DenseMap_insert k v m !! p = m !! p.
Proof.
  intros H. unfold DenseMap_insert. destruct (m !! k); [done|].
  by apply lookup_insert_ne.
Qed.

Lemma deref_Ok p r n r' :
  deref p r = Ok (n, r') -> ast r !! p = Some n /\ r' = r.
Proof.
  unfold deref. destruct (ast r !! p); [|discriminate].
  intros [= -> ->]. done.
Qed.

Lemma build_Ok {A} (b : Builder A) r a r' :
  build b r = Ok (a, r') ->
  ValueTypeMemberApplications r' = ValueTypeMemberApplications r /\
  b (ast r) (diags r) = Ok (a, ast r', diags r').
Proof.
  unfold build. destruct (b (ast r) (diags r)) as [[[a' h] ds]| |]; try discriminate.
  intros [= -> <-]. done.
Qed.

Lemma get_Ok {S} (s : S) a s' : get s = Ok (a, s') -> a = s /\ s' = s.
Proof. intros [= -> ->]. done. Qed.

Section Facts.
Variable overloadChoice : ExprPtr -> option (OverloadChoice * Ty).
Variable buildMemberRef :
  ExprPtr -> SourceLoc -> ValueDecl -> SourceLoc -> Ty -> ExprPtr -> bool ->
  Builder ExprPtr.
Variable buildDynamicMemberRef :
  ExprPtr -> SourceLoc -> ValueDecl -> SourceLoc -> Ty -> ExprPtr ->
  Builder ExprPtr.
Variable buildTupleElement : ExprPtr -> nat -> Builder ExprPtr.
Variable finishApply : ExprPtr -> Ty -> ExprPtr -> Builder ExprPtr.
Variable getSemanticsProvidingExpr : AST -> ExprPtr -> ExprPtr.
Variable isFuncDecl : ValueDecl -> bool.
Variable isInstanceMember : ValueDecl -> bool.
Variable getNaturalArgumentCount : ValueDecl -> Z.

Local Abbreviation visitDot :=
  (visitUnresolvedDotExpr overloadChoice buildMemberRef buildDynamicMemberRef
     buildTupleElement isFuncDecl isInstanceMember getNaturalArgumentCount).
Local Abbreviation visitApply :=
  (visitApplyExpr finishApply getSemanticsProvidingExpr).

(** [member] is, in the heap [h], the application of a reference to the
    instance method [d] to a [self] of lvalue type. *)
Definition instanceMethodOnLValue (h : AST) (member : ExprPtr) (d : ValueDecl)
  : Prop :=
  exists m fn arg a f,
    h !! member = Some m /\ kind m = Apply fn arg /\
    h !! arg = Some a /\ is_Some (getAsLValueType (type a)) /\
    h !! fn = Some f /\ kind f = DeclRef d /\
    isFuncDecl d = true /\ isInstanceMember d = true.

Lemma valueTypeMemberApplication_method h member d :
  instanceMethodOnLValue h member d ->
  valueTypeMemberApplication isFuncDecl isInstanceMember
    getNaturalArgumentCount h member =
  Some (Some ((getNaturalArgumentCount d - 1) mod 2 ^ 32)).
Proof.
  intros (m & fn & arg & a & f & Hm & Hk & Ha & [l Hl] & Hf & Hkf & H1 & H2).
  unfold valueTypeMemberApplication.
  rewrite Hm, Hk, Ha, Hl, Hf, Hkf, H1, H2. reflexivity.
Qed.

Lemma visitUnresolvedDotExpr_tracks expr r member r' base dotLoc nameLoc im e d ty :
  ast r !! expr = Some e ->
  kind e = UnresolvedDot base dotLoc nameLoc im ->
  overloadChoice expr = Some (Decl d, ty) ->
  visitDot expr r = Ok (member, r') ->
  buildMemberRef base dotLoc d nameLoc ty expr im (ast r) (diags r)
    = Ok (member, ast r', diags r') /\
  forall fn,
    instanceMethodOnLValue (ast r') member fn ->
    ValueTypeMemberApplications r' =
      DenseMap_insert member ((getNaturalArgumentCount fn - 1) mod 2 ^ 32)
        (ValueTypeMemberApplications r).
Proof.
  intros He Hk Hsel H. unfold visitUnresolvedDotExpr in H.
  step H as e0 H0. apply deref_Ok in H0 as [H0 ->].
  rewrite He in H0. injection H0 as <-. rewrite Hk in H.
  unfold getOverloadChoice in H. rewrite Hsel in H.
  step H as sel Hs. inv_ret Hs. cbn [fst snd] in H.
  step H as m Hb. apply build_Ok in Hb as [Hmap Hb].
  step H as r1 Hg. apply get_Ok in Hg as [-> ->].
  destruct (valueTypeMemberApplication _ _ _ _ m) as [[count|]|] eqn:Hv;
    [| |discriminate].
  - step H as u Hset. inv_ret H.
    unfold setApplications, modify in Hset. injection Hset as Hset.
    subst r'. cbn [ast diags ValueTypeMemberApplications].
    split; [exact Hb|].
    intros fn Hfn. apply valueTypeMemberApplication_method in Hfn.
    rewrite Hv in Hfn. injection Hfn as ->. by rewrite Hmap.
  - inv_ret H. split; [exact Hb|].
    intros fn Hfn. apply valueTypeMemberApplication_method in Hfn.
    rewrite Hv in Hfn. discriminate.
Qed.

Lemma visitApplyExpr_advances expr r result r' :
  visitApply expr r = Ok (result, r') ->
  exists e e' fn arg,
    ast r !! expr = Some e /\
    finishApply expr (type e) expr (ast r) (diags r)
      = Ok (result, ast r', diags r') /\
    ast r' !! expr = Some e' /\ kind e' = Apply fn arg /\
    let key := getSemanticsProvidingExpr (ast r') fn in
    match ValueTypeMemberApplications r !! key with
    | None => ValueTypeMemberApplications r' = ValueTypeMemberApplications r
    | Some count =>
        0 < count /\
        ValueTypeMemberApplications r' =
          if (1 <? count)%Z
          then DenseMap_insert result (count - 1)
                 (delete key (ValueTypeMemberApplications r))
          else delete key (ValueTypeMemberApplications r)
    end.
Proof.
  intros H. unfold visitApplyExpr in H.
  step H as e He. apply deref_Ok in He as [He ->].
  step H as res Hb. apply build_Ok in Hb as [Hmap Hb].
  step H as e' He'. apply deref_Ok in He' as [He' ->].
  destruct (kind e') as [| fn arg | |] eqn:Hk; try discriminate.
  step H as r1 Hg. apply get_Ok in Hg as [-> ->].
  step H as u Hu. inv_ret H.
  exists e, e', fn, arg. cbn zeta. rewrite <- Hmap.
  destruct (ValueTypeMemberApplications _ !! _) as [count|] eqn:Hc.
  - step Hu as u1 Ha. inv_ret Ha. apply Z.ltb_lt in Ha.
    step Hu as u2 Hd. unfold setApplications, modify in Hd.
    injection Hd as Hd. subst.
    destruct (1 <? count)%Z eqn:H1.
    + unfold setApplications, modify in Hu. injection Hu as Hu. subst r'.
      cbn. rewrite Hc, H1. repeat split; try done.
    + inv_ret Hu. cbn. rewrite Hc, H1. repeat split; try done.
  - inv_ret Hu. rewrite Hc. repeat split; try done.
Qed.





End Facts.
End PartialApplicationFacts.

Module PartialApplicationExamples.
Import PartialApplication PartialApplicationFacts.

(** [s.f(a)(b)] with [f] an instance method of natural argument count 3:
    node 1 is [s.f] before it is resolved, node 2 is [s], node 5 applies the
    member reference (node 4, built by [buildMemberRef]) to [a], and node 7
    applies node 5 to [b]. *)
Definition self : Ty := LValueType (NominalType (UserDecl 1)) 0%N.
Definition f : ValueDecl := 9%nat.

Definition heap0 : AST :=
  <[1%nat := mkNode (UnresolvedDot 2%nat 0%nat 0%nat false) NullType 0%nat]>
  (<[2%nat := mkNode Other self 0%nat]>
  (<[5%nat := mkNode (Apply 4%nat 6%nat) NullType 0%nat]>
  (<[6%nat := mkNode Other NullType 0%nat]>
  (<[7%nat := mkNode (Apply 5%nat 8%nat) NullType 0%nat]>
  (<[8%nat := mkNode Other NullType 0%nat]> ∅))))).

Definition overloadChoice (expr : ExprPtr) : option (OverloadChoice * Ty) :=
  Some (Decl f, NullType).
Definition buildMemberRef (base : ExprPtr) (dotLoc : SourceLoc) (d : ValueDecl)
    (nameLoc : SourceLoc) (ty : Ty) (anchor : ExprPtr) (implicit : bool)
  : Builder ExprPtr :=
  fun h ds =>
    Ok (4%nat,
        <[4%nat := mkNode (Apply 3%nat base) ty dotLoc]>
          (<[3%nat := mkNode (DeclRef d) ty nameLoc]> h),
        ds).
Definition buildDynamicMemberRef (base : ExprPtr) (dotLoc : SourceLoc)
    (d : ValueDecl) (nameLoc : SourceLoc) (ty : Ty) (anchor : ExprPtr)
  : Builder ExprPtr := fun h ds => Ok (base, h, ds).
Definition buildTupleElement (expr : ExprPtr) (i : nat) : Builder ExprPtr :=
  fun h ds => Ok (expr, h, ds).
Definition finishApply (expr : ExprPtr) (ty : Ty) (anchor : ExprPtr)
  : Builder ExprPtr := fun h ds => Ok (expr, h, ds).
Definition getSemanticsProvidingExpr (h : AST) (p : ExprPtr) : ExprPtr := p.
Definition isFuncDecl (d : ValueDecl) : bool := true.
Definition isInstanceMember (d : ValueDecl) : bool := true.
Definition getNaturalArgumentCount (d : ValueDecl) : Z := 3.

Definition visitDot : ExprPtr -> RW ExprPtr :=
  visitUnresolvedDotExpr overloadChoice buildMemberRef buildDynamicMemberRef
    buildTupleElement isFuncDecl isInstanceMember getNaturalArgumentCount.
Definition visitApply : ExprPtr -> RW ExprPtr :=
  visitApplyExpr finishApply getSemanticsProvidingExpr.

Definition heap1 : AST :=
  <[4%nat := mkNode (Apply 3%nat 2%nat) NullType 0%nat]>
    (<[3%nat := mkNode (DeclRef f) NullType 0%nat]> heap0).

Definition start : Rewriter := mkRewriter heap0 ∅ [].
Definition afterDot : Rewriter := mkRewriter heap1 {[ 4%nat := 2 ]} [].
Definition afterFirstApply : Rewriter :=
  mkRewriter heap1 {[ 5%nat := 1 ]} [].

Lemma visitDot_run : visitDot 1%nat start = Ok (4%nat, afterDot).
Proof. vm_compute. reflexivity. Qed.

Lemma visitApply_run : visitApply 5%nat afterDot = Ok (5%nat, afterFirstApply).
Proof. vm_compute. reflexivity. Qed.


End PartialApplicationExamples.

(** ** Literal conversions *)

Section LiteralFacts.
Context (tc : TypeChecker).
Variable buildMemberRef :
  Solution -> Expr -> SourceLoc -> ValueDecl -> SourceLoc -> Ty ->
  ConstraintLocatorBuilder -> bool -> TC (option Expr).
Variable finishApply :
  Solution -> Expr -> Ty -> ConstraintLocatorBuilder -> TC (option Expr).

(** The parameters of [convertLiteral] that the recursive call hands on
    unchanged. *)
Variable builtinProtocol : ProtocolDecl.
Variable builtinLiteralType : TypeOrName.
Variable builtinLiteralFuncName : Identifier.
Variable isBuiltinArgType : option (Ty -> bool).
Variables brokenProtocolDiag brokenBuiltinProtocolDiag : diag.ID.

Local Abbreviation convert fuel literal type openedType protocol literalType
  literalFuncName :=
  (convertLiteral tc buildMemberRef finishApply fuel literal type openedType
     protocol literalType literalFuncName builtinProtocol builtinLiteralType
     builtinLiteralFuncName isBuiltinArgType brokenProtocolDiag
     brokenBuiltinProtocolDiag).

(** The argument type of a literal protocol: given directly, or the
    witness of the associated type of that name. *)
Definition argTypeOf (literalType : TypeOrName) (type : Ty)
    (protocol : ProtocolDecl) (conformance : option ProtocolConformance)
    (d : diag.ID) : TC Ty :=
  match literalType with
  | IsType t => ret t
  | IsName n => getWitnessType tc type protocol conformance n d
  end.

(** [result] is one call of the witness [name] of [protocol] on the
    metatype of [type], with [argument] as its only argument, retyped to
    [type]. *)
Definition witnessCall (type : Ty) (protocol : ProtocolDecl)
    (conformance : option ProtocolConformance) (name : Identifier)
    (argument : Expr) (d : diag.ID) (result : Expr) (s s' : Diags) : Prop :=
  exists call,
    callWitness tc buildMemberRef finishApply
      (MetatypeExpr None false (getLoc tc argument) (MetaTypeType type))
      protocol conformance name [argument] d s = Ok (Some call, s') /\
    result = setType call type.

(** [result] converts [literal] to [type] through the builtin protocol. *)
Definition builtinConversion (type : Ty) (literal result : Expr)
    (s s' : Diags) : Prop :=
  exists conformance argType s1,
    conformsToProtocol tc type builtinProtocol = Some conformance /\
    argTypeOf builtinLiteralType type builtinProtocol conformance
      brokenBuiltinProtocolDiag s = Ok (argType, s1) /\
    isNull argType = false /\
    match isBuiltinArgType with
    | Some accepts => accepts argType = true
    | None => True
    end /\
    witnessCall type builtinProtocol conformance builtinLiteralFuncName
      (setType literal argType) brokenBuiltinProtocolDiag result s1 s'.

Lemma convertLiteral_builtin fuel literal type openedType protocol literalType
    literalFuncName conformance s r s' :
  conformsToProtocol tc type builtinProtocol = Some conformance ->
  convert fuel literal type openedType protocol literalType literalFuncName s
    = Ok (Some r, s') ->
  builtinConversion type literal r s s'.
Proof.
  intros Hc H. destruct fuel as [|fuel]; [discriminate|].
  cbn [convertLiteral] in H. rewrite Hc in H.
  step H as argType Harg.
  destruct (isNull argType) eqn:Hnull; [inv_ret H; discriminate|].
  destruct (match isBuiltinArgType with
            | Some accepts => negb (accepts argType)
            | None => false
            end) eqn:Hacc.
  { step H as u Hd. inv_ret H. discriminate. }
  step H as result Hcall.
  destruct result as [call|]; inv_ret H; [|discriminate].
  injection H as <-.
  exists conformance, argType, s0. repeat split; try done.
  - destruct isBuiltinArgType as [accepts|]; [|done].
    by apply negb_false_iff in Hacc.
  - by exists call.
Qed.

(** Two levels of recursion are all [convertLiteral] uses: the recursive
    call passes no general protocol. *)
Lemma convertLiteral_fuel fuel literal type openedType protocol literalType
    literalFuncName s :
  convert (S (S fuel)) literal type openedType protocol literalType
    literalFuncName s
  = convert 2 literal type openedType protocol literalType literalFuncName s.
Proof.
  cbn [convertLiteral].
  destruct (conformsToProtocol tc type builtinProtocol); [reflexivity|].
  destruct protocol as [p|]; [|reflexivity].
  destruct (conformsToProtocol tc type p) as [conformance|]; [|reflexivity].
  apply bind_ext. intros argType s1.
  destruct (isNull argType); [reflexivity|].
  apply bind_cong.
  destruct fuel as [|fuel]; [reflexivity|].
  cbn [convertLiteral].
  destruct (conformsToProtocol tc argType builtinProtocol); reflexivity.
Qed.

(** C2, as the code has it: [convertLiteral] needs no more than two levels
    of recursion, and whenever it returns an expression, that expression
    has the type [type] and is built as follows.  If [type] conforms to
    the builtin protocol, it is one call of the builtin witness whose only
    argument is the literal retyped to the builtin argument type.
    Otherwise [type] conforms to the general protocol, the literal is
    first converted through the builtin protocol to the argument type of
    the general protocol, and the converted literal is the only argument
    of one call of the general witness.  (The result is null when an
    argument type is missing or rejected, or a witness call fails.) *)
Theorem convertLiteral_calls fuel literal type openedType protocol literalType
    literalFuncName s :
  convert (S (S fuel)) literal type openedType protocol literalType
    literalFuncName s
  = convert 2 literal type openedType protocol literalType literalFuncName s /\
  forall r s',
    convert fuel literal type openedType protocol literalType literalFuncName s
      = Ok (Some r, s') ->
    getType r = type /\
    match conformsToProtocol tc type builtinProtocol with
    | Some _ => builtinConversion type literal r s s'
    | None =>
        exists p conformance argType s1 converted s2,
          protocol = Some p /\
          conformsToProtocol tc type p = Some conformance /\
          argTypeOf literalType type p conformance brokenProtocolDiag s
            = Ok (argType, s1) /\
          builtinConversion argType literal converted s1 s2 /\
          witnessCall type p conformance literalFuncName converted
            brokenProtocolDiag r s2 s'
    end.
Proof.
  split; [apply convertLiteral_fuel|].
  intros r s' H.
  destruct (conformsToProtocol tc type builtinProtocol) as [bc|] eqn:Hbc.
  - pose proof (convertLiteral_builtin _ _ _ _ _ _ _ _ _ _ _ Hbc H) as Hb.
    split; [|exact Hb].
    destruct Hb as (c & argType & s1 & _ & _ & _ & _ & call & _ & ->).
    apply getType_setType.
  - destruct fuel as [|fuel]; [discriminate|].
    cbn [convertLiteral] in H. rewrite Hbc in H.
    destruct protocol as [p|]; [|discriminate].
    destruct (conformsToProtocol tc type p) as [conformance|] eqn:Hc;
      [|discriminate].
    step H as argType Harg.
    destruct (isNull argType) eqn:Hnull; [inv_ret H; discriminate|].
    step H as converted Hconv.
    destruct converted as [converted|]; [|inv_ret H; discriminate].
    step H as result Hcall.
    destruct result as [call|]; inv_ret H; [|discriminate].
    injection H as <-.
    split; [apply getType_setType|].
    destruct (conformsToProtocol tc argType builtinProtocol) as [bc|] eqn:Hbc'.
    + exists p, conformance, argType, s0, converted, s1.
      repeat split; try done.
      * eapply convertLiteral_builtin; eassumption.
      * by exists call.
    + destruct fuel as [|fuel]; [discriminate|].
      cbn [convertLiteral] in Hconv. rewrite Hbc' in Hconv. discriminate.
Qed.

End LiteralFacts.

(** ** Conversions to builtin logic values and array bounds *)

Section BuiltinValueFacts.
Context (tc : TypeChecker).
Variable buildMemberRef :
  Solution -> Expr -> SourceLoc -> ValueDecl -> SourceLoc -> Ty ->
  ConstraintLocatorBuilder -> bool -> TC (option Expr).
Variable finishApply :
  Solution -> Expr -> Ty -> ConstraintLocatorBuilder -> TC (option Expr).
Variable solution : Solution.

(** [result] is what [finishApply] made of a call, built here, of some
    member reference on the empty tuple. *)
Definition finishedCall (locator : ConstraintLocatorBuilder) (result : Expr)
    (s' : Diags) : Prop :=
  exists memberRef openedType s1,
    finishApply solution
      (ApplyExpr Call memberRef emptyTupleExpr true false NullType)
      openedType locator s1 = Ok (Some result, s').

Lemma convertViaBuiltinProtocol_call expr locator protocol generalName
    builtinName d1 d2 s r s' :
  convertViaBuiltinProtocol tc buildMemberRef finishApply solution expr
    locator protocol generalName builtinName d1 d2 s = Ok (Some r, s') ->
  finishedCall locator r s'.
Proof.
  intros H. unfold convertViaBuiltinProtocol in H.
  step H as found Hfound.
  destruct found as [[expr' witnesses]|]; [|inv_ret H; discriminate].
  destruct witnesses as [|builtinMethod [|? ?]].
  - step H as u Hu. inv_ret H. discriminate.
  - destruct (negb (isFuncDecl tc builtinMethod)).
    + step H as u Hu. inv_ret H. discriminate.
    + step H as openedType Ho. step H as memberRef Hm.
      by exists memberRef, openedType, s2.
  - step H as u Hu. inv_ret H. discriminate.
Qed.

(** C3, as the code has it.  [convertToLogicValue] on an expression whose
    rvalue type is the 1-bit builtin integer is [coerceToRValue] of that
    expression and nothing else.  [convertToArrayBound] has no such
    shortcut: whatever the type of its input, an expression it returns is
    a finished call of a member on the empty tuple, and its type is a
    builtin integer type. *)
Theorem convertToLogicValue_shortcut_only :
  (forall expr locator,
     isBuiltinIntegerType (getRValueType (getType expr)) 1 = true ->
     convertToLogicValue tc buildMemberRef finishApply solution expr locator
     = coerceToRValue tc expr) /\
  (forall expr locator s r s',
     convertToArrayBound tc buildMemberRef finishApply solution expr locator s
       = Ok (Some r, s') ->
     finishedCall locator r s' /\
     is_Some (getAsBuiltinIntegerType (getType r))).
Proof.
  split.
  - intros expr locator H. unfold convertToLogicValue. by rewrite H.
  - intros expr locator s r s' H. unfold convertToArrayBound in H.
    step H as result Hr.
    destruct result as [r'|]; [|inv_ret H; discriminate].
    destruct (negb (bool_decide (is_Some (getAsBuiltinIntegerType (getType r')))))
      eqn:Hty.
    + step H as u Hu. inv_ret H. discriminate.
    + inv_ret H. injection H as ->.
      apply negb_false_iff, bool_decide_eq_true in Hty.
      split; [|exact Hty].
      eapply convertViaBuiltinProtocol_call. exact Hr.
Qed.

End BuiltinValueFacts.

(** ** Conditional checked casts *)

Section CastFacts.
Context (tc : TypeChecker) (solution : Solution).
Variable buildMemberRef :
  Expr -> SourceLoc -> ValueDecl -> SourceLoc -> Ty ->
  ConstraintLocatorBuilder -> bool -> TC (option Expr).
Variable finishApply :
  Expr -> Ty -> ConstraintLocatorBuilder -> TC (option Expr).
Variable fuel : nat.

(** C9, as the code has it.  Take an [as?] cast to [castTy] whose node
    [visitConditionalCheckedCastExpr] has given the type [optTy], the
    optional of [castTy], and which [checkCheckedCastExpr] classifies as
    [InvalidCoercible], leaving [sub'] as the sub-expression.  If [optTy]
    equals the type of [sub'], the result is [sub'] itself, and its type
    is then the optional type [optTy].  Otherwise the result is an
    [InjectIntoOptionalExpr], of type optional of [castTy], around what
    [coerceToType] makes of [sub'] and [castTy]. *)
Theorem visitConditionalCheckedCastExpr_InvalidCoercible
    sub loc castTy castKind implicit ty s optTy s0 sub' s1 :
  getOptionalType tc loc castTy s = Ok (optTy, s0) ->
  checkCheckedCastExpr tc ConditionalCheckedCast sub loc castTy castKind
    implicit optTy s0
  = Ok ((InvalidCoercible,
         CheckedCastExpr ConditionalCheckedCast sub' loc castTy castKind
           implicit optTy), s1) ->
  isNull optTy = false -> isNull (getType sub') = false ->
  let sd := if implicit then s1
            else diagnostic loc (diag.downcast_to_supertype (getType sub') castTy)
                 :: s1 in
  visitConditionalCheckedCastExpr tc solution buildMemberRef finishApply fuel
    (CheckedCastExpr ConditionalCheckedCast sub loc castTy castKind implicit ty) s
  = (if isEqual optTy (getType sub') then Ok (Some sub', sd)
     else
       match coerceToType tc solution buildMemberRef finishApply fuel sub' castTy
               (getConstraintLocator
                  (CheckedCastExpr ConditionalCheckedCast sub' loc castTy
                     castKind implicit optTy) []) sd with
       | Ok (coerced, s') =>
           Ok (Some (InjectIntoOptionalExpr coerced (OptionalType castTy)), s')
       | Abort => Abort
       | OutOfFuel => OutOfFuel
       end) /\
  (isEqual optTy (getType sub') = true ->
   getCanonicalType (getType sub') = getCanonicalType optTy).
Proof.
  intros Hopt Hcheck Hn1 Hn2 sd. split.
  - unfold visitConditionalCheckedCastExpr.
    unfold bind at 1. rewrite Hopt.
    unfold checkAsCastExpr. unfold bind at 1. rewrite Hcheck.
    rewrite Hn1, Hn2. cbn [orb].
    destruct implicit; cbn [negb]; unfold bind at 1; cbn;
      destruct (isEqual optTy (getType sub')); try reflexivity.
  - intros H. symmetry. by apply isEqual_true.
Qed.

End CastFacts.

(** ** Examples with protocols and casts *)

Module ProtocolExamples.
Import Example.

(** The example type checker with other answers about conformances,
    protocol members, member lookup, conversions and checked casts. *)
Definition withProtocols
    (conforms : Ty -> ProtocolDecl -> option (option ProtocolConformance))
    (members : ProtocolDecl -> list ValueDecl)
    (name : ValueDecl -> Identifier)
    (declType : ValueDecl -> Ty)
    (lookup : Ty -> Identifier -> list ValueDecl)
    (memberType : Ty -> ValueDecl -> Ty)
    (solve : Ty -> Ty -> ConstraintLocatorBuilder -> option Solution)
    (cast : Ty -> Ty -> TC CheckedCastKind) : TypeChecker := {|
  getLoc := getLoc tc;
  getStartLoc := getStartLoc tc;
  getEndLoc := getEndLoc tc;
  computeTupleShuffle := computeTupleShuffle tc;
  hasMandatoryTupleLabels := hasMandatoryTupleLabels tc;
  getFieldForScalarInit := getFieldForScalarInit tc;
  getSuperClassOf := getSuperClassOf tc;
  mayHaveSuperclass := mayHaveSuperclass tc;
  getClassOrBoundGenericClass := getClassOrBoundGenericClass tc;
  getNominalOrBoundGenericNominal := getNominalOrBoundGenericNominal tc;
  hasReferenceSemantics := hasReferenceSemantics tc;
  isSubtypeOf := isSubtypeOf tc;
  conformsToProtocol := conforms;
  buildArrayInjectionFnRef := buildArrayInjectionFnRef tc;
  typeCheckExpression := typeCheckExpression tc;
  coerceToRValue := coerceToRValue tc;
  simplifyLocator := simplifyLocator tc;
  resolveLocatorToDecl := resolveLocatorToDecl tc;
  isAbstractFunctionDecl := isAbstractFunctionDecl tc;
  getDefaultArg := getDefaultArg tc;
  isFuncDecl := isFuncDecl tc;
  getDeclName := name;
  isInvalid := isInvalid tc;
  getDeclType := declType;
  getMembers := members;
  getProtocolLoc := getProtocolLoc tc;
  getProtocol := getProtocol tc;
  getWitness := getWitness tc;
  getWitnessType := getWitnessType tc;
  lookupMember := lookup;
  getTypeOfMemberReference := memberType;
  solveConversion := solve;
  typeCheckCheckedCast := cast;
  getOptionalType := getOptionalType tc;
  simplifyType := simplifyType tc;
  computeAssignDestType := computeAssignDestType tc;
  coercePatternToType := coercePatternToType tc;
  typeCheckClosureBody := typeCheckClosureBody tc
|}.

Definition buildMemberRefFor (_ : Solution) := buildMemberRef.
Definition finishApplyFor (_ : Solution) := finishApply.

(** *** Integer literals *)

Definition Int2048 : Ty := BuiltinIntegerType 2048.
Definition MyInt : Ty := NominalType (UserDecl 2).
Definition BuiltinIntegerLiteralConvertibleDecl : ProtocolDecl := 1%nat.
Definition IntegerLiteralConvertibleDecl : ProtocolDecl := 2%nat.
Definition convertFromBuiltin : ValueDecl := 21%nat.
Definition convertFromInteger : ValueDecl := 22%nat.

(** [Int] conforms to the builtin protocol, [MyInt] to the general one. *)
Definition literalConformances (t : Ty) (p : ProtocolDecl)
  : option (option ProtocolConformance) :=
  if bool_decide (t = Int) && (p =? BuiltinIntegerLiteralConvertibleDecl)%nat
  then Some (Some 11%nat)
  else if bool_decide (t = MyInt) && (p =? IntegerLiteralConvertibleDecl)%nat
  then Some (Some 12%nat)
  else None.

Definition literalMembers (p : ProtocolDecl) : list ValueDecl :=
  if (p =? BuiltinIntegerLiteralConvertibleDecl)%nat then [convertFromBuiltin]
  else if (p =? IntegerLiteralConvertibleDecl)%nat then [convertFromInteger]
  else [].

Definition literalNames (d : ValueDecl) : Identifier :=
  if (d =? convertFromBuiltin)%nat then "_convertFromBuiltinIntegerLiteral"
  else if (d =? convertFromInteger)%nat then "convertFromIntegerLiteral"
  else "other".

Definition literalMemberType (base : Ty) (d : ValueDecl) : Ty :=
  if (d =? convertFromBuiltin)%nat then FunctionType Int2048 Int false false
  else FunctionType Int MyInt false false.

Definition literalWorld (members : ProtocolDecl -> list ValueDecl) : TypeChecker :=
  withProtocols literalConformances members literalNames (fun _ => NullType)
    (fun _ _ => []) literalMemberType (fun _ _ _ => Some solution)
    (fun _ _ => ret Unresolved).

Definition brokenProto : diag.ID := diag.broken_protocol "integer_literal_broken_proto".
Definition brokenBuiltinProto : diag.ID :=
  diag.broken_protocol "builtin_integer_literal_broken_proto".

Definition convertIntegerLiteral (members : ProtocolDecl -> list ValueDecl)
    (fuel : nat) (literal : Expr) (type : Ty) : TC (option Expr) :=
  convertLiteral (literalWorld members) buildMemberRefFor finishApplyFor fuel
    literal type type (Some IntegerLiteralConvertibleDecl) (IsType Int)
    "convertFromIntegerLiteral" BuiltinIntegerLiteralConvertibleDecl
    (IsType Int2048) "_convertFromBuiltinIntegerLiteral" None brokenProto
    brokenBuiltinProto.

Definition five : Expr := LiteralExpr IntegerLiteral 0%nat NullType.

(** What the example builders make of a call of a witness of [type] that
    takes an [input]. *)
Definition callOn (type input : Ty) (argument : Expr) : Expr :=
  OtherExpr 1%nat
    [ApplyExpr Call
       (Some (OtherExpr 0%nat
                [MetatypeExpr None false 0%nat (MetaTypeType type)] 0%nat
                (FunctionType input type false false)))
       argument true false NullType]
    0%nat type.

Definition intFive : Expr := callOn Int Int2048 (setType five Int2048).
Definition myIntFive : Expr := callOn MyInt Int intFive.

Lemma convertIntegerLiteral_MyInt :
  convertIntegerLiteral literalMembers 2 five MyInt [] = Ok (Some myIntFive, []).
Proof. vm_compute. reflexivity. Qed.

(** C2 fails as stated: [Int] conforms to the builtin protocol, but the
    protocol declares no member of the witness's name, so [callWitness]
    reports the broken protocol and [convertLiteral] returns null: no call
    is built and no type is set. *)
Lemma convertLiteral_returns_null :
  conformsToProtocol (literalWorld (fun _ => [])) Int
    BuiltinIntegerLiteralConvertibleDecl = Some (Some 11%nat) /\
  convertIntegerLiteral (fun _ => []) 2 five Int []
  = Ok (None, [diagnostic 0%nat brokenBuiltinProto]).
Proof. split; vm_compute; reflexivity. Qed.

(** The literal [five] converted to [MyInt]: the type is [MyInt], the
    literal goes through the builtin protocol to [Int] first, and the
    result of that is the argument of the call of the general witness. *)
Lemma convertLiteral_calls_witness :
  getType myIntFive = MyInt /\
  exists converted s2,
    builtinConversion (literalWorld literalMembers) buildMemberRefFor
      finishApplyFor BuiltinIntegerLiteralConvertibleDecl (IsType Int2048)
      "_convertFromBuiltinIntegerLiteral" None brokenBuiltinProto
      Int five converted [] s2 /\
    witnessCall (literalWorld literalMembers) buildMemberRefFor finishApplyFor
      MyInt IntegerLiteralConvertibleDecl (Some 12%nat)
      "convertFromIntegerLiteral" converted brokenProto myIntFive s2 [].
Proof.
  destruct (proj2 (convertLiteral_calls (literalWorld literalMembers)
                     buildMemberRefFor finishApplyFor
                     BuiltinIntegerLiteralConvertibleDecl (IsType Int2048)
                     "_convertFromBuiltinIntegerLiteral" None brokenProto
                     brokenBuiltinProto 2 five MyInt MyInt
                     (Some IntegerLiteralConvertibleDecl) (IsType Int)
                     "convertFromIntegerLiteral" [])
              myIntFive [] convertIntegerLiteral_MyInt) as [Hty Hcalls].
  split; [exact Hty|].
  destruct Hcalls as (p & conformance & argType & s1 & converted & s2 &
                      Hp & Hc & Harg & Hb & Hw).
  injection Hp as <-. injection Hc as <-. injection Harg as <- <-.
  exists converted, s2. split; [exact Hb|exact Hw].
Defined.
End ProtocolExamples.

Module BuiltinValueExamples.
Import Example ProtocolExamples.

Definition getArrayBoundValue : ValueDecl := 30%nat.
Definition getBuiltinArrayBoundValue : ValueDecl := 31%nat.

(** The protocol declares [getArrayBoundValue]; [Builtin.Int64] has no
    members and conforms to nothing. *)
Definition plainWorld : TypeChecker :=
  withProtocols (fun _ _ => None) (fun _ => [getArrayBoundValue])
    (fun _ => "getArrayBoundValue") (fun _ => NullType) (fun _ _ => [])
    (fun _ _ => NullType) (fun _ _ _ => None) (fun _ _ => ret Unresolved).

(** A world in which [Builtin.Int64] itself has the builtin member. *)
Definition memberWorld : TypeChecker :=
  withProtocols (fun _ _ => None) (fun _ => [getArrayBoundValue])
    (fun _ => "_getBuiltinArrayBoundValue")
    (fun _ => FunctionType (TupleType []) Int64 false false)
    (fun t name =>
       if bool_decide (t = Int64) && String.eqb name "_getBuiltinArrayBoundValue"
       then [getBuiltinArrayBoundValue] else [])
    (fun _ _ => NullType) (fun _ _ _ => None) (fun _ _ => ret Unresolved).

Definition n : Expr := DeclRefExpr 1%nat 0%nat false Int64.
Definition flag : Expr := DeclRefExpr 2%nat 0%nat false (BuiltinIntegerType 1).

Definition arrayBound (world : TypeChecker) : Expr -> TC (option Expr) :=
  fun e => convertToArrayBound world buildMemberRefFor finishApplyFor solution
             e nullLocator.

(** What the example builders make of the call of the builtin member on
    [n]. *)
Definition boundOfN : Expr :=
  OtherExpr 1%nat
    [ApplyExpr Call (Some (OtherExpr 0%nat [n] 0%nat Int64)) emptyTupleExpr
       true false NullType]
    0%nat Int64.

Lemma arrayBound_memberWorld : arrayBound memberWorld n [] = Ok (Some boundOfN, []).
Proof. vm_compute. reflexivity. Qed.

(** C3 fails as stated for [convertToArrayBound]: the type of [n] is the
    builtin integer [Builtin.Int64] and [coerceToRValue] answers [n], yet
    [convertToArrayBound] does not answer [n].  Where [Builtin.Int64] has
    no member and no conformance it looks for the witness of
    [getArrayBoundValue] and stops at its assertion; where the builtin
    member is found it builds a call of it. *)
Lemma convertToArrayBound_has_no_shortcut :
  is_Some (getAsBuiltinIntegerType (getRValueType (getType n))) /\
  coerceToRValue plainWorld n [] = Ok (Some n, []) /\
  arrayBound plainWorld n [] = Abort /\
  coerceToRValue memberWorld n [] = Ok (Some n, []) /\
  arrayBound memberWorld n [] = Ok (Some boundOfN, []) /\
  boundOfN <> n.
Proof.
  split; [by eexists|].
  repeat split; try (vm_compute; reflexivity). discriminate.
Qed.

(** The shortcut of [convertToLogicValue] on a [Builtin.Int1], and the
    call that [convertToArrayBound] builds on a [Builtin.Int64]. *)
Lemma convertToLogicValue_shortcut_only_witness :
  convertToLogicValue memberWorld buildMemberRefFor finishApplyFor solution
    flag nullLocator = coerceToRValue memberWorld flag /\
  finishedCall finishApplyFor solution nullLocator boundOfN [] /\
  is_Some (getAsBuiltinIntegerType (getType boundOfN)).
Proof.
  destruct (convertToLogicValue_shortcut_only memberWorld buildMemberRefFor
              finishApplyFor solution) as [Hlogic Hbound].
  split.
  - apply Hlogic. reflexivity.
  - apply (Hbound n nullLocator [] boundOfN []). exact arrayBound_memberWorld.
Defined.
End BuiltinValueExamples.

Module CastExamples.
Import Example ProtocolExamples.

(** Every checked cast is classified as a coercion. *)
Definition castWorld : TypeChecker :=
  withProtocols (fun _ _ => None) (fun _ => []) (fun _ => "other")
    (fun _ => NullType) (fun _ _ => []) (fun _ _ => NullType)
    (fun _ _ _ => None) (fun _ _ => ret InvalidCoercible).

Definition maybeInt : Expr := DeclRefExpr 1%nat 0%nat false (OptionalType Int).
Definition anInt : Expr := DeclRefExpr 2%nat 0%nat false Int.

(** [sub as? Int], written in the source at location 5. *)
Definition asInt (sub : Expr) : Expr :=
  CheckedCastExpr ConditionalCheckedCast sub 5%nat Int Unresolved false NullType.

Definition visitCast : Expr -> TC (option Expr) :=
  visitConditionalCheckedCastExpr castWorld solution buildMemberRef finishApply 2.

Definition redundantCast (sub : Expr) : Diagnostic :=
  diagnostic 5%nat (diag.downcast_to_supertype (getType sub) Int).

(** C9 fails as stated: for [maybeInt as? Int], classified as a coercion,
    the type recorded on the cast node, [Int?], equals the type of the
    sub-expression; the result is the sub-expression itself, and it is of
    optional type. *)
Lemma unwrapped_result_is_optional :
  isEqual (OptionalType Int) (getType maybeInt) = true /\
  visitCast (asInt maybeInt) [] = Ok (Some maybeInt, [redundantCast maybeInt]) /\
  getType maybeInt = OptionalType Int /\
  getCanonicalType (getType maybeInt) = BoundGenericType OptionalDecl [Int].
Proof. repeat split; vm_compute; reflexivity. Qed.

(** [anInt as? Int], classified as a coercion: the recorded type [Int?]
    differs from the type of the sub-expression, and the coerced
    sub-expression is wrapped. *)
Lemma visitConditionalCheckedCastExpr_InvalidCoercible_witness :
  visitCast (asInt anInt) []
  = Ok (Some (InjectIntoOptionalExpr (Some anInt) (OptionalType Int)),
        [redundantCast anInt]) /\
  (isEqual (OptionalType Int) (getType anInt) = true ->
   getCanonicalType (getType anInt) = getCanonicalType (OptionalType Int)).
Proof.
  exact (visitConditionalCheckedCastExpr_InvalidCoercible castWorld solution
           buildMemberRef finishApply 2 anInt 5%nat Int Unresolved false
           NullType [] (OptionalType Int) [] anInt []
           eq_refl eq_refl eq_refl eq_refl).
Defined.
End CastExamples.


(** * Further properties of the rewriter *)

(** ** Existential erasure *)

Lemma mapM_conformances (tc : TypeChecker) (fromType : Ty) protocols
    (s : Diags) cs (s' : Diags) :
  mapM (fun proto =>
          match conformsToProtocol tc fromType proto with
          | Some c => ret c
          | None => abort
          end) protocols s = Ok (cs, s') <->
  s' = s /\
  Forall2 (fun proto c => conformsToProtocol tc fromType proto = Some c)
          protocols cs.
Proof.
  revert cs. induction protocols as [|p ps IH]; intros cs; cbn.
  - split.
    + intros H. apply ret_Ok in H as [<- <-]. split; [done|constructor].
    + intros [-> H]. by inversion H.
  - split.
    + intros H. step H as c Hc. step H as cs' Hcs.
      apply ret_Ok in H as [<- <-].
      destruct (conformsToProtocol tc fromType p) as [c'|] eqn:Hp; [|discriminate].
      apply ret_Ok in Hc as [<- <-].
      apply IH in Hcs as [-> Hall]. split; [done|]. by constructor.
    + intros [-> H]. inversion H as [|? c ? cs' Hp Hall]; subst.
      unfold bind at 1. rewrite Hp. cbn.
      unfold bind at 1.
      rewrite (proj2 (IH cs') (conj eq_refl Hall)). reflexivity.
Qed.

(** X1: [coerceExistential] returns exactly when the source type conforms
    to every protocol of the existential type.  It then reports nothing
    and returns a non-null [ErasureExpr] around [expr], of type [toType],
    that holds one conformance per protocol, in the order of the
    protocols, each the conformance the type checker found.  (A protocol
    that is not conformed to stops at the assertion, and so does a
    destination that is not existential.) *)
Theorem coerceExistential_erasure tc expr toType locator s r s' :
  coerceExistential tc expr toType locator s = Ok (r, s') <->
  s' = s /\
  exists protocols conformances,
    isExistentialType toType = Some protocols /\
    Forall2 (fun proto c => conformsToProtocol tc (getType expr) proto = Some c)
            protocols conformances /\
    r = Some (ErasureExpr expr toType conformances).
Proof.
  unfold coerceExistential.
  destruct (isExistentialType toType) as [protocols|].
  - split.
    + intros H. step H as cs Hcs. apply ret_Ok in H as [<- <-].
      apply mapM_conformances in Hcs as [-> Hall].
      split; [done|]. by exists protocols, cs.
    + intros (-> & ps & cs & Hps & Hall & ->). injection Hps as <-.
      unfold bind.
      by rewrite (proj2 (mapM_conformances tc (getType expr) protocols s cs s)
                    (conj eq_refl Hall)).
  - split; [discriminate|]. intros (_ & ps & cs & Hps & _). discriminate.
Qed.

Module ErasureExamples.
Import Example ProtocolExamples.

Definition Printable : ProtocolDecl := 5%nat.
Definition Hashable : ProtocolDecl := 6%nat.

(** [Int] conforms to [Printable] and to [Hashable]. *)
Definition erasureWorld : TypeChecker :=
  withProtocols
    (fun t p => if bool_decide (t = Int)
                then if (p =? Printable)%nat then Some (Some 51%nat)
                     else if (p =? Hashable)%nat then Some (Some 61%nat)
                     else None
                else None)
    (fun _ => []) (fun _ => "other") (fun _ => NullType) (fun _ _ => [])
    (fun _ _ => NullType) (fun _ _ _ => None) (fun _ _ => ret Unresolved).

Definition one : Expr := DeclRefExpr 1%nat 0%nat false Int.

Lemma coerceExistential_erasure_witness :
  coerceExistential erasureWorld one
    (ProtocolCompositionType [Printable; Hashable]) nullLocator []
  = Ok (Some (ErasureExpr one (ProtocolCompositionType [Printable; Hashable])
                [Some 51%nat; Some 61%nat]), []).
Proof.
  apply coerceExistential_erasure. split; [reflexivity|].
  exists [Printable; Hashable], [Some 51%nat; Some 61%nat].
  split; [reflexivity|]. split; [|reflexivity].
  repeat constructor.
Defined.
End ErasureExamples.

(** ** Finding the witness of a named requirement *)

Section NamedWitness.
Context (tc : TypeChecker).

(** The member [findNamedWitness] looks for: a function with a name, and
    that name is [name]. *)
Definition isRequirement (name : Identifier) (member : ValueDecl) : bool :=
  isFuncDecl tc member
  && negb (String.eqb (getDeclName tc member) EmptyString)
  && String.eqb (getDeclName tc member) name.

Lemma findRequirement_find members name :
  findRequirement tc members name = List.find (isRequirement name) members.
Proof.
  induction members as [|m ms IH]; [reflexivity|].
  cbn. unfold isRequirement.
  destruct (isFuncDecl tc m); cbn; [|exact IH].
  destruct (String.eqb (getDeclName tc m) EmptyString); cbn; [exact IH|].
  destruct (String.eqb (getDeclName tc m) name); [reflexivity|exact IH].
Qed.

(** X2: what [findNamedWitness] returns.  The requirement is the first
    member of the protocol that is a function with the non-empty name
    [name].  If there is none, or it is invalid, the broken-protocol
    diagnostic is reported once at the protocol and the result is null.
    Otherwise nothing is reported, and the result is the requirement
    itself for an archetype and the witness recorded in the conformance
    for any other type. *)
Theorem findNamedWitness_result type proto name d s r s' :
  findNamedWitness tc type proto name d s = Ok (r, s') ->
  match r with
  | None =>
      s' = diagnostic (getProtocolLoc tc proto) d :: s /\
      match List.find (isRequirement name) (getMembers tc proto) with
      | Some requirement => isInvalid tc requirement = true
      | None => True
      end
  | Some witness =>
      s' = s /\
      exists requirement conformance,
        List.find (isRequirement name) (getMembers tc proto) = Some requirement /\
        isInvalid tc requirement = false /\
        conformsToProtocol tc type proto = Some conformance /\
        if bool_decide (is_Some (getAsArchetypeType type))
        then witness = requirement
        else exists c, conformance = Some c /\
                       witness = getWitness tc c requirement /\
                       isFuncDecl tc witness = true
  end.
Proof.
  unfold findNamedWitness. rewrite findRequirement_find.
  destruct (List.find (isRequirement name) (getMembers tc proto))
    as [requirement|] eqn:Hfind.
  - destruct (isInvalid tc requirement) eqn:Hinv.
    + intros H. step H as u Hd. apply ret_Ok in H as [<- <-].
      injection Hd as <-. done.
    + destruct (conformsToProtocol tc type proto) as [conformance|] eqn:Hc;
        [|discriminate].
      destruct (bool_decide (is_Some (getAsArchetypeType type))) eqn:Harch.
      * intros H. apply ret_Ok in H as [<- <-]. split; [done|].
        by exists requirement, conformance.
      * destruct conformance as [c|]; [|discriminate].
        intros H. step H as u Ha. apply ret_Ok in H as [<- <-].
        apply assert_Ok in Ha as [Ha <-]. split; [done|].
        exists requirement, (Some c).
        repeat split; try done. by exists c.
  - intros H. step H as u Hd. apply ret_Ok in H as [<- <-].
    injection Hd as <-. done.
Qed.

End NamedWitness.

Module NamedWitnessExamples.
Import Example ProtocolExamples.

(** The witness of [_convertFromBuiltinIntegerLiteral] for [Int]. *)
Lemma findNamedWitness_result_witness :
  ([] : Diags) = [] /\
  exists requirement conformance,
    List.find
      (isRequirement (literalWorld literalMembers)
         "_convertFromBuiltinIntegerLiteral")
      (getMembers (literalWorld literalMembers)
         BuiltinIntegerLiteralConvertibleDecl) = Some requirement /\
    isInvalid (literalWorld literalMembers) requirement = false /\
    conformsToProtocol (literalWorld literalMembers) Int
      BuiltinIntegerLiteralConvertibleDecl = Some conformance /\
    exists c, conformance = Some c /\
              convertFromBuiltin
              = getWitness (literalWorld literalMembers) c requirement /\
              isFuncDecl (literalWorld literalMembers) convertFromBuiltin = true.
Proof.
  exact (findNamedWitness_result (literalWorld literalMembers) Int
           BuiltinIntegerLiteralConvertibleDecl
           "_convertFromBuiltinIntegerLiteral" brokenBuiltinProto []
           (Some convertFromBuiltin) [] eq_refl).
Defined.
End NamedWitnessExamples.

(** ** The map of partially applied methods: what the visits leave alone *)

Module PartialApplicationFrame.
Import PartialApplication PartialApplicationFacts.

Lemma DenseMap_insert_keeps k v (m : gmap ExprPtr Z) p c :
  m !! p = Some c -> DenseMap_insert k v m !! p = Some c.
Proof.
  intros H. unfold DenseMap_insert. destruct (m !! k) eqn:Hk; [done|].
  rewrite lookup_insert_ne; [done|]. intros ->. congruence.
Qed.

Lemma DenseMap_insert_size k v (m : gmap ExprPtr Z) :
  (size (DenseMap_insert k v m) <= S (size m))%nat.
Proof.
  unfold DenseMap_insert. destruct (m !! k) eqn:Hk; [lia|].
  rewrite map_size_insert_None by done. lia.
Qed.

Section Frame.
Variable overloadChoice : ExprPtr -> option (OverloadChoice * Ty).
Variable buildMemberRef :
  ExprPtr -> SourceLoc -> ValueDecl -> SourceLoc -> Ty -> ExprPtr -> bool ->
  Builder ExprPtr.
Variable buildDynamicMemberRef :
  ExprPtr -> SourceLoc -> ValueDecl -> SourceLoc -> Ty -> ExprPtr ->
  Builder ExprPtr.
Variable buildTupleElement : ExprPtr -> nat -> Builder ExprPtr.
Variable finishApply : ExprPtr -> Ty -> ExprPtr -> Builder ExprPtr.
Variable getSemanticsProvidingExpr : AST -> ExprPtr -> ExprPtr.
Variable isFuncDecl : ValueDecl -> bool.
Variable isInstanceMember : ValueDecl -> bool.
Variable getNaturalArgumentCount : ValueDecl -> Z.

(** X3: [visitUnresolvedDotExpr] never removes or changes an entry of the
    map.  The only entry it can add is one for the node it returns, and
    it adds none when that node is not the application of a function to
    a [self] of lvalue type. *)
Theorem visitUnresolvedDotExpr_keeps_entries expr r member r' :
  visitUnresolvedDotExpr overloadChoice buildMemberRef buildDynamicMemberRef
    buildTupleElement isFuncDecl isInstanceMember getNaturalArgumentCount
    expr r = Ok (member, r') ->
  (forall p c, ValueTypeMemberApplications r !! p = Some c ->
               ValueTypeMemberApplications r' !! p = Some c) /\
  (forall p, p <> member ->
     ValueTypeMemberApplications r' !! p = ValueTypeMemberApplications r !! p) /\
  (forall m fn arg a,
     ast r' !! member = Some m -> kind m = Apply fn arg ->
     ast r' !! arg = Some a -> getAsLValueType (type a) = None ->
     ValueTypeMemberApplications r' = ValueTypeMemberApplications r).
Proof.
  intros H. unfold visitUnresolvedDotExpr in H.
  step H as e He. apply deref_Ok in He as [He ->].
  destruct (kind e) as [base dotLoc nameLoc im| | |]; try discriminate.
  step H as selected Hsel. unfold getOverloadChoice in Hsel.
  destruct (overloadChoice expr) as [c|]; [|discriminate].
  apply ret_Ok in Hsel as [<- <-].
  destruct c.1 as [d|d|i| | | |d]; try discriminate.
  - step H as m Hb. apply build_Ok in Hb as [Hmap _].
    step H as r1 Hg. apply get_Ok in Hg as [-> ->].
    destruct (valueTypeMemberApplication _ _ _ _ m) as [[count|]|] eqn:Hv;
      [| |discriminate].
    + step H as u Hset. apply ret_Ok in H as [<- <-].
      unfold setApplications, modify in Hset. injection Hset as Hu Hset.
      rewrite <- Hset. cbn [ValueTypeMemberApplications ast]. rewrite Hmap.
      split; [|split].
      * intros p c0 Hp. by apply DenseMap_insert_keeps.
      * intros p Hp. by apply DenseMap_insert_other.
      * intros m0 fn arg a Hm Hk Ha Hl. exfalso.
        unfold valueTypeMemberApplication in Hv.
        rewrite Hm, Hk, Ha, Hl in Hv. discriminate.
    + apply ret_Ok in H as [<- <-]. rewrite Hmap. done.
  - apply build_Ok in H as [Hmap _]. rewrite Hmap. done.
  - apply build_Ok in H as [Hmap _]. rewrite Hmap. done.
  - apply ret_Ok in H as [<- <-]. done.
Qed.

(** X4: [visitApplyExpr] never makes the map larger, and a call whose
    function has no entry leaves the map as it is. *)
Theorem visitApplyExpr_never_grows expr r result r' :
  visitApplyExpr finishApply getSemanticsProvidingExpr expr r
    = Ok (result, r') ->
  (size (ValueTypeMemberApplications r')
   <= size (ValueTypeMemberApplications r))%nat /\
  (forall e' fn arg,
     ast r' !! expr = Some e' -> kind e' = Apply fn arg ->
     ValueTypeMemberApplications r
       !! getSemanticsProvidingExpr (ast r') fn = None ->
     ValueTypeMemberApplications r' = ValueTypeMemberApplications r).
Proof.
  intros H.
  destruct (visitApplyExpr_advances _ _ _ _ _ _ H)
    as (e & e' & fn & arg & _ & _ & He' & Hk & Hmap).
  cbn zeta in Hmap.
  destruct (ValueTypeMemberApplications r
              !! getSemanticsProvidingExpr (ast r') fn) as [count|] eqn:Hc.
  - destruct Hmap as [_ ->]. split.
    + pose proof (map_size_delete_Some
                    (getSemanticsProvidingExpr (ast r') fn)
                    (ValueTypeMemberApplications r) (ltac:(by eexists))) as Hd.
      assert (size (ValueTypeMemberApplications r) <> 0%nat) as Hne.
      { apply map_size_ne_0_lookup_2 with (getSemanticsProvidingExpr (ast r') fn).
        by eexists. }
      destruct (1 <? count)%Z.
      * pose proof (DenseMap_insert_size result (count - 1)
                      (delete (getSemanticsProvidingExpr (ast r') fn)
                         (ValueTypeMemberApplications r))). lia.
      * lia.
    + intros e1 fn1 arg1 He1 Hk1 Hnone.
      rewrite He' in He1. injection He1 as <-.
      rewrite Hk in Hk1. injection Hk1 as <- <-. congruence.
  - rewrite Hmap. split; [lia|done].
Qed.

End Frame.
End PartialApplicationFrame.

Module PartialApplicationFrameExamples.
Import PartialApplication PartialApplicationFacts PartialApplicationFrame.
Import PartialApplicationExamples.

Lemma visitUnresolvedDotExpr_keeps_entries_witness :
  (forall p c, ValueTypeMemberApplications start !! p = Some c ->
               ValueTypeMemberApplications afterDot !! p = Some c) /\
  (forall p, p <> 4%nat ->
     ValueTypeMemberApplications afterDot !! p
     = ValueTypeMemberApplications start !! p) /\
  (forall m fn arg a,
     ast afterDot !! 4%nat = Some m -> kind m = Apply fn arg ->
     ast afterDot !! arg = Some a -> getAsLValueType (type a) = None ->
     ValueTypeMemberApplications afterDot = ValueTypeMemberApplications start).
Proof.
  exact (visitUnresolvedDotExpr_keeps_entries overloadChoice buildMemberRef
           buildDynamicMemberRef buildTupleElement isFuncDecl isInstanceMember
           getNaturalArgumentCount 1%nat start 4%nat afterDot visitDot_run).
Defined.

Lemma visitApplyExpr_never_grows_witness :
  (size (ValueTypeMemberApplications afterFirstApply)
   <= size (ValueTypeMemberApplications afterDot))%nat /\
  (forall e' fn arg,
     ast afterFirstApply !! 5%nat = Some e' -> kind e' = Apply fn arg ->
     ValueTypeMemberApplications afterDot
       !! getSemanticsProvidingExpr (ast afterFirstApply) fn = None ->
     ValueTypeMemberApplications afterFirstApply
     = ValueTypeMemberApplications afterDot).
Proof.
  exact (visitApplyExpr_never_grows finishApply getSemanticsProvidingExpr
           5%nat afterDot 5%nat afterFirstApply visitApply_run).
Defined.
End PartialApplicationFrameExamples.

(** ** The result of [convertToLogicValue] *)

Section LogicValueFacts.
Context (tc : TypeChecker).
Variable buildMemberRef :
  Solution -> Expr -> SourceLoc -> ValueDecl -> SourceLoc -> Ty ->
  ConstraintLocatorBuilder -> bool -> TC (option Expr).
Variable finishApply :
  Solution -> Expr -> Ty -> ConstraintLocatorBuilder -> TC (option Expr).
Variable solution : Solution.

(** X5: an expression returned by [convertToLogicValue] for an input that
    is not already a [Builtin.Int1] has the type [Builtin.Int1]: a
    conversion that ends in any other type is reported as [broken_bool]
    at the input expression and answers null. *)
Theorem convertToLogicValue_Int1 expr locator s res s' :
  isBuiltinIntegerType (getRValueType (getType expr)) 1 = false ->
  convertToLogicValue tc buildMemberRef finishApply solution expr locator s
    = Ok (res, s') ->
  exists converted s0,
    convertViaBuiltinProtocol tc buildMemberRef finishApply solution expr
      locator (getProtocol tc (getLoc tc expr) LogicValue)
      "getLogicValue" "_getBuiltinLogicValue"
      (diag.broken_protocol "condition_broken_proto")
      (diag.broken_protocol "broken_bool") s = Ok (converted, s0) /\
    match converted with
    | Some r =>
        if isBuiltinIntegerType (getType r) 1
        then res = Some r /\ s' = s0
        else res = None /\
             s' = diagnostic (getLoc tc expr) (diag.broken_protocol "broken_bool")
                  :: s0
    | None => res = None /\ s' = s0
    end.
Proof.
  intros Hshort H. unfold convertToLogicValue in H. rewrite Hshort in H.
  step H as converted Hc. exists converted, s0. split; [exact Hc|].
  destruct converted as [r|].
  - destruct (isBuiltinIntegerType (getType r) 1); cbn [negb] in H.
    + by apply ret_Ok in H as [<- <-].
    + step H as u Hd. apply ret_Ok in H as [<- <-].
      injection Hd as <-. done.
  - by apply ret_Ok in H as [<- <-].
Qed.

End LogicValueFacts.

(** ** Checked casts that are not coercions *)

Section ValidCasts.
Context (tc : TypeChecker) (solution : Solution).
Variable buildMemberRef :
  Expr -> SourceLoc -> ValueDecl -> SourceLoc -> Ty ->
  ConstraintLocatorBuilder -> bool -> TC (option Expr).
Variable finishApply :
  Expr -> Ty -> ConstraintLocatorBuilder -> TC (option Expr).
Variable fuel : nat.

Lemma checkCheckedCastExpr_node kind sub loc castTy castKind implicit ty s k e s1 :
  checkCheckedCastExpr tc kind sub loc castTy castKind implicit ty s
    = Ok ((k, e), s1) ->
  exists sub', e = CheckedCastExpr kind sub' loc castTy castKind implicit ty.
Proof.
  intros H. unfold checkCheckedCastExpr in H.
  step H as checked Hc.
  destruct checked.1.
  - apply ret_Ok in H as [[= <- <-] <-]. by eexists.
  - step H as r Hr. destruct r as [sub'|].
    + step H as k' Hk. apply ret_Ok in H as [[= <- <-] <-]. by eexists.
    + apply ret_Ok in H as [[= <- <-] <-]. by eexists.
Qed.

(** X6: for a cast that [checkCheckedCastExpr] does not classify as a
    coercion, [checkAsCastExpr] reports nothing of its own.  It returns
    null exactly when the cast is unresolved, and otherwise the cast node
    with the cast kind recorded, its sub-expression being the one the
    check left there. *)
Theorem checkAsCastExpr_records_kind
    kind sub loc castTy castKind implicit ty s k e s1 :
  checkCheckedCastExpr tc kind sub loc castTy castKind implicit ty s
    = Ok ((k, e), s1) ->
  k <> InvalidCoercible ->
  exists sub',
    e = CheckedCastExpr kind sub' loc castTy castKind implicit ty /\
    checkAsCastExpr tc solution buildMemberRef finishApply fuel
      kind sub loc castTy castKind implicit ty s
    = Ok (match k with
          | Unresolved => None
          | _ => Some (CheckedCastExpr kind sub' loc castTy k implicit ty)
          end, s1).
Proof.
  intros Hcheck Hk.
  destruct (checkCheckedCastExpr_node _ _ _ _ _ _ _ _ _ _ _ Hcheck)
    as [sub' ->].
  exists sub'. split; [reflexivity|].
  unfold checkAsCastExpr, bind. rewrite Hcheck.
  destruct k; try reflexivity. congruence.
Qed.

End ValidCasts.

Module LogicValueExamples.
Import Example ProtocolExamples.

Definition Bool : Ty := NominalType (UserDecl 3).
Definition Int1 : Ty := BuiltinIntegerType 1.
Definition getBuiltinLogicValue : ValueDecl := 32%nat.

(** [Bool] has the member [_getBuiltinLogicValue : () -> Builtin.Int1]. *)
Definition logicWorld : TypeChecker :=
  withProtocols (fun _ _ => None) (fun _ => [])
    (fun _ => "_getBuiltinLogicValue")
    (fun _ => FunctionType (TupleType []) Int1 false false)
    (fun t name =>
       if bool_decide (t = Bool) && String.eqb name "_getBuiltinLogicValue"
       then [getBuiltinLogicValue] else [])
    (fun _ _ => NullType) (fun _ _ _ => None) (fun _ _ => ret Unresolved).

Definition truth : Expr := DeclRefExpr 4%nat 0%nat false Bool.

Definition logicValueOfTruth : Expr :=
  OtherExpr 1%nat
    [ApplyExpr Call (Some (OtherExpr 0%nat [truth] 0%nat Int1)) emptyTupleExpr
       true false NullType]
    0%nat Int1.

Lemma convertToLogicValue_truth :
  convertToLogicValue logicWorld buildMemberRefFor finishApplyFor solution
    truth nullLocator [] = Ok (Some logicValueOfTruth, []).
Proof. vm_compute. reflexivity. Qed.

Lemma convertToLogicValue_Int1_witness :
  exists converted s0,
    convertViaBuiltinProtocol logicWorld buildMemberRefFor finishApplyFor
      solution truth nullLocator
      (getProtocol logicWorld (getLoc logicWorld truth) LogicValue)
      "getLogicValue" "_getBuiltinLogicValue"
      (diag.broken_protocol "condition_broken_proto")
      (diag.broken_protocol "broken_bool") [] = Ok (converted, s0) /\
    match converted with
    | Some r =>
        if isBuiltinIntegerType (getType r) 1
        then Some logicValueOfTruth = Some r /\ [] = s0
        else Some logicValueOfTruth = None /\
             [] = diagnostic (getLoc logicWorld truth)
                    (diag.broken_protocol "broken_bool") :: s0
    | None => Some logicValueOfTruth = None /\ [] = s0
    end.
Proof.
  exact (convertToLogicValue_Int1 logicWorld buildMemberRefFor finishApplyFor
           solution truth nullLocator [] (Some logicValueOfTruth) []
           eq_refl convertToLogicValue_truth).
Defined.
End LogicValueExamples.

Module ValidCastExamples.
Import Example ProtocolExamples CastExamples.

(** Every checked cast is a downcast. *)
Definition downcastWorld : TypeChecker :=
  withProtocols (fun _ _ => None) (fun _ => []) (fun _ => "other")
    (fun _ => NullType) (fun _ _ => []) (fun _ _ => NullType)
    (fun _ _ _ => None) (fun _ _ => ret Downcast).

Lemma checkAsCastExpr_records_kind_witness :
  exists sub',
    CheckedCastExpr ConditionalCheckedCast anInt 5%nat Int Unresolved false
      (OptionalType Int)
    = CheckedCastExpr ConditionalCheckedCast sub' 5%nat Int Unresolved false
        (OptionalType Int) /\
    checkAsCastExpr downcastWorld solution buildMemberRef finishApply 2
      ConditionalCheckedCast anInt 5%nat Int Unresolved false (OptionalType Int) []
    = Ok (Some (CheckedCastExpr ConditionalCheckedCast sub' 5%nat Int Downcast
                  false (OptionalType Int)), []).
Proof.
  exact (checkAsCastExpr_records_kind downcastWorld solution buildMemberRef
           finishApply 2 ConditionalCheckedCast anInt 5%nat Int Unresolved
           false (OptionalType Int) [] Downcast _ [] eq_refl
           ltac:(discriminate)).
Defined.
End ValidCastExamples.

(** ** [is] checks *)

(** Diagnostics that take no argument ([Diag<>]) are told apart by their
    name. *)
Definition bool_intrinsics_not_found : diag.ID :=
  diag.broken_protocol "bool_intrinsics_not_found".

Section IsaExpr.
Context (tc : TypeChecker).
(** [cs.getASTContext().getGetBoolDecl()] is not null. *)
Variable hasGetBoolDecl : bool.

(** [ExprRewriter::visitIsaExpr], on the fields of the [IsaExpr] node. *)
Definition visitIsaExpr (sub : Expr) (loc : SourceLoc) (castTy : Ty)
    (castKind : CheckedCastKind) (implicit : bool) (ty : Ty)
  : TC (option Expr) :=
  do* (if negb hasGetBoolDecl
       then diagnose loc bool_intrinsics_not_found
       else ret tt) in
  let* checked := checkCheckedCastExpr tc Isa sub loc castTy castKind implicit ty in
  match checked with
  | (Unresolved, _) => ret None
  | (InvalidCoercible, CheckedCastExpr kind sub loc castTy castKind implicit ty) =>
      do* diagnose loc (diag.isa_is_always_true (getType sub) castTy) in
      ret (Some (CheckedCastExpr kind sub loc castTy castKind implicit ty))
  | (k, CheckedCastExpr kind sub loc castTy _ implicit ty) =>
      ret (Some (CheckedCastExpr kind sub loc castTy k implicit ty))
  | (_, _) => abort
  end.

(** X7: [visitIsaExpr] returns null exactly when the check is unresolved.
    A check that is always true is reported as [isa_is_always_true], with
    the type of the checked sub-expression and the type tested for, and
    the node comes back with the cast kind it had; any other check comes
    back with its kind recorded and is not reported.  The node keeps its
    type in both cases.  (A missing [getBool] intrinsic is reported first
    and the check goes on.) *)
Theorem visitIsaExpr_result sub loc castTy castKind implicit ty s k e s1 :
  checkCheckedCastExpr tc Isa sub loc castTy castKind implicit ty
    (if hasGetBoolDecl then s
     else diagnostic loc bool_intrinsics_not_found :: s)
    = Ok ((k, e), s1) ->
  exists sub',
    e = CheckedCastExpr Isa sub' loc castTy castKind implicit ty /\
    visitIsaExpr sub loc castTy castKind implicit ty s
    = match k with
      | Unresolved => Ok (None, s1)
      | InvalidCoercible =>
          Ok (Some (CheckedCastExpr Isa sub' loc castTy castKind implicit ty),
              diagnostic loc (diag.isa_is_always_true (getType sub') castTy)
              :: s1)
      | _ => Ok (Some (CheckedCastExpr Isa sub' loc castTy k implicit ty), s1)
      end.
Proof.
  intros Hcheck.
  destruct (checkCheckedCastExpr_node _ _ _ _ _ _ _ _ _ _ _ _ Hcheck)
    as [sub' ->].
  exists sub'. split; [reflexivity|].
  unfold visitIsaExpr.
  destruct hasGetBoolDecl; unfold bind; cbn; rewrite Hcheck;
    destruct k; reflexivity.
Qed.

End IsaExpr.

Module IsaExamples.
Import Example ProtocolExamples CastExamples ValidCastExamples.

(** [anInt is Int] where every check is classified as a coercion: the
    check is reported and the node keeps its cast kind. *)
Lemma visitIsaExpr_result_witness :
  exists sub',
    CheckedCastExpr Isa anInt 5%nat Int Unresolved false Int
    = CheckedCastExpr Isa sub' 5%nat Int Unresolved false Int /\
    visitIsaExpr castWorld true anInt 5%nat Int Unresolved false Int []
    = Ok (Some (CheckedCastExpr Isa sub' 5%nat Int Unresolved false Int),
          [diagnostic 5%nat (diag.isa_is_always_true (getType sub') Int)]).
Proof.
  exact (visitIsaExpr_result castWorld true anInt 5%nat Int Unresolved false
           Int [] InvalidCoercible _ [] eq_refl).
Defined.
End IsaExamples.

(** ** Object arguments and the finishing of applications *)

(** [RequalifyExpr(e, ty, /*forObject*/ true)]: the [forObject] bit of the
    node is not part of [Expr]. *)
Definition RequalifyExprForObject (e : Expr) (ty : Ty) : Expr := RequalifyExpr e ty.

Section ObjectArgument.
Context (tc : TypeChecker) (solution : Solution).
Variable buildMemberRef :
  Expr -> SourceLoc -> ValueDecl -> SourceLoc -> Ty ->
  ConstraintLocatorBuilder -> bool -> TC (option Expr).
Variable finishApply :
  Expr -> Ty -> ConstraintLocatorBuilder -> TC (option Expr).
Variable fuel : nat.
(** [LValueType::Qual::DefaultForMemberAccess] (declared in the AST
    headers). *)
Variable DefaultForMemberAccess : N.

Local Abbreviation coerce :=
  (coerceToType tc solution buildMemberRef finishApply fuel).

(** [ExprRewriter::coerceObjectArgumentToType] *)
Definition coerceObjectArgumentToType (expr : Expr) (toType : Ty)
    (locator : ConstraintLocatorBuilder) : TC (option Expr) :=
  if isNull toType then abort
  else
  let containerType := getRValueType toType in
  if isNull containerType then abort
  else if hasReferenceSemantics tc containerType
          || bool_decide (is_Some (getAsMetaTypeType containerType))
  then coerce expr containerType locator
  else
    let destType := LValueType containerType DefaultForMemberAccess in
    let fromType := getType expr in
    if isNull fromType then abort
    else if isEqual fromType destType then ret (Some expr)
    else
      match getAsLValueType fromType with
      | Some (fromObject, _) =>
          if isNull fromObject then abort
          else if isEqual fromObject containerType
          then ret (Some (RequalifyExprForObject expr destType))
          else
            let* coerced := coerce expr containerType locator in
            ret (Some (ImplicitConversionExpr Materialize coerced destType))
      | None => ret (Some (MaterializeExpr expr destType))
      end.

(** X8: for a container type with value semantics that is not a metatype,
    [coerceObjectArgumentToType] never returns null.  What it returns has
    the lvalue type of the container with the qualifiers of a member
    access: the expression itself when it already has that type, a
    requalification when only the qualifiers differ, and otherwise a
    [MaterializeExpr]; for an lvalue of another object type that node is
    built around whatever the coercion to the container type returned,
    null included. *)
Theorem coerceObjectArgumentToType_value expr toType locator s r s' :
  hasReferenceSemantics tc (getRValueType toType) = false ->
  getAsMetaTypeType (getRValueType toType) = None ->
  coerceObjectArgumentToType expr toType locator s = Ok (r, s') ->
  let destType := LValueType (getRValueType toType) DefaultForMemberAccess in
  exists e,
    r = Some e /\
    isEqual (getType e) destType = true /\
    (e = expr /\ s' = s \/
     e = RequalifyExprForObject expr destType /\ s' = s \/
     e = MaterializeExpr expr destType /\ s' = s /\
       getAsLValueType (getType expr) = None \/
     exists coerced,
       e = ImplicitConversionExpr Materialize coerced destType /\
       coerce expr (getRValueType toType) locator s = Ok (coerced, s')).
Proof.
  intros Href Hmeta H destType. unfold coerceObjectArgumentToType in H.
  destruct (isNull toType); [discriminate|].
  destruct (isNull (getRValueType toType)); [discriminate|].
  rewrite Href, Hmeta in H. cbn in H.
  destruct (isNull (getType expr)); [discriminate|].
  fold destType in H.
  destruct (isEqual (getType expr) destType) eqn:Heq.
  - apply ret_Ok in H as [<- <-]. exists expr.
    split; [reflexivity|]. split; [exact Heq|]. left. done.
  - destruct (getAsLValueType (getType expr)) as [[fromObject q]|] eqn:Hlv.
    + destruct (isNull fromObject); [discriminate|].
      destruct (isEqual fromObject (getRValueType toType)).
      * apply ret_Ok in H as [<- <-]. eexists. split; [reflexivity|].
        split; [apply isEqual_refl|]. right. left. done.
      * step H as coerced Hc. apply ret_Ok in H as [<- <-].
        eexists. split; [reflexivity|]. split; [apply isEqual_refl|].
        right. right. right. by exists coerced.
    + apply ret_Ok in H as [<- <-]. eexists. split; [reflexivity|].
      split; [apply isEqual_refl|]. right. right. left. done.
Qed.

End ObjectArgument.

Module Apply.
Section FinishApply.
Context (tc : TypeChecker) (solution : Solution).
Variable buildMemberRef :
  Expr -> SourceLoc -> ValueDecl -> SourceLoc -> Ty ->
  ConstraintLocatorBuilder -> bool -> TC (option Expr).
(** [solution.specialize(expr, polyFn, openedType)] *)
Variable specialize : Expr -> Ty -> Ty -> TC (option Expr).
(** [tc.substituteInputSugarTypeForResult(apply)] *)
Variable substituteInputSugarTypeForResult : Expr -> TC (option Expr).
(** [expr->setImplicit(flag)] *)
Variable setImplicit : Expr -> bool -> Expr.
Variable DefaultForMemberAccess : N.
(** Whether assertions are compiled out.  [finishApply] asserts that the
    callee converts to an rvalue and then handles the failure itself, so
    what it does with a null callee depends on the build. *)
Variable NDEBUG : bool.

Definition isSuperRefExpr (e : Expr) : bool :=
  match e with SuperRefExpr _ _ => true | _ => false end.

Definition isPolymorphicFunctionType (t : Ty) : bool :=
  match getDesugaredType t with
  | PolymorphicFunctionType _ _ _ => true
  | _ => false
  end.

(** [ExprRewriter::finishApply].  It and [coerceToType] call each other;
    the fuel stands for the C++ stack of both. *)
Fixpoint finishApply (fuel : nat) (apply : Expr) (openedType : Ty)
    (locator : ConstraintLocatorBuilder) {struct fuel} : TC (option Expr) :=
  match fuel with
  | O => outOfFuel
  | S fuel' =>
      let coerce := coerceToType tc solution buildMemberRef (finishApply fuel') fuel' in
      match apply with
      | ApplyExpr kind (Some fn0) origArg implicit wasSuper ty0 =>
          let* fn := coerceToRValue tc fn0 in
          match fn with
          | None =>
              (* assert(fn && "Rvalue conversion failed?");
                 if (!fn) return nullptr; *)
              if NDEBUG then ret None else abort
          | Some fn =>
              let isSuper := isSuperRefExpr origArg in
              if isNull (getType fn) then abort
              else
              match getAsFunctionType (getType fn) with
              | Some (input, result, _, _) =>
                  let* arg :=
                    if isSelfApply kind
                    then coerceObjectArgumentToType tc solution buildMemberRef
                           (finishApply fuel') fuel' DefaultForMemberAccess
                           origArg input nullLocator
                    else coerce origArg input
                           (withPathElement locator
                              ConstraintLocator.ApplyArgument) in
                  match arg with
                  | None =>
                      do* diagnose (getLoc tc fn)
                            (diag.while_converting_function_argument input) in
                      ret None
                  | Some arg =>
                      let apply := ApplyExpr kind (Some fn) arg implicit isSuper
                                     result in
                      if isNull result then abort
                      else if isPolymorphicFunctionType result
                      then specialize apply result openedType
                      else substituteInputSugarTypeForResult apply
                  end
              | None =>
                  match getAsMetaTypeType (getType fn) with
                  | None => abort
                  | Some ty =>
                      if isNull ty then abort
                      else
                      match getAsTupleType ty with
                      | Some fields => coerce origArg (TupleType fields) locator
                      | None =>
                          do* assert (getNominalOrBoundGenericNominal tc ty) in
                          match overloadChoices solution
                                  (withPathElement locator
                                     ConstraintLocator.ConstructorMember) with
                          | None | Some (IdentityFunction, _) =>
                              coerce origArg ty locator
                          | Some (choice, memberType) =>
                              let* decl := liftRes (getDecl choice) in
                              let* declRef :=
                                buildMemberRef fn noLoc decl (getEndLoc tc fn)
                                  memberType locator true in
                              match declRef with
                              | None => abort
                              | Some declRef =>
                                  finishApply fuel'
                                    (ApplyExpr kind
                                       (Some (setImplicit declRef implicit))
                                       origArg implicit wasSuper ty0)
                                    openedType locator
                              end
                          end
                      end
                  end
              end
          end
      | _ => abort
      end
  end.

Local Abbreviation coerceWith fuel :=
  (coerceToType tc solution buildMemberRef (finishApply fuel) fuel).

(** The coercion of the argument of a call to the input type of the
    callee. *)
Definition coerceArgument (fuel : nat) (kind : ApplyKind) (arg : Expr)
    (input : Ty) (locator : ConstraintLocatorBuilder) : TC (option Expr) :=
  if isSelfApply kind
  then coerceObjectArgumentToType tc solution buildMemberRef (finishApply fuel)
         fuel DefaultForMemberAccess arg input nullLocator
  else coerceWith fuel arg input
         (withPathElement locator ConstraintLocator.ApplyArgument).

(** X9: [finishApply] on a call whose callee, coerced to an rvalue, has a
    function type.  If the argument cannot be coerced to the input type,
    [while_converting_function_argument] is reported at the callee with
    that input type and the result is null.  Otherwise the call node gets
    the rvalue callee, the coerced argument, the result type of the
    callee and the [super] flag of the argument as written, and goes to
    [specialize] if that result type is polymorphic and to
    [substituteInputSugarTypeForResult] if not. *)
Theorem finishApply_function
    fuel kind fn0 origArg implicit wasSuper ty0 openedType locator s
    fn s0 input result autoClosure block arg s1 :
  coerceToRValue tc fn0 s = Ok (Some fn, s0) ->
  getAsFunctionType (getType fn) = Some (input, result, autoClosure, block) ->
  isNull result = false ->
  coerceArgument fuel kind origArg input locator s0 = Ok (arg, s1) ->
  finishApply (S fuel)
    (ApplyExpr kind (Some fn0) origArg implicit wasSuper ty0) openedType locator s
  = match arg with
    | None =>
        Ok (None,
            diagnostic (getLoc tc fn)
              (diag.while_converting_function_argument input) :: s1)
    | Some arg =>
        let apply := ApplyExpr kind (Some fn) arg implicit
                       (isSuperRefExpr origArg) result in
        if isPolymorphicFunctionType result
        then specialize apply result openedType s1
        else substituteInputSugarTypeForResult apply s1
    end.
Proof.
  intros Hfn Hty Hres Harg. cbn [finishApply].
  rewrite (bind_run _ _ _ _ _ Hfn).
  assert (isNull (getType fn) = false) as ->.
  { destruct (getType fn); try reflexivity. discriminate. }
  rewrite Hty. unfold coerceArgument in Harg.
  rewrite (bind_run _ _ _ _ _ Harg).
  destruct arg as [arg|]; [|reflexivity].
  rewrite Hres. cbn zeta.
  destruct (isPolymorphicFunctionType result); reflexivity.
Qed.

End FinishApply.
End Apply.

Module ApplyExamples.
Import Example CoercionExamples.

Definition memberAccess : N := 1%N.
Definition specialize (e : Expr) (polyFn openedType : Ty) : TC (option Expr) :=
  ret (Some e).
Definition substituteInputSugarTypeForResult (e : Expr) : TC (option Expr) :=
  ret (Some e).
Definition setImplicit (e : Expr) (implicit : bool) : Expr := e.

(** A function [f : Int -> Int]. *)
Definition f : Expr :=
  DeclRefExpr 8%nat 0%nat false (FunctionType Int Int false false).

(** The variable [x], an lvalue with other qualifiers than those of a
    member access, as the object argument of a member of [Int]. *)
Lemma coerceObjectArgumentToType_value_witness :
  exists e,
    Some (RequalifyExprForObject x (LValueType Int memberAccess)) = Some e /\
    isEqual (getType e) (LValueType (getRValueType Int) memberAccess) = true /\
    (e = x /\ ([] : Diags) = [] \/
     e = RequalifyExprForObject x (LValueType (getRValueType Int) memberAccess)
       /\ ([] : Diags) = [] \/
     e = MaterializeExpr x (LValueType (getRValueType Int) memberAccess)
       /\ ([] : Diags) = [] /\ getAsLValueType (getType x) = None \/
     exists coerced,
       e = ImplicitConversionExpr Materialize coerced
             (LValueType (getRValueType Int) memberAccess) /\
       coerceToType tc solution buildMemberRef finishApply 2 x
         (getRValueType Int) nullLocator [] = Ok (coerced, [])).
Proof.
  exact (coerceObjectArgumentToType_value tc solution buildMemberRef finishApply
           2 memberAccess x Int nullLocator []
           (Some (RequalifyExprForObject x (LValueType Int memberAccess))) []
           eq_refl eq_refl eq_refl).
Defined.

(** The call [f(x)]: the argument is loaded, and the call gets the result
    type of [f]. *)
Lemma finishApply_function_witness :
  Apply.finishApply tc solution buildMemberRef specialize
    substituteInputSugarTypeForResult setImplicit memberAccess true 3
    (ApplyExpr Call (Some f) x false false NullType) Int nullLocator []
  = Ok (Some (ApplyExpr Call (Some f) (LoadExpr x Int) false false Int), []).
Proof.
  exact (Apply.finishApply_function tc solution buildMemberRef specialize
           substituteInputSugarTypeForResult setImplicit memberAccess true 2
           Call f x false false NullType Int nullLocator [] f [] Int Int
           false false (Some (LoadExpr x Int)) []
           eq_refl eq_refl eq_refl eq_refl).
Defined.
End ApplyExamples.

(** ** The type of a coerced expression *)

Module Specialization.
Section Specialize.
Context (tc : TypeChecker) (solution : Solution).

(** [Solution::getFixedType]: the binding of the type variable is
    asserted to be known. *)
Definition getFixedType (typeVar : nat) : Res Ty :=
  match typeBindings solution typeVar with
  | Some t => Ok t
  | None => Abort
  end.

(** [TypeSubstitutionMap]: from archetypes to their replacements. *)
Definition TypeSubstitutionMap := Ty -> option Ty.

(** [tv->getImpl().getArchetype()] *)
Variable getArchetype : nat -> Ty.
(** [tc.transformType(type, fn)]; [fn] writes to the substitutions. *)
Variable transformType :
  Ty -> (Ty -> M TypeSubstitutionMap Ty) -> M TypeSubstitutionMap Ty.
(** [tc.checkSubstitutions(...)]: [true] when the substitutions fail. *)
Variable checkSubstitutions : TypeSubstitutionMap -> SourceLoc -> TC bool.

(** The function that [specialize] hands to [transformType]. *)
Definition substituteTypeVariable (type : Ty) : M TypeSubstitutionMap Ty :=
  match type with
  | TypeVariableType tv =>
      let archetype := getArchetype tv in
      let* simplified := liftRes (getFixedType tv) in
      do* modify (fun substitutions k =>
                    if decide (k = archetype) then Some simplified
                    else substitutions k) in
      ret (SubstitutedType archetype simplified)
  | _ => ret type
  end.

(** [Solution::specialize]: the opened type with each type variable
    replaced by its fixed type, the check of the substitutions gathered
    on the way, and the [SpecializeExpr] built from them (the encoded
    substitutions of that node are not part of [Expr]). *)
Definition specialize (expr : Expr) (polyFn openedType : Ty)
  : TC (option Expr) :=
  let* r := liftRes (transformType openedType substituteTypeVariable
                       (fun _ => None)) in
  let type := r.1 in
  let substitutions := r.2 in
  let* failed := checkSubstitutions substitutions (getLoc tc expr) in
  if failed then ret None
  else ret (Some (SpecializeExpr expr type)).

Lemma specialize_wellTyped expr polyFn openedType s e s' :
  specialize expr polyFn openedType s = Ok (Some e, s') -> wellTyped e = true.
Proof.
  unfold specialize. intros H. step H as r Hr. step H as failed Hf.
  destruct failed; inv_ret H; [discriminate|]. by inversion H.
Qed.
End Specialize.
End Specialization.

Section CoercionResult.
Context (tc : TypeChecker) (solution : Solution).
Variable buildMemberRef :
  Expr -> SourceLoc -> ValueDecl -> SourceLoc -> Ty ->
  ConstraintLocatorBuilder -> bool -> TC (option Expr).
Variable getArchetype : nat -> Ty.
Variable transformType :
  Ty -> (Ty -> M Specialization.TypeSubstitutionMap Ty) ->
  M Specialization.TypeSubstitutionMap Ty.
Variable checkSubstitutions :
  Specialization.TypeSubstitutionMap -> SourceLoc -> TC bool.
Variable substituteInputSugarTypeForResult : Expr -> TC (option Expr).
Variable setImplicit : Expr -> bool -> Expr.
Variable DefaultForMemberAccess : N.
Variable NDEBUG : bool.

(** What is assumed of the two collaborators whose results are coerced
    again: the [sources] of [computeTupleShuffle] are [int]s that name no
    source field twice, and the application that
    [substituteInputSugarTypeForResult] answers is well typed at its tuple
    literals. *)
Hypothesis computeTupleShuffle_sources :
  forall fromTuple toTuple labels srcs vargs,
    computeTupleShuffle tc fromTuple toTuple labels = Some (srcs, vargs) ->
    shuffleSources srcs.
Hypothesis substituteInputSugarTypeForResult_wellTyped :
  forall apply s e s',
    substituteInputSugarTypeForResult apply s = Ok (Some e, s') ->
    wellTyped e = true.

Local Abbreviation finishApply' :=
  (Apply.finishApply tc solution buildMemberRef
     (Specialization.specialize tc solution getArchetype transformType
        checkSubstitutions)
     substituteInputSugarTypeForResult setImplicit DefaultForMemberAccess
     NDEBUG).

(** [finishApply] on a call with a well-typed argument gives a well-typed
    expression: the call itself, specialized or not, or its argument
    coerced to the type that is constructed. *)
Lemma finishApply_wellTyped_fuel fuel :
  forall kind fn arg implicit isSuper ty openedType locator s e s',
    wellTyped arg = true ->
    finishApply' fuel (ApplyExpr kind fn arg implicit isSuper ty) openedType
      locator s = Ok (Some e, s') ->
    wellTyped e = true.
Proof.
  induction fuel as [|fuel IH];
    intros kind fn0 arg implicit isSuper ty openedType locator s e s' Hwt H.
  { discriminate. }
  pose proof (coerceToType_coercesWell tc solution buildMemberRef
                (finishApply' fuel) computeTupleShuffle_sources IH fuel) as Hco.
  cbn [Apply.finishApply] in H.
  destruct fn0 as [fn0|]; [|discriminate].
  step H as fn Hfn.
  destruct fn as [fn|]; [|destruct NDEBUG; [inv_ret H|]; discriminate].
  destruct (isNull (getType fn)); [discriminate|].
  destruct (getAsFunctionType (getType fn)) as [[[[input result] ?] ?]|].
  - step H as arg' Harg.
    destruct arg' as [arg'|]; [|step H as u Hd; inv_ret H; discriminate].
    destruct (isNull result); [discriminate|].
    destruct (Apply.isPolymorphicFunctionType result).
    + eapply Specialization.specialize_wellTyped; eauto.
    + eapply substituteInputSugarTypeForResult_wellTyped; eauto.
  - destruct (getAsMetaTypeType (getType fn)) as [ty'|]; [|discriminate].
    destruct (isNull ty'); [discriminate|].
    destruct (getAsTupleType ty') as [fields|].
    { by destruct (Hco _ _ _ _ _ _ Hwt H). }
    step H as u Hassert.
    destruct (overloadChoices solution _) as [[choice memberType]|].
    2:{ by destruct (Hco _ _ _ _ _ _ Hwt H). }
    destruct choice; try (by destruct (Hco _ _ _ _ _ _ Hwt H)).
    all: step H as decl Hdecl; step H as declRef Href;
      (destruct declRef as [declRef|]; [|discriminate]);
      eapply IH; eauto.
Qed.

(** C1, as the code has it: whenever [coerceToType], with the
    [finishApply] it calls and is called by, returns an expression for an
    expression that is well typed at its tuple literals, that expression
    has the type asked for, up to canonical-type equality.  (It may also
    return null after a diagnostic, and it stops on a pair of types for
    which no conversion exists.)  This is shown for a
    [computeTupleShuffle] that names no source field twice and a
    [substituteInputSugarTypeForResult] that answers well-typed
    expressions. *)
Theorem coerceToType_type fuel fuel' expr toType locator s e s' :
  wellTyped expr = true ->
  coerceToType tc solution buildMemberRef (finishApply' fuel') fuel
    expr toType locator s = Ok (Some e, s') ->
  isEqual (getType e) toType = true.
Proof.
  intros Hwt H.
  by destruct (coerceToType_coercesWell tc solution buildMemberRef
                 (finishApply' fuel') computeTupleShuffle_sources
                 (finishApply_wellTyped_fuel fuel') fuel
                 _ _ _ _ _ _ Hwt H).
Qed.
End CoercionResult.

Module CoercionResultExamples.
Import Example CoercionExamples ApplyExamples.

(** The positional shuffle, for destinations whose fields an [int] can
    count. *)
Definition boundedShuffle (fromTuple toTuple : list TupleTypeElt) (labels : bool)
  : option (list Z * list nat) :=
  if bool_decide (Z.of_nat (length toTuple) < 2 ^ 31)%Z
  then positionalShuffle fromTuple toTuple labels
  else None.
Definition bounded : TypeChecker :=
  worldWith boundedShuffle (typeCheckExpression tc) (getDefaultArg tc).

(** A shuffle that takes every destination field from the first source
    field. *)
Definition firstOnly (fromTuple toTuple : list TupleTypeElt) (labels : bool)
  : option (list Z * list nat) := Some (map (fun _ => 0%Z) toTuple, []).
Definition repeating : TypeChecker :=
  worldWith firstOnly (typeCheckExpression tc) (getDefaultArg tc).

Definition getArchetype (tv : nat) : Ty := ArchetypeType tv NullType.
Definition transformType (t : Ty)
    (fn : Ty -> M Specialization.TypeSubstitutionMap Ty)
  : M Specialization.TypeSubstitutionMap Ty := fn t.
Definition checkSubstitutions (subs : Specialization.TypeSubstitutionMap)
    (loc : SourceLoc) : TC bool := ret false.

(** [substituteInputSugarTypeForResult] takes an application and answers
    it. *)
Definition substituteApply (e : Expr) : TC (option Expr) :=
  match e with
  | ApplyExpr _ _ _ _ _ _ => ret (Some e)
  | _ => abort
  end.

Definition coerceIn (world : TypeChecker) (sol : Solution)
    (substitute : Expr -> TC (option Expr)) (fuel : nat) :=
  coerceToType world sol buildMemberRef
    (Apply.finishApply world sol buildMemberRef
       (Specialization.specialize world sol getArchetype transformType
          checkSubstitutions)
       substitute setImplicit memberAccess true fuel)
    fuel.

(** A type [Foo] with a conversion member, and a value of that type. *)
Definition Foo : Ty := NominalType (UserDecl 4).
Definition foo : Expr := DeclRefExpr 10%nat 0%nat false Foo.
Definition conversion : ValueDecl := 5%nat.
(** The solution chose [conversion], of type [() -> result], as the
    conversion member. *)
Definition convertingTo (result : Ty) : Solution := {|
  typeBindings := fun _ => None;
  overloadChoices := fun l =>
    match last (getPath l) with
    | Some ConstraintLocator.ConversionMember =>
        Some (Decl conversion, FunctionType (TupleType []) result false false)
    | _ => None
    end;
  constraintRestrictions := fun _ _ => None
|}.

Definition Str : Ty := NominalType (UserDecl 3).
Definition named (n : string) (t : Ty) : TupleTypeElt :=
  mkTupleTypeElt t n DefaultArgumentKind.None false.
Definition namedPair : Ty := TupleType [named "a" Int; named "b" Int].
(** The tuple literal [(s, i)] of a [Str] and an [Int], typed [(Int, Int)]:
    it is not well typed. *)
Definition mistyped : Expr :=
  TupleExpr [DeclRefExpr 11%nat 0%nat false Str;
             DeclRefExpr 12%nat 0%nat false Int] false pairType.
Definition substituteMistyped (e : Expr) : TC (option Expr) :=
  ret (Some mistyped).
(** The tuple literal [(x)] of the lvalue [x]. *)
Definition lvalueInt : Ty := LValueType Int 0%N.
Definition single : Expr := TupleExpr [x] false (TupleType [field lvalueInt]).

Lemma boundedShuffle_sources fromTuple toTuple labels srcs vargs :
  computeTupleShuffle bounded fromTuple toTuple labels = Some (srcs, vargs) ->
  shuffleSources srcs.
Proof.
  cbn. unfold boundedShuffle. case_bool_decide as Hlen; [|discriminate].
  intros H. split; [by eapply positionalShuffle_injective|].
  assert (Hseq : forall k, (k <= length toTuple)%nat ->
            Forall (fun x => (- 2 ^ 31 <= x < 2 ^ 31)%Z)
                   (map Z.of_nat (seq 0 k))).
  { intros k Hk. apply Forall_forall. intros z Hz.
    apply list_elem_of_fmap in Hz as (m & -> & Hm).
    apply elem_of_seq in Hm. lia. }
  unfold positionalShuffle in H.
  destruct (last toTuple) as [lastField|].
  - destruct (isVararg lastField).
    + case_bool_decide; inversion H; subst.
      apply Forall_app. split; [apply Hseq; lia|].
      constructor; [|done]. unfold FirstVariadic. lia.
    + case_bool_decide; inversion H; subst. by apply Hseq.
  - case_bool_decide; inversion H; subst. done.
Qed.

Lemma substituteApply_wellTyped apply s e s' :
  substituteApply apply s = Ok (Some e, s') -> wellTyped e = true.
Proof.
  destruct apply; try discriminate. cbn. intros H. inv_ret H. by inversion H.
Qed.

(** The call of the conversion member of [foo], as [finishApply] leaves
    it. *)
Definition converted : Expr :=
  ApplyExpr Call
    (Some (OtherExpr 0%nat [foo] 0%nat
             (FunctionType (TupleType []) Int false false)))
    (TupleExpr [] true (TupleType [])) true false Int.

(** [foo] converts to [Int] by its conversion member: [coerceToType] goes
    to [finishApply] for the call, which coerces the empty argument list,
    and to itself for the result. *)
Lemma coerceToType_type_witness :
  coerceIn bounded (convertingTo Int) substituteApply 3 foo Int nullLocator []
  = Ok (Some converted, []) /\
  isEqual (getType converted) Int = true.
Proof.
  split; [vm_compute; reflexivity|].
  exact (coerceToType_type bounded (convertingTo Int) buildMemberRef
           getArchetype transformType checkSubstitutions substituteApply
           setImplicit memberAccess true
           boundedShuffle_sources substituteApply_wellTyped
           3 3 foo Int nullLocator [] converted [] eq_refl eq_refl).
Defined.

(** C1 fails as stated, and what [coerceToType] returns has the type
    asked for only under the conditions above.
    (1) The conversion from [(Int, Int)] to [(Int, Int?)] has a shuffle,
    yet for a source that is not a tuple literal [coerceToType] reports
    [tuple_conversion_not_expressible] and returns null, whatever the
    fuel.
    (2) For the literal [(s, i)], which is typed [(Int, Int)] but holds a
    [Str], the conversion to [(a: Int, b: Int)] returns the literal with
    the type [(a: Str, b: Int)].
    (3) With a shuffle that takes both fields of [(Int, @lvalue Int)]
    from the one field of [(x)], the first field loads [x] in the literal
    and the second reads the type of the load: the shuffle returned has
    the type [(Int, Int)].
    (4) When [substituteInputSugarTypeForResult] answers the literal
    [(s, i)] for the call of the conversion member, the conversion of
    [foo] to [(a: Int, b: Int)] returns it with the type
    [(a: Str, b: Int)]. *)
Lemma coerceToType_null_or_mistyped :
  (wellTyped pairVar = true /\
   computeTupleShuffle bounded [field Int; field Int]
     [field Int; field (OptionalType Int)] false = Some ([0; 1], [])%Z /\
   coerceIn bounded solution substituteApply 1 pairVar
     (TupleType [field Int; field (OptionalType Int)]) nullLocator []
   = Ok (None, [notExpressible]) /\
   forall fuel e s',
     coerceIn bounded solution substituteApply fuel pairVar
       (TupleType [field Int; field (OptionalType Int)]) nullLocator []
     <> Ok (Some e, s')) /\
  (wellTyped mistyped = false /\
   coerceIn bounded solution substituteApply 1 mistyped namedPair nullLocator []
   = Ok (Some (TupleExpr [DeclRefExpr 11%nat 0%nat false Str;
                          DeclRefExpr 12%nat 0%nat false Int] false
                 (TupleType [named "a" Str; named "b" Int])), []) /\
   isEqual (TupleType [named "a" Str; named "b" Int]) namedPair = false) /\
  (wellTyped single = true /\
   computeTupleShuffle repeating [field lvalueInt]
     [field Int; field lvalueInt] false = Some ([0; 0], [])%Z /\
   coerceIn repeating solution substituteApply 3 single
     (TupleType [field Int; field lvalueInt]) nullLocator []
   = Ok (Some (TupleShuffleExpr
                 (TupleExpr [LoadExpr x Int] false (TupleType [field lvalueInt]))
                 [0; 0]%Z None [] (TupleType [field Int; field Int]) None), []) /\
   isEqual (TupleType [field Int; field Int])
           (TupleType [field Int; field lvalueInt]) = false) /\
  (wellTyped foo = true /\
   coerceIn bounded (convertingTo pairType) substituteMistyped 3 foo namedPair
     nullLocator []
   = Ok (Some (TupleExpr [DeclRefExpr 11%nat 0%nat false Str;
                          DeclRefExpr 12%nat 0%nat false Int] false
                 (TupleType [named "a" Str; named "b" Int])), []) /\
   isEqual (TupleType [named "a" Str; named "b" Int]) namedPair = false).
Proof.
  split; [|split; [|split]].
  - split; [reflexivity|]. split; [reflexivity|]. split; [reflexivity|].
    intros [|fuel] e s'; [discriminate|]. vm_compute. discriminate.
  - repeat split; vm_compute; reflexivity.
  - repeat split; vm_compute; reflexivity.
  - repeat split; vm_compute; reflexivity.
Qed.
End CoercionResultExamples.

(** ** Default arguments in a tuple shuffle *)

Section ShuffleDefaults.
Context (tc : TypeChecker) (solution : Solution).
Variable coerceToType_ :
  Expr -> Ty -> ConstraintLocatorBuilder -> TC (option Expr).

Local Abbreviation tupleField := (coerceTupleField tc solution coerceToType_).
Local Abbreviation tupleFields := (coerceTupleFields tc solution coerceToType_).
Local Abbreviation variadicArgs := (coerceVariadicArgs tc coerceToType_).
Local Abbreviation tupleToTuple := (coerceTupleToTuple tc solution coerceToType_).

Lemma findDefaultArgsOwner_Ok locator s r s' :
  findDefaultArgsOwner tc solution locator s = Ok (r, s') ->
  s' = s /\ forall d, r = Some d -> isAbstractFunctionDecl tc d = true.
Proof.
  unfold findDefaultArgsOwner.
  destruct (getPath locator) as [|p path] eqn:Hpath.
  { intros H. apply ret_Ok in H as [<- <-]. done. }
  destruct (getAnchor locator) as [anchor|].
  2:{ intros H. apply ret_Ok in H as [<- <-]. done. }
  intros H. step H as next Hnext.
  assert (s0 = s /\
          match next with
          | inl result =>
              forall d, result = Some d -> isAbstractFunctionDecl tc d = true
          | inr _ => True
          end) as [-> Hn].
  { destruct (last (p :: path)) as [[]|];
      try (apply ret_Ok in Hnext as [<- <-]; done).
    destruct (removelast (p :: path)) as [|[] [|? ?]];
      try (apply ret_Ok in Hnext as [<- <-]; done).
    destruct (overloadChoices solution _) as [[[] ?]|];
      try (apply ret_Ok in Hnext as [<- <-]; done).
    step Hnext as u Ha. apply assert_Ok in Ha as [Ha <-].
    apply ret_Ok in Hnext as [<- <-]. split; [done|]. by intros ? [= <-]. }
  destruct next as [result|loc'].
  - apply ret_Ok in H as [<- <-]. done.
  - destruct (getAnchor (simplifyLocator tc loc')) as [a|];
      [|apply ret_Ok in H as [<- <-]; done].
    destruct (getPath (simplifyLocator tc loc'));
      [|apply ret_Ok in H as [<- <-]; done].
    destruct (resolveLocatorToDecl tc _ _) as [d|];
      [|apply ret_Ok in H as [<- <-]; done].
    step H as u Ha. apply assert_Ok in Ha as [Ha <-].
    apply ret_Ok in H as [<- <-]. split; [done|]. by intros ? [= <-].
Qed.

Lemma digOutDefaultArgsOwner_Ok locator owner s o s' :
  digOutDefaultArgsOwner tc solution locator owner s = Ok (o, s') ->
  s' = s /\ isAbstractFunctionDecl tc o = true /\
  (forall o0, owner = Some o0 -> o = o0).
Proof.
  intros H. unfold digOutDefaultArgsOwner in H.
  step H as found Hf. apply findDefaultArgsOwner_Ok in Hf as [-> Hd].
  destruct owner as [o0|].
  - step H as u Ha. apply assert_Ok in Ha as [Ha <-].
    apply ret_Ok in H as [<- <-]. apply bool_decide_eq_true in Ha.
    split; [done|]. split; [by apply Hd|]. by intros ? [= <-].
  - destruct found as [f|]; [|discriminate].
    apply ret_Ok in H as [<- <-]. split; [done|]. split; [by apply Hd|done].
Qed.

Lemma getCallerDefaultArg_null loc owner index s s' :
  getCallerDefaultArg tc loc owner index s = Ok (None, s') ->
  (getDefaultArg tc owner index).1 = DefaultArgumentKind.Normal.
Proof.
  unfold getCallerDefaultArg.
  destruct (getDefaultArg tc owner index).1; cbn; try discriminate; try done.
  all: intros H; step H as r Hr; step H as u Ha;
    apply ret_Ok in H as [[=] _].
Qed.

(** The number of entries of a mapping that stand for a caller-side
    default argument. *)
Definition callerDefaults (mapping : list Z) : nat :=
  length (filter (fun src => src = CallerDefaultInitialize) mapping).

Lemma callerDefaults_snoc l x :
  callerDefaults (l ++ [x])
  = (callerDefaults l + if bool_decide (x = CallerDefaultInitialize) then 1 else 0)%nat.
Proof.
  unfold callerDefaults. rewrite filter_app, length_app. f_equal.
  rewrite filter_cons, filter_nil. case_bool_decide; by case_decide.
Qed.

(** The state of the loop over the destination fields after [i] fields,
    as far as default arguments go; [sources0] is the mapping that
    [computeTupleShuffle] produced. *)
Definition defaultsInv (sources0 : list Z) (i : nat) (st : ShuffleState) : Prop :=
  length (sources st) = length sources0 /\
  (forall k, (i <= k)%nat -> sources st !! k = sources0 !! k) /\
  length (callerDefaultArgs st) = callerDefaults (take i (sources st)) /\
  (forall k, (k < i)%nat ->
     sources st !! k = Some CallerDefaultInitialize ->
     sources0 !! k = Some DefaultInitialize /\ is_Some (defaultArgsOwner st)) /\
  (forall k, (k < i)%nat ->
     sources st !! k = Some DefaultInitialize ->
     sources0 !! k = Some DefaultInitialize /\
     exists o, defaultArgsOwner st = Some o /\
               (getDefaultArg tc o k).1 = DefaultArgumentKind.Normal) /\
  (forall o, defaultArgsOwner st = Some o -> isAbstractFunctionDecl tc o = true).

Lemma coerceTupleField_defaults sources0 fromTuple toTuple locator n i toElt
    st s st' s' :
  defaultsInv sources0 i st ->
  tupleField fromTuple toTuple locator n i toElt st s = Ok (Some st', s') ->
  defaultsInv sources0 (S i) st'.
Proof.
  intros (Hlen & Hrest & Hcda & Hcaller & Hcallee & Howner) H.
  unfold coerceTupleField in H.
  destruct st as [expr srcs hva shuf inits sugar fromFields cda owner].
  cbn [sources callerDefaultArgs defaultArgsOwner] in *.
  step H as src Hsrc. apply at_Ok in Hsrc as (_ & Hsrc & ->).
  rewrite Nat2Z.id in Hsrc.
  assert (Hi : (i < length srcs)%nat) by (eapply lookup_lt_Some; eauto).
  assert (Htake : forall x, take (S i) (<[i:=x]> srcs) = take i srcs ++ [x]).
  { intros x. rewrite (take_S_r _ _ x) by (by rewrite list_lookup_insert_eq).
    by rewrite take_insert_ge by lia. }
  assert (Hkeep : take (S i) srcs = take i srcs ++ [src]).
  { by apply take_S_r. }
  (* what an iteration that leaves the mapping, the arguments and the owner
     alone does to the invariant *)
  assert (Hframe : src <> DefaultInitialize -> src <> CallerDefaultInitialize ->
    defaultsInv sources0 (S i)
      (mkShuffleState (curExpr st') srcs (hasVarArg st') (anythingShuffled st')
         (hasInits st') (toSugarFields st') (fromTupleExprFields st') cda owner)).
  { intros Hnd Hnc. unfold defaultsInv. cbn [sources callerDefaultArgs defaultArgsOwner].
    split; [done|]. split; [intros k Hk; apply Hrest; lia|].
    split.
    { rewrite Hkeep, callerDefaults_snoc, Hcda.
      rewrite bool_decide_eq_false_2 by done. lia. }
    split.
    { intros k Hk Hx. destruct (decide (k = i)) as [->|Hne]; [congruence|].
      apply Hcaller; [lia|done]. }
    split; [|done].
    intros k Hk Hx. destruct (decide (k = i)) as [->|Hne]; [congruence|].
    apply Hcallee; [lia|done]. }
  destruct (Z.eqb_spec src DefaultInitialize) as [->|Hnd].
  { step H as owner' Ho. apply digOutDefaultArgsOwner_Ok in Ho as (-> & Habs & Hsame).
    step H as defArg Hdef.
    assert (Hs0 : sources0 !! i = Some DefaultInitialize).
    { rewrite <- Hrest by lia. done. }
    assert (Hold : forall o k, owner = Some o ->
              (getDefaultArg tc o k).1 = DefaultArgumentKind.Normal ->
              (getDefaultArg tc owner' k).1 = DefaultArgumentKind.Normal).
    { intros o k Ho. by rewrite (Hsame o Ho). }
    destruct defArg as [d|]; apply ret_Ok in H as [[= <-] <-];
      unfold defaultsInv; cbn [sources callerDefaultArgs defaultArgsOwner].
    - rewrite length_insert. split; [done|].
      split; [intros k Hk; rewrite list_lookup_insert_ne by lia; apply Hrest; lia|].
      split.
      { rewrite Htake, callerDefaults_snoc, length_app, Hcda.
        rewrite bool_decide_eq_true_2 by done. reflexivity. }
      split.
      { intros k Hk Hx. destruct (decide (k = i)) as [->|Hne]; [by eauto|].
        rewrite list_lookup_insert_ne in Hx by done.
        split; [|by eauto]. apply Hcaller; [lia|done]. }
      split.
      { intros k Hk Hx. destruct (decide (k = i)) as [->|Hne].
        - rewrite list_lookup_insert_eq in Hx by done. discriminate.
        - rewrite list_lookup_insert_ne in Hx by done.
          destruct (Hcallee k ltac:(lia) Hx) as (Hk0 & o & Ho & Hn).
          split; [done|]. exists owner'. split; [done|]. eapply Hold; eauto. }
      by intros o [= <-].
    - split; [done|]. split; [intros k Hk; apply Hrest; lia|].
      split.
      { rewrite Hkeep, callerDefaults_snoc, Hcda.
        rewrite bool_decide_eq_false_2 by done. lia. }
      split.
      { intros k Hk Hx. destruct (decide (k = i)) as [->|Hne].
        { rewrite Hsrc in Hx. injection Hx.
          unfold DefaultInitialize, CallerDefaultInitialize. lia. }
        split; [|by eauto]. apply Hcaller; [lia|done]. }
      split.
      { intros k Hk Hx. destruct (decide (k = i)) as [->|Hne].
        - split; [done|]. exists owner'. split; [done|].
          eapply getCallerDefaultArg_null; eauto.
        - destruct (Hcallee k ltac:(lia) Hx) as (Hk0 & o & Ho & Hn).
          split; [done|]. exists owner'. split; [done|]. eapply Hold; eauto. }
      by intros o [= <-]. }
  destruct (Z.eqb_spec src FirstVariadic) as [->|Hnv].
  { step H as u Ha. apply ret_Ok in H as [[= <-] <-]. by apply Hframe. }
  step H as fromElt Hfrom. apply at_Ok in Hfrom as (Hge & _ & ->).
  assert (Hnc : src <> CallerDefaultInitialize).
  { unfold CallerDefaultInitialize. lia. }
  destruct (isEqual (getType_elt fromElt) (getType_elt toElt)).
  { step H as t Ht. apply ret_Ok in H as [[= <-] <-]. by apply Hframe. }
  destruct (innerTupleExpr expr) as [elts|].
  2:{ step H as u Hd. apply ret_Ok in H as [[=] _]. }
  step H as elt Helt. step H as converted Hc.
  destruct converted as [convertedElt|]; apply ret_Ok in H as [H <-];
    [|discriminate].
  injection H as <-. by apply Hframe.
Qed.

Lemma coerceTupleFields_defaults sources0 fromTuple toTuple locator n rest :
  forall i st s st' s',
    defaultsInv sources0 i st ->
    tupleFields fromTuple toTuple locator n i rest st s = Ok (Some st', s') ->
    defaultsInv sources0 (i + length rest) st'.
Proof.
  induction rest as [|toElt rest IH]; intros i st s st' s' Hinv H.
  - cbn in H. apply ret_Ok in H as [[= <-] <-]. by rewrite Nat.add_0_r.
  - cbn [coerceTupleFields] in H. step H as r Hstep.
    destruct r as [st1|]; [|apply ret_Ok in H as [[=] _]].
    cbn [length]. replace (i + S (length rest))%nat with (S i + length rest)%nat by lia.
    eapply IH; [|exact H]. eapply coerceTupleField_defaults; eauto.
Qed.

Lemma coerceVariadicArgs_defaults fromTuple toTuple toEltType locator args :
  forall st s st' s',
    variadicArgs fromTuple toTuple toEltType locator args st s = Ok (Some st', s') ->
    callerDefaultArgs st' = callerDefaultArgs st /\
    defaultArgsOwner st' = defaultArgsOwner st.
Proof.
  induction args as [|idx args IH]; intros st s st' s' H.
  - cbn in H. by apply ret_Ok in H as [[= <-] <-].
  - cbn [coerceVariadicArgs] in H. step H as r Hstep.
    destruct r as [st1|]; [|apply ret_Ok in H as [[=] _]].
    apply IH in H as [-> ->]. clear IH.
    unfold coerceVariadicArg in Hstep.
    destruct st as [expr srcs hva shuf inits sugar fromFields cda owner].
    step Hstep as fromElt Hfrom.
    destruct (isEqual toEltType (getType_elt fromElt)).
    { by apply ret_Ok in Hstep as [[= <-] <-]. }
    destruct (innerTupleExpr expr) as [elts|].
    2:{ step Hstep as u Hd. apply ret_Ok in Hstep as [[=] _]. }
    step Hstep as elt Helt. step Hstep as converted Hc.
    destruct converted as [convertedElt|];
      apply ret_Ok in Hstep as [Hstep <-]; [|discriminate].
    by injection Hstep as <-.
Qed.

(** X10: default arguments in the [TupleShuffleExpr] that
    [coerceTupleToTuple] builds.  The node carries as many caller-side
    default arguments as its mapping has [CallerDefaultInitialize]
    entries, and each such entry stands where [computeTupleShuffle] had
    put [DefaultInitialize].  Every entry left at [DefaultInitialize] is a
    field whose default argument the owner declares [Normal], to be
    supplied by the callee.  In both cases the node names the owner of the
    default arguments, and an owner it names is a function declaration. *)
Theorem coerceTupleToTuple_default_args
    expr fromTuple toTuple locator sources0 variadicArgs0 s
    sub mapping owner cda ty inj s' :
  length sources0 = length toTuple ->
  tupleToTuple expr fromTuple toTuple locator sources0 variadicArgs0 s
    = Ok (Some (TupleShuffleExpr sub mapping owner cda ty inj), s') ->
  length cda = callerDefaults mapping /\
  (forall k, mapping !! k = Some CallerDefaultInitialize ->
     sources0 !! k = Some DefaultInitialize /\ is_Some owner) /\
  (forall k, mapping !! k = Some DefaultInitialize ->
     sources0 !! k = Some DefaultInitialize /\
     exists o, owner = Some o /\
               (getDefaultArg tc o k).1 = DefaultArgumentKind.Normal) /\
  (forall o, owner = Some o -> isAbstractFunctionDecl tc o = true).
Proof.
  intros Hlen0 H. unfold coerceTupleToTuple in H.
  step H as r Hloop. destruct r as [st|]; [|apply ret_Ok in H as [[=] _]].
  apply (coerceTupleFields_defaults sources0) in Hloop.
  2:{ unfold defaultsInv. cbn. repeat split; try done; intros; lia. }
  cbn [Nat.add] in Hloop.
  destruct Hloop as (Hlen & _ & Hcda & Hcaller & Hcallee & Howner).
  rewrite take_ge in Hcda by lia.
  step H as r Hvar.
  destruct r as [[st2 injectionFn]|]; [|apply ret_Ok in H as [[=] _]].
  assert (Hst2 : exists args,
            sources st2 = sources st ++ map Z.of_nat args /\
            callerDefaultArgs st2 = callerDefaultArgs st /\
            defaultArgsOwner st2 = defaultArgsOwner st).
  { destruct (hasVarArg st).
    - step Hvar as lastField Hl. step Hvar as toEltType Ht.
      step Hvar as r Hargs.
      destruct r as [st3|]; [|apply ret_Ok in Hvar as [[=] _]].
      step Hvar as sliceType Hs. step Hvar as fn Hfn.
      destruct fn as [fn|]; apply ret_Ok in Hvar as [Hvar _]; [|discriminate].
      injection Hvar as <- _.
      pose proof (coerceVariadicArgs_sources _ _ _ _ _ _ _ _ _ _ _ Hargs) as [Hs3 _].
      apply coerceVariadicArgs_defaults in Hargs as [Hc3 Ho3].
      by exists variadicArgs0.
    - apply ret_Ok in Hvar as [[= <- _] _]. exists []. cbn.
      by rewrite app_nil_r. }
  destruct Hst2 as (args & Hs2 & Hc2 & Ho2).
  assert (Hm : sources st2 = mapping /\ defaultArgsOwner st2 = owner /\
               callerDefaultArgs st2 = cda).
  { destruct (negb (anythingShuffled st2)
              && bool_decide (is_Some (innerTupleExpr (curExpr st2)))) eqn:E.
    - apply ret_Ok in H as [Heq _]. injection Heq as Heq. exfalso.
      apply andb_true_iff in E as [_ E]. apply bool_decide_eq_true in E.
      destruct (innerTupleExpr (curExpr st2)) eqn:Ei; [|by destruct E].
      eapply setTupleTypes_not_shuffle; [|exact Heq].
      destruct (curExpr st2); cbn in *; try discriminate; eauto.
    - apply ret_Ok in H as [Heq _]. by injection Heq as _ <- <- <- _ _. }
  destruct Hm as (<- & <- & <-). rewrite Hs2, Hc2, Ho2.
  assert (Hnew : forall k x, (length (sources st) <= k)%nat ->
            (sources st ++ map Z.of_nat args) !! k = Some x -> (0 <= x)%Z).
  { intros k x Hk Hx. rewrite lookup_app_r in Hx by done.
    rewrite list_lookup_fmap in Hx.
    destruct (args !! _); inversion Hx. lia. }
  assert (Hold : forall k x, (sources st ++ map Z.of_nat args) !! k = Some x ->
            (x < 0)%Z -> sources st !! k = Some x /\ (k < length toTuple)%nat).
  { intros k x Hx Hneg.
    destruct (decide (k < length (sources st))%nat) as [Hk|Hk].
    - rewrite lookup_app_l in Hx by done. split; [done|lia].
    - apply Hnew in Hx; lia. }
  split.
  { unfold callerDefaults in *. rewrite filter_app, length_app, <- Hcda.
    replace (filter _ (map Z.of_nat args)) with (@nil Z); [cbn; lia|].
    clear. induction args as [|a args IH]; [done|]. cbn [map].
    rewrite filter_cons_False; [done|].
    unfold CallerDefaultInitialize. lia. }
  split.
  { intros k Hx. apply Hold in Hx as [Hx Hk]; [|unfold CallerDefaultInitialize; lia].
    by apply Hcaller. }
  split; [|done].
  intros k Hx. apply Hold in Hx as [Hx Hk]; [|unfold DefaultInitialize; lia].
  by apply Hcallee.
Qed.

End ShuffleDefaults.

Module ShuffleDefaultsExamples.
Import Example.

(** [func count(from : Int, line : Int = __LINE__, by : Int = 1)] *)
Definition count : ValueDecl := 31%nat.
Definition countDefaults (d : ValueDecl) (index : nat)
  : DefaultArgumentKind.t * Ty :=
  match index with
  | 1%nat => (DefaultArgumentKind.Line, Int)
  | 2%nat => (DefaultArgumentKind.Normal, Int)
  | _ => (DefaultArgumentKind.None, NullType)
  end.
Definition countParams : list TupleTypeElt :=
  [field Int;
   mkTupleTypeElt Int EmptyString DefaultArgumentKind.Line false;
   mkTupleTypeElt Int EmptyString DefaultArgumentKind.Normal false].

(** The example type checker where the function of every call resolves
    to [count]. *)
Definition defaultsWorld : TypeChecker := {|
  getLoc := getLoc tc;
  getStartLoc := getStartLoc tc;
  getEndLoc := getEndLoc tc;
  computeTupleShuffle := computeTupleShuffle tc;
  hasMandatoryTupleLabels := hasMandatoryTupleLabels tc;
  getFieldForScalarInit := getFieldForScalarInit tc;
  getSuperClassOf := getSuperClassOf tc;
  mayHaveSuperclass := mayHaveSuperclass tc;
  getClassOrBoundGenericClass := getClassOrBoundGenericClass tc;
  getNominalOrBoundGenericNominal := getNominalOrBoundGenericNominal tc;
  hasReferenceSemantics := hasReferenceSemantics tc;
  isSubtypeOf := isSubtypeOf tc;
  conformsToProtocol := conformsToProtocol tc;
  buildArrayInjectionFnRef := buildArrayInjectionFnRef tc;
  typeCheckExpression := typeCheckExpression tc;
  coerceToRValue := coerceToRValue tc;
  simplifyLocator := fun l =>
    match getPath l with
    | [ConstraintLocator.ApplyFunction] => mkLocator (getAnchor l) []
    | _ => l
    end;
  resolveLocatorToDecl := fun _ _ => Some count;
  isAbstractFunctionDecl := isAbstractFunctionDecl tc;
  getDefaultArg := countDefaults;
  isFuncDecl := isFuncDecl tc;
  getDeclName := getDeclName tc;
  isInvalid := isInvalid tc;
  getDeclType := getDeclType tc;
  getMembers := getMembers tc;
  getProtocolLoc := getProtocolLoc tc;
  getProtocol := getProtocol tc;
  getWitness := getWitness tc;
  getWitnessType := getWitnessType tc;
  lookupMember := lookupMember tc;
  getTypeOfMemberReference := getTypeOfMemberReference tc;
  solveConversion := solveConversion tc;
  typeCheckCheckedCast := typeCheckCheckedCast tc;
  getOptionalType := getOptionalType tc;
  simplifyType := simplifyType tc;
  computeAssignDestType := computeAssignDestType tc;
  coercePatternToType := coercePatternToType tc;
  typeCheckClosureBody := typeCheckClosureBody tc
|}.

(** the argument [(one)] of a call *)
Definition one : Expr := DeclRefExpr 1%nat 0%nat false Int.
Definition argument : Expr := TupleExpr [one] false (TupleType [field Int]).
Definition argumentOfCall : ConstraintLocatorBuilder :=
  mkLocator (Some argument) [ConstraintLocator.ApplyArgument].
Definition line : Expr := MagicIdentifierLiteralExpr MagicLine 0%nat true Int.

Lemma coerceTupleToTuple_count :
  coerceTupleToTuple defaultsWorld solution
    (coerceToType defaultsWorld solution buildMemberRef finishApply 1)
    argument [field Int] countParams argumentOfCall
    [0; DefaultInitialize; DefaultInitialize]%Z [] []
  = Ok (Some (TupleShuffleExpr argument
                [0; CallerDefaultInitialize; DefaultInitialize]%Z
                (Some count) [line] (TupleType countParams) None), []).
Proof. vm_compute. reflexivity. Qed.

Lemma coerceTupleToTuple_default_args_witness :
  length [line] = callerDefaults [0; CallerDefaultInitialize; DefaultInitialize]%Z /\
  (forall k,
     [0; CallerDefaultInitialize; DefaultInitialize]%Z !! k
       = Some CallerDefaultInitialize ->
     [0; DefaultInitialize; DefaultInitialize]%Z !! k = Some DefaultInitialize /\
     is_Some (Some count)) /\
  (forall k,
     [0; CallerDefaultInitialize; DefaultInitialize]%Z !! k
       = Some DefaultInitialize ->
     [0; DefaultInitialize; DefaultInitialize]%Z !! k = Some DefaultInitialize /\
     exists o, Some count = Some o /\
               (getDefaultArg defaultsWorld o k).1 = DefaultArgumentKind.Normal) /\
  (forall o, Some count = Some o -> isAbstractFunctionDecl defaultsWorld o = true).
Proof.
  exact (coerceTupleToTuple_default_args defaultsWorld solution _
           argument [field Int] countParams argumentOfCall
           [0; DefaultInitialize; DefaultInitialize]%Z [] []
           _ _ _ _ _ _ [] eq_refl coerceTupleToTuple_count).
Defined.
End ShuffleDefaultsExamples.

(** ** The elements of a scalar-to-tuple conversion *)

Section ScalarToTuple.
Context (tc : TypeChecker) (solution : Solution).
Variable coerceToType_ :
  Expr -> Ty -> ConstraintLocatorBuilder -> TC (option Expr).

Lemma getCallerDefaultArg_kind loc owner index s r s' :
  getCallerDefaultArg tc loc owner index s = Ok (r, s') ->
  match r with
  | None => (getDefaultArg tc owner index).1 = DefaultArgumentKind.Normal
  | Some _ => is_Some (magicKindOf (getDefaultArg tc owner index).1)
  end.
Proof.
  unfold getCallerDefaultArg.
  destruct (getDefaultArg tc owner index).1; cbn; try discriminate.
  { intros H. by apply ret_Ok in H as [<- _]. }
  all: intros H; step H as c Hc; step H as u Ha;
    apply ret_Ok in H as [<- _]; eauto.
Qed.

(** The destination fields that get an entry in the element list of a
    [ScalarToTupleExpr], with their indices: the field the scalar
    initializes and every other field that is not variadic. *)
Definition entryFields (toScalarIdx : Z) (first : nat)
           (fields : list TupleTypeElt) : list (nat * TupleTypeElt) :=
  filter (fun p => Z.of_nat p.1 = toScalarIdx \/ isVararg p.2 = false)
         (zip (seq first (length fields)) fields).

(** The entry of field [p], given the owner of the default arguments. *)
Definition entryOf (toScalarIdx : Z) (owner : option ValueDecl)
           (p : nat * TupleTypeElt) (el : ScalarToTupleElement Expr) : Prop :=
  if bool_decide (Z.of_nat p.1 = toScalarIdx) then el = ScalarField
  else
    hasInit p.2 = true /\
    exists o, owner = Some o /\
      match el with
      | ScalarField => False
      | CallerDefault _ => is_Some (magicKindOf (getDefaultArg tc o p.1).1)
      | DefaultOwner o' =>
          o' = o /\ (getDefaultArg tc o p.1).1 = DefaultArgumentKind.Normal
      end.

Lemma entryOf_owner toScalarIdx owner owner' p el :
  (forall o, owner = Some o -> owner' = Some o) ->
  entryOf toScalarIdx owner p el -> entryOf toScalarIdx owner' p el.
Proof.
  unfold entryOf. intros Ho. case_bool_decide; [done|].
  intros (Hi & o & Heq & Hel). split; [done|]. exists o. split; [by apply Ho|done].
Qed.

Lemma scalarElements_entries expr toScalarIdx locator fields :
  forall first owner elements s r s',
    scalarElements tc solution expr toScalarIdx (Z.of_nat first) locator fields
      owner elements s = Ok (r, s') ->
    (forall o, owner = Some o -> isAbstractFunctionDecl tc o = true) ->
    exists added owner',
      r = elements ++ added /\
      (forall o, owner' = Some o -> isAbstractFunctionDecl tc o = true) /\
      (forall o, owner = Some o -> owner' = Some o) /\
      Forall2 (entryOf toScalarIdx owner')
        (entryFields toScalarIdx first fields) added.
Proof.
  induction fields as [|field rest IH]; intros first owner elements s r s' H Hfn.
  { cbn in H. apply ret_Ok in H as [<- _]. exists [], owner.
    rewrite app_nil_r. repeat split; try done; try constructor. }
  cbn [scalarElements] in H.
  replace (Z.of_nat first + 1)%Z with (Z.of_nat (S first)) in H by lia.
  unfold entryFields. cbn [length seq zip zip_with].
  destruct (Z.eqb_spec (Z.of_nat first) toScalarIdx) as [Heq|Hne].
  { apply IH in H as (added & owner' & -> & Hfn' & Hkeep & Hall); [|done].
    exists (ScalarField :: added), owner'.
    rewrite <- app_assoc. repeat split; try done.
    rewrite filter_cons_True by (by left). constructor; [|done].
    unfold entryOf. by rewrite bool_decide_eq_true_2. }
  destruct (isVararg field) eqn:Hva.
  { apply IH in H as (added & owner' & -> & Hfn' & Hkeep & Hall); [|done].
    exists added, owner'. repeat split; try done.
    rewrite filter_cons_False; [done|]. cbn. intros [?|?]; congruence. }
  step H as u Ha. apply assert_Ok in Ha as [Hinit <-].
  step H as o Ho.
  apply (digOutDefaultArgsOwner_Ok tc solution) in Ho as (-> & Habs & Hsame).
  step H as defArg Hdef. apply getCallerDefaultArg_kind in Hdef.
  rewrite Nat2Z.id in Hdef.
  apply IH in H as (added & owner' & -> & Hfn' & Hkeep & Hall).
  2:{ by intros ? [= <-]. }
  eexists (_ :: added), owner'. rewrite <- app_assoc.
  split; [reflexivity|]. split; [done|].
  split. { intros o0 Ho0. rewrite (Hsame _ Ho0) in Hkeep. by apply Hkeep. }
  rewrite filter_cons_True by (by right). constructor; [|done].
  unfold entryOf. cbn [fst snd]. rewrite bool_decide_eq_false_2 by done.
  split; [done|]. exists o. split; [by apply Hkeep|].
  destruct defArg; done.
Qed.

(** X11: the element list of the [ScalarToTupleExpr] that
    [coerceScalarToTuple] builds.  It has, in the order of the
    destination fields, the scalar entry for the field of index
    [toScalarIdx] and one entry for every other field that is not
    variadic.  Each of those fields has a default argument, and its entry
    is either the owner of the default arguments, when the owner declares
    a [Normal] default argument at that index, or a caller-side
    expression, when the owner declares a magic-identifier default there.
    All entries name the same owner, a function declaration.  The node
    wraps what [coerceToType] returned for the scalar, and has an
    injection function exactly when the last destination field is
    variadic. *)
Theorem coerceScalarToTuple_elements
    expr toTuple toScalarIdx locator s sub ty elements inj s' :
  coerceScalarToTuple tc solution coerceToType_ expr toTuple toScalarIdx locator s
    = Ok (Some (ScalarToTupleExpr sub ty elements inj), s') ->
  (exists owner,
     Forall2 (entryOf toScalarIdx owner)
       (entryFields toScalarIdx 0 toTuple) elements /\
     (forall o, owner = Some o -> isAbstractFunctionDecl tc o = true)) /\
  (exists field toScalarType s1 s2,
     toTuple !! Z.to_nat toScalarIdx = Some field /\ (0 <= toScalarIdx)%Z /\
     (if isVararg field then getVarargBaseTy field = Ok toScalarType
      else toScalarType = getType_elt field) /\
     coerceToType_ expr toScalarType
       (withPathElement locator ConstraintLocator.ScalarToTuple) s1
     = Ok (Some sub, s2)) /\
  (is_Some inj <->
   exists lastField, last toTuple = Some lastField /\ isVararg lastField = true).
Proof.
  intros H. unfold coerceScalarToTuple in H.
  step H as lastField Hlast. unfold back in Hlast.
  destruct (last toTuple) as [l|] eqn:El; [|discriminate].
  apply ret_Ok in Hlast as [-> <-].
  step H as r Hinj.
  destruct r as [injectionFn|]; [|apply ret_Ok in H as [[=] _]].
  assert (Hi : is_Some injectionFn <-> isVararg lastField = true).
  { destruct (isVararg lastField).
    - step Hinj as sliceType Hs. step Hinj as fn Hfn.
      destruct fn; apply ret_Ok in Hinj as [[= <-] _]. split; eauto.
    - apply ret_Ok in Hinj as [[= <-] _]. split; [by intros [? ?]|done]. }
  step H as field Hfield. apply at_Ok in Hfield as (Hge & Hfield & <-).
  step H as toScalarType Hty.
  assert (Hty' : s1 = s0 /\
            if isVararg field then getVarargBaseTy field = Ok toScalarType
            else toScalarType = getType_elt field).
  { destruct (isVararg field).
    - apply liftRes_Ok in Hty as [? ?]. done.
    - by apply ret_Ok in Hty as [<- <-]. }
  destruct Hty' as [-> Hty']. clear Hty.
  step H as r Hc. destruct r as [coerced|]; [|apply ret_Ok in H as [[=] _]].
  step H as sf Hsf. step H as els Hels.
  apply ret_Ok in H as [[= <- _ <- <-] _].
  apply (scalarElements_entries _ _ _ _ 0%nat) in Hels
    as (added & owner & -> & Hfn & _ & Hall); [|done].
  split; [by exists owner|].
  split; [by exists field, toScalarType, s0, s1|].
  rewrite Hi. split; [by exists lastField|]. by intros (? & [= <-] & ?).
Qed.
End ScalarToTuple.

Module ScalarToTupleExamples.
Import Example ShuffleDefaultsExamples.

Definition coerceOnce :=
  coerceToType defaultsWorld solution buildMemberRef finishApply 1.

(** the call [count(one)] *)
Lemma coerceScalarToTuple_count :
  coerceScalarToTuple defaultsWorld solution coerceOnce one countParams 0
    argumentOfCall []
  = Ok (Some (ScalarToTupleExpr one (TupleType countParams)
                [ScalarField; CallerDefault line; DefaultOwner count] None), []).
Proof. vm_compute. reflexivity. Qed.

Lemma coerceScalarToTuple_elements_witness :
  (exists owner,
     Forall2 (entryOf defaultsWorld 0 owner) (entryFields 0 0 countParams)
       [ScalarField; CallerDefault line; DefaultOwner count] /\
     (forall o, owner = Some o -> isAbstractFunctionDecl defaultsWorld o = true)) /\
  (exists field toScalarType s1 s2,
     countParams !! Z.to_nat 0 = Some field /\ (0 <= 0)%Z /\
     (if isVararg field then getVarargBaseTy field = Ok toScalarType
      else toScalarType = getType_elt field) /\
     coerceOnce one toScalarType
       (withPathElement argumentOfCall ConstraintLocator.ScalarToTuple) s1
     = Ok (Some one, s2)) /\
  (is_Some (@None Expr) <->
   exists lastField, last countParams = Some lastField /\ isVararg lastField = true).
Proof.
  exact (coerceScalarToTuple_elements defaultsWorld solution coerceOnce
           one countParams 0 argumentOfCall [] _ _ _ _ _
           coerceScalarToTuple_count).
Defined.
End ScalarToTupleExamples.

(** ** The assignment counter across a walk *)

(** The sub-expressions that the walk goes through. *)
Fixpoint walkSize (e : Expr) : nat :=
  match e with
  | ParenExpr s _ | AutoClosureExpr s _ | SpecializeExpr s _ => S (walkSize s)
  | TupleExpr es _ _ | OtherExpr _ es _ _ => S (list_sum (map walkSize es))
  | MetatypeExpr (Some b) _ _ _ | ImplicitConversionExpr _ (Some b) _
  | ClosureExpr (Some b) _ => S (walkSize b)
  | ApplyExpr _ (Some f) a _ _ _ => S (walkSize f + walkSize a)
  | AssignExpr d s _ _ => S (walkSize d + walkSize s)
  | IfExpr _ t e _ => S (walkSize t + walkSize e)
  | _ => 0
  end.

(** No ternary expression among the sub-expressions that the walk goes
    through. *)
Fixpoint noTernary (e : Expr) : bool :=
  match e with
  | IfExpr _ _ _ _ => false
  | ParenExpr s _ | AutoClosureExpr s _ | SpecializeExpr s _ => noTernary s
  | TupleExpr es _ _ | OtherExpr _ es _ _ => forallb noTernary es
  | MetatypeExpr (Some b) _ _ _ | ImplicitConversionExpr _ (Some b) _
  | ClosureExpr (Some b) _ => noTernary b
  | ApplyExpr _ (Some f) a _ _ _ => noTernary f && noTernary a
  | AssignExpr d s _ _ => noTernary d && noTernary s
  | _ => true
  end.

Lemma liftTC_Ok {A} (m : TC A) w a w' :
  liftTC m w = Ok (a, w') ->
  LeftSideOfAssignment w' = LeftSideOfAssignment w /\
  m (walkerDiags w) = Ok (a, walkerDiags w').
Proof.
  unfold liftTC. destruct (m (walkerDiags w)) as [[a' ds]| |]; try discriminate.
  intros [= <- <-]. done.
Qed.

Section WalkerBalance.
Context (tc : TypeChecker) (solution : Solution).
Variable buildMemberRef :
  Expr -> SourceLoc -> ValueDecl -> SourceLoc -> Ty ->
  ConstraintLocatorBuilder -> bool -> TC (option Expr).
Variable finishApply :
  Expr -> Ty -> ConstraintLocatorBuilder -> TC (option Expr).
Variable fuel : nat.
Variable visitNewArrayExpr : Expr -> TC Expr.
Variable visitIfExpr : Expr -> TC Expr.
Variable visitAssignExpr : Expr -> TC (option Expr).
Variable visitOther : Expr -> TC (option Expr).

Local Abbreviation walk' :=
  (walk tc solution buildMemberRef finishApply fuel visitNewArrayExpr
        visitIfExpr visitAssignExpr visitOther).
Local Abbreviation visit' :=
  (visit tc solution buildMemberRef finishApply fuel visitNewArrayExpr
         visitIfExpr visitAssignExpr visitOther).

Definition counterInRange (w : WalkerState) : Prop :=
  (0 <= LeftSideOfAssignment w < 2 ^ 32)%Z.

(** A walk that hands back an expression leaves the counter alone. *)
Definition restores (e : Expr) : Prop :=
  forall w r w',
    counterInRange w -> walk' e w = Ok (Some r, w') ->
    LeftSideOfAssignment w' = LeftSideOfAssignment w.

Lemma walkList_restores es :
  Forall restores es ->
  forall w r w',
    counterInRange w ->
    (fix walkList (es : list Expr) : Walk (option (list Expr)) :=
       match es with
       | [] => ret (Some [])
       | e :: rest =>
           let* e' := walk' e in
           match e' with
           | None => ret None
           | Some e' =>
               let* rest' := walkList rest in
               ret ((fun r => e' :: r) <$> rest')
           end
       end) es w = Ok (Some r, w') ->
    LeftSideOfAssignment w' = LeftSideOfAssignment w.
Proof.
  induction 1 as [|e es He Hes IH]; intros w r w' Hw H.
  - by apply ret_Ok in H as [_ <-].
  - step H as e' Hwalk. destruct e' as [e'|]; [|apply ret_Ok in H as [[=] _]].
    step H as rest' Hrest. apply ret_Ok in H as [H <-].
    destruct rest' as [rest'|]; [|discriminate].
    apply He in Hwalk; [|done].
    apply IH in Hrest; [congruence|].
    unfold counterInRange in *. by rewrite Hwalk.
Qed.

Lemma walk_leaf e w r w' :
  (let* x := walkChildren walk' e in
   match x with
   | Some e => liftTC (visit' e)
   | None => ret None
   end) w = Ok (r, w') ->
  walkChildren walk' e = ret (Some e) ->
  LeftSideOfAssignment w' = LeftSideOfAssignment w.
Proof.
  intros H Heq. rewrite Heq in H. step H as x Hx. apply ret_Ok in Hx as [<- <-].
  by apply liftTC_Ok in H as [-> _].
Qed.

Lemma walk_post (children : Walk (option Expr)) w r w' :
  (let* x := children in
   match x with
   | Some e => liftTC (visit' e)
   | None => ret None
   end) w = Ok (Some r, w') ->
  exists x w1,
    children w = Ok (Some x, w1) /\
    LeftSideOfAssignment w' = LeftSideOfAssignment w1.
Proof.
  intros H. step H as x Hx. destruct x as [x|]; [|apply ret_Ok in H as [[=] _]].
  apply liftTC_Ok in H as [H _]. eauto.
Qed.

Lemma walkChild_restores sub (f : Expr -> Expr) w x w' :
  restores sub -> counterInRange w ->
  (let* s := walk' sub in ret (f <$> s)) w = Ok (Some x, w') ->
  LeftSideOfAssignment w' = LeftSideOfAssignment w.
Proof.
  intros Hsub Hw H. step H as r Hr. apply ret_Ok in H as [H <-].
  destruct r as [r|]; [|discriminate]. by eapply Hsub.
Qed.

Lemma walkSize_elem e es :
  e ∈ es -> (walkSize e <= list_sum (map walkSize es))%nat.
Proof.
  induction 1 as [e es|e e' es _ IH];
    change (map walkSize (?x :: ?l)) with (walkSize x :: map walkSize l);
    change (list_sum (?a :: ?b)) with (a + list_sum b)%nat; lia.
Qed.

Lemma walk_restores_counter_sized n :
  forall expr, (walkSize expr < n)%nat -> noTernary expr = true -> restores expr.
Proof.
  induction n as [|n IH]; [lia|].
  assert (Hlist : forall es,
            (list_sum (map walkSize es) < n)%nat ->
            forallb noTernary es = true -> Forall restores es).
  { intros es Hsize Hno. apply Forall_forall. intros e He. apply IH.
    - pose proof (walkSize_elem _ _ He). lia.
    - rewrite forallb_forall in Hno. apply Hno. by apply list_elem_of_In. }
  intros expr Hsize Hno w r w' Hw H.
  rewrite walk_unfold in H.
  destruct expr; cbn [noTernary] in Hno; try discriminate;
    cbn [walkToExprPre] in H; cbn [walkSize] in Hsize.
  all: try (step H as pre Hpre; apply ret_Ok in Hpre as [<- <-];
            eapply walk_leaf; [exact H|reflexivity]).
  - (* DiscardAssignmentExpr *)
    step H as pre Hpre. step Hpre as w0 Hget. step Hpre as u Hd.
    apply ret_Ok in Hpre as [<- <-]. injection Hget as <- <-.
    assert (LeftSideOfAssignment s1 = LeftSideOfAssignment w) as <-.
    { destruct (LeftSideOfAssignment w =? 0)%Z.
      - by apply liftTC_Ok in Hd as [-> _].
      - by apply ret_Ok in Hd as [_ <-]. }
    eapply walk_leaf; [exact H|reflexivity].
  - (* ParenExpr *)
    step H as pre Hpre. apply ret_Ok in Hpre as [<- <-].
    apply walk_post in H as (x & w1 & H & ->). cbn [walkChildren] in H.
    eapply walkChild_restores; [|done|exact H]. apply IH; [lia|done].
  - (* TupleExpr *)
    step H as pre Hpre. apply ret_Ok in Hpre as [<- <-].
    apply walk_post in H as (x & w1 & H & ->). cbn [walkChildren] in H.
    step H as es Hes. apply ret_Ok in H as [H <-].
    destruct es as [es|]; [|discriminate].
    eapply walkList_restores; [|done|exact Hes]. apply Hlist; [lia|done].
  - (* MetatypeExpr *)
    destruct hasTypeRepr.
    { apply ret_Ok in H as [_ <-]. done. }
    step H as pre Hpre. apply ret_Ok in Hpre as [<- <-].
    destruct base as [base|]; [|eapply walk_leaf; [exact H|reflexivity]].
    apply walk_post in H as (x & w1 & H & ->). cbn [walkChildren] in H.
    eapply walkChild_restores; [|done|exact H]. apply IH; [lia|done].
  - (* ApplyExpr *)
    step H as pre Hpre. apply ret_Ok in Hpre as [<- <-].
    destruct fn as [fn|]; [|eapply walk_leaf; [exact H|reflexivity]].
    apply andb_true_iff in Hno as [Hf Ha].
    apply walk_post in H as (x & w1 & H & ->). cbn [walkChildren] in H.
    step H as f Hfn. destruct f as [f|]; [|apply ret_Ok in H as [[=] _]].
    apply (IH fn) in Hfn; [|lia|done|done].
    eapply walkChild_restores in H; [congruence|apply IH; [lia|done]|].
    unfold counterInRange in *. by rewrite Hfn.
  - (* ImplicitConversionExpr *)
    step H as pre Hpre. apply ret_Ok in Hpre as [<- <-].
    destruct sub as [sub|]; [|eapply walk_leaf; [exact H|reflexivity]].
    apply walk_post in H as (x & w1 & H & ->). cbn [walkChildren] in H.
    eapply walkChild_restores; [|done|exact H]. apply IH; [lia|done].
  - (* AutoClosureExpr *)
    step H as pre Hpre. apply ret_Ok in Hpre as [<- <-].
    apply walk_post in H as (x & w1 & H & ->). cbn [walkChildren] in H.
    eapply walkChild_restores; [|done|exact H]. apply IH; [lia|done].
  - (* ClosureExpr *)
    step H as pre Hpre.
    destruct (getDesugaredType _); try discriminate.
    step Hpre as failed Hfail. apply liftTC_Ok in Hfail as [Hfail _].
    destruct failed.
    { apply ret_Ok in Hpre as [<- <-]. apply ret_Ok in H as [[=] _]. }
    destruct singleExpressionBody as [b|].
    + step Hpre as walked Hwalk. step Hpre as coerced Hco.
      destruct coerced as [b'|]; apply ret_Ok in Hpre as [<- <-];
        apply ret_Ok in H as [H <-]; [|discriminate].
      destruct walked as [b0|]; [|apply ret_Ok in Hco as [[=] _]].
      apply liftTC_Ok in Hco as [-> _].
      apply (IH b) in Hwalk; [congruence|lia|done|].
      unfold counterInRange in *. by rewrite Hfail.
    + step Hpre as c Hc. apply liftTC_Ok in Hc as [Hc _].
      apply ret_Ok in Hpre as [<- <-]. apply ret_Ok in H as [_ <-]. congruence.
  - (* CheckedCastExpr *)
    step H as pre Hpre. step Hpre as v Hv. apply liftTC_Ok in Hv as [Hv _].
    apply ret_Ok in Hpre as [<- <-]. apply ret_Ok in H as [_ <-]. done.
  - (* AssignExpr *)
    apply andb_true_iff in Hno as [Hd Hs].
    step H as pre Hpre. step Hpre as u Hi. injection Hi as _ <-.
    step Hpre as d Hdest.
    destruct d as [dest'|].
    2:{ apply ret_Ok in Hpre as [<- <-]. apply ret_Ok in H as [[=] _]. }
    step Hpre as u' Hdec. injection Hdec as _ <-.
    step Hpre as sr Hsrc.
    destruct sr as [src'|].
    2:{ apply ret_Ok in Hpre as [<- <-]. apply ret_Ok in H as [[=] _]. }
    step Hpre as v Hv. apply liftTC_Ok in Hv as [Hv _].
    apply ret_Ok in Hpre as [<- <-]. apply ret_Ok in H as [_ <-].
    unfold counterInRange in Hw.
    apply (IH expr1) in Hdest; [|lia|done|].
    2:{ unfold counterInRange. cbn. apply Z.mod_pos_bound. lia. }
    cbn [LeftSideOfAssignment] in Hdest.
    assert (Hback : ((LeftSideOfAssignment s0 - 1) mod 2 ^ 32
                     = LeftSideOfAssignment w)%Z).
    { rewrite Hdest.
      rewrite Zminus_mod_idemp_l.
      replace (LeftSideOfAssignment w + 1 - 1)%Z with (LeftSideOfAssignment w) by lia.
      apply Z.mod_small. lia. }
    apply (IH expr2) in Hsrc; [|lia|done|].
    2:{ unfold counterInRange. cbn. rewrite Hback. lia. }
    cbn [LeftSideOfAssignment] in Hsrc. congruence.
  - (* NewArrayExpr *)
    step H as pre Hpre. step Hpre as v Hv. apply liftTC_Ok in Hv as [Hv _].
    apply ret_Ok in Hpre as [<- <-]. apply ret_Ok in H as [_ <-]. done.
  - (* DefaultValueExpr *)
    step H as pre Hpre. apply ret_Ok in Hpre as [<- <-].
    apply ret_Ok in H as [_ <-]. done.
  - (* SpecializeExpr *)
    step H as pre Hpre. apply ret_Ok in Hpre as [<- <-].
    apply walk_post in H as (x & w1 & H & ->). cbn [walkChildren] in H.
    eapply walkChild_restores; [|done|exact H]. apply IH; [lia|done].
  - (* OtherExpr *)
    step H as pre Hpre. apply ret_Ok in Hpre as [<- <-].
    apply walk_post in H as (x & w1 & H & ->). cbn [walkChildren] in H.
    step H as es Hes. apply ret_Ok in H as [H <-].
    destruct es as [es|]; [|discriminate].
    eapply walkList_restores; [|done|exact Hes]. apply Hlist; [lia|done].
Qed.

(** X12: the assignment counter is balanced across a walk that succeeds.
    For an expression with no ternary among the sub-expressions that the
    walk goes through, a walk that hands back an expression ends with
    [LeftSideOfAssignment] at the value it started with, whatever the
    visit methods did and however deep the assignments nest. *)
Theorem walk_restores_counter expr w r w' :
  noTernary expr = true ->
  (0 <= LeftSideOfAssignment w < 2 ^ 32)%Z ->
  walk' expr w = Ok (Some r, w') ->
  LeftSideOfAssignment w' = LeftSideOfAssignment w.
Proof.
  intros Hno Hw H.
  exact (walk_restores_counter_sized (S (walkSize expr)) expr
           (Nat.lt_succ_diag_r _) Hno w r w' Hw H).
Qed.
End WalkerBalance.

Module WalkerBalanceExamples.
Import Example WalkerExamples.

(** [((_ = one), one)] inside the left side of five assignments *)
Definition assignInTuple : Expr :=
  TupleExpr [ParenExpr (AssignExpr discard one 3%nat (TupleType [])) (TupleType []);
             one] false (TupleType [field (TupleType []); field Int]).

Lemma walk_assignInTuple :
  walkExpr assignInTuple (mkWalkerState 5 [])
  = Ok (Some assignInTuple, mkWalkerState 5 []).
Proof. vm_compute. reflexivity. Qed.

Lemma walk_restores_counter_witness :
  noTernary assignInTuple = true /\
  LeftSideOfAssignment (mkWalkerState 5 [])
  = LeftSideOfAssignment (mkWalkerState 5 []).
Proof.
  split; [reflexivity|].
  refine (walk_restores_counter tc solution buildMemberRef finishApply 4
            visitNewArrayExpr visitIfExpr visitAssignExpr visitOther
            assignInTuple (mkWalkerState 5 []) assignInTuple
            (mkWalkerState 5 []) eq_refl _ walk_assignInTuple).
  cbn. lia.
Defined.
End WalkerBalanceExamples.

(** ** No coercion fails silently *)

(** [s'] has every diagnostic of [s], and at least one more. *)
Definition reports (s s' : Diags) : Prop :=
  exists added, added <> [] /\ s' = added ++ s.

(** A computation that keeps the diagnostics it finds, and that has
    reported something whenever its result is [bad]. *)
Definition LoudOn {A} (bad : A -> Prop) (m : TC A) : Prop :=
  forall s r s', m s = Ok (r, s') -> s `suffix_of` s' /\ (bad r -> reports s s').
Definition Mono {A} (m : TC A) : Prop := LoudOn (fun _ => False) m.
(** A computation that answers null only after a diagnostic. *)
Definition Loud {A} (m : TC (option A)) : Prop := LoudOn (fun r => r = None) m.

Lemma reports_suffix_l s s1 s' : s `suffix_of` s1 -> reports s1 s' -> reports s s'.
Proof.
  intros [k ->] (added & Hne & ->). exists (added ++ k).
  split; [by destruct added|by rewrite app_assoc].
Qed.

Lemma reports_suffix_r s s1 s' : reports s s1 -> s1 `suffix_of` s' -> reports s s'.
Proof.
  intros (added & Hne & ->) [k ->]. exists (k ++ added).
  split; [by destruct k, added|by rewrite app_assoc].
Qed.

Lemma LoudOn_weaken {A} (bad bad' : A -> Prop) (m : TC A) :
  (forall r, bad' r -> bad r) -> LoudOn bad m -> LoudOn bad' m.
Proof.
  intros Hb Hm s r s' H. destruct (Hm _ _ _ H) as [Hs Hr]. split; auto.
Qed.

Lemma LoudOn_Mono {A} (bad : A -> Prop) (m : TC A) : LoudOn bad m -> Mono m.
Proof. apply LoudOn_weaken. done. Qed.

Lemma LoudOn_ret {A} (bad : A -> Prop) (a : A) : ~ bad a -> LoudOn bad (ret a).
Proof. intros Ha s r s' H. apply ret_Ok in H as [<- <-]. done. Qed.

Lemma LoudOn_abort {A} (bad : A -> Prop) : LoudOn bad abort.
Proof. intros s r s' H. discriminate. Qed.

Lemma LoudOn_outOfFuel {A} (bad : A -> Prop) : LoudOn bad outOfFuel.
Proof. intros s r s' H. discriminate. Qed.

Lemma Mono_pure {A} (m : TC A) :
  (forall s r s', m s = Ok (r, s') -> s' = s) -> Mono m.
Proof. intros Hm s r s' H. apply Hm in H as ->. done. Qed.

Lemma Mono_assert c : Mono (assert c).
Proof. apply Mono_pure. intros s r s' H. by apply assert_Ok in H as [_ <-]. Qed.

Lemma Mono_liftRes {A} (r : Res A) : Mono (liftRes r).
Proof. apply Mono_pure. intros s a s' H. by apply liftRes_Ok in H as [_ <-]. Qed.

Lemma Mono_at {A} (xs : list A) i : Mono (at_ xs i).
Proof. apply Mono_pure. intros s a s' H. by apply at_Ok in H as (_ & _ & <-). Qed.

Lemma LoudOn_diagnose (bad : unit -> Prop) loc d : LoudOn bad (diagnose loc d).
Proof.
  intros s r s' [= <- <-]. split; [by exists [diagnostic loc d]|].
  intros _. by exists [diagnostic loc d].
Qed.

(** A bind whose first part has reported whenever its result is [badA]:
    after a [badA] result the rest need only keep the diagnostics. *)
Lemma LoudOn_bind {A B} (badA : A -> Prop) (bad : B -> Prop)
    (m : TC A) (k : A -> TC B) :
  LoudOn badA m ->
  (forall a, LoudOn bad (k a) \/ (badA a /\ Mono (k a))) ->
  LoudOn bad (bind m k).
Proof.
  intros Hm Hk s r s' H. step H as a Ha.
  destruct (Hm _ _ _ Ha) as [Hs Hbad].
  destruct (Hk a) as [Hl|[Hb Hl]]; destruct (Hl _ _ _ H) as [Hs' Hr].
  - split; [by etrans|]. intros Hr'. eapply reports_suffix_l; eauto.
  - split; [by etrans|]. intros _. eapply reports_suffix_r; eauto.
Qed.

Lemma LoudOn_bind_mono {A B} (bad : B -> Prop) (m : TC A) (k : A -> TC B) :
  Mono m -> (forall a, LoudOn bad (k a)) -> LoudOn bad (bind m k).
Proof. intros Hm Hk. eapply LoudOn_bind; [exact Hm|]. auto. Qed.

(** The usual shape: give up with null when the first part did. *)
Lemma Loud_bind_opt {A B} (m : TC (option A)) (k : option A -> TC (option B)) :
  Loud m -> Mono (k None) -> (forall a, Loud (k (Some a))) -> Loud (bind m k).
Proof.
  intros Hm Hn Hk. eapply LoudOn_bind; [exact Hm|].
  intros [a|]; [left; apply Hk|right; done].
Qed.

Lemma Mono_back {A} (xs : list A) : Mono (back xs).
Proof.
  unfold back, Mono.
  destruct (last xs); [apply LoudOn_ret; intros []|apply LoudOn_abort].
Qed.

Lemma Mono_castArraySliceType t : Mono (castArraySliceType t).
Proof.
  unfold castArraySliceType, Mono.
  destruct t; first [apply LoudOn_abort|apply LoudOn_ret; intros []].
Qed.

Lemma Mono_firstGenericArg args : Mono (firstGenericArg args).
Proof.
  unfold firstGenericArg, Mono.
  destruct args; [apply LoudOn_abort|apply LoudOn_ret; intros []].
Qed.

Ltac loud :=
  repeat first
    [ apply LoudOn_abort
    | apply LoudOn_outOfFuel
    | apply LoudOn_ret; first [discriminate | by intros [] | done]
    | apply Mono_assert | apply Mono_liftRes | apply Mono_at
    | apply LoudOn_diagnose
    | match goal with
      | |- LoudOn _ (bind (back _) _) =>
          apply LoudOn_bind_mono; [apply Mono_back|intros ?]
      | |- LoudOn _ (bind (castArraySliceType _) _) =>
          apply LoudOn_bind_mono; [apply Mono_castArraySliceType|intros ?]
      | |- LoudOn _ (bind (firstGenericArg _) _) =>
          apply LoudOn_bind_mono; [apply Mono_firstGenericArg|intros ?]
      | |- LoudOn _ (bind (assert _) _) =>
          apply LoudOn_bind_mono; [apply Mono_assert|intros ?]
      | |- LoudOn _ (bind (liftRes _) _) =>
          apply LoudOn_bind_mono; [apply Mono_liftRes|intros ?]
      | |- LoudOn _ (bind (at_ _ _) _) =>
          apply LoudOn_bind_mono; [apply Mono_at|intros ?]
      | |- LoudOn _ (bind (diagnose _ _) (fun _ => ret None)) =>
          apply (LoudOn_bind (fun _ => True)); [apply LoudOn_diagnose|];
          intros ?; right; split; [done|]
      end ].

Section Diagnosed.
Context (tc : TypeChecker) (solution : Solution).
Variable buildMemberRef :
  Expr -> SourceLoc -> ValueDecl -> SourceLoc -> Ty ->
  ConstraintLocatorBuilder -> bool -> TC (option Expr).
Variable finishApply :
  Expr -> Ty -> ConstraintLocatorBuilder -> TC (option Expr).

(** What is assumed of the collaborators: none of them drops a
    diagnostic, and [buildArrayInjectionFnRef] and [finishApply] answer
    null only after reporting one. *)
Hypothesis typeCheckExpression_keeps :
  forall e ty discarded, Mono (typeCheckExpression tc e ty discarded).
Hypothesis buildArrayInjectionFnRef_reports :
  forall sliceType boundType loc,
    Loud (buildArrayInjectionFnRef tc sliceType boundType loc).
Hypothesis buildMemberRef_keeps :
  forall base dotLoc member memberLoc openedType locator implicit,
    Mono (buildMemberRef base dotLoc member memberLoc openedType locator implicit).
Hypothesis finishApply_reports :
  forall apply openedType locator, Loud (finishApply apply openedType locator).

Lemma digOutDefaultArgsOwner_keeps locator owner :
  Mono (digOutDefaultArgsOwner tc solution locator owner).
Proof.
  apply Mono_pure. intros s r s' H.
  by apply digOutDefaultArgsOwner_Ok in H as [-> _].
Qed.

Lemma getCallerDefaultArg_keeps loc owner index :
  Mono (getCallerDefaultArg tc loc owner index).
Proof.
  unfold getCallerDefaultArg, Mono.
  destruct (getDefaultArg tc owner index).1; cbn [magicKindOf]; loud.
  all: apply LoudOn_bind_mono; [apply typeCheckExpression_keeps|intros r]; loud.
Qed.

Section Step.
Variable coerceToType_ :
  Expr -> Ty -> ConstraintLocatorBuilder -> TC (option Expr).
Hypothesis coerceToType_reports :
  forall expr toType locator, Loud (coerceToType_ expr toType locator).

Lemma coerceTupleField_reports fromTuple toTuple locator n i toElt st :
  Loud (coerceTupleField tc solution coerceToType_ fromTuple toTuple locator
          n i toElt st).
Proof.
  unfold coerceTupleField, Loud. destruct st. loud.
  destruct (_ =? DefaultInitialize)%Z.
  { apply LoudOn_bind_mono; [apply digOutDefaultArgsOwner_keeps|intros o].
    apply LoudOn_bind_mono; [apply getCallerDefaultArg_keeps|intros [d|]]; loud. }
  destruct (_ =? FirstVariadic)%Z; [loud|]. loud.
  destruct (isEqual _ _).
  { apply LoudOn_bind_mono; [|intros ?; loud].
    destruct (innerTupleExpr _); unfold Mono; loud. }
  destruct (innerTupleExpr _); loud.
  apply Loud_bind_opt; [apply coerceToType_reports| |intros ?]; unfold Mono; loud.
Qed.

Lemma coerceTupleFields_reports fromTuple toTuple locator n rest :
  forall i st,
    Loud (coerceTupleFields tc solution coerceToType_ fromTuple toTuple locator
            n i rest st).
Proof.
  induction rest as [|toElt rest IH]; intros i st; cbn [coerceTupleFields].
  - unfold Loud. loud.
  - apply Loud_bind_opt; [apply coerceTupleField_reports| |intros ?; apply IH].
    unfold Mono. loud.
Qed.

Lemma coerceVariadicArg_reports fromTuple toTuple toEltType locator idx st :
  Loud (coerceVariadicArg tc coerceToType_ fromTuple toTuple toEltType locator
          idx st).
Proof.
  unfold coerceVariadicArg, Loud. destruct st. loud.
  destruct (isEqual _ _); [loud|].
  destruct (innerTupleExpr _); loud.
  apply Loud_bind_opt; [apply coerceToType_reports| |intros ?]; unfold Mono; loud.
Qed.

Lemma coerceVariadicArgs_reports fromTuple toTuple toEltType locator args :
  forall st,
    Loud (coerceVariadicArgs tc coerceToType_ fromTuple toTuple toEltType
            locator args st).
Proof.
  induction args as [|idx args IH]; intros st; cbn [coerceVariadicArgs].
  - unfold Loud. loud.
  - apply Loud_bind_opt; [apply coerceVariadicArg_reports| |intros ?; apply IH].
    unfold Mono. loud.
Qed.

Lemma coerceTupleToTuple_reports expr fromTuple toTuple locator sources0 args :
  Loud (coerceTupleToTuple tc solution coerceToType_ expr fromTuple toTuple
          locator sources0 args).
Proof.
  unfold coerceTupleToTuple.
  apply Loud_bind_opt; [apply coerceTupleFields_reports|unfold Mono; loud|].
  intros st. apply Loud_bind_opt.
  - destruct (hasVarArg st); [|unfold Loud; loud].
    unfold Loud. loud.
    apply Loud_bind_opt; [apply coerceVariadicArgs_reports|unfold Mono; loud|].
    intros st'. unfold Loud. loud.
    apply Loud_bind_opt;
      [apply buildArrayInjectionFnRef_reports|unfold Mono; loud|].
    intros fn. unfold Loud. loud.
  - unfold Mono. loud.
  - intros [st' injectionFn]. unfold Loud.
    destruct (_ && _); loud.
Qed.

Lemma scalarSugarFields_keeps expr toScalarIdx fields :
  forall i sugarFields,
    Mono (scalarSugarFields expr toScalarIdx i fields sugarFields).
Proof.
  induction fields as [|field rest IH]; intros i sugarFields;
    cbn [scalarSugarFields]; unfold Mono.
  - loud.
  - destruct (hasInit field); [loud|].
    apply LoudOn_bind_mono; [|intros ?; apply IH].
    unfold Mono. destruct (_ =? _)%Z; [|loud]. destruct (isVararg field); loud.
Qed.

Lemma scalarElements_keeps expr toScalarIdx locator fields :
  forall i owner elements,
    Mono (scalarElements tc solution expr toScalarIdx i locator fields owner
            elements).
Proof.
  induction fields as [|field rest IH]; intros i owner elements;
    cbn [scalarElements].
  - unfold Mono. loud.
  - destruct (_ =? _)%Z; [apply IH|]. destruct (isVararg field); [apply IH|].
    unfold Mono. loud.
    apply LoudOn_bind_mono; [apply digOutDefaultArgsOwner_keeps|intros o].
    apply LoudOn_bind_mono; [apply getCallerDefaultArg_keeps|intros d].
    apply IH.
Qed.

Lemma coerceScalarToTuple_reports expr toTuple toScalarIdx locator :
  Loud (coerceScalarToTuple tc solution coerceToType_ expr toTuple toScalarIdx
          locator).
Proof.
  unfold coerceScalarToTuple, Loud. loud.
  apply Loud_bind_opt.
  - destruct (isVararg _); [|unfold Loud; loud].
    unfold Loud. loud.
    apply Loud_bind_opt;
      [apply buildArrayInjectionFnRef_reports|unfold Mono; loud|].
    intros fn. unfold Loud. loud.
  - unfold Mono. loud.
  - intros injectionFn. unfold Loud. loud.
    apply LoudOn_bind_mono.
    { unfold Mono. destruct (isVararg _); loud. }
    intros toScalarType.
    apply Loud_bind_opt; [apply coerceToType_reports|unfold Mono; loud|].
    intros coerced. unfold Loud.
    apply LoudOn_bind_mono; [apply scalarSugarFields_keeps|intros sf].
    apply LoudOn_bind_mono; [apply scalarElements_keeps|intros els]. loud.
Qed.

Lemma coerceExistential_reports expr toType locator :
  Loud (coerceExistential tc expr toType locator).
Proof.
  unfold coerceExistential, Loud. destruct (isExistentialType toType); loud.
  apply LoudOn_bind_mono; [|intros ?; loud].
  apply Mono_pure. intros s r s' H. by apply mapM_conformances in H as [-> _].
Qed.

Lemma coerceViaUserConversion_reports expr toType locator :
  Loud (coerceViaUserConversion tc solution buildMemberRef finishApply
          coerceToType_ expr toType locator).
Proof.
  unfold coerceViaUserConversion, Loud.
  destruct (overloadChoices solution _) as [selected|].
  - loud.
    apply LoudOn_bind_mono; [apply buildMemberRef_keeps|intros memberRef].
    apply LoudOn_bind_mono.
    { unfold Mono. destruct (getDesugaredType _); loud. }
    intros openedType.
    apply Loud_bind_opt; [apply finishApply_reports|unfold Mono; loud|].
    intros e. apply coerceToType_reports.
  - destruct (overloadChoices solution _) as [selected|]; [|loud].
    destruct selected.1; try apply coerceToType_reports.
    all: loud.
    all: apply LoudOn_bind_mono; [apply buildMemberRef_keeps|intros declRef].
    all: apply Loud_bind_opt; [apply finishApply_reports|unfold Mono; loud|].
    all: intros e; apply coerceToType_reports.
Qed.

Lemma coerceToSuperclass_reports expr fromType toType :
  Loud (coerceToSuperclass expr fromType toType).
Proof.
  unfold coerceToSuperclass, Loud.
  destruct (getAsArchetypeType fromType) as [[? ?]|]; [|loud].
  destruct (isNull _); [loud|]. destruct (isEqual _ _); loud.
Qed.

Lemma coerceRestricted_reports restriction expr fromType toType locator :
  Loud (coerceRestricted tc solution buildMemberRef finishApply coerceToType_
          restriction expr fromType toType locator).
Proof.
  destruct restriction; cbn [coerceRestricted].
  - unfold Loud. loud.
  - destruct (getDesugaredType toType); try (unfold Loud; loud).
    apply coerceScalarToTuple_reports.
  - apply coerceToSuperclass_reports.
  - apply coerceExistential_reports.
  - destruct (getDesugaredType toType); try (unfold Loud; loud).
    loud.
    apply Loud_bind_opt; [apply coerceToType_reports|unfold Mono; loud|].
    intros e. unfold Loud. loud.
  - apply coerceViaUserConversion_reports.
Qed.
End Step.

(** A result handed on as it is, when a null one has been reported. *)
Lemma Loud_bind_inner {A} (m : TC (option (option A)))
    (k : TC (option A)) :
  LoudOn (fun t => t = Some None) m -> Loud k ->
  Loud (let* t := m in match t with Some r => ret r | None => k end).
Proof.
  intros Hm Hk. eapply LoudOn_bind; [exact Hm|].
  intros [[r|]|];
    [left; loud|right; split; [done|unfold Mono; loud]|left; exact Hk].
Qed.

Lemma coerceToType_reports_fuel fuel :
  forall expr toType locator,
    Loud (coerceToType tc solution buildMemberRef finishApply fuel expr toType
            locator).
Proof.
  induction fuel as [|fuel IH]; intros expr toType locator;
    cbn [coerceToType]; [unfold Loud; loud|].
  destruct (_ || _); [unfold Loud; loud|].
  destruct (isEqual _ _); [unfold Loud; loud|].
  destruct (constraintRestrictions _ _ _).
  { by apply coerceRestricted_reports. }
  apply Loud_bind_inner.
  { destruct (getAsTupleType toType) as [toTuple|]; [|loud].
    apply (LoudOn_bind (fun t => t = Some None)).
    - destruct (getAsTupleType (getType expr)) as [fromTuple|]; [|loud].
      destruct (computeTupleShuffle _ _ _ _) as [[sources0 args]|]; [|loud].
      apply (LoudOn_bind (fun r => r = None));
        [by apply coerceTupleToTuple_reports|].
      intros [r|]; [left|right; split; [done|unfold Mono]]; loud.
    - intros [[r|]|].
      + left. loud.
      + right. split; [done|]. unfold Mono. loud.
      + left. destruct (negb _); [|loud].
        apply (LoudOn_bind (fun r => r = None));
          [by apply coerceScalarToTuple_reports|].
        intros [r|]; [left|right; split; [done|unfold Mono]]; loud. }
  destruct (getAsLValueType (getType expr)) as [[fromObject fromQuals]|].
  { apply LoudOn_bind_mono; [|intros ?; apply IH].
    unfold Mono. destruct expr; loud. }
  destruct (getAsLValueType toType) as [[toObject ?]|].
  { apply Loud_bind_opt; [apply IH|unfold Mono; loud|intros ?; unfold Loud; loud]. }
  apply LoudOn_bind_mono.
  { unfold Mono. destruct (_ && _); loud. }
  intros [|]; [apply coerceToSuperclass_reports|].
  apply Loud_bind_inner.
  { destruct (getAsFunctionType toType) as [[[[toInput toResult] toAuto] toBlock]|];
      [|loud].
    destruct toAuto.
    - apply LoudOn_bind_mono; [eapply LoudOn_Mono, IH|intros [?|]]; loud.
    - destruct (_ && _).
      + apply LoudOn_bind_mono; [eapply LoudOn_Mono, IH|intros ?]; loud.
      + destruct (getAsFunctionType (getType expr)); loud. }
  destruct (bool_decide _); [apply coerceExistential_reports|].
  apply Loud_bind_inner.
  { destruct (getAsBoundGenericType toType) as [[[] args]|]; loud.
    apply (LoudOn_bind (fun r => r = None)); [apply IH|].
    intros [r|]; [left|right; split; [done|unfold Mono]]; loud. }
  destruct (_ || _); [by apply coerceViaUserConversion_reports|].
  unfold Loud.
  destruct (getAsMetaTypeType (getType expr)), (getAsMetaTypeType toType); loud.
Qed.

(** X13: no coercion fails silently.  Provided the collaborators keep
    the diagnostics they find, and [buildArrayInjectionFnRef] and
    [finishApply] answer null only after reporting something,
    [coerceToType] keeps every diagnostic reported before the call, and
    whenever it returns null at least one diagnostic has been added. *)
Theorem coerceToType_null_is_reported fuel expr toType locator s r s' :
  coerceToType tc solution buildMemberRef finishApply fuel expr toType locator s
    = Ok (r, s') ->
  s `suffix_of` s' /\
  (r = None -> exists added, added <> [] /\ s' = added ++ s).
Proof. apply coerceToType_reports_fuel. Qed.
End Diagnosed.

Module DiagnosedExamples.
Import Example CoercionExamples.

Lemma typeCheckExpression_keeps e ty discarded :
  Mono (typeCheckExpression tc e ty discarded).
Proof. apply LoudOn_ret. by intros []. Qed.

Lemma buildArrayInjectionFnRef_reports sliceType boundType loc :
  Loud (buildArrayInjectionFnRef tc sliceType boundType loc).
Proof. by apply LoudOn_ret. Qed.

Lemma buildMemberRef_keeps base dotLoc member memberLoc openedType locator implicit :
  Mono (buildMemberRef base dotLoc member memberLoc openedType locator implicit).
Proof. apply LoudOn_ret. by intros []. Qed.

Lemma finishApply_reports apply openedType locator :
  Loud (finishApply apply openedType locator).
Proof. by apply LoudOn_ret. Qed.

(** [(Int, Int)] to [(Int, Int?)] from a variable: null, and reported. *)
Lemma coerceToType_null_is_reported_witness :
  [] `suffix_of` [notExpressible] /\
  (@None Expr = None ->
   exists added, added <> [] /\ [notExpressible] = added ++ []).
Proof.
  exact (coerceToType_null_is_reported tc solution buildMemberRef finishApply
           typeCheckExpression_keeps buildArrayInjectionFnRef_reports
           buildMemberRef_keeps finishApply_reports
           1 pairVar (TupleType [field Int; field (OptionalType Int)])
           nullLocator [] None [notExpressible] eq_refl).
Defined.
End DiagnosedExamples.

(** ** No literal or builtin conversion fails silently *)

Section WitnessesDiagnosed.
Context (tc : TypeChecker).
Variable buildMemberRef :
  Solution -> Expr -> SourceLoc -> ValueDecl -> SourceLoc -> Ty ->
  ConstraintLocatorBuilder -> bool -> TC (option Expr).
Variable finishApply :
  Solution -> Expr -> Ty -> ConstraintLocatorBuilder -> TC (option Expr).

(** What is assumed of the collaborators: [getWitnessType] answers the
    null type, and [finishApply] and [coerceToRValue] null, only after
    reporting a diagnostic; [buildMemberRef] drops none. *)
Hypothesis getWitnessType_reports :
  forall type proto conformance name d,
    LoudOn (fun ty => isNull ty = true)
      (getWitnessType tc type proto conformance name d).
Hypothesis buildMemberRef_keeps :
  forall solution base dotLoc member memberLoc openedType locator implicit,
    Mono (buildMemberRef solution base dotLoc member memberLoc openedType
            locator implicit).
Hypothesis finishApply_reports :
  forall solution apply openedType locator,
    Loud (finishApply solution apply openedType locator).
Hypothesis coerceToRValue_reports : forall e, Loud (coerceToRValue tc e).

Lemma findNamedWitness_reports type proto name d :
  Loud (findNamedWitness tc type proto name d).
Proof.
  unfold findNamedWitness, Loud.
  destruct (findRequirement _ _ _) as [requirement|]; [|loud].
  destruct (isInvalid _ _); [loud|].
  destruct (conformsToProtocol _ _ _) as [[c|]|]; loud.
  all: destruct (bool_decide _); loud.
Qed.

Lemma callWitness_reports base protocol conformance name arguments d :
  Loud (callWitness tc buildMemberRef finishApply base protocol conformance
          name arguments d).
Proof.
  unfold callWitness.
  apply Loud_bind_opt; [apply findNamedWitness_reports|unfold Mono; loud|].
  intros witness. apply LoudOn_bind_mono.
  { unfold Mono. destruct (getDesugaredType _); loud. }
  intros input. destruct (solveConversion _ _ _ _); [|unfold Loud; loud].
  apply LoudOn_bind_mono; [apply buildMemberRef_keeps|intros memberRef].
  apply finishApply_reports.
Qed.

(** A literal type handed over as a type is not the null type. *)
Definition typeGiven (t : TypeOrName) : Prop :=
  match t with
  | IsType ty => isNull ty = false
  | IsName _ => True
  end.

Lemma literalArgType_reports (t : TypeOrName) type proto conformance d :
  typeGiven t ->
  LoudOn (fun ty => isNull ty = true)
    match t with
    | IsType ty => ret ty
    | IsName n => getWitnessType tc type proto conformance n d
    end.
Proof.
  destruct t as [ty|n]; cbn; intros Ht; [|apply getWitnessType_reports].
  apply LoudOn_ret. congruence.
Qed.

Lemma convertLiteral_reports_fuel fuel :
  forall literal type openedType protocol literalType literalFuncName
         builtinProtocol builtinLiteralType builtinLiteralFuncName
         isBuiltinArgType d1 d2,
    typeGiven literalType -> typeGiven builtinLiteralType ->
    Loud (convertLiteral tc buildMemberRef finishApply fuel literal type
            openedType protocol literalType literalFuncName builtinProtocol
            builtinLiteralType builtinLiteralFuncName isBuiltinArgType d1 d2).
Proof.
  induction fuel as [|fuel IH]; intros literal type openedType protocol
    literalType literalFuncName builtinProtocol builtinLiteralType
    builtinLiteralFuncName isBuiltinArgType d1 d2 Hl Hb;
    cbn [convertLiteral]; [unfold Loud; loud|].
  destruct (conformsToProtocol tc type builtinProtocol) as [builtinConformance|].
  - eapply LoudOn_bind; [by apply literalArgType_reports|].
    intros argType. destruct (isNull argType) eqn:Hnull.
    { right. split; [done|]. unfold Mono. loud. }
    left. destruct (match isBuiltinArgType with Some _ => _ | None => _ end); [loud|].
    apply Loud_bind_opt; [apply callWitness_reports|unfold Mono; loud|].
    intros result. unfold Loud. loud.
  - destruct protocol as [protocol|]; [|unfold Loud; loud].
    destruct (conformsToProtocol tc type protocol) as [conformance|];
      [|unfold Loud; loud].
    eapply LoudOn_bind; [by apply literalArgType_reports|].
    intros argType. destruct (isNull argType) eqn:Hnull.
    { right. split; [done|]. unfold Mono. loud. }
    left. apply Loud_bind_opt; [by apply IH|unfold Mono; loud|].
    intros converted.
    apply Loud_bind_opt; [apply callWitness_reports|unfold Mono; loud|].
    intros result. unfold Loud. loud.
Qed.

(** X14: no literal conversion fails silently.  Provided the literal
    types that are handed over as types are not null, the collaborators
    keep the diagnostics they find, and [getWitnessType] and
    [finishApply] answer null only after reporting something,
    [convertLiteral] keeps every diagnostic reported before the call, and
    whenever it returns null at least one diagnostic has been added. *)
Theorem convertLiteral_null_is_reported
    fuel literal type openedType protocol literalType literalFuncName
    builtinProtocol builtinLiteralType builtinLiteralFuncName
    isBuiltinArgType d1 d2 s r s' :
  typeGiven literalType -> typeGiven builtinLiteralType ->
  convertLiteral tc buildMemberRef finishApply fuel literal type
    openedType protocol literalType literalFuncName builtinProtocol
    builtinLiteralType builtinLiteralFuncName isBuiltinArgType d1 d2 s
  = Ok (r, s') ->
  s `suffix_of` s' /\
  (r = None -> exists added, added <> [] /\ s' = added ++ s).
Proof. intros Hl Hb H. by eapply convertLiteral_reports_fuel in H. Qed.

Variable solution : Solution.

Lemma convertViaBuiltinProtocol_reports expr locator protocol generalName
    builtinName d1 d2 :
  Loud (convertViaBuiltinProtocol tc buildMemberRef finishApply solution expr
          locator protocol generalName builtinName d1 d2).
Proof.
  unfold convertViaBuiltinProtocol.
  apply Loud_bind_opt; [|unfold Mono; loud|].
  - destruct (lookupMember _ _ _); [|unfold Loud; loud].
    apply LoudOn_bind_mono; [eapply LoudOn_Mono, findNamedWitness_reports|].
    intros [witness|]; [|unfold Loud; loud].
    unfold getResultOfDeclType. apply LoudOn_bind_mono.
    { unfold Mono. destruct (getAsAnyFunctionType _) as [[? ?]|]; loud. }
    intros openedType.
    apply LoudOn_bind_mono; [apply buildMemberRef_keeps|intros memberRef].
    apply LoudOn_bind_mono; [eapply LoudOn_Mono, finishApply_reports|].
    intros [e|]; [|unfold Loud; loud].
    unfold Loud. destruct (lookupMember _ _ _); loud.
  - intros [e witnesses]. destruct witnesses as [|builtinMethod [|? ?]];
      [unfold Loud; loud| |unfold Loud; loud].
    destruct (negb _); [unfold Loud; loud|].
    unfold getResultOfDeclType. apply LoudOn_bind_mono.
    { unfold Mono. destruct (getAsAnyFunctionType _) as [[? ?]|]; loud. }
    intros openedType.
    apply LoudOn_bind_mono; [apply buildMemberRef_keeps|intros memberRef].
    apply finishApply_reports.
Qed.

(** X15: no conversion to a builtin value fails silently.  Under the same
    assumptions on the collaborators, [convertToLogicValue] and
    [convertToArrayBound] keep every diagnostic reported before the call,
    and whenever one of them returns null at least one diagnostic has
    been added. *)
Theorem convertToBuiltin_null_is_reported expr locator s r s' :
  convertToLogicValue tc buildMemberRef finishApply solution expr locator s
    = Ok (r, s') \/
  convertToArrayBound tc buildMemberRef finishApply solution expr locator s
    = Ok (r, s') ->
  s `suffix_of` s' /\
  (r = None -> exists added, added <> [] /\ s' = added ++ s).
Proof.
  assert (Hcheck : forall (ok : Expr -> bool) d result,
    Loud match result with
         | Some r0 =>
             if negb (ok r0)
             then do* diagnose (getLoc tc expr) d in ret None
             else ret result
         | None => ret result
         end \/
    (result = None /\
     Mono match result with
          | Some r0 =>
              if negb (ok r0)
              then do* diagnose (getLoc tc expr) d in ret None
              else ret result
          | None => ret result
          end)).
  { intros ok d [r0|]; [left|right; split; [done|unfold Mono; loud]].
    unfold Loud. destruct (negb _); loud. }
  assert (Hlogic : Loud (convertToLogicValue tc buildMemberRef finishApply
                           solution expr locator)).
  { unfold convertToLogicValue. destruct (isBuiltinIntegerType _ _).
    - apply coerceToRValue_reports.
    - apply (LoudOn_bind (fun x => x = None));
        [apply convertViaBuiltinProtocol_reports|].
      intros result.
      apply (Hcheck (fun r0 => isBuiltinIntegerType (getType r0) 1)). }
  assert (Hbound : Loud (convertToArrayBound tc buildMemberRef finishApply
                           solution expr locator)).
  { unfold convertToArrayBound.
    apply (LoudOn_bind (fun x => x = None));
      [apply convertViaBuiltinProtocol_reports|].
    intros result.
    apply (Hcheck (fun r0 =>
             bool_decide (is_Some (getAsBuiltinIntegerType (getType r0))))). }
  intros [H|H]; [by apply Hlogic in H|by apply Hbound in H].
Qed.
End WitnessesDiagnosed.

Module WitnessesDiagnosedExamples.
Import Example ProtocolExamples BuiltinValueExamples.

(** A type checker with another [getWitnessType]. *)
Definition withWitnessType (world : TypeChecker)
    (witnessType : Ty -> ProtocolDecl -> option ProtocolConformance ->
                   Identifier -> diag.ID -> TC Ty) : TypeChecker := {|
  getLoc := getLoc world;
  getStartLoc := getStartLoc world;
  getEndLoc := getEndLoc world;
  computeTupleShuffle := computeTupleShuffle world;
  hasMandatoryTupleLabels := hasMandatoryTupleLabels world;
  getFieldForScalarInit := getFieldForScalarInit world;
  getSuperClassOf := getSuperClassOf world;
  mayHaveSuperclass := mayHaveSuperclass world;
  getClassOrBoundGenericClass := getClassOrBoundGenericClass world;
  getNominalOrBoundGenericNominal := getNominalOrBoundGenericNominal world;
  hasReferenceSemantics := hasReferenceSemantics world;
  isSubtypeOf := isSubtypeOf world;
  conformsToProtocol := conformsToProtocol world;
  buildArrayInjectionFnRef := buildArrayInjectionFnRef world;
  typeCheckExpression := typeCheckExpression world;
  coerceToRValue := coerceToRValue world;
  simplifyLocator := simplifyLocator world;
  resolveLocatorToDecl := resolveLocatorToDecl world;
  isAbstractFunctionDecl := isAbstractFunctionDecl world;
  getDefaultArg := getDefaultArg world;
  isFuncDecl := isFuncDecl world;
  getDeclName := getDeclName world;
  isInvalid := isInvalid world;
  getDeclType := getDeclType world;
  getMembers := getMembers world;
  getProtocolLoc := getProtocolLoc world;
  getProtocol := getProtocol world;
  getWitness := getWitness world;
  getWitnessType := witnessType;
  lookupMember := lookupMember world;
  getTypeOfMemberReference := getTypeOfMemberReference world;
  solveConversion := solveConversion world;
  typeCheckCheckedCast := typeCheckCheckedCast world;
  getOptionalType := getOptionalType world;
  simplifyType := simplifyType world;
  computeAssignDestType := computeAssignDestType world;
  coercePatternToType := coercePatternToType world;
  typeCheckClosureBody := typeCheckClosureBody world
|}.

(** [Int] conforms to the builtin protocol, which declares no member; a
    witness type that is missing is reported. *)
Definition reportingWorld : TypeChecker :=
  withWitnessType (literalWorld (fun _ => []))
    (fun _ proto _ _ d => do* diagnose 0%nat d in ret NullType).

Lemma getWitnessType_reports type proto conformance name d :
  LoudOn (fun ty => isNull ty = true)
    (getWitnessType reportingWorld type proto conformance name d).
Proof.
  apply (LoudOn_bind (fun _ => True)); [apply LoudOn_diagnose|].
  intros ?. right. split; [done|]. apply LoudOn_ret. by intros [].
Qed.

Lemma buildMemberRefFor_keeps solution base dotLoc member memberLoc openedType
    locator implicit :
  Mono (buildMemberRefFor solution base dotLoc member memberLoc openedType
          locator implicit).
Proof. apply LoudOn_ret. by intros []. Qed.

Lemma finishApplyFor_reports solution apply openedType locator :
  Loud (finishApplyFor solution apply openedType locator).
Proof. by apply LoudOn_ret. Qed.

Lemma convertLiteral_reportingWorld :
  convertLiteral reportingWorld buildMemberRefFor finishApplyFor 2
    five Int Int (Some IntegerLiteralConvertibleDecl) (IsType Int)
    "convertFromIntegerLiteral" BuiltinIntegerLiteralConvertibleDecl
    (IsType Int2048) "_convertFromBuiltinIntegerLiteral" None brokenProto
    brokenBuiltinProto []
  = Ok (None, [diagnostic 0%nat brokenBuiltinProto]).
Proof. vm_compute. reflexivity. Qed.

Lemma convertLiteral_null_is_reported_witness :
  [] `suffix_of` [diagnostic 0%nat brokenBuiltinProto] /\
  (@None Expr = None ->
   exists added,
     added <> [] /\ [diagnostic 0%nat brokenBuiltinProto] = added ++ []).
Proof.
  exact (convertLiteral_null_is_reported reportingWorld buildMemberRefFor
           finishApplyFor getWitnessType_reports buildMemberRefFor_keeps
           finishApplyFor_reports 2 five Int Int
           (Some IntegerLiteralConvertibleDecl) (IsType Int)
           "convertFromIntegerLiteral" BuiltinIntegerLiteralConvertibleDecl
           (IsType Int2048) "_convertFromBuiltinIntegerLiteral" None
           brokenProto brokenBuiltinProto [] None _
           eq_refl eq_refl convertLiteral_reportingWorld).
Defined.

(** A world in which [Builtin.Int64] has two members of the builtin
    name. *)
Definition ambiguousWorld : TypeChecker :=
  withProtocols (fun _ _ => None) (fun _ => [getArrayBoundValue])
    (fun _ => "_getBuiltinArrayBoundValue")
    (fun _ => FunctionType (TupleType []) Int64 false false)
    (fun t name =>
       if bool_decide (t = Int64) && String.eqb name "_getBuiltinArrayBoundValue"
       then [getBuiltinArrayBoundValue; getArrayBoundValue] else [])
    (fun _ _ => NullType) (fun _ _ _ => None) (fun _ _ => ret Unresolved).

Definition brokenArrayBound : Diagnostic :=
  diagnostic 0%nat (diag.broken_protocol "broken_builtin_array_bound").

Lemma arrayBound_ambiguousWorld :
  arrayBound ambiguousWorld n [] = Ok (None, [brokenArrayBound]).
Proof. vm_compute. reflexivity. Qed.

Lemma coerceToRValue_reports e : Loud (coerceToRValue ambiguousWorld e).
Proof. by apply LoudOn_ret. Qed.

Lemma convertToBuiltin_null_is_reported_witness :
  [] `suffix_of` [brokenArrayBound] /\
  (@None Expr = None ->
   exists added, added <> [] /\ [brokenArrayBound] = added ++ []).
Proof.
  exact (convertToBuiltin_null_is_reported ambiguousWorld buildMemberRefFor
           finishApplyFor buildMemberRefFor_keeps finishApplyFor_reports
           coerceToRValue_reports solution n nullLocator [] None _
           (or_intror arrayBound_ambiguousWorld)).
Defined.
End WitnessesDiagnosedExamples.

(** ** No application fails silently *)

Section ApplyDiagnosed.
Context (tc : TypeChecker) (solution : Solution).
Variable buildMemberRef :
  Expr -> SourceLoc -> ValueDecl -> SourceLoc -> Ty ->
  ConstraintLocatorBuilder -> bool -> TC (option Expr).
Variable specialize : Expr -> Ty -> Ty -> TC (option Expr).
Variable substituteInputSugarTypeForResult : Expr -> TC (option Expr).
Variable setImplicit : Expr -> bool -> Expr.
Variable DefaultForMemberAccess : N.
Variable NDEBUG : bool.

(** What is assumed of the collaborators: none of them drops a
    diagnostic, and [coerceToRValue], [buildArrayInjectionFnRef],
    [specialize] and [substituteInputSugarTypeForResult] answer null only
    after reporting one.  [finishApply] hands a null of [coerceToRValue]
    on without a diagnostic of its own where assertions are compiled
    out. *)
Hypothesis typeCheckExpression_keeps :
  forall e ty discarded, Mono (typeCheckExpression tc e ty discarded).
Hypothesis coerceToRValue_reports : forall e, Loud (coerceToRValue tc e).
Hypothesis buildArrayInjectionFnRef_reports :
  forall sliceType boundType loc,
    Loud (buildArrayInjectionFnRef tc sliceType boundType loc).
Hypothesis buildMemberRef_keeps :
  forall base dotLoc member memberLoc openedType locator implicit,
    Mono (buildMemberRef base dotLoc member memberLoc openedType locator implicit).
Hypothesis specialize_reports :
  forall e polyFn openedType, Loud (specialize e polyFn openedType).
Hypothesis substituteInputSugarTypeForResult_reports :
  forall e, Loud (substituteInputSugarTypeForResult e).

Local Abbreviation finishApply' :=
  (Apply.finishApply tc solution buildMemberRef specialize
     substituteInputSugarTypeForResult setImplicit DefaultForMemberAccess
     NDEBUG).

Lemma coerceObjectArgumentToType_reports finishApply fuel expr toType locator :
  (forall e t l,
     Loud (coerceToType tc solution buildMemberRef finishApply fuel e t l)) ->
  Loud (coerceObjectArgumentToType tc solution buildMemberRef finishApply fuel
          DefaultForMemberAccess expr toType locator).
Proof.
  intros Hcoerce. unfold coerceObjectArgumentToType.
  destruct (isNull toType); [unfold Loud; loud|].
  destruct (isNull _); [unfold Loud; loud|].
  destruct (_ || _); [apply Hcoerce|].
  destruct (isNull _); [unfold Loud; loud|].
  destruct (isEqual _ _); [unfold Loud; loud|].
  destruct (getAsLValueType _) as [[fromObject ?]|]; [|unfold Loud; loud].
  destruct (isNull _); [unfold Loud; loud|].
  destruct (isEqual _ _); [unfold Loud; loud|].
  apply LoudOn_bind_mono; [eapply LoudOn_Mono, Hcoerce|intros ?].
  unfold Loud. loud.
Qed.

Lemma finishApply_reports_fuel fuel :
  forall apply openedType locator, Loud (finishApply' fuel apply openedType locator).
Proof.
  induction fuel as [|fuel IH]; intros apply openedType locator;
    cbn [Apply.finishApply]; [unfold Loud; loud|].
  assert (Hcoerce : forall e t l,
            Loud (coerceToType tc solution buildMemberRef (finishApply' fuel)
                    fuel e t l)).
  { intros e t l. by apply coerceToType_reports_fuel. }
  destruct apply; try (unfold Loud; loud).
  destruct fn as [fn0|]; [|unfold Loud; loud].
  apply Loud_bind_opt; [apply coerceToRValue_reports| |intros fn].
  { destruct NDEBUG; unfold Mono; loud. }
  destruct (isNull _); [unfold Loud; loud|].
  destruct (getAsFunctionType _) as [[[[input result] ?] ?]|].
  - apply (LoudOn_bind (fun r => r = None)).
    { destruct (isSelfApply _);
        [by apply coerceObjectArgumentToType_reports|apply Hcoerce]. }
    intros [arg'|].
    + left. destruct (isNull _); [unfold Loud; loud|].
      destruct (Apply.isPolymorphicFunctionType _);
        [apply specialize_reports
        |apply substituteInputSugarTypeForResult_reports].
    + left. unfold Loud. loud.
  - destruct (getAsMetaTypeType _) as [ty0|]; [|unfold Loud; loud].
    destruct (isNull _); [unfold Loud; loud|].
    destruct (getAsTupleType _); [apply Hcoerce|].
    unfold Loud. loud. fold (Loud (A:=Expr)).
    destruct (overloadChoices _ _) as [[choice memberType]|]; [|apply Hcoerce].
    destruct choice; try apply Hcoerce.
    all: unfold Loud; loud.
    all: apply LoudOn_bind_mono; [apply buildMemberRef_keeps|].
    all: intros [declRef|]; [apply IH|loud].
Qed.

(** X16: no application fails silently.  Provided the collaborators keep
    the diagnostics they find, and [coerceToRValue],
    [buildArrayInjectionFnRef], [specialize] and
    [substituteInputSugarTypeForResult] answer null only after reporting
    something, [finishApply] keeps every diagnostic reported before the
    call, and whenever it returns null at least one diagnostic has been
    added; so does [coerceToType] with this [finishApply] for the
    applications it builds.  This holds whether assertions are compiled in
    or out. *)
Theorem finishApply_null_is_reported fuel apply openedType locator s r s' :
  finishApply' fuel apply openedType locator s = Ok (r, s') \/
  (exists toType,
     coerceToType tc solution buildMemberRef (finishApply' fuel) fuel
       apply toType locator s = Ok (r, s')) ->
  s `suffix_of` s' /\
  (r = None -> exists added, added <> [] /\ s' = added ++ s).
Proof.
  intros [H|[toType H]].
  - by apply finishApply_reports_fuel in H.
  - eapply coerceToType_reports_fuel in H; [exact H|done..|].
    apply finishApply_reports_fuel.
Qed.
End ApplyDiagnosed.

Module ApplyDiagnosedExamples.
Import Example CoercionExamples ApplyExamples DiagnosedExamples.

Definition finishCall :=
  Apply.finishApply tc solution buildMemberRef specialize
    substituteInputSugarTypeForResult setImplicit memberAccess true.

(** A function [g : (Int, Int?) -> Int], called on the variable
    [pairVar]. *)
Definition pairOfOptional : Ty := TupleType [field Int; field (OptionalType Int)].
Definition g : Expr :=
  DeclRefExpr 9%nat 0%nat false (FunctionType pairOfOptional Int false false).
Definition whileConverting : Diagnostic :=
  diagnostic 0%nat (diag.while_converting_function_argument pairOfOptional).

Lemma finishApply_g :
  finishCall 3 (ApplyExpr Call (Some g) pairVar false false NullType) Int
    nullLocator []
  = Ok (None, [whileConverting; notExpressible]).
Proof. vm_compute. reflexivity. Qed.

Lemma coerceToRValue_loud e : Loud (coerceToRValue tc e).
Proof. by apply LoudOn_ret. Qed.

Lemma specialize_reports e polyFn openedType :
  Loud (specialize e polyFn openedType).
Proof. by apply LoudOn_ret. Qed.

Lemma substituteInputSugarTypeForResult_reports e :
  Loud (substituteInputSugarTypeForResult e).
Proof. by apply LoudOn_ret. Qed.

Lemma finishApply_null_is_reported_witness :
  [] `suffix_of` [whileConverting; notExpressible] /\
  (@None Expr = None ->
   exists added,
     added <> [] /\ [whileConverting; notExpressible] = added ++ []).
Proof.
  exact (finishApply_null_is_reported tc solution buildMemberRef specialize
           substituteInputSugarTypeForResult setImplicit memberAccess true
           typeCheckExpression_keeps coerceToRValue_loud
           buildArrayInjectionFnRef_reports buildMemberRef_keeps
           specialize_reports substituteInputSugarTypeForResult_reports
           3 (ApplyExpr Call (Some g) pairVar false false NullType) Int
           nullLocator [] None _ (or_introl finishApply_g)).
Defined.
End ApplyDiagnosedExamples.

(** ** A partially applied method, applied in full *)

Module PartialApplicationChain.
Import PartialApplication PartialApplicationFacts.

Section Chain.
Variable finishApply : ExprPtr -> Ty -> ExprPtr -> Builder ExprPtr.
Variable getSemanticsProvidingExpr : AST -> ExprPtr -> ExprPtr.

Local Abbreviation visitApply :=
  (visitApplyExpr finishApply getSemanticsProvidingExpr).

(** [applied r key n r' key']: from the rewriter [r], [n] calls have been
    visited one after the other, the function of the first being the node
    [key] and the function of each later one the node the call before it
    was rewritten to; [key'] is the node the last call was rewritten to
    and [r'] the rewriter after it.  The node a call is rewritten to is a
    node other than its function, with no entry in the map. *)
Inductive applied : Rewriter -> ExprPtr -> nat -> Rewriter -> ExprPtr -> Prop :=
| applied_none r key : applied r key 0 r key
| applied_call r key expr result r1 e fn arg n r' key' :
    visitApply expr r = Ok (result, r1) ->
    ast r1 !! expr = Some e -> kind e = Apply fn arg ->
    getSemanticsProvidingExpr (ast r1) fn = key ->
    result <> key ->
    ValueTypeMemberApplications r !! result = None ->
    applied r1 result n r' key' ->
    applied r key (S n) r' key'.

(** X17: applying a tracked method reference call by call.  An entry
    with [count] for the node [key] is, after [n <= count] calls in a row,
    gone when [n] is [count]: the map is what it was without the entry.
    After fewer calls the entry has moved to the node of the last call,
    with the [count - n] applications still missing, and the rest of the
    map is as it was. *)
Theorem applied_moves_entry r key n r' key' count :
  applied r key n r' key' ->
  ValueTypeMemberApplications r !! key = Some count ->
  (0 < count)%Z -> (Z.of_nat n <= count)%Z ->
  ValueTypeMemberApplications r' =
    if (Z.of_nat n =? count)%Z
    then delete key (ValueTypeMemberApplications r)
    else <[key' := (count - Z.of_nat n)%Z]>
           (delete key (ValueTypeMemberApplications r)).
Proof.
  intros H. revert count.
  induction H as [r key|r key expr result r1 e fn arg n r' key'
                    Hrun He Hk Hkey Hne Hfresh Hrest IH];
    intros count Hc Hpos Hle.
  - destruct (Z.eqb_spec (Z.of_nat 0) count) as [Heq|_]; [lia|].
    replace (count - Z.of_nat 0)%Z with count by lia.
    by rewrite insert_delete_id.
  - destruct (visitApplyExpr_advances _ _ _ _ _ _ Hrun)
      as (e0 & e1 & fn1 & arg1 & _ & _ & He1 & Hk1 & Hmap).
    rewrite He in He1. injection He1 as <-.
    rewrite Hk in Hk1. injection Hk1 as <- <-.
    cbn zeta in Hmap. rewrite Hkey, Hc in Hmap. destruct Hmap as [_ Hmap].
    assert (Hgone : delete key (ValueTypeMemberApplications r) !! result = None).
    { by rewrite lookup_delete_ne. }
    destruct (Z.ltb_spec 1 count) as [Hgt|Hone].
    + unfold DenseMap_insert in Hmap. rewrite Hgone in Hmap.
      rewrite (IH (count - 1)%Z); [|by rewrite Hmap, lookup_insert_eq|lia|lia].
      rewrite Hmap, delete_insert_eq, (delete_id _ result) by done.
      destruct (Z.eqb_spec (Z.of_nat n) (count - 1)),
               (Z.eqb_spec (Z.of_nat (S n)) count); try lia; [done|].
      f_equal. lia.
    + assert (count = 1%Z) as -> by lia.
      assert (n = 0%nat) as -> by lia.
      inversion Hrest; subst. by rewrite Hmap.
Qed.
End Chain.
End PartialApplicationChain.

Module PartialApplicationChainExamples.
Import PartialApplication PartialApplicationFacts PartialApplicationExamples
       PartialApplicationChain.

Definition afterSecondApply : Rewriter := mkRewriter heap1 ∅ [].

Lemma visitApply_second :
  visitApply 7%nat afterFirstApply = Ok (7%nat, afterSecondApply).
Proof. vm_compute. reflexivity. Qed.

(** [s.f(a)(b)]: both calls of the method reference, one after the
    other. *)
Lemma both_calls :
  applied finishApply getSemanticsProvidingExpr afterDot 4%nat 2
    afterSecondApply 7%nat.
Proof.
  eapply applied_call;
    [exact visitApply_run|reflexivity|reflexivity|reflexivity
    |discriminate|reflexivity|].
  eapply applied_call;
    [exact visitApply_second|reflexivity|reflexivity|reflexivity
    |discriminate|reflexivity|].
  apply applied_none.
Qed.

Lemma applied_moves_entry_witness :
  ValueTypeMemberApplications afterSecondApply =
    if (Z.of_nat 2 =? 2)%Z
    then delete 4%nat (ValueTypeMemberApplications afterDot)
    else <[7%nat := (2 - Z.of_nat 2)%Z]>
           (delete 4%nat (ValueTypeMemberApplications afterDot)).
Proof.
  refine (applied_moves_entry finishApply getSemanticsProvidingExpr
            afterDot 4%nat 2 afterSecondApply 7%nat 2 both_calls eq_refl _ _);
    lia.
Defined.
End PartialApplicationChainExamples.

(** ** The literal visitors *)

Section LiteralVisitors.
Context (tc : TypeChecker).
Variable buildMemberRef :
  Solution -> Expr -> SourceLoc -> ValueDecl -> SourceLoc -> Ty ->
  ConstraintLocatorBuilder -> bool -> TC (option Expr).
Variable finishApply :
  Solution -> Expr -> Ty -> ConstraintLocatorBuilder -> TC (option Expr).
Variable solution : Solution.
(** the fuel given to [convertLiteral] *)
Variable fuel : nat.
(** [!protocol]: the null test of a [ProtocolDecl*] *)
Variable isNullProtocol : ProtocolDecl -> bool.
(** [tc.getDefaultType(protocol, dc)]: the null type when there is none *)
Variable getDefaultType : ProtocolDecl -> Ty.
(** The underlying type of the type alias that the unqualified lookup of a
    name in the standard library finds: [None] when the lookup has no
    single type result or the result is not a [TypeAliasDecl]. *)
Variable lookupTypeAlias : Identifier -> option Ty.

(** [if (auto defaultType = tc.getDefaultType(protocol, dc))
       if (defaultType->isEqual(type)) type = defaultType;] *)
Definition preferDefault (protocol : ProtocolDecl) (type : Ty) : Ty :=
  let defaultType := getDefaultType protocol in
  if negb (isNull defaultType) && isEqual defaultType type then defaultType
  else type.

(** A [ProtocolDecl*] as [convertLiteral] takes it. *)
Definition nullable (p : ProtocolDecl) : option ProtocolDecl :=
  if isNullProtocol p then None else Some p.

Definition isBuiltinFloatType (t : Ty) : bool :=
  match getDesugaredType t with BuiltinFloatType _ => true | _ => false end.

(** The lookup of [MaxBuiltinIntegerType] or [MaxBuiltinFloatType]:
    [None] after the diagnostic [d].  The kind of the underlying type is
    asked through its pointer, so a null underlying type stops the run. *)
Definition lookupMaxType (name : Identifier) (accepts : Ty -> bool)
    (loc : SourceLoc) (d : diag.ID) : TC (option Ty) :=
  match lookupTypeAlias name with
  | Some underlying =>
      if isNull underlying then abort
      else if accepts underlying then ret (Some underlying)
      else do* diagnose loc d in ret None
  | None => do* diagnose loc d in ret None
  end.

Definition handleIntegerLiteralExpr (expr : Expr) : TC (option Expr) :=
  let protocol := getProtocol tc (getLoc tc expr) IntegerLiteralConvertible in
  let builtinProtocol :=
    getProtocol tc (getLoc tc expr) BuiltinIntegerLiteralConvertible in
  let type := simplifyType tc solution (getType expr) in
  let type := preferDefault protocol type in
  let floatProtocol := getProtocol tc (getLoc tc expr) FloatLiteralConvertible in
  let type :=
    if isNullProtocol floatProtocol then type
    else preferDefault floatProtocol type in
  let* maxType :=
    lookupMaxType "MaxBuiltinIntegerType"
      (fun t => bool_decide (is_Some (getAsBuiltinIntegerType t)))
      (getLoc tc expr) (diag.broken_protocol "no_MaxBuiltinIntegerType_found") in
  match maxType with
  | None => ret None
  | Some maxType =>
      convertLiteral tc buildMemberRef finishApply fuel expr type (getType expr)
        (nullable protocol) (IsName "IntegerLiteralType")
        "convertFromIntegerLiteral" builtinProtocol (IsType maxType)
        "_convertFromBuiltinIntegerLiteral" None
        (diag.broken_protocol "integer_literal_broken_proto")
        (diag.broken_protocol "builtin_integer_literal_broken_proto")
  end.

Definition visitFloatLiteralExpr (expr : Expr) : TC (option Expr) :=
  let protocol := getProtocol tc (getLoc tc expr) FloatLiteralConvertible in
  let builtinProtocol :=
    getProtocol tc (getLoc tc expr) BuiltinFloatLiteralConvertible in
  let type := simplifyType tc solution (getType expr) in
  let type := preferDefault protocol type in
  let* maxType :=
    lookupMaxType "MaxBuiltinFloatType" isBuiltinFloatType
      (getLoc tc expr) (diag.broken_protocol "no_MaxBuiltinFloatType_found") in
  match maxType with
  | None => ret None
  | Some maxType =>
      convertLiteral tc buildMemberRef finishApply fuel expr type (getType expr)
        (nullable protocol) (IsName "FloatLiteralType")
        "convertFromFloatLiteral" builtinProtocol (IsType maxType)
        "_convertFromBuiltinFloatLiteral" None
        (diag.broken_protocol "float_literal_broken_proto")
        (diag.broken_protocol "builtin_float_literal_broken_proto")
  end.

Definition visitCharacterLiteralExpr (expr : Expr) : TC (option Expr) :=
  let protocol := getProtocol tc (getLoc tc expr) CharacterLiteralConvertible in
  let builtinProtocol :=
    getProtocol tc (getLoc tc expr) BuiltinCharacterLiteralConvertible in
  let type := simplifyType tc solution (getType expr) in
  let type := preferDefault protocol type in
  convertLiteral tc buildMemberRef finishApply fuel expr type (getType expr)
    (nullable protocol) (IsName "CharacterLiteralType")
    "convertFromCharacterLiteral" builtinProtocol
    (IsType (BuiltinIntegerType 21))
    "_convertFromBuiltinCharacterLiteral"
    (Some (fun type => isBuiltinIntegerType type 21))
    (diag.broken_protocol "character_literal_broken_proto")
    (diag.broken_protocol "builtin_character_literal_broken_proto").

Definition handleStringLiteralExpr (expr : Expr) : TC (option Expr) :=
  let protocol := getProtocol tc (getLoc tc expr) StringLiteralConvertible in
  let builtinProtocol :=
    getProtocol tc (getLoc tc expr) BuiltinStringLiteralConvertible in
  let type := simplifyType tc solution (getType expr) in
  let type := preferDefault protocol type in
  let element t := mkTupleTypeElt t EmptyString DefaultArgumentKind.None false in
  let elements :=
    [element BuiltinRawPointerType; element (BuiltinIntegerType 64);
     element (BuiltinIntegerType 1)] in
  convertLiteral tc buildMemberRef finishApply fuel expr type (getType expr)
    (nullable protocol) (IsName "StringLiteralType")
    "convertFromStringLiteral" builtinProtocol (IsType (TupleType elements))
    "_convertFromBuiltinStringLiteral" None
    (diag.broken_protocol "string_literal_broken_proto")
    (diag.broken_protocol "builtin_string_literal_broken_proto").

Definition visitMagicIdentifierLiteralExpr (expr : Expr) : TC (option Expr) :=
  match expr with
  | MagicIdentifierLiteralExpr MagicFile _ _ _ => handleStringLiteralExpr expr
  | MagicIdentifierLiteralExpr _ _ _ _ => handleIntegerLiteralExpr expr
  | _ => abort
  end.

(** The visit methods of the literals; [visitIntegerLiteralExpr] and
    [visitStringLiteralExpr] are [handleIntegerLiteralExpr] and
    [handleStringLiteralExpr]. *)
Definition literalVisitors : list (Expr -> TC (option Expr)) :=
  [handleIntegerLiteralExpr; visitFloatLiteralExpr; visitCharacterLiteralExpr;
   handleStringLiteralExpr; visitMagicIdentifierLiteralExpr].

Lemma convertLiteral_result_type literal type openedType protocol literalType
    literalFuncName builtinProtocol builtinLiteralType builtinLiteralFuncName
    isBuiltinArgType d1 d2 s r s' :
  convertLiteral tc buildMemberRef finishApply fuel literal type openedType
    protocol literalType literalFuncName builtinProtocol builtinLiteralType
    builtinLiteralFuncName isBuiltinArgType d1 d2 s = Ok (Some r, s') ->
  getType r = type.
Proof.
  destruct fuel as [|fuel']; [discriminate|]. cbn [convertLiteral]. intros H.
  destruct (conformsToProtocol tc type builtinProtocol).
  - step H as argType Ha. destruct (isNull argType).
    { by apply ret_Ok in H as [[=] _]. }
    destruct (match isBuiltinArgType with Some _ => _ | None => _ end).
    { step H as u Hu. by apply ret_Ok in H as [[=] _]. }
    step H as result Hr. destruct result as [result|];
      apply ret_Ok in H as [[= <-] _]. apply getType_setType.
  - destruct protocol as [protocol|]; [|discriminate].
    destruct (conformsToProtocol tc type protocol); [|discriminate].
    step H as argType Ha. destruct (isNull argType).
    { by apply ret_Ok in H as [[=] _]. }
    step H as converted Hc. destruct converted as [converted|].
    2:{ by apply ret_Ok in H as [[=] _]. }
    step H as result Hr. destruct result as [result|];
      apply ret_Ok in H as [[= <-] _]. apply getType_setType.
Qed.

Lemma preferDefault_spelling protocol type :
  isEqual (preferDefault protocol type) type = true /\
  (preferDefault protocol type = type \/
   preferDefault protocol type = getDefaultType protocol).
Proof.
  unfold preferDefault. destruct (negb _); cbn [andb].
  - destruct (isEqual (getDefaultType protocol) type) eqn:E;
      [split; [exact E|by right]|].
    split; [apply isEqual_refl|by left].
  - split; [apply isEqual_refl|by left].
Qed.

Lemma lookupMaxType_Ok name accepts loc d s r s' :
  lookupMaxType name accepts loc d s = Ok (r, s') ->
  match r with
  | Some maxType => s' = s /\ isNull maxType = false /\ accepts maxType = true
  | None => s' = diagnostic loc d :: s
  end.
Proof.
  unfold lookupMaxType. destruct (lookupTypeAlias name) as [underlying|].
  - destruct (isNull underlying) eqn:Hn; [discriminate|].
    destruct (accepts underlying) eqn:Ha.
    + intros H. by apply ret_Ok in H as [<- <-].
    + intros H. step H as u Hu. apply ret_Ok in H as [<- <-].
      by injection Hu as <-.
  - intros H. step H as u Hu. apply ret_Ok in H as [<- <-].
    by injection Hu as <-.
Qed.

(** X18: the type of a converted literal.  The expression that a literal
    visitor returns has a type canonically equal to the simplified type of
    the literal, spelled either as that simplified type or as the default
    literal type of one of the literal protocols. *)
Theorem literal_result_type visitor expr s r s' :
  visitor ∈ literalVisitors ->
  visitor expr s = Ok (Some r, s') ->
  let simplified := simplifyType tc solution (getType expr) in
  isEqual (getType r) simplified = true /\
  (getType r = simplified \/
   exists kind,
     getType r = getDefaultType (getProtocol tc (getLoc tc expr) kind)).
Proof.
  intros Hin H simplified.
  assert (Hint : handleIntegerLiteralExpr expr s = Ok (Some r, s') ->
    isEqual (getType r) simplified = true /\
    (getType r = simplified \/
     exists kind,
       getType r = getDefaultType (getProtocol tc (getLoc tc expr) kind))).
  { clear H. intros H. unfold handleIntegerLiteralExpr in H.
    step H as maxType Hmax. destruct maxType as [maxType|];
      [|by apply ret_Ok in H as [[=] _]].
    apply convertLiteral_result_type in H. rewrite H. fold simplified.
    destruct (preferDefault_spelling
                (getProtocol tc (getLoc tc expr) IntegerLiteralConvertible)
                simplified) as [He1 Hs1].
    destruct (isNullProtocol _).
    { split; [done|]. destruct Hs1; eauto. }
    destruct (preferDefault_spelling
                (getProtocol tc (getLoc tc expr) FloatLiteralConvertible)
                (preferDefault
                   (getProtocol tc (getLoc tc expr) IntegerLiteralConvertible)
                   simplified)) as [He2 Hs2].
    split.
    - by eapply isEqual_trans.
    - destruct Hs2 as [->| ->]; [destruct Hs1; eauto|eauto]. }
  assert (Hstr : handleStringLiteralExpr expr s = Ok (Some r, s') ->
    isEqual (getType r) simplified = true /\
    (getType r = simplified \/
     exists kind,
       getType r = getDefaultType (getProtocol tc (getLoc tc expr) kind))).
  { clear H. intros H. unfold handleStringLiteralExpr in H.
    apply convertLiteral_result_type in H. rewrite H. fold simplified.
    destruct (preferDefault_spelling
                (getProtocol tc (getLoc tc expr) StringLiteralConvertible)
                simplified) as [He1 Hs1].
    split; [done|]. destruct Hs1; eauto. }
  unfold literalVisitors in Hin.
  repeat (apply elem_of_cons in Hin as [->|Hin]);
    [by apply Hint| | |by apply Hstr| |].
  - unfold visitFloatLiteralExpr in H.
    step H as maxType Hmax. destruct maxType as [maxType|];
      [|by apply ret_Ok in H as [[=] _]].
    apply convertLiteral_result_type in H. rewrite H. fold simplified.
    destruct (preferDefault_spelling
                (getProtocol tc (getLoc tc expr) FloatLiteralConvertible)
                simplified) as [He1 Hs1].
    split; [done|]. destruct Hs1; eauto.
  - unfold visitCharacterLiteralExpr in H.
    apply convertLiteral_result_type in H. rewrite H. fold simplified.
    destruct (preferDefault_spelling
                (getProtocol tc (getLoc tc expr) CharacterLiteralConvertible)
                simplified) as [He1 Hs1].
    split; [done|]. destruct Hs1; eauto.
  - unfold visitMagicIdentifierLiteralExpr in H.
    destruct expr; try discriminate. destruct kind; auto.
  - by apply elem_of_nil in Hin.
Qed.
End LiteralVisitors.

Section LiteralVisitorsDiagnosed.
Context (tc : TypeChecker).
Variable buildMemberRef :
  Solution -> Expr -> SourceLoc -> ValueDecl -> SourceLoc -> Ty ->
  ConstraintLocatorBuilder -> bool -> TC (option Expr).
Variable finishApply :
  Solution -> Expr -> Ty -> ConstraintLocatorBuilder -> TC (option Expr).
Variable solution : Solution.
Variable fuel : nat.
Variable isNullProtocol : ProtocolDecl -> bool.
Variable getDefaultType : ProtocolDecl -> Ty.
Variable lookupTypeAlias : Identifier -> option Ty.

Hypothesis getWitnessType_reports :
  forall type proto conformance name d,
    LoudOn (fun ty => isNull ty = true)
      (getWitnessType tc type proto conformance name d).
Hypothesis buildMemberRef_keeps :
  forall solution base dotLoc member memberLoc openedType locator implicit,
    Mono (buildMemberRef solution base dotLoc member memberLoc openedType
            locator implicit).
Hypothesis finishApply_reports :
  forall solution apply openedType locator,
    Loud (finishApply solution apply openedType locator).

Lemma lookupMaxType_reports name accepts loc d :
  LoudOn (fun r => r = None) (lookupMaxType lookupTypeAlias name accepts loc d).
Proof.
  unfold lookupMaxType. destruct (lookupTypeAlias name) as [underlying|]; [|loud].
  destruct (isNull underlying); [loud|]. destruct (accepts underlying); loud.
Qed.

(** X19: no literal visitor fails silently.  Provided [buildMemberRef]
    keeps the diagnostics it finds, and [getWitnessType] and
    [finishApply] answer null only after reporting something, each
    literal visitor keeps every diagnostic reported before the call, and
    whenever it returns null at least one diagnostic has been added; a
    missing [MaxBuiltinIntegerType] or [MaxBuiltinFloatType] is among
    the failures reported. *)
Theorem literal_null_is_reported visitor expr s r s' :
  visitor ∈ literalVisitors tc buildMemberRef finishApply solution fuel
              isNullProtocol getDefaultType lookupTypeAlias ->
  visitor expr s = Ok (r, s') ->
  s `suffix_of` s' /\
  (r = None -> exists added, added <> [] /\ s' = added ++ s).
Proof.
  assert (Hconvert : forall literal type openedType protocol name
            literalFuncName builtinProtocol builtinType builtinLiteralFuncName
            isBuiltinArgType d1 d2,
    isNull builtinType = false ->
    Loud (convertLiteral tc buildMemberRef finishApply fuel literal type
            openedType protocol (IsName name) literalFuncName builtinProtocol
            (IsType builtinType) builtinLiteralFuncName isBuiltinArgType d1 d2)).
  { intros. by apply convertLiteral_reports_fuel. }
  assert (Hint : forall e,
    Loud (handleIntegerLiteralExpr tc buildMemberRef finishApply solution fuel
            isNullProtocol getDefaultType lookupTypeAlias e)).
  { intros e s0 r0 s0' H. unfold handleIntegerLiteralExpr in H.
    step H as maxType Hmax.
    destruct (lookupMaxType_reports _ _ _ _ _ _ _ Hmax) as [Hsuf Hrep].
    apply lookupMaxType_Ok in Hmax. destruct maxType as [maxType|].
    - destruct Hmax as (-> & Hnull & _). by apply Hconvert in H.
    - apply ret_Ok in H as [<- <-]. split; [done|]. intros _. by apply Hrep. }
  assert (Hstr : forall e,
    Loud (handleStringLiteralExpr tc buildMemberRef finishApply solution fuel
            isNullProtocol getDefaultType e)).
  { intros e. by apply Hconvert. }
  intros Hin H. unfold literalVisitors in Hin.
  repeat (apply elem_of_cons in Hin as [->|Hin]);
    [by apply Hint in H| | |by apply Hstr in H| |].
  - unfold visitFloatLiteralExpr in H.
    step H as maxType Hmax.
    destruct (lookupMaxType_reports _ _ _ _ _ _ _ Hmax) as [Hsuf Hrep].
    apply lookupMaxType_Ok in Hmax. destruct maxType as [maxType|].
    + destruct Hmax as (-> & Hnull & _). by apply Hconvert in H.
    + apply ret_Ok in H as [<- <-]. split; [done|]. intros _. by apply Hrep.
  - by apply Hconvert in H.
  - unfold visitMagicIdentifierLiteralExpr in H.
    destruct expr; try discriminate.
    destruct kind; [by apply Hstr in H|by apply Hint in H..].
  - by apply elem_of_nil in Hin.
Qed.
End LiteralVisitorsDiagnosed.

Module LiteralVisitorExamples.
Import Example ProtocolExamples WitnessesDiagnosedExamples.

(** A type checker with another [getProtocol]. *)
Definition withProtocolLookup (world : TypeChecker)
    (protocolOf : SourceLoc -> KnownProtocolKind -> ProtocolDecl)
  : TypeChecker := {|
  getLoc := getLoc world;
  getStartLoc := getStartLoc world;
  getEndLoc := getEndLoc world;
  computeTupleShuffle := computeTupleShuffle world;
  hasMandatoryTupleLabels := hasMandatoryTupleLabels world;
  getFieldForScalarInit := getFieldForScalarInit world;
  getSuperClassOf := getSuperClassOf world;
  mayHaveSuperclass := mayHaveSuperclass world;
  getClassOrBoundGenericClass := getClassOrBoundGenericClass world;
  getNominalOrBoundGenericNominal := getNominalOrBoundGenericNominal world;
  hasReferenceSemantics := hasReferenceSemantics world;
  isSubtypeOf := isSubtypeOf world;
  conformsToProtocol := conformsToProtocol world;
  buildArrayInjectionFnRef := buildArrayInjectionFnRef world;
  typeCheckExpression := typeCheckExpression world;
  coerceToRValue := coerceToRValue world;
  simplifyLocator := simplifyLocator world;
  resolveLocatorToDecl := resolveLocatorToDecl world;
  isAbstractFunctionDecl := isAbstractFunctionDecl world;
  getDefaultArg := getDefaultArg world;
  isFuncDecl := isFuncDecl world;
  getDeclName := getDeclName world;
  isInvalid := isInvalid world;
  getDeclType := getDeclType world;
  getMembers := getMembers world;
  getProtocolLoc := getProtocolLoc world;
  getProtocol := protocolOf;
  getWitness := getWitness world;
  getWitnessType := getWitnessType world;
  lookupMember := lookupMember world;
  getTypeOfMemberReference := getTypeOfMemberReference world;
  solveConversion := solveConversion world;
  typeCheckCheckedCast := typeCheckCheckedCast world;
  getOptionalType := getOptionalType world;
  simplifyType := simplifyType world;
  computeAssignDestType := computeAssignDestType world;
  coercePatternToType := coercePatternToType world;
  typeCheckClosureBody := typeCheckClosureBody world
|}.

Definition integerProtocols (loc : SourceLoc) (kind : KnownProtocolKind)
  : ProtocolDecl :=
  match kind with
  | IntegerLiteralConvertible => IntegerLiteralConvertibleDecl
  | BuiltinIntegerLiteralConvertible => BuiltinIntegerLiteralConvertibleDecl
  | _ => 0%nat
  end.

(** [MyInt] is the default integer literal type, and its
    [IntegerLiteralType] is [Int]. *)
Definition integerWorld : TypeChecker :=
  withWitnessType (withProtocolLookup (literalWorld literalMembers) integerProtocols)
    (fun _ _ _ _ _ => ret Int).
Definition isNullProtocol (p : ProtocolDecl) : bool := (p =? 0)%nat.
Definition getDefaultType (p : ProtocolDecl) : Ty :=
  if (p =? IntegerLiteralConvertibleDecl)%nat then MyInt else NullType.
Definition stdlibAliases (name : Identifier) : option Ty :=
  if String.eqb name "MaxBuiltinIntegerType" then Some Int2048 else None.

(** an integer literal whose type is [MyInt] under sugar *)
Definition six : Expr :=
  LiteralExpr IntegerLiteral 0%nat (SubstitutedType NullType MyInt).

Definition visitInteger (aliases : Identifier -> option Ty) :=
  handleIntegerLiteralExpr integerWorld buildMemberRefFor finishApplyFor solution
    2 isNullProtocol getDefaultType aliases.

Lemma visitInteger_six : visitInteger stdlibAliases six [] = Ok (Some myIntFive, []).
Proof. vm_compute. reflexivity. Qed.

Lemma literal_result_type_witness :
  isEqual (getType myIntFive) (SubstitutedType NullType MyInt) = true /\
  (getType myIntFive = SubstitutedType NullType MyInt \/
   exists kind,
     getType myIntFive
     = getDefaultType (getProtocol integerWorld (getLoc integerWorld six) kind)).
Proof.
  refine (literal_result_type integerWorld buildMemberRefFor finishApplyFor
            solution 2 isNullProtocol getDefaultType stdlibAliases
            (visitInteger stdlibAliases) six [] myIntFive [] _
            visitInteger_six).
  constructor.
Defined.

Definition noMaxBuiltinIntegerType : Diagnostic :=
  diagnostic 0%nat (diag.broken_protocol "no_MaxBuiltinIntegerType_found").

Lemma visitInteger_without_alias :
  visitInteger (fun _ => None) six [] = Ok (None, [noMaxBuiltinIntegerType]).
Proof. vm_compute. reflexivity. Qed.

Lemma integerWorld_getWitnessType_reports type proto conformance name d :
  LoudOn (fun ty => isNull ty = true)
    (getWitnessType integerWorld type proto conformance name d).
Proof. by apply LoudOn_ret. Qed.

Lemma literal_null_is_reported_witness :
  [] `suffix_of` [noMaxBuiltinIntegerType] /\
  (@None Expr = None ->
   exists added, added <> [] /\ [noMaxBuiltinIntegerType] = added ++ []).
Proof.
  refine (literal_null_is_reported integerWorld buildMemberRefFor finishApplyFor
            solution 2 isNullProtocol getDefaultType (fun _ => None)
            integerWorld_getWitnessType_reports buildMemberRefFor_keeps
            finishApplyFor_reports
            (visitInteger (fun _ => None)) six [] None _ _
            visitInteger_without_alias).
  constructor.
Defined.
End LiteralVisitorExamples.

(** ** Simplifying the types of the variables of a pattern *)

Module Patterns.

(** A pattern, as far as [simplifyPatternTypes] looks at it.  The
    sub-pattern of a typed pattern is there (the pattern classes are
    declared in the AST headers) but is never looked at; the refutable
    pattern kinds are told apart by a number. *)
#[warnings="-register-all"]
Inductive Pattern :=
| ParenPattern (sub : Pattern)
| AnyPattern
| TypedPattern (sub : Pattern)
| NamedPattern (decl : ValueDecl)
| TuplePattern (fields : list Pattern)
| RefutablePattern (kind : nat).

(** The types of the variable declarations: [var->getType()] reads and
    [var->overwriteType(ty)] writes this store. *)
Definition VarTypes := gmap ValueDecl Ty.

Section SimplifyPatternTypes.
Context (tc : TypeChecker) (solution : Solution).

Definition overwriteSimplified (var : ValueDecl) : M VarTypes unit :=
  let* vars := get in
  match vars !! var with
  | Some ty => put (<[var := simplifyType tc solution ty]> vars)
  | None => abort
  end.

Fixpoint simplifyPatternTypes (pattern : Pattern) : M VarTypes unit :=
  match pattern with
  | ParenPattern sub => simplifyPatternTypes sub
  | AnyPattern | TypedPattern _ => ret tt
  | NamedPattern var => overwriteSimplified var
  | TuplePattern fields =>
      (fix each (fields : list Pattern) : M VarTypes unit :=
         match fields with
         | [] => ret tt
         | tupleElt :: rest => do* simplifyPatternTypes tupleElt in each rest
         end) fields
  | RefutablePattern _ => abort
  end.

(** The variables that a pattern names outside its typed patterns, in
    order, each as often as it is named. *)
Fixpoint namedVariables (pattern : Pattern) : list ValueDecl :=
  match pattern with
  | ParenPattern sub => namedVariables sub
  | NamedPattern var => [var]
  | TuplePattern fields => concat (map namedVariables fields)
  | _ => []
  end.

(** No refutable pattern outside the typed patterns. *)
Fixpoint irrefutable (pattern : Pattern) : bool :=
  match pattern with
  | ParenPattern sub => irrefutable sub
  | TuplePattern fields => forallb irrefutable fields
  | RefutablePattern _ => false
  | _ => true
  end.

(** The store after the types of [vars] have been simplified one after
    the other. *)
Definition simplified (vars : list ValueDecl) (types : VarTypes) : VarTypes :=
  foldl (fun types var =>
           match types !! var with
           | Some ty => <[var := simplifyType tc solution ty]> types
           | None => types
           end) types vars.

Fixpoint patternSize (pattern : Pattern) : nat :=
  match pattern with
  | ParenPattern sub | TypedPattern sub => S (patternSize sub)
  | TuplePattern fields => S (list_sum (map patternSize fields))
  | _ => 1
  end.

Lemma dom_simplified vars : forall types, dom (simplified vars types) = dom types.
Proof.
  unfold simplified.
  induction vars as [|v vars IH]; intros types; [done|]. cbn [foldl].
  rewrite IH. destruct (types !! v) eqn:Hv; [|done].
  apply dom_insert_lookup_L. by eexists.
Qed.

Lemma simplifyPatternTypes_sized n :
  forall pattern types,
    (patternSize pattern < n)%nat ->
    simplifyPatternTypes pattern types =
      if irrefutable pattern
         && bool_decide (list_to_set (C := gset ValueDecl) (namedVariables pattern)
                           ⊆ dom types)
      then Ok (tt, simplified (namedVariables pattern) types)
      else Abort.
Proof.
  induction n as [|n IH]; [lia|].
  intros pattern types Hsize. destruct pattern; cbn [patternSize] in Hsize.
  - cbn [simplifyPatternTypes irrefutable namedVariables]. apply IH. lia.
  - cbn. rewrite bool_decide_eq_true_2; [done|set_solver].
  - cbn. rewrite bool_decide_eq_true_2; [done|set_solver].
  - cbn [simplifyPatternTypes irrefutable namedVariables andb].
    unfold overwriteSimplified, bind, get. cbn.
    destruct (types !! decl) as [ty|] eqn:Hv.
    + rewrite bool_decide_eq_true_2; [done|].
      apply elem_of_dom_2 in Hv. set_solver.
    + rewrite bool_decide_eq_false_2; [done|].
      apply not_elem_of_dom in Hv. set_solver.
  - cbn [simplifyPatternTypes irrefutable namedVariables].
    revert types Hsize. induction fields as [|f fields IHf]; intros types Hsize.
    { cbn. rewrite bool_decide_eq_true_2; [done|set_solver]. }
    change (list_sum (map patternSize (f :: fields)))
      with (patternSize f + list_sum (map patternSize fields))%nat in Hsize.
    cbn [forallb map concat]. unfold bind at 1. rewrite IH by lia.
    destruct (irrefutable f); cbn [andb]; [|done].
    case_bool_decide as Hf; cbn [andb].
    + rewrite IHf by lia. destruct (forallb irrefutable fields); cbn [andb]; [|done].
      rewrite dom_simplified.
      unfold simplified. rewrite foldl_app.
      case_bool_decide as Hr.
      * rewrite bool_decide_eq_true_2; [done|].
        rewrite list_to_set_app_L. set_solver.
      * rewrite bool_decide_eq_false_2; [done|].
        rewrite list_to_set_app_L. set_solver.
    + rewrite bool_decide_eq_false_2; [by rewrite andb_false_r|].
      rewrite list_to_set_app_L. set_solver.
  - done.
Qed.

Lemma simplified_other vars v :
  forall types, v ∉ vars -> simplified vars types !! v = types !! v.
Proof.
  unfold simplified.
  induction vars as [|x vars IH]; intros types Hv; [done|]. cbn [foldl].
  apply not_elem_of_cons in Hv as [Hne Hv]. rewrite IH by done.
  destruct (types !! x) eqn:Hx; [|done]. apply lookup_insert_ne. congruence.
Qed.

Lemma simplified_once vars v ty :
  forall types,
    NoDup vars -> v ∈ vars -> types !! v = Some ty ->
    simplified vars types !! v = Some (simplifyType tc solution ty).
Proof.
  induction vars as [|x vars IH]; intros types Hnd Hv Hty.
  { by apply elem_of_nil in Hv. }
  apply NoDup_cons in Hnd as [Hx Hnd].
  change (simplified (x :: vars) types)
    with (simplified vars
            match types !! x with
            | Some ty => <[x := simplifyType tc solution ty]> types
            | None => types
            end).
  destruct (decide (x = v)) as [->|Hne].
  - rewrite simplified_other by done. rewrite Hty. apply lookup_insert_eq.
  - apply elem_of_cons in Hv as [->|Hv]; [done|].
    apply IH; [done..|].
    destruct (types !! x) eqn:Htx; [|done].
    rewrite <- Hty. by apply lookup_insert_ne.
Qed.

(** X20: what [simplifyPatternTypes] does to the types of the variables.
    It returns exactly when the pattern has no refutable pattern outside
    its typed patterns and every variable it names there is known;
    anything else runs into [llvm_unreachable] or a dangling declaration.
    When it returns, the same variables have types as before; a variable
    that the pattern does not name outside a typed pattern keeps its
    type, and a variable named there once, in a pattern that names no
    variable twice, has its type simplified. *)
Theorem simplifyPatternTypes_effect pattern types :
  ((exists types', simplifyPatternTypes pattern types = Ok (tt, types')) <->
   irrefutable pattern = true /\
   forall var, var ∈ namedVariables pattern -> is_Some (types !! var)) /\
  forall u types',
    simplifyPatternTypes pattern types = Ok (u, types') ->
    dom types' = dom types /\
    (forall var, var ∉ namedVariables pattern -> types' !! var = types !! var) /\
    (NoDup (namedVariables pattern) ->
     forall var ty,
       var ∈ namedVariables pattern -> types !! var = Some ty ->
       types' !! var = Some (simplifyType tc solution ty)).
Proof.
  rewrite (simplifyPatternTypes_sized (S (patternSize pattern))) by lia.
  destruct (irrefutable pattern); cbn [andb].
  2:{ split; [|done]. split; [by intros [? ?]|by intros [? _]]. }
  case_bool_decide as Hdom.
  - split.
    + split; [intros _|by eauto]. split; [done|].
      intros var Hv. apply elem_of_dom, Hdom. by apply elem_of_list_to_set.
    + intros u types' [= <- <-]. split; [apply dom_simplified|].
      split; [intros var; apply simplified_other|].
      intros Hnd var ty. by apply simplified_once.
  - split; [|done]. split; [by intros [? ?]|]. intros [_ Hall].
    exfalso. apply Hdom. intros var Hv. apply elem_of_list_to_set in Hv.
    by apply elem_of_dom, Hall.
Qed.
End SimplifyPatternTypes.
End Patterns.
